(** * Tree-shaking core of the bundler: binding resolution, inclusion, relevant dependencies

    A shallow embedding of
    - [src/ast/variables/LocalVariable.ts]   (module [LocalVariable]),
    - [src/ast/nodes/SequenceExpression.ts]  (module [SequenceExpression]),
    - the module class with its export-name resolver (module [Resolver], module [Inclusion]),
      the analysis and linking of its import and export statements (module [Linking]) and
      the exports it renders (module [Rendering]),
    together with the properties the specification states about them and further
    properties of the same code.

    Objects of the program are mutable and shared; the embedding keeps them in
    explicit stores (AST nodes by [NodeId], modules by their [id]) and passes the
    stores through every operation.  Methods of classes that are not part of the
    sources at hand (the other node classes, [PathTracker], [ExternalModule]) are
    either parameters of the development or small models marked as such. *)

From Stdlib Require Import Ascii String.
From stdpp Require Import gmap strings list fin_maps.

Set Default Proof Using "Type".

(** * Shared vocabulary *)

Definition NodeId := nat.

(** Keys of an [ObjectPath]: a property name or the unknown key. *)
Inductive ObjectPathKey :=
| PathKey (s : string)
| UnknownKey.

Global Instance ObjectPathKey_eq_dec : EqDecision ObjectPathKey.
Proof. solve_decision. Defined.

Definition ObjectPath := list ObjectPathKey.

Definition UNKNOWN_PATH : ObjectPath := [UnknownKey].

(** [ExpressionEntity]: the initialisers and call targets a variable refers to.
    [UNKNOWN_EXPRESSION] is the distinguished singleton of
    [nodes/shared/Expression]; every other entity is an object of the AST,
    identified by its node. *)
Inductive ExpressionEntity :=
| UNKNOWN_EXPRESSION
| Entity (n : NodeId).

Global Instance ExpressionEntity_eq_dec : EqDecision ExpressionEntity.
Proof. solve_decision. Defined.

(** [LiteralValueOrUnknown]: a literal or the [UnknownValue] sentinel. *)
Inductive LiteralValue :=
| LitBool (b : bool)
| LitNumber (z : Z)
| LitString (s : string)
| LitNull
| LitUndefined.

Inductive LiteralValueOrUnknown :=
| UnknownValue
| Known (l : LiteralValue).

(** An entity whose cache is invalidated by [deoptimizeCache]. *)
Definition DeoptimizableEntity := NodeId.

Record CallOptions := mkCallOptions {
  withNew : bool;
  callSite : NodeId
}.

Global Instance CallOptions_eq_dec : EqDecision CallOptions.
Proof. solve_decision. Defined.

Inductive NodeEvent := EVENT_ACCESSED | EVENT_ASSIGNED | EVENT_CALLED.

(** What a tracker records: the variable itself ([this]) or an expression. *)
Inductive TrackedEntity :=
| TrackedVariable (name : string)
| TrackedExpression (e : ExpressionEntity).

Global Instance TrackedEntity_eq_dec : EqDecision TrackedEntity.
Proof. solve_decision. Defined.

(** ** Path trackers *)

(** Modelled from the spec: [PathTracker] of [ast/utils/PathTracker], which is
    not among the sources.  Section 4.2: the path queries thread a path-tracker
    that returns a sentinel ("already tracked") on re-entry.  A tracker is the
    collection of (path, entity) pairs entered so far. *)
Module PathTracker.

Definition t := list (ObjectPath * TrackedEntity).

Definition isTracked (path : ObjectPath) (entity : TrackedEntity) (tr : t) : bool :=
  bool_decide ((path, entity) ∈ tr).

(** [trackEntityAtPathAndGetIfTracked]: reports whether the pair was entered
    before and enters it otherwise. *)
Definition trackEntityAtPathAndGetIfTracked
    (path : ObjectPath) (entity : TrackedEntity) (tr : t) : bool * t :=
  if isTracked path entity tr then (true, tr) else (false, (path, entity) :: tr).

(** [withTrackedEntityAtPath]: the sentinel when the pair is being tracked,
    otherwise the callback is run with the pair entered and the pair is
    removed again afterwards. *)
Definition withTrackedEntityAtPath {A S : Type}
    (path : ObjectPath) (entity : TrackedEntity)
    (onUntracked : t → S → A * S) (returnIfTracked : A) (tr : t) (s : S) : A * S :=
  if isTracked path entity tr then (returnIfTracked, s)
  else onUntracked ((path, entity) :: tr) s.

End PathTracker.

(** Modelled from the spec: the discriminated tracker used for calls, keyed by
    the call options in addition to the path and the entity. *)
Module DiscriminatedPathTracker.

Definition t := list (ObjectPath * CallOptions * TrackedEntity).

Definition trackEntityAtPathAndGetIfTracked
    (path : ObjectPath) (discriminator : CallOptions) (entity : TrackedEntity)
    (tr : t) : bool * t :=
  if bool_decide ((path, discriminator, entity) ∈ tr) then (true, tr)
  else (false, (path, discriminator, entity) :: tr).

End DiscriminatedPathTracker.

(** The part of [HasEffectsContext] the variable uses. *)
Record HasEffectsContext := mkHasEffectsContext {
  accessed : PathTracker.t;
  called : DiscriminatedPathTracker.t;
  instantiated : DiscriminatedPathTracker.t
}.

Definition createHasEffectsContext : HasEffectsContext :=
  mkHasEffectsContext [] [] [].

(** The part of [InclusionContext] used here: the set of initialisers whose
    call arguments are being included. *)
Record InclusionContext := mkInclusionContext {
  brokenFlow : bool;
  includedCallArguments : list ExpressionEntity
}.

Definition createInclusionContext : InclusionContext :=
  mkInclusionContext false [].

(** ** AST nodes as the variable sees them *)

Inductive NodeType :=
| Program
| ExpressionStatement
| SequenceExpressionT
| OtherNode (name : string).

Global Instance NodeType_eq_dec : EqDecision NodeType.
Proof. solve_decision. Defined.

Record Node := mkNode {
  node_included : bool;
  node_parent : option NodeId;
  node_type : NodeType
}.

Abbreviation NodeStore := (gmap NodeId Node).

Definition setIncluded (n : NodeId) (nodes : NodeStore) : NodeStore :=
  alter (λ nd, mkNode true (node_parent nd) (node_type nd)) n nodes.

Definition isIncluded (nodes : NodeStore) (n : NodeId) : bool :=
  match nodes !! n with
  | Some nd => node_included nd
  | None => false
  end.

(** [IncludeChildren = boolean | "variables"]. *)
Inductive IncludeChildren :=
| IncludeFalse
| IncludeTrue
| IncludeVariables.

Definition truthyIncludeChildren (r : IncludeChildren) : bool :=
  match r with
  | IncludeFalse => false
  | _ => true
  end.

(** Calls made on objects whose classes are outside the sources, in the order
    they are made. *)
Inductive Call :=
| CallDeoptimizePath (e : ExpressionEntity) (path : ObjectPath)
| CallDeoptimizeCache (d : DeoptimizableEntity)
| CallDeoptimizeThisOnEventAtPath
    (e : ExpressionEntity) (event : NodeEvent) (path : ObjectPath)
    (thisParameter : ExpressionEntity)
| CallInclude (n : NodeId) (includeChildrenRecursively : IncludeChildren)
| CallIncludeCallArguments (e : ExpressionEntity) (args : list NodeId).

Inductive JsError :=
| TypeError.

(** How a call ends: it returns, it throws, or its model runs out of fuel. *)
Inductive Status :=
| Returned
| Threw (e : JsError)
| RanOutOfFuel.

(** A value typed [boolean] that may be [null] at run time: the result of
    [(a && b && c)!] when [a] is [null]. *)
Inductive BooleanOrNull :=
| JsBoolean (b : bool)
| JsNull.

Definition truthy (b : BooleanOrNull) : bool :=
  match b with
  | JsBoolean b => b
  | JsNull => false
  end.

(** The answers of the objects a variable or a sequence delegates to.  Their
    classes are not part of the sources; the development is parametric in
    them.  Of a call to such a method the embedding keeps its answer and what
    it does to the inclusion flags of the nodes and to the context it is
    given; what it does beyond that (to the variables and modules it reaches)
    is not represented. *)
Record Entities := mkEntities {
  entityGetLiteralValueAtPath :
    ExpressionEntity → ObjectPath → PathTracker.t → DeoptimizableEntity →
    LiteralValueOrUnknown;
  entityGetReturnExpressionWhenCalledAtPath :
    ExpressionEntity → ObjectPath → CallOptions → PathTracker.t → DeoptimizableEntity →
    ExpressionEntity;
  entityHasEffectsWhenAccessedAtPath :
    ExpressionEntity → ObjectPath → HasEffectsContext → bool * HasEffectsContext;
  entityHasEffectsWhenAssignedAtPath :
    ExpressionEntity → ObjectPath → HasEffectsContext → bool * HasEffectsContext;
  entityHasEffectsWhenCalledAtPath :
    ExpressionEntity → ObjectPath → CallOptions → HasEffectsContext →
    bool * HasEffectsContext;
  entityHasEffects : ExpressionEntity → HasEffectsContext → bool * HasEffectsContext;
  (** [node.include(context, includeChildrenRecursively)]: its effect on the
      inclusion flags and on the context *)
  nodeInclude :
    NodeId → InclusionContext → IncludeChildren → NodeStore → NodeStore * InclusionContext;
  (** [node.shouldBeIncluded(context)] *)
  nodeShouldBeIncluded : NodeId → InclusionContext → NodeStore → bool;
  (** [entity.includeCallArguments(context, args)] *)
  entityIncludeCallArguments :
    ExpressionEntity → InclusionContext → list NodeId → NodeStore → NodeStore * InclusionContext
}.

(** [a] is below [b] when every node included in [a] is included in [b]. *)
Definition store_le (a b : NodeStore) : Prop :=
  ∀ n, isIncluded a n = true → isIncluded b n = true.

(** Two stores hold the same tree: the same nodes with the same parents and
    types. *)
Definition nodeShape (nd : Node) : option NodeId * NodeType :=
  (node_parent nd, node_type nd).

Definition sameStructure (a b : NodeStore) : Prop :=
  ∀ n, nodeShape <$> a !! n = nodeShape <$> b !! n.

(** The contract of [include] (section 4.2: "sets included=true, recurses into
    children"): the node's own flag is set and the tree is left as it is. *)
Record IncludeContract (E : Entities) : Prop := {
  nodeInclude_own : ∀ n c r nodes,
    is_Some (nodes !! n) → isIncluded (nodeInclude E n c r nodes).1 n = true;
  nodeInclude_structure : ∀ n c r nodes,
    sameStructure nodes (nodeInclude E n c r nodes).1
}.

(** The inclusion methods outside the sources clear no flag. *)
Record IncludeMonotone (E : Entities) : Prop := {
  nodeInclude_le : ∀ n c r nodes, store_le nodes (nodeInclude E n c r nodes).1;
  entityIncludeCallArguments_le : ∀ e c args nodes,
    store_le nodes (entityIncludeCallArguments E e c args nodes).1
}.

(** The mutable surroundings of a variable: the AST nodes with their inclusion
    flags, the graph-wide deoptimization tracker, and the calls made so far. *)
Record World := mkWorld {
  nodes : NodeStore;
  deoptimizationTracker : PathTracker.t;
  calls : list Call
}.

Definition withNodes (w : World) (ns : NodeStore) : World :=
  mkWorld ns (deoptimizationTracker w) (calls w).

Definition withTracker (w : World) (tr : PathTracker.t) : World :=
  mkWorld (nodes w) tr (calls w).

Definition logCalls (w : World) (cs : list Call) : World :=
  mkWorld (nodes w) (deoptimizationTracker w) (calls w ++ cs).

(** * LocalVariable *)

Module LocalVariable.

Record t := mk {
  name : string;
  included : bool;
  isReassigned : bool;
  calledFromTryStatement : bool;
  declarations : list NodeId;
  init : option ExpressionEntity;
  additionalInitializers : option (list ExpressionEntity);
  expressionsToBeDeoptimized : list DeoptimizableEntity
}.

(** [new LocalVariable(name, declarator, init, context)] *)
Definition new (name : string) (declarator : option NodeId)
    (init : option ExpressionEntity) : t :=
  mk name false false false
     (match declarator with Some d => [d] | None => [] end)
     init None [].

(** [this] as the entity a tracker is given.  The trackers of the code compare
    objects by identity; here a variable is keyed by its name, so variables
    stand for distinct objects as far as their names differ. *)
Definition this (v : t) : TrackedEntity := TrackedVariable (name v).

(** [markInitializersForDeoptimization]: returns the (shared) list of
    additional initialisers. *)
Definition markInitializersForDeoptimization (v : t) : list ExpressionEntity * t :=
  match additionalInitializers v with
  | None =>
      let inits := match init v with None => [] | Some i => [i] end in
      (inits,
       mk (name v) (included v) true (calledFromTryStatement v) (declarations v)
          (Some UNKNOWN_EXPRESSION) (Some inits) (expressionsToBeDeoptimized v))
  | Some inits => (inits, v)
  end.

(** [addDeclaration(identifier, init)].  The array returned by
    [markInitializersForDeoptimization] is the variable's own, so the push is
    visible in [additionalInitializers]. *)
Definition addDeclaration (identifier : NodeId) (init0 : option ExpressionEntity)
    (v : t) : t :=
  let v1 := mk (name v) (included v) (isReassigned v) (calledFromTryStatement v)
               (declarations v ++ [identifier]) (init v)
               (additionalInitializers v) (expressionsToBeDeoptimized v) in
  let '(inits, v2) := markInitializersForDeoptimization v1 in
  match init0 with
  | Some i =>
      mk (name v2) (included v2) (isReassigned v2) (calledFromTryStatement v2)
         (declarations v2) (init v2) (Some (inits ++ [i]))
         (expressionsToBeDeoptimized v2)
  | None => v2
  end.

Definition consolidateInitializers (v : t) (w : World) : t * World :=
  match additionalInitializers v with
  | Some inits =>
      (mk (name v) (included v) (isReassigned v) (calledFromTryStatement v)
          (declarations v) (init v) None (expressionsToBeDeoptimized v),
       logCalls w (map (λ i, CallDeoptimizePath i UNKNOWN_PATH) inits))
  | None => (v, w)
  end.

(** [this.init?.deoptimizePath(path)] *)
Definition initDeoptimizePath (v : t) (path : ObjectPath) : list Call :=
  match init v with
  | Some i => [CallDeoptimizePath i path]
  | None => []
  end.

Definition deoptimizePath (path : ObjectPath) (v : t) (w : World) : t * World :=
  if isReassigned v then (v, w)
  else
    let '(tracked, tr) :=
      PathTracker.trackEntityAtPathAndGetIfTracked path (this v) (deoptimizationTracker w) in
    let w := withTracker w tr in
    if tracked then (v, w)
    else
      match path with
      | [] =>
          if negb (isReassigned v) then
            let toDeoptimize := expressionsToBeDeoptimized v in
            let v' := mk (name v) (included v) true (calledFromTryStatement v)
                         (declarations v) (init v) (additionalInitializers v) [] in
            (v', logCalls w (map CallDeoptimizeCache toDeoptimize
                               ++ initDeoptimizePath v' UNKNOWN_PATH))
          else (v, w)
      | _ => (v, logCalls w (initDeoptimizePath v path))
      end.

Definition deoptimizeThisOnEventAtPath (event : NodeEvent) (path : ObjectPath)
    (thisParameter : ExpressionEntity) (recursionTracker : PathTracker.t)
    (v : t) (w : World) : t * World :=
  match isReassigned v, init v with
  | false, Some i =>
      PathTracker.withTrackedEntityAtPath path (TrackedExpression i)
        (λ _ w, (v, logCalls w [CallDeoptimizeThisOnEventAtPath i event path thisParameter]))
        v recursionTracker w
  | _, _ => (v, logCalls w [CallDeoptimizePath thisParameter UNKNOWN_PATH])
  end.

Definition pushExpressionToBeDeoptimized (origin : DeoptimizableEntity) (v : t) : t :=
  mk (name v) (included v) (isReassigned v) (calledFromTryStatement v)
     (declarations v) (init v) (additionalInitializers v)
     (expressionsToBeDeoptimized v ++ [origin]).

Definition getLiteralValueAtPath (E : Entities) (path : ObjectPath)
    (recursionTracker : PathTracker.t) (origin : DeoptimizableEntity)
    (v : t) : LiteralValueOrUnknown * t :=
  match isReassigned v, init v with
  | false, Some i =>
      PathTracker.withTrackedEntityAtPath path (TrackedExpression i)
        (λ tr v, (entityGetLiteralValueAtPath E i path tr origin,
                  pushExpressionToBeDeoptimized origin v))
        UnknownValue recursionTracker v
  | _, _ => (UnknownValue, v)
  end.

Definition getReturnExpressionWhenCalledAtPath (E : Entities) (path : ObjectPath)
    (callOptions : CallOptions) (recursionTracker : PathTracker.t)
    (origin : DeoptimizableEntity) (v : t) : ExpressionEntity * t :=
  match isReassigned v, init v with
  | false, Some i =>
      PathTracker.withTrackedEntityAtPath path (TrackedExpression i)
        (λ tr v, (entityGetReturnExpressionWhenCalledAtPath E i path callOptions tr origin,
                  pushExpressionToBeDeoptimized origin v))
        UNKNOWN_EXPRESSION recursionTracker v
  | _, _ => (UNKNOWN_EXPRESSION, v)
  end.

Definition trackAccessed (path : ObjectPath) (v : t) (context : HasEffectsContext)
    : bool * HasEffectsContext :=
  let '(tracked, tr) :=
    PathTracker.trackEntityAtPathAndGetIfTracked path (this v) (accessed context) in
  (tracked, mkHasEffectsContext tr (called context) (instantiated context)).

Definition hasEffectsWhenAccessedAtPath (E : Entities) (path : ObjectPath)
    (context : HasEffectsContext) (v : t) : BooleanOrNull * HasEffectsContext :=
  if isReassigned v then (JsBoolean true, context)
  else
    match init v with
    | None => (JsNull, context)
    | Some i =>
        let '(tracked, context) := trackAccessed path v context in
        if tracked then (JsBoolean false, context)
        else
          let '(b, context) := entityHasEffectsWhenAccessedAtPath E i path context in
          (JsBoolean b, context)
    end.

Definition hasEffectsWhenAssignedAtPath (E : Entities) (path : ObjectPath)
    (context : HasEffectsContext) (v : t) : BooleanOrNull * HasEffectsContext :=
  if included v then (JsBoolean true, context)
  else
    match path with
    | [] => (JsBoolean false, context)
    | _ =>
        if isReassigned v then (JsBoolean true, context)
        else
          match init v with
          | None => (JsNull, context)
          | Some i =>
              let '(tracked, context) := trackAccessed path v context in
              if tracked then (JsBoolean false, context)
              else
                let '(b, context) := entityHasEffectsWhenAssignedAtPath E i path context in
                (JsBoolean b, context)
          end
    end.

Definition trackCalled (path : ObjectPath) (callOptions : CallOptions) (v : t)
    (context : HasEffectsContext) : bool * HasEffectsContext :=
  if withNew callOptions then
    let '(tracked, tr) :=
      DiscriminatedPathTracker.trackEntityAtPathAndGetIfTracked
        path callOptions (this v) (instantiated context) in
    (tracked, mkHasEffectsContext (accessed context) (called context) tr)
  else
    let '(tracked, tr) :=
      DiscriminatedPathTracker.trackEntityAtPathAndGetIfTracked
        path callOptions (this v) (called context) in
    (tracked, mkHasEffectsContext (accessed context) tr (instantiated context)).

Definition hasEffectsWhenCalledAtPath (E : Entities) (path : ObjectPath)
    (callOptions : CallOptions) (context : HasEffectsContext) (v : t)
    : BooleanOrNull * HasEffectsContext :=
  if isReassigned v then (JsBoolean true, context)
  else
    match init v with
    | None => (JsNull, context)
    | Some i =>
        let '(tracked, context) := trackCalled path callOptions v context in
        if tracked then (JsBoolean false, context)
        else
          let '(b, context) :=
            entityHasEffectsWhenCalledAtPath E i path callOptions context in
          (JsBoolean b, context)
    end.

(** The [while (!node.included)] loop of [include]: marks the ancestors of a
    declaration up to the first one that is already included, or up to the
    program.  Reading a field of a missing parent throws.  The store returned
    holds the writes made until the loop ends. *)
Fixpoint includeParents (fuel : nat) (node : option NodeId) (ns : NodeStore)
    : NodeStore * Status :=
  match fuel with
  | 0 => (ns, RanOutOfFuel)
  | S fuel =>
      match node ≫= (λ n, (λ nd, (n, nd)) <$> ns !! n) with
      | None => (ns, Threw TypeError)
      | Some (n, nd) =>
          if node_included nd then (ns, Returned)
          else
            let ns := setIncluded n ns in
            if decide (node_type nd = Program) then (ns, Returned)
            else includeParents fuel (node_parent nd) ns
      end
  end.

(** One turn of the loop over [this.declarations]. *)
Definition includeDeclaration (E : Entities) (declaration : NodeId) (w : World)
    : World * Status :=
  match nodes w !! declaration with
  | None => (w, Threw TypeError)
  | Some nd =>
      let w :=
        if node_included nd then w
        else logCalls
               (withNodes w
                  (nodeInclude E declaration createInclusionContext IncludeFalse (nodes w)).1)
               [CallInclude declaration IncludeFalse] in
      let '(ns, status) :=
        includeParents (S (size (nodes w))) (node_parent nd) (nodes w) in
      (withNodes w ns, status)
  end.

Fixpoint includeDeclarations (E : Entities) (ds : list NodeId) (w : World)
    : World * Status :=
  match ds with
  | [] => (w, Returned)
  | d :: ds =>
      match includeDeclaration E d w with
      | (w, Returned) => includeDeclarations E ds w
      | stopped => stopped
      end
  end.

Definition setIncludedFlag (v : t) : t :=
  mk (name v) true (isReassigned v) (calledFromTryStatement v) (declarations v)
     (init v) (additionalInitializers v) (expressionsToBeDeoptimized v).

(** [include()].  The flag of the variable is written before the declarations
    are visited. *)
Definition include (E : Entities) (v : t) (w : World) : t * World * Status :=
  if included v then (v, w, Returned)
  else
    let '(w, status) := includeDeclarations E (declarations v) w in
    (setIncludedFlag v, w, status).

Fixpoint includeArgs (E : Entities) (args : list NodeId) (context : InclusionContext)
    (w : World) : World * InclusionContext :=
  match args with
  | [] => (w, context)
  | arg :: args =>
      let '(ns, context) := nodeInclude E arg context IncludeFalse (nodes w) in
      includeArgs E args context
        (logCalls (withNodes w ns) [CallInclude arg IncludeFalse])
  end.

Definition removeCallArguments (i : ExpressionEntity) (context : InclusionContext)
    : InclusionContext :=
  mkInclusionContext (brokenFlow context)
    (filter (λ e, e ≠ i) (includedCallArguments context)).

Definition addCallArguments (i : ExpressionEntity) (context : InclusionContext)
    : InclusionContext :=
  if bool_decide (i ∈ includedCallArguments context) then context
  else mkInclusionContext (brokenFlow context) (includedCallArguments context ++ [i]).

Definition includeCallArguments (E : Entities) (context : InclusionContext)
    (args : list NodeId) (v : t) (w : World) : World * InclusionContext :=
  if isReassigned v
     || match init v with
        | Some i => bool_decide (i ∈ includedCallArguments context)
        | None => false
        end
  then includeArgs E args context w
  else
    match init v with
    | Some i =>
        let '(ns, context) :=
          entityIncludeCallArguments E i (addCallArguments i context) args (nodes w) in
        (logCalls (withNodes w ns) [CallIncludeCallArguments i args],
         removeCallArguments i context)
    | None => (w, context)
    end.

Definition markCalledFromTryStatement (v : t) : t :=
  mk (name v) (included v) (isReassigned v) true (declarations v)
     (init v) (additionalInitializers v) (expressionsToBeDeoptimized v).

(** ** The operations as a transition system *)

(** One method call on a variable, with its arguments. *)
Inductive Op :=
| OpAddDeclaration (identifier : NodeId) (init : option ExpressionEntity)
| OpConsolidateInitializers
| OpDeoptimizePath (path : ObjectPath)
| OpDeoptimizeThisOnEventAtPath (event : NodeEvent) (path : ObjectPath)
    (thisParameter : ExpressionEntity) (recursionTracker : PathTracker.t)
| OpGetLiteralValueAtPath (path : ObjectPath) (recursionTracker : PathTracker.t)
    (origin : DeoptimizableEntity)
| OpGetReturnExpressionWhenCalledAtPath (path : ObjectPath) (callOptions : CallOptions)
    (recursionTracker : PathTracker.t) (origin : DeoptimizableEntity)
| OpHasEffectsWhenAccessedAtPath (path : ObjectPath) (context : HasEffectsContext)
| OpHasEffectsWhenAssignedAtPath (path : ObjectPath) (context : HasEffectsContext)
| OpHasEffectsWhenCalledAtPath (path : ObjectPath) (callOptions : CallOptions)
    (context : HasEffectsContext)
| OpInclude
| OpIncludeCallArguments (context : InclusionContext) (args : list NodeId)
| OpMarkCalledFromTryStatement
| OpMarkInitializersForDeoptimization.

(** The state a call leaves behind, whether it returns or throws. *)
Definition step (E : Entities) (op : Op) (s : t * World) : t * World :=
  let '(v, w) := s in
  match op with
  | OpAddDeclaration identifier i => (addDeclaration identifier i v, w)
  | OpConsolidateInitializers => consolidateInitializers v w
  | OpDeoptimizePath path => deoptimizePath path v w
  | OpDeoptimizeThisOnEventAtPath event path thisParameter tr =>
      deoptimizeThisOnEventAtPath event path thisParameter tr v w
  | OpGetLiteralValueAtPath path tr origin =>
      ((getLiteralValueAtPath E path tr origin v).2, w)
  | OpGetReturnExpressionWhenCalledAtPath path callOptions tr origin =>
      ((getReturnExpressionWhenCalledAtPath E path callOptions tr origin v).2, w)
  | OpHasEffectsWhenAccessedAtPath _ _
  | OpHasEffectsWhenAssignedAtPath _ _
  | OpHasEffectsWhenCalledAtPath _ _ _ => (v, w)
  | OpInclude => (include E v w).1
  | OpIncludeCallArguments context args => (v, (includeCallArguments E context args v w).1)
  | OpMarkCalledFromTryStatement => (markCalledFromTryStatement v, w)
  | OpMarkInitializersForDeoptimization => ((markInitializersForDeoptimization v).2, w)
  end.

Definition run (E : Entities) (ops : list Op) (s : t * World) : t * World :=
  foldl (λ s op, step E op s) s ops.

End LocalVariable.

(** * SequenceExpression *)

Module SequenceExpression.

(** A sequence node: its own place in the node store (where its [included]
    flag and its [parent] live) and its [expressions]. *)
Record t := mk {
  self : NodeId;
  expressions : list NodeId
}.

(** A returned value or the exception thrown instead. *)
Inductive Result (A : Type) :=
| Value (a : A)
| Exception (e : JsError).

Arguments Value {A} a.
Arguments Exception {A} e.

(** [this.expressions[this.expressions.length - 1]]; [undefined] for an empty
    list. *)
Definition lastExpression (s : t) : option NodeId := last (expressions s).

(** Calling a method on [undefined] throws. *)
Definition onLast {A : Type} (s : t) (f : ExpressionEntity → A) : Result A :=
  match lastExpression s with
  | Some e => Value (f (Entity e))
  | None => Exception TypeError
  end.

Definition deoptimizePath (path : ObjectPath) (s : t) (w : World) : Result World :=
  onLast s (λ e, logCalls w [CallDeoptimizePath e path]).

Definition deoptimizeThisOnEventAtPath (event : NodeEvent) (path : ObjectPath)
    (thisParameter : ExpressionEntity) (recursionTracker : PathTracker.t)
    (s : t) (w : World) : Result World :=
  onLast s (λ e, logCalls w [CallDeoptimizeThisOnEventAtPath e event path thisParameter]).

Definition getLiteralValueAtPath (E : Entities) (path : ObjectPath)
    (recursionTracker : PathTracker.t) (origin : DeoptimizableEntity) (s : t)
    : Result LiteralValueOrUnknown :=
  onLast s (λ e, entityGetLiteralValueAtPath E e path recursionTracker origin).

Fixpoint anyHasEffects (E : Entities) (es : list NodeId) (context : HasEffectsContext)
    : bool * HasEffectsContext :=
  match es with
  | [] => (false, context)
  | e :: es =>
      let '(b, context) := entityHasEffects E (Entity e) context in
      if b then (true, context) else anyHasEffects E es context
  end.

Definition hasEffects (E : Entities) (context : HasEffectsContext) (s : t)
    : bool * HasEffectsContext :=
  anyHasEffects E (expressions s) context.

Definition hasEffectsWhenAccessedAtPath (E : Entities) (path : ObjectPath)
    (context : HasEffectsContext) (s : t) : Result (bool * HasEffectsContext) :=
  match path with
  | [] => Value (false, context)
  | _ => onLast s (λ e, entityHasEffectsWhenAccessedAtPath E e path context)
  end.

Definition hasEffectsWhenAssignedAtPath (E : Entities) (path : ObjectPath)
    (context : HasEffectsContext) (s : t) : Result (bool * HasEffectsContext) :=
  onLast s (λ e, entityHasEffectsWhenAssignedAtPath E e path context).

Definition hasEffectsWhenCalledAtPath (E : Entities) (path : ObjectPath)
    (callOptions : CallOptions) (context : HasEffectsContext) (s : t)
    : Result (bool * HasEffectsContext) :=
  onLast s (λ e, entityHasEffectsWhenCalledAtPath E e path callOptions context).

(** [this.parent instanceof ExpressionStatement] *)
Definition parentIsExpressionStatement (s : t) (ns : NodeStore) : bool :=
  match ns !! self s with
  | Some nd =>
      match node_parent nd with
      | Some p =>
          match ns !! p with
          | Some pd => bool_decide (node_type pd = ExpressionStatement)
          | None => false
          end
      | None => false
      end
  | None => false
  end.

(** The test guarding [expression.include] in the loop of [include]. *)
Definition includesExpression (E : Entities) (s : t) (context : InclusionContext)
    (includeChildrenRecursively : IncludeChildren) (expression : NodeId)
    (ns : NodeStore) : bool :=
  truthyIncludeChildren includeChildrenRecursively
  || (bool_decide (Some expression = lastExpression s)
      && negb (parentIsExpressionStatement s ns))
  || nodeShouldBeIncluded E expression context ns.

(** The loop of [include] over (a suffix of) [this.expressions]. *)
Fixpoint includeExpressions (E : Entities) (s : t)
    (includeChildrenRecursively : IncludeChildren) (es : list NodeId)
    (context : InclusionContext) (w : World) : World * InclusionContext :=
  match es with
  | [] => (w, context)
  | expression :: es =>
      if includesExpression E s context includeChildrenRecursively expression (nodes w)
      then
        let '(ns, context) :=
          nodeInclude E expression context includeChildrenRecursively (nodes w) in
        includeExpressions E s includeChildrenRecursively es context
          (logCalls (withNodes w ns) [CallInclude expression includeChildrenRecursively])
      else includeExpressions E s includeChildrenRecursively es context w
  end.

Definition include (E : Entities) (context : InclusionContext)
    (includeChildrenRecursively : IncludeChildren) (s : t) (w : World)
    : World * InclusionContext :=
  includeExpressions E s includeChildrenRecursively (expressions s) context
    (withNodes w (setIncluded (self s) (nodes w))).

End SequenceExpression.

(** * Module: export-name resolution *)

Module Resolver.

Definition ModuleId := string.

(** [boolean | string], the type of [syntheticNamedExports]. *)
Inductive BoolOrString :=
| OfBool (b : bool)
| OfString (s : string).

Global Instance BoolOrString_eq_dec : EqDecision BoolOrString.
Proof. solve_decision. Defined.

(** Truthiness: the empty string is falsy. *)
Definition truthyBoolOrString (x : BoolOrString) : bool :=
  match x with
  | OfBool b => b
  | OfString s => negb (bool_decide (s = ""))
  end.

(** [boolean | "no-treeshake"], the type of [moduleSideEffects]. *)
Inductive ModuleSideEffects :=
| SideEffects (b : bool)
| NoTreeshake.

Global Instance ModuleSideEffects_eq_dec : EqDecision ModuleSideEffects.
Proof. solve_decision. Defined.

Definition truthyModuleSideEffects (x : ModuleSideEffects) : bool :=
  match x with
  | SideEffects b => b
  | NoTreeshake => true
  end.

(** Variables, by the class of the object and what makes the object unique:
    a module keeps one variable per scope name, one namespace, one shim, one
    synthetic variable per name ([syntheticExports]), and an external module
    one variable per name. *)
Inductive Var :=
| LocalVar (module : ModuleId) (name : string)
| ExportDefaultVar (module : ModuleId)
| NamespaceVar (module : ModuleId)
| ExternalVar (module : ModuleId) (name : string)
| SyntheticVar (module : ModuleId) (name : string)
| ExportShimVar (module : ModuleId).

Global Instance Variable_eq_dec : EqDecision Var.
Proof. solve_decision. Defined.

Global Instance Variable_countable : Countable Var.
Proof.
  refine (inj_countable'
    (λ v, match v with
          | LocalVar m n => (0, m, n)
          | ExportDefaultVar m => (1, m, "")
          | NamespaceVar m => (2, m, "")
          | ExternalVar m n => (3, m, n)
          | SyntheticVar m n => (4, m, n)
          | ExportShimVar m => (5, m, "")
          end)
    (λ '(k, m, n), match k with
                   | 0 => LocalVar m n
                   | 1 => ExportDefaultVar m
                   | 2 => NamespaceVar m
                   | 3 => ExternalVar m n
                   | 4 => SyntheticVar m n
                   | _ => ExportShimVar m
                   end) _).
  by intros [].
Defined.

(** [variable.module.id] *)
Definition variableModule (v : Var) : ModuleId :=
  match v with
  | LocalVar m _ | ExportDefaultVar m | NamespaceVar m
  | ExternalVar m _ | SyntheticVar m _ | ExportShimVar m => m
  end.

(** [variable instanceof SyntheticNamedExportVariable] *)
Definition isSyntheticNamedExportVariable (v : Var) : bool :=
  match v with
  | SyntheticVar _ _ => true
  | _ => false
  end.

(** [variable instanceof ExternalVariable] *)
Definition isExternalVariable (v : Var) : bool :=
  match v with
  | ExternalVar _ _ => true
  | _ => false
  end.

(** The descriptor tables.  [module] is [null] until [linkImports] ran. *)
Record ImportDescription := mkImportDescription {
  import_module : option ModuleId;
  import_name : string;
  import_source : string;
  import_start : nat
}.

Record ReexportDescription := mkReexportDescription {
  reexport_localName : string;
  reexport_module : option ModuleId;
  reexport_source : string;
  reexport_start : nat
}.

(** An export descriptor; the shim descriptor is told apart by identity. *)
Inductive ExportDescription :=
| MISSING_EXPORT_SHIM_DESCRIPTION
| ExportDesc (identifier : option string) (localName : string).

(** [syntheticNamespace: Variable | null | undefined] *)
Inductive SyntheticNamespace :=
| NsNull
| NsUndefined
| NsVariable (v : Var).

(** [[variable, indirectExternal?]] *)
Definition Resolution := (option Var * bool)%type.

(** A JavaScript [Map] whose iteration order the code relies on: an
    association list in insertion order. *)
Definition OrderedMap (K V : Type) := list (K * V).

Fixpoint mapGet {K V} `{EqDecision K} (k : K) (m : OrderedMap K V) : option V :=
  match m with
  | [] => None
  | (k', v) :: m => if decide (k = k') then Some v else mapGet k m
  end.

Fixpoint mapSet {K V} `{EqDecision K} (k : K) (v : V) (m : OrderedMap K V)
    : OrderedMap K V :=
  match m with
  | [] => [(k, v)]
  | (k', v') :: m => if decide (k = k') then (k, v) :: m else (k', v') :: mapSet k v m
  end.

(** A JavaScript [Set] in insertion order. *)
Definition setAdd {A} `{EqDecision A} (x : A) (s : list A) : list A :=
  if bool_decide (x ∈ s) then s else s ++ [x].

(** A module of the graph, internal ([Module]) or external
    ([ExternalModule]); of an external module only [id] and [info] are used. *)
Record Module := mkModule {
  id : ModuleId;
  isExternalModule : bool;
  info_isEntry : bool;
  info_moduleSideEffects : ModuleSideEffects;
  info_syntheticNamedExports : BoolOrString;
  cycles : gset nat;
  dependencies : list ModuleId;
  implicitlyLoadedAfter : list ModuleId;
  exportAllModules : list ModuleId;
  exports : OrderedMap string ExportDescription;
  reexportDescriptions : OrderedMap string ReexportDescription;
  importDescriptions : OrderedMap string ImportDescription;
  scope_variables : gmap string Var;
  ast : option NodeId;
  imports : list Var;
  includedDynamicImporters : list ModuleId;
  isExecuted : bool;
  namespaceReexportsByName : gmap string Resolution;
  syntheticExports : gmap string Var;
  syntheticNamespace : SyntheticNamespace;
  sideEffectDependenciesByVariable : gmap Var (list ModuleId);
  alternativeReexportModules : gmap Var ModuleId;
  relevantDependencies : option (list ModuleId);
  transitiveReexports : option (list string)
}.

Inductive Warning :=
| NAMESPACE_CONFLICT (name : string) (reexportingModule : ModuleId)
    (sources : list ModuleId)
| AMBIGUOUS_EXTERNAL_NAMESPACES (name : string) (reexportingModule : ModuleId)
    (usedModule : ModuleId) (sources : list ModuleId)
| SHIMMED_EXPORT (exporter : string) (exportName : string).

Inductive Error :=
| CIRCULAR_REEXPORT (exportName : string) (importer : ModuleId)
| MISSING_EXPORT (exportName : string) (importingModule : ModuleId)
    (importedModule : ModuleId) (pos : nat)
| SYNTHETIC_NAMED_EXPORTS_NEED_NAMESPACE_EXPORT (id : ModuleId)
    (syntheticNamedExportsOption : BoolOrString)
| TYPE_ERROR.

(** The part of [NormalizedInputOptions] read here; [onwarn] appends to the
    warnings of the state.  With the options comes [relativeId] of
    [utils/relativeId], which is not among the sources and is a parameter: it
    shows a module id relative to the working directory of the build. *)
Record InputOptions := mkInputOptions {
  shimMissingExports : bool;
  treeshake : bool;
  relativeId : ModuleId → string
}.

(** The mutable state: the modules of the graph by id and the warnings handed
    to [options.onwarn] so far. *)
Record State := mkState {
  modulesById : gmap ModuleId Module;
  warnings : list Warning
}.

(** An operation returns a value and a state, throws (errors are not caught
    before the driver), or its model runs out of fuel. *)
Inductive Outcome (A : Type) :=
| Ok (a : A) (st : State)
| Throw (e : Error)
| OutOfFuel.

Arguments Ok {A} a st.
Arguments Throw {A} e.
Arguments OutOfFuel {A}.

Definition M (A : Type) := State → Outcome A.

Definition ret {A} (a : A) : M A := λ st, Ok a st.

Definition bind {A B} (c : M A) (k : A → M B) : M B :=
  λ st, match c st with
        | Ok a st => k a st
        | Throw e => Throw e
        | OutOfFuel => OutOfFuel
        end.

Definition throw {A} (e : Error) : M A := λ _, Throw e.

Notation "'let*' x := c 'in' k" := (bind c (λ x, k))
  (at level 10, x pattern, c at level 100, k at level 200).

Definition onwarn (w : Warning) : M unit :=
  λ st, Ok () (mkState (modulesById st) (warnings st ++ [w])).

(** Dereferencing a module; a reference that is [null] or leads nowhere
    throws. *)
Definition getModule (m : ModuleId) : M Module :=
  λ st, match modulesById st !! m with
        | Some md => Ok md st
        | None => Throw TYPE_ERROR
        end.

(** A module reference used only in an [instanceof] test. *)
Definition lookupModule (m : ModuleId) : M (option Module) :=
  λ st, Ok (modulesById st !! m) st.

Definition deref (m : option ModuleId) : M ModuleId :=
  match m with
  | Some m => ret m
  | None => throw TYPE_ERROR
  end.

Definition updateModule (m : ModuleId) (f : Module → Module) : M unit :=
  λ st, Ok () (mkState (alter f m (modulesById st)) (warnings st)).

(** Modelled from the spec: [ExternalModule.getVariableForExportName], whose
    class is not among the sources.  Section 3: an external variable is "a
    name (or [*]) imported from an external module"; the external module
    answers every name with its variable of that name, never [null]. *)
Definition ExternalModule_getVariableForExportName (this : ModuleId) (name : string)
    : Resolution :=
  (Some (ExternalVar this name), false).

(** The options object of [getVariableForExportName].  The map
    [searchedNamesAndModules] is shared with the callee when it is given and
    mutated by it; the embedding returns the map as the callee leaves it. *)
Abbreviation Searched := (gmap string (gset ModuleId)).

Record Options := mkOptions {
  importerForSideEffects : option ModuleId;
  isExportAllSearch : bool;
  onlyExplicit : bool;
  searchedNamesAndModules : option Searched
}.

Definition EMPTY_OBJECT : Options := mkOptions None false false None.

(** The three collections of [getVariableFromNamespaceReexports]. *)
Record Found := mkFound {
  foundSyntheticDeclaration : option Var;
  foundInternalDeclarations : OrderedMap Var ModuleId;
  foundExternalDeclarations : list (option Var)
}.

Definition noneFound : Found := mkFound None [] [].

(** The classification of one probe result in the loop. *)
Definition recordDeclaration (isExternal : bool) (module : ModuleId)
    (variable : option Var) (indirectExternal : bool) (f : Found) : Found :=
  if isExternal || indirectExternal then
    mkFound (foundSyntheticDeclaration f) (foundInternalDeclarations f)
            (setAdd variable (foundExternalDeclarations f))
  else
    match variable with
    | Some v =>
        if isSyntheticNamedExportVariable v then
          match foundSyntheticDeclaration f with
          | None =>
              mkFound (Some v) (foundInternalDeclarations f)
                      (foundExternalDeclarations f)
          | Some _ => f
          end
        else
          mkFound (foundSyntheticDeclaration f)
                  (mapSet v module (foundInternalDeclarations f))
                  (foundExternalDeclarations f)
    | None => f
    end.

(** [declaration.module.id] for each found external declaration; reading
    [module] of [null] throws. *)
Definition declarationModuleIds (ds : list (option Var)) : option (list ModuleId) :=
  mapM (λ d : option Var, variableModule <$> d) ds.

(** The part of [getVariableFromNamespaceReexports] after the loop. *)
Definition selectDeclaration (this : ModuleId) (name : string) (f : Found)
    : M Resolution :=
  match foundInternalDeclarations f with
  | (usedDeclaration, _) :: rest =>
      match rest with
      | [] => ret (Some usedDeclaration, false)
      | _ =>
          let* _ := onwarn (NAMESPACE_CONFLICT name this
                              (foundInternalDeclarations f).*2) in
          ret (None, false)
      end
  | [] =>
      match foundExternalDeclarations f with
      | usedDeclaration :: rest =>
          let* _ :=
            match rest with
            | [] => ret ()
            | _ =>
                match usedDeclaration, declarationModuleIds (foundExternalDeclarations f) with
                | Some used, Some ids =>
                    onwarn (AMBIGUOUS_EXTERNAL_NAMESPACES name this
                              (variableModule used) ids)
                | _, _ => throw TYPE_ERROR
                end
            end in
          ret (usedDeclaration, true)
      | [] =>
          match foundSyntheticDeclaration f with
          | Some v => ret (Some v, false)
          | None => ret (None, false)
          end
      end
  end.

(** Field updates of a module. *)
Definition setInfo_isEntry (x : bool) (m : Module) : Module :=
  mkModule (id m) (isExternalModule m) x (info_moduleSideEffects m)
    (info_syntheticNamedExports m) (cycles m) (dependencies m) (implicitlyLoadedAfter m)
    (exportAllModules m) (exports m) (reexportDescriptions m) (importDescriptions m)
    (scope_variables m) (ast m) (imports m) (includedDynamicImporters m) (isExecuted m)
    (namespaceReexportsByName m) (syntheticExports m) (syntheticNamespace m)
    (sideEffectDependenciesByVariable m) (alternativeReexportModules m)
    (relevantDependencies m) (transitiveReexports m).

Definition setInfo_moduleSideEffects (x : ModuleSideEffects) (m : Module) : Module :=
  mkModule (id m) (isExternalModule m) (info_isEntry m) x (info_syntheticNamedExports m)
    (cycles m) (dependencies m) (implicitlyLoadedAfter m) (exportAllModules m)
    (exports m) (reexportDescriptions m) (importDescriptions m) (scope_variables m)
    (ast m) (imports m) (includedDynamicImporters m) (isExecuted m)
    (namespaceReexportsByName m) (syntheticExports m) (syntheticNamespace m)
    (sideEffectDependenciesByVariable m) (alternativeReexportModules m)
    (relevantDependencies m) (transitiveReexports m).

Definition setInfo_syntheticNamedExports (x : BoolOrString) (m : Module) : Module :=
  mkModule (id m) (isExternalModule m) (info_isEntry m) (info_moduleSideEffects m) x
    (cycles m) (dependencies m) (implicitlyLoadedAfter m) (exportAllModules m)
    (exports m) (reexportDescriptions m) (importDescriptions m) (scope_variables m)
    (ast m) (imports m) (includedDynamicImporters m) (isExecuted m)
    (namespaceReexportsByName m) (syntheticExports m) (syntheticNamespace m)
    (sideEffectDependenciesByVariable m) (alternativeReexportModules m)
    (relevantDependencies m) (transitiveReexports m).

Definition setCycles (x : gset nat) (m : Module) : Module :=
  mkModule (id m) (isExternalModule m) (info_isEntry m) (info_moduleSideEffects m)
    (info_syntheticNamedExports m) x (dependencies m) (implicitlyLoadedAfter m)
    (exportAllModules m) (exports m) (reexportDescriptions m) (importDescriptions m)
    (scope_variables m) (ast m) (imports m) (includedDynamicImporters m) (isExecuted m)
    (namespaceReexportsByName m) (syntheticExports m) (syntheticNamespace m)
    (sideEffectDependenciesByVariable m) (alternativeReexportModules m)
    (relevantDependencies m) (transitiveReexports m).

Definition setDependencies (x : list ModuleId) (m : Module) : Module :=
  mkModule (id m) (isExternalModule m) (info_isEntry m) (info_moduleSideEffects m)
    (info_syntheticNamedExports m) (cycles m) x (implicitlyLoadedAfter m)
    (exportAllModules m) (exports m) (reexportDescriptions m) (importDescriptions m)
    (scope_variables m) (ast m) (imports m) (includedDynamicImporters m) (isExecuted m)
    (namespaceReexportsByName m) (syntheticExports m) (syntheticNamespace m)
    (sideEffectDependenciesByVariable m) (alternativeReexportModules m)
    (relevantDependencies m) (transitiveReexports m).

Definition setImplicitlyLoadedAfter (x : list ModuleId) (m : Module) : Module :=
  mkModule (id m) (isExternalModule m) (info_isEntry m) (info_moduleSideEffects m)
    (info_syntheticNamedExports m) (cycles m) (dependencies m) x (exportAllModules m)
    (exports m) (reexportDescriptions m) (importDescriptions m) (scope_variables m)
    (ast m) (imports m) (includedDynamicImporters m) (isExecuted m)
    (namespaceReexportsByName m) (syntheticExports m) (syntheticNamespace m)
    (sideEffectDependenciesByVariable m) (alternativeReexportModules m)
    (relevantDependencies m) (transitiveReexports m).

Definition setExportAllModules (x : list ModuleId) (m : Module) : Module :=
  mkModule (id m) (isExternalModule m) (info_isEntry m) (info_moduleSideEffects m)
    (info_syntheticNamedExports m) (cycles m) (dependencies m) (implicitlyLoadedAfter m)
    x (exports m) (reexportDescriptions m) (importDescriptions m) (scope_variables m)
    (ast m) (imports m) (includedDynamicImporters m) (isExecuted m)
    (namespaceReexportsByName m) (syntheticExports m) (syntheticNamespace m)
    (sideEffectDependenciesByVariable m) (alternativeReexportModules m)
    (relevantDependencies m) (transitiveReexports m).

Definition setExports (x : OrderedMap string ExportDescription) (m : Module) : Module :=
  mkModule (id m) (isExternalModule m) (info_isEntry m) (info_moduleSideEffects m)
    (info_syntheticNamedExports m) (cycles m) (dependencies m) (implicitlyLoadedAfter m)
    (exportAllModules m) x (reexportDescriptions m) (importDescriptions m)
    (scope_variables m) (ast m) (imports m) (includedDynamicImporters m) (isExecuted m)
    (namespaceReexportsByName m) (syntheticExports m) (syntheticNamespace m)
    (sideEffectDependenciesByVariable m) (alternativeReexportModules m)
    (relevantDependencies m) (transitiveReexports m).

Definition setReexportDescriptions (x : OrderedMap string ReexportDescription) (m : Module) : Module :=
  mkModule (id m) (isExternalModule m) (info_isEntry m) (info_moduleSideEffects m)
    (info_syntheticNamedExports m) (cycles m) (dependencies m) (implicitlyLoadedAfter m)
    (exportAllModules m) (exports m) x (importDescriptions m) (scope_variables m)
    (ast m) (imports m) (includedDynamicImporters m) (isExecuted m)
    (namespaceReexportsByName m) (syntheticExports m) (syntheticNamespace m)
    (sideEffectDependenciesByVariable m) (alternativeReexportModules m)
    (relevantDependencies m) (transitiveReexports m).

Definition setImportDescriptions (x : OrderedMap string ImportDescription) (m : Module) : Module :=
  mkModule (id m) (isExternalModule m) (info_isEntry m) (info_moduleSideEffects m)
    (info_syntheticNamedExports m) (cycles m) (dependencies m) (implicitlyLoadedAfter m)
    (exportAllModules m) (exports m) (reexportDescriptions m) x (scope_variables m)
    (ast m) (imports m) (includedDynamicImporters m) (isExecuted m)
    (namespaceReexportsByName m) (syntheticExports m) (syntheticNamespace m)
    (sideEffectDependenciesByVariable m) (alternativeReexportModules m)
    (relevantDependencies m) (transitiveReexports m).

Definition setScope_variables (x : gmap string Var) (m : Module) : Module :=
  mkModule (id m) (isExternalModule m) (info_isEntry m) (info_moduleSideEffects m)
    (info_syntheticNamedExports m) (cycles m) (dependencies m) (implicitlyLoadedAfter m)
    (exportAllModules m) (exports m) (reexportDescriptions m) (importDescriptions m) x
    (ast m) (imports m) (includedDynamicImporters m) (isExecuted m)
    (namespaceReexportsByName m) (syntheticExports m) (syntheticNamespace m)
    (sideEffectDependenciesByVariable m) (alternativeReexportModules m)
    (relevantDependencies m) (transitiveReexports m).

Definition setAst (x : option NodeId) (m : Module) : Module :=
  mkModule (id m) (isExternalModule m) (info_isEntry m) (info_moduleSideEffects m)
    (info_syntheticNamedExports m) (cycles m) (dependencies m) (implicitlyLoadedAfter m)
    (exportAllModules m) (exports m) (reexportDescriptions m) (importDescriptions m)
    (scope_variables m) x (imports m) (includedDynamicImporters m) (isExecuted m)
    (namespaceReexportsByName m) (syntheticExports m) (syntheticNamespace m)
    (sideEffectDependenciesByVariable m) (alternativeReexportModules m)
    (relevantDependencies m) (transitiveReexports m).

Definition setImports (x : list Var) (m : Module) : Module :=
  mkModule (id m) (isExternalModule m) (info_isEntry m) (info_moduleSideEffects m)
    (info_syntheticNamedExports m) (cycles m) (dependencies m) (implicitlyLoadedAfter m)
    (exportAllModules m) (exports m) (reexportDescriptions m) (importDescriptions m)
    (scope_variables m) (ast m) x (includedDynamicImporters m) (isExecuted m)
    (namespaceReexportsByName m) (syntheticExports m) (syntheticNamespace m)
    (sideEffectDependenciesByVariable m) (alternativeReexportModules m)
    (relevantDependencies m) (transitiveReexports m).

Definition setIncludedDynamicImporters (x : list ModuleId) (m : Module) : Module :=
  mkModule (id m) (isExternalModule m) (info_isEntry m) (info_moduleSideEffects m)
    (info_syntheticNamedExports m) (cycles m) (dependencies m) (implicitlyLoadedAfter m)
    (exportAllModules m) (exports m) (reexportDescriptions m) (importDescriptions m)
    (scope_variables m) (ast m) (imports m) x (isExecuted m)
    (namespaceReexportsByName m) (syntheticExports m) (syntheticNamespace m)
    (sideEffectDependenciesByVariable m) (alternativeReexportModules m)
    (relevantDependencies m) (transitiveReexports m).

Definition setIsExecuted (x : bool) (m : Module) : Module :=
  mkModule (id m) (isExternalModule m) (info_isEntry m) (info_moduleSideEffects m)
    (info_syntheticNamedExports m) (cycles m) (dependencies m) (implicitlyLoadedAfter m)
    (exportAllModules m) (exports m) (reexportDescriptions m) (importDescriptions m)
    (scope_variables m) (ast m) (imports m) (includedDynamicImporters m) x
    (namespaceReexportsByName m) (syntheticExports m) (syntheticNamespace m)
    (sideEffectDependenciesByVariable m) (alternativeReexportModules m)
    (relevantDependencies m) (transitiveReexports m).

Definition setNamespaceReexportsByName (x : gmap string Resolution) (m : Module) : Module :=
  mkModule (id m) (isExternalModule m) (info_isEntry m) (info_moduleSideEffects m)
    (info_syntheticNamedExports m) (cycles m) (dependencies m) (implicitlyLoadedAfter m)
    (exportAllModules m) (exports m) (reexportDescriptions m) (importDescriptions m)
    (scope_variables m) (ast m) (imports m) (includedDynamicImporters m) (isExecuted m)
    x (syntheticExports m) (syntheticNamespace m) (sideEffectDependenciesByVariable m)
    (alternativeReexportModules m) (relevantDependencies m) (transitiveReexports m).

Definition setSyntheticExports (x : gmap string Var) (m : Module) : Module :=
  mkModule (id m) (isExternalModule m) (info_isEntry m) (info_moduleSideEffects m)
    (info_syntheticNamedExports m) (cycles m) (dependencies m) (implicitlyLoadedAfter m)
    (exportAllModules m) (exports m) (reexportDescriptions m) (importDescriptions m)
    (scope_variables m) (ast m) (imports m) (includedDynamicImporters m) (isExecuted m)
    (namespaceReexportsByName m) x (syntheticNamespace m)
    (sideEffectDependenciesByVariable m) (alternativeReexportModules m)
    (relevantDependencies m) (transitiveReexports m).

Definition setSyntheticNamespace (x : SyntheticNamespace) (m : Module) : Module :=
  mkModule (id m) (isExternalModule m) (info_isEntry m) (info_moduleSideEffects m)
    (info_syntheticNamedExports m) (cycles m) (dependencies m) (implicitlyLoadedAfter m)
    (exportAllModules m) (exports m) (reexportDescriptions m) (importDescriptions m)
    (scope_variables m) (ast m) (imports m) (includedDynamicImporters m) (isExecuted m)
    (namespaceReexportsByName m) (syntheticExports m) x
    (sideEffectDependenciesByVariable m) (alternativeReexportModules m)
    (relevantDependencies m) (transitiveReexports m).

Definition setSideEffectDependenciesByVariable (x : gmap Var (list ModuleId)) (m : Module) : Module :=
  mkModule (id m) (isExternalModule m) (info_isEntry m) (info_moduleSideEffects m)
    (info_syntheticNamedExports m) (cycles m) (dependencies m) (implicitlyLoadedAfter m)
    (exportAllModules m) (exports m) (reexportDescriptions m) (importDescriptions m)
    (scope_variables m) (ast m) (imports m) (includedDynamicImporters m) (isExecuted m)
    (namespaceReexportsByName m) (syntheticExports m) (syntheticNamespace m) x
    (alternativeReexportModules m) (relevantDependencies m) (transitiveReexports m).

Definition setAlternativeReexportModules (x : gmap Var ModuleId) (m : Module) : Module :=
  mkModule (id m) (isExternalModule m) (info_isEntry m) (info_moduleSideEffects m)
    (info_syntheticNamedExports m) (cycles m) (dependencies m) (implicitlyLoadedAfter m)
    (exportAllModules m) (exports m) (reexportDescriptions m) (importDescriptions m)
    (scope_variables m) (ast m) (imports m) (includedDynamicImporters m) (isExecuted m)
    (namespaceReexportsByName m) (syntheticExports m) (syntheticNamespace m)
    (sideEffectDependenciesByVariable m) x (relevantDependencies m)
    (transitiveReexports m).

Definition setRelevantDependencies (x : option (list ModuleId)) (m : Module) : Module :=
  mkModule (id m) (isExternalModule m) (info_isEntry m) (info_moduleSideEffects m)
    (info_syntheticNamedExports m) (cycles m) (dependencies m) (implicitlyLoadedAfter m)
    (exportAllModules m) (exports m) (reexportDescriptions m) (importDescriptions m)
    (scope_variables m) (ast m) (imports m) (includedDynamicImporters m) (isExecuted m)
    (namespaceReexportsByName m) (syntheticExports m) (syntheticNamespace m)
    (sideEffectDependenciesByVariable m) (alternativeReexportModules m) x
    (transitiveReexports m).

Definition setTransitiveReexports (x : option (list string)) (m : Module) : Module :=
  mkModule (id m) (isExternalModule m) (info_isEntry m) (info_moduleSideEffects m)
    (info_syntheticNamedExports m) (cycles m) (dependencies m) (implicitlyLoadedAfter m)
    (exportAllModules m) (exports m) (reexportDescriptions m) (importDescriptions m)
    (scope_variables m) (ast m) (imports m) (includedDynamicImporters m) (isExecuted m)
    (namespaceReexportsByName m) (syntheticExports m) (syntheticNamespace m)
    (sideEffectDependenciesByVariable m) (alternativeReexportModules m)
    (relevantDependencies m) x.

(** [new Module(graph, id, options, isEntry, moduleSideEffects,
    syntheticNamedExports, meta)]: the fields as the constructor leaves them. *)
Definition newModule (id : ModuleId) (isEntry : bool)
    (moduleSideEffects : ModuleSideEffects) (syntheticNamedExports : BoolOrString)
    : Module :=
  mkModule id false isEntry moduleSideEffects syntheticNamedExports ∅ [] [] [] [] [] []
    ∅ None [] [] false ∅ ∅ NsNull ∅ ∅ None None.

(** An external module; it has no synthetic named exports. *)
Definition newExternalModule (id : ModuleId) (moduleSideEffects : ModuleSideEffects)
    : Module :=
  mkModule id true false moduleSideEffects (OfBool false) ∅ [] [] [] [] [] []
    ∅ None [] [] false ∅ ∅ NsNull ∅ ∅ None None.

(** The graph of the given modules, before any warning. *)
Definition newGraph (modules : list Module) : State :=
  mkState (list_to_map ((λ m, (id m, m)) <$> modules)) [].

(** [setAlternativeExporterIfCyclic(variable, importer, reexporter)] *)
Definition setAlternativeExporterIfCyclic (variable : Var) (importer reexporter : ModuleId)
    : M unit :=
  let* exporter := lookupModule (variableModule variable) in
  let* r := getModule reexporter in
  match exporter with
  | Some exporter =>
    if negb (isExternalModule exporter)
       && negb (bool_decide (variableModule variable = reexporter))
       && negb (bool_decide (cycles exporter = ∅))
       && existsb (λ cycleSymbol, bool_decide (cycleSymbol ∈ cycles exporter))
                  (elements (cycles r))
    then
      updateModule importer (λ m,
        setAlternativeReexportModules
          (<[variable := reexporter]> (alternativeReexportModules m)) m)
    else ret ()
  | None => ret ()
  end.

(** [getOrCreate(importer.sideEffectDependenciesByVariable, variable, () => new Set()).add(module)] *)
Definition addSideEffectDependency (importer : ModuleId) (variable : Var)
    (module : ModuleId) : M unit :=
  updateModule importer (λ m,
    setSideEffectDependenciesByVariable
      (<[variable := setAdd module
                       (default [] (sideEffectDependenciesByVariable m !! variable))]>
         (sideEffectDependenciesByVariable m)) m).

(** [shimMissingExport(name)]; the warning names the exporter by
    [relativeId(this.id)]. *)
Definition shimMissingExport (options : InputOptions) (this : ModuleId) (name : string)
    : M unit :=
  let* _ := onwarn (SHIMMED_EXPORT (relativeId options this) name) in
  updateModule this (λ m,
    setExports (mapSet name MISSING_EXPORT_SHIM_DESCRIPTION (exports m)) m).

(** ** The resolver

    The functions call each other through [target.getVariableForExportName];
    they are written over that call ([self]) and the knot is tied on the fuel
    in [getVariableForExportName]. *)

Definition SelfType :=
  ModuleId → string → Options → M (Resolution * option Searched).

Section Resolution.

Variable options : InputOptions.
Variable self : SelfType.

(** [getVariableForExportNameRecursive].  A missing map is replaced by a new
    one, which the caller never sees. *)
Definition getVariableForExportNameRecursive (target : ModuleId) (name : string)
    (importerForSideEffects : option ModuleId) (isExportAllSearch : bool)
    (searchedNamesAndModules : option Searched) : M (Resolution * option Searched) :=
  let searched := default ∅ searchedNamesAndModules in
  let visit (searched : Searched) :=
    let* (resolution, searched') :=
      self target name
        (mkOptions importerForSideEffects isExportAllSearch false (Some searched)) in
    ret (resolution,
         match searchedNamesAndModules with
         | Some _ => searched'
         | None => None
         end) in
  match searched !! name with
  | Some searchedModules =>
      if bool_decide (target ∈ searchedModules) then
        if isExportAllSearch then ret ((None, false), searchedNamesAndModules)
        else throw (CIRCULAR_REEXPORT name target)
      else visit (<[name := searchedModules ∪ {[target]}]> searched)
  | None => visit (<[name := {[target]}]> searched)
  end.

(** The loop of [getVariableFromNamespaceReexports] over (a suffix of)
    [this.exportAllModules]. *)
Fixpoint probeExportAllModules (name : string)
    (importerForSideEffects : option ModuleId) (modules : list ModuleId)
    (searched : option Searched) (f : Found) : M (Found * option Searched) :=
  match modules with
  | [] => ret (f, searched)
  | module :: modules =>
      let* md := getModule module in
      if bool_decide (info_syntheticNamedExports md = OfString name) then
        probeExportAllModules name importerForSideEffects modules searched f
      else
        let* ((variable, indirectExternal), searched) :=
          getVariableForExportNameRecursive module name importerForSideEffects true
            searched in
        probeExportAllModules name importerForSideEffects modules searched
          (recordDeclaration (isExternalModule md) module variable indirectExternal f)
  end.

Definition getVariableFromNamespaceReexports (this : ModuleId) (name : string)
    (importerForSideEffects : option ModuleId) (searched : option Searched)
    : M (Resolution * option Searched) :=
  let* m := getModule this in
  let* (f, searched) :=
    probeExportAllModules name importerForSideEffects (exportAllModules m) searched
      noneFound in
  let* resolution := selectDeclaration this name f in
  ret (resolution, searched).

(** [traceVariable(name, importerForSideEffects)] *)
Definition traceVariable (this : ModuleId) (name : string)
    (importerForSideEffects : option ModuleId) : M (option Var) :=
  let* m := getModule this in
  match scope_variables m !! name with
  | Some localVariable => ret (Some localVariable)
  | None =>
      match mapGet name (importDescriptions m) with
      | Some importDeclaration =>
          let* otherModuleRecord :=
            match import_module importDeclaration with
            | Some o => lookupModule o
            | None => ret None
            end in
          if match otherModuleRecord with
             | Some o => negb (isExternalModule o)
             | None => false
             end
             && bool_decide (import_name importDeclaration = "*")
          then ret (NamespaceVar <$> import_module importDeclaration)
          else
            let* otherModule := deref (import_module importDeclaration) in
            let* ((declaration, _), _) :=
              self otherModule (import_name importDeclaration)
                (mkOptions (Some (default this importerForSideEffects)) false false None) in
            match declaration with
            | None =>
                throw (MISSING_EXPORT (import_name importDeclaration) this otherModule
                         (import_start importDeclaration))
            | Some declaration => ret (Some declaration)
            end
      | None => ret None
      end
  end.

(** [getSyntheticNamespace()] *)
Definition getSyntheticNamespace (this : ModuleId) : M Var :=
  let* m := getModule this in
  let* _ :=
    match syntheticNamespace m with
    | NsNull =>
        let* _ := updateModule this (setSyntheticNamespace NsUndefined) in
        let* ((variable, _), _) :=
          self this
            (match info_syntheticNamedExports m with
             | OfString s => s
             | OfBool _ => "default"
             end)
            (mkOptions None false true None) in
        updateModule this
          (setSyntheticNamespace
             (match variable with Some v => NsVariable v | None => NsNull end))
    | _ => ret ()
    end in
  let* m := getModule this in
  match syntheticNamespace m with
  | NsVariable v => ret v
  | _ =>
      throw (SYNTHETIC_NAMED_EXPORTS_NEED_NAMESPACE_EXPORT this
               (info_syntheticNamedExports m))
  end.

(** The body of [Module.getVariableForExportName] for names that do not start
    with the star sentinel. *)
Definition getVariableForRegularExportName (this : ModuleId) (name : string)
    (o : Options) : M (Resolution * option Searched) :=
  let importer := importerForSideEffects o in
  let searched := searchedNamesAndModules o in
  let* m := getModule this in
  match mapGet name (reexportDescriptions m) with
  | Some reexportDeclaration =>
      (* export { foo } from './other' *)
      let* target := deref (reexport_module reexportDeclaration) in
      let* ((variable, _), searched) :=
        getVariableForExportNameRecursive target
          (reexport_localName reexportDeclaration) importer false searched in
      match variable with
      | None =>
          throw (MISSING_EXPORT (reexport_localName reexportDeclaration) this target
                   (reexport_start reexportDeclaration))
      | Some variable =>
          let* _ :=
            match importer with
            | Some importer => setAlternativeExporterIfCyclic variable importer this
            | None => ret ()
            end in
          ret ((Some variable, false), searched)
      end
  | None =>
  match mapGet name (exports m) with
  | Some MISSING_EXPORT_SHIM_DESCRIPTION =>
      ret ((Some (ExportShimVar this), false), searched)
  | Some (ExportDesc _ localName) =>
      let* variable := traceVariable this localName importer in
      let* _ :=
        match importer with
        | Some importer =>
            match variable with
            | Some variable =>
                let* _ := addSideEffectDependency importer variable this in
                setAlternativeExporterIfCyclic variable importer this
            | None => throw TYPE_ERROR
            end
        | None => ret ()
        end in
      ret ((variable, false), searched)
  | None =>
  if onlyExplicit o then ret ((None, false), searched)
  else
    let* (found, searched) :=
      if bool_decide (name ≠ "default") then
        let* (foundNamespaceReexport, searched) :=
          match namespaceReexportsByName m !! name with
          | Some cached => ret (cached, searched)
          | None => getVariableFromNamespaceReexports this name importer searched
          end in
        let* _ :=
          updateModule this (λ m,
            setNamespaceReexportsByName
              (<[name := foundNamespaceReexport]> (namespaceReexportsByName m)) m) in
        ret (match foundNamespaceReexport.1 with
             | Some _ => Some foundNamespaceReexport
             | None => None
             end, searched)
      else ret (None, searched) in
    match found with
    | Some foundNamespaceReexport => ret (foundNamespaceReexport, searched)
    | None =>
        let* m := getModule this in
        if truthyBoolOrString (info_syntheticNamedExports m) then
          match syntheticExports m !! name with
          | Some v => ret ((Some v, false), searched)
          | None =>
              let* _ := getSyntheticNamespace this in
              let* _ :=
                updateModule this (λ m,
                  setSyntheticExports
                    (<[name := SyntheticVar this name]> (syntheticExports m)) m) in
              ret ((Some (SyntheticVar this name), false), searched)
          end
        else if negb (isExportAllSearch o) && shimMissingExports options then
          (* no shims while probing export * modules *)
          let* _ := shimMissingExport options this name in
          ret ((Some (ExportShimVar this), false), searched)
        else ret ((None, false), searched)
    end
  end
  end.

(** [target.getVariableForExportName(name, options)], for a module of either
    class. *)
Definition getVariableForExportNameBody (this : ModuleId) (name : string) (o : Options)
    : M (Resolution * option Searched) :=
  let* m := getModule this in
  if isExternalModule m then
    ret (ExternalModule_getVariableForExportName this name, searchedNamesAndModules o)
  else
    match name with
    | String "*"%char "" =>
        (* export * from './other' *)
        ret ((Some (NamespaceVar this), false), searchedNamesAndModules o)
    | String "*"%char externalId =>
        (* export * from 'external' *)
        let* _ := getModule externalId in
        let* (resolution, _) := self externalId "*" EMPTY_OBJECT in
        ret (resolution, searchedNamesAndModules o)
    | _ => getVariableForRegularExportName this name o
    end.

End Resolution.

Fixpoint getVariableForExportName (options : InputOptions) (fuel : nat) : SelfType :=
  match fuel with
  | 0 => λ _ _ _ _, OutOfFuel
  | S fuel =>
      getVariableForExportNameBody options (getVariableForExportName options fuel)
  end.

End Resolver.

(** * Module: inclusion and relevant dependencies *)

Module Inclusion.

Import Resolver.

(** A variable object: an instance of [LocalVariable] (or of a subclass that
    inherits its methods), or an instance of a class outside the sources, of
    which the [included] flag is kept. *)
Inductive VariableObject :=
| LocalObject (v : LocalVariable.t)
| OtherObject (included : bool).

Definition objectIncluded (o : VariableObject) : bool :=
  match o with
  | LocalObject v => LocalVariable.included v
  | OtherObject b => b
  end.

(** Everything the inclusion phase mutates: the graph with its modules, the
    variable objects, the AST with its surroundings, and the flag asking for
    another tree-shaking pass. *)
Record Heap := mkHeap {
  graph : State;
  variables : gmap Var VariableObject;
  world : World;
  needsTreeshakingPass : bool
}.

Definition withGraph (h : Heap) (g : State) : Heap :=
  mkHeap g (variables h) (world h) (needsTreeshakingPass h).

Definition withVariables (h : Heap) (vs : gmap Var VariableObject) : Heap :=
  mkHeap (graph h) vs (world h) (needsTreeshakingPass h).

Definition withWorld (h : Heap) (w : World) : Heap :=
  mkHeap (graph h) (variables h) w (needsTreeshakingPass h).

Inductive Stop :=
| Thrown (e : Error)
| NoFuel.

(** How an operation ends.  After a normal completion the heap holds every
    write; after an abrupt one it holds the writes made to the heap before the
    operation of the resolver that threw (see [lift]). *)
Inductive Completion (A : Type) :=
| Normal (a : A)
| Abrupt (s : Stop).

Arguments Normal {A} a.
Arguments Abrupt {A} s.

Definition H (A : Type) := Heap → Completion A * Heap.

Definition hret {A} (a : A) : H A := λ h, (Normal a, h).

Definition hbind {A B} (c : H A) (k : A → H B) : H B :=
  λ h, match c h with
       | (Normal a, h) => k a h
       | (Abrupt s, h) => (Abrupt s, h)
       end.

Definition hthrow {A} (e : Error) : H A := λ h, (Abrupt (Thrown e), h).

Notation "'let+' x := c 'in' k" := (hbind c (λ x, k))
  (at level 10, x pattern, c at level 100, k at level 200).

(** Running an operation of the resolver on the graph of the heap.  An
    operation of the resolver that throws hands back no state: the heap of the
    throw is the heap before that operation, without the answers the failed
    probe had memoised in the modules it visited. *)
Definition lift {A} (c : M A) : H A :=
  λ h, match c (graph h) with
       | Ok a g => (Normal a, withGraph h g)
       | Throw e => (Abrupt (Thrown e), h)
       | OutOfFuel => (Abrupt NoFuel, h)
       end.

Fixpoint forEach {A} (xs : list A) (f : A → H unit) : H unit :=
  match xs with
  | [] => hret ()
  | x :: xs => let+ _ := f x in forEach xs f
  end.

Fixpoint foldM {A B} (f : B → A → M B) (b : B) (xs : list A) : M B :=
  match xs with
  | [] => ret b
  | x :: xs => let* b := f b x in foldM f b xs
  end.

(** The methods of the classes outside the sources that the module calls. *)
Record Collaborators := mkCollaborators {
  (** [variable.include()] of the other variable classes *)
  otherInclude : Var → Heap → Heap;
  (** [variable.deoptimizePath(path)] of the other variable classes *)
  otherDeoptimizePath : Var → ObjectPath → Heap → Heap;
  (** [SyntheticNamedExportVariable.getBaseVariable()] *)
  getBaseVariable : Var → Var;
  (** [ExportDefaultVariable.getOriginalVariable()] *)
  getOriginalVariable : Var → Var;
  (** [ExportDefaultVariable.getDirectOriginalVariable()] *)
  getDirectOriginalVariable : Var → option Var;
  (** [markModuleAndImpureDependenciesAsExecuted(module)] *)
  markModuleAndImpureDependenciesAsExecuted : ModuleId → State → State
}.

Definition variableIsIncluded (h : Heap) (v : Var) : bool :=
  match variables h !! v with
  | Some o => objectIncluded o
  | None => false
  end.

(** [a] is below [b] when every variable and every node included in [a] is
    included in [b]. *)
Definition heap_le (a b : Heap) : Prop :=
  (∀ v, variableIsIncluded a v = true → variableIsIncluded b v = true)
  ∧ store_le (nodes (world a)) (nodes (world b)).

(** The contract of the [include] and [deoptimizePath] methods outside the
    sources: no [included] flag is cleared. *)
Record CollaboratorsContract (C : Collaborators) : Prop := {
  otherInclude_le : ∀ v h, heap_le h (otherInclude C v h);
  otherDeoptimizePath_le : ∀ v path h, heap_le h (otherDeoptimizePath C v path h)
}.

Section Operations.

Variable options : InputOptions.
Variable E : Entities.
Variable C : Collaborators.

(** Reading a field of a variable object. *)
Definition getVariable (v : Var) : H VariableObject :=
  λ h, match variables h !! v with
       | Some o => (Normal o, h)
       | None => (Abrupt (Thrown TYPE_ERROR), h)
       end.

Definition variableIncluded (v : Var) : H bool :=
  let+ o := getVariable v in hret (objectIncluded o).

Definition statusCompletion (s : Status) : Completion unit :=
  match s with
  | Returned => Normal ()
  | Threw TypeError => Abrupt (Thrown TYPE_ERROR)
  | RanOutOfFuel => Abrupt NoFuel
  end.

(** [variable.include()], by the class of the object. *)
Definition variableInclude (v : Var) : H unit :=
  λ h, match variables h !! v with
       | Some (LocalObject lv) =>
           let '(lv, w, status) := LocalVariable.include E lv (world h) in
           (statusCompletion status,
            withWorld (withVariables h (<[v := LocalObject lv]> (variables h))) w)
       | Some (OtherObject _) => (Normal (), otherInclude C v h)
       | None => (Abrupt (Thrown TYPE_ERROR), h)
       end.

(** [variable.deoptimizePath(path)], by the class of the object. *)
Definition variableDeoptimizePath (v : Var) (path : ObjectPath) : H unit :=
  λ h, match variables h !! v with
       | Some (LocalObject lv) =>
           let '(lv, w) := LocalVariable.deoptimizePath path lv (world h) in
           (Normal (),
            withWorld (withVariables h (<[v := LocalObject lv]> (variables h))) w)
       | Some (OtherObject _) => (Normal (), otherDeoptimizePath C v path h)
       | None => (Abrupt (Thrown TYPE_ERROR), h)
       end.

(** [Module.hasEffects()].  [this.ast.included] is the flag of the program
    node in the node store and [this.ast.hasEffects(...)] the answer
    [entityHasEffects] gives for it; what the program writes while it answers
    is not represented, so the heap is returned as it was. *)
Definition hasEffects (this : ModuleId) : H bool :=
  let+ m := lift (getModule this) in
  if bool_decide (info_moduleSideEffects m = NoTreeshake) then hret true
  else
    match ast m with
    | None => hthrow TYPE_ERROR
    | Some program =>
        λ h, (Normal (isIncluded (nodes (world h)) program
                      && (entityHasEffects E (Entity program) createHasEffectsContext).1),
              h)
    end.

(** [Module.include()] *)
Definition include (this : ModuleId) : H unit :=
  let+ m := lift (getModule this) in
  match ast m with
  | None => hthrow TYPE_ERROR
  | Some program =>
      λ h,
        let context := createInclusionContext in
        if nodeShouldBeIncluded E program context (nodes (world h)) then
          (Normal (),
           withWorld h
             (logCalls
                (withNodes (world h)
                   (nodeInclude E program context IncludeFalse (nodes (world h))).1)
                [CallInclude program IncludeFalse]))
        else (Normal (), h)
  end.

(** [getExports()] *)
Definition getExports (m : Module) : list string := (exports m).*1.

Definition outOfFuel {A} : M A := λ _, OutOfFuel.

(** [getReexports()]; the empty list is stored before the star targets are
    visited, against circular [export *]. *)
Fixpoint getReexports (fuel : nat) (this : ModuleId) : M (list string) :=
  match fuel with
  | 0 => outOfFuel
  | S fuel =>
      let* m := getModule this in
      match transitiveReexports m with
      | Some reexports => ret reexports
      | None =>
          let* _ := updateModule this (setTransitiveReexports (Some [])) in
          let* reexports :=
            foldM
              (λ reexports module,
                 let* md := getModule module in
                 if isExternalModule md then ret (setAdd ("*" +:+ module) reexports)
                 else
                   let* names := getReexports fuel module in
                   ret (foldl
                          (λ reexports name,
                             if bool_decide (name ≠ "default") then setAdd name reexports
                             else reexports)
                          reexports (names ++ getExports md)))
              (foldl (λ s k, setAdd k s) [] (reexportDescriptions m).*1)
              (exportAllModules m) in
          let* _ := updateModule this (setTransitiveReexports (Some reexports)) in
          ret reexports
      end
  end.

Fixpoint hfoldM {A B} (f : B → A → H B) (b : B) (xs : list A) : H B :=
  match xs with
  | [] => hret b
  | x :: xs => let+ b := f b x in hfoldM f b xs
  end.

(** The two sets [addRelevantSideEffectDependencies] works on. *)
Record Traversal := mkTraversal {
  handledDependencies : list ModuleId;
  relevant : list ModuleId
}.

(** The local function [addSideEffectDependencies] of
    [addRelevantSideEffectDependencies]. *)
Fixpoint addSideEffectDependencies (fuel : nat)
    (necessaryDependencies alwaysCheckedDependencies : list ModuleId)
    (possibleDependencies : list ModuleId) (t : Traversal) : H Traversal :=
  match fuel with
  | 0 => λ h, (Abrupt NoFuel, h)
  | S fuel =>
      hfoldM
        (λ t dependency,
           if bool_decide (dependency ∈ handledDependencies t) then hret t
           else
             let t := mkTraversal (setAdd dependency (handledDependencies t)) (relevant t) in
             let keep := mkTraversal (handledDependencies t) (setAdd dependency (relevant t)) in
             if bool_decide (dependency ∈ necessaryDependencies) then hret keep
             else
               let+ d := lift (getModule dependency) in
               if negb (truthyModuleSideEffects (info_moduleSideEffects d)
                        || bool_decide (dependency ∈ alwaysCheckedDependencies))
               then hret t
               else if isExternalModule d then hret keep
               else
                 let+ effects := hasEffects dependency in
                 if effects then hret keep
                 else
                   addSideEffectDependencies fuel necessaryDependencies
                     alwaysCheckedDependencies (dependencies d) t)
        t possibleDependencies
  end.

Definition addRelevantSideEffectDependencies (fuel : nat) (this : ModuleId)
    (relevantDependencies : list ModuleId)
    (necessaryDependencies alwaysCheckedDependencies : list ModuleId)
    : H (list ModuleId) :=
  let+ m := lift (getModule this) in
  let+ t :=
    addSideEffectDependencies fuel necessaryDependencies alwaysCheckedDependencies
      (dependencies m) (mkTraversal [] relevantDependencies) in
  let+ t :=
    addSideEffectDependencies fuel necessaryDependencies alwaysCheckedDependencies
      alwaysCheckedDependencies t in
  hret (relevant t).

(** [variable instanceof ExportDefaultVariable] *)
Definition isExportDefaultVariable (v : Var) : bool :=
  match v with
  | ExportDefaultVar _ => true
  | _ => false
  end.

Definition addAll {A} `{EqDecision A} (xs : list A) (s : list A) : list A :=
  foldl (λ s x, setAdd x s) s xs.

(** One turn of the loop over [dependencyVariables] in
    [getDependenciesToBeIncluded]. *)
Definition recordDependencyVariable (m : Module) (acc : list ModuleId * list ModuleId)
    (variable : Var) : list ModuleId * list ModuleId :=
  let '(necessaryDependencies, alwaysCheckedDependencies) := acc in
  let alwaysCheckedDependencies :=
    match sideEffectDependenciesByVariable m !! variable with
    | Some sideEffectDependencies =>
        addAll sideEffectDependencies alwaysCheckedDependencies
    | None => alwaysCheckedDependencies
    end in
  let variable :=
    if isSyntheticNamedExportVariable variable then getBaseVariable C variable
    else if isExportDefaultVariable variable then getOriginalVariable C variable
    else variable in
  (setAdd (variableModule variable) necessaryDependencies, alwaysCheckedDependencies).

(** [getDependenciesToBeIncluded()] *)
Definition getDependenciesToBeIncluded (fuel : nat) (this : ModuleId)
    : H (list ModuleId) :=
  let+ m := lift (getModule this) in
  match relevantDependencies m with
  | Some cached => hret cached
  | None =>
      let+ _ := lift (updateModule this (setRelevantDependencies (Some []))) in
      let dependencyVariables := addAll (imports m) [] in
      let+ exposed :=
        if info_isEntry m || negb (bool_decide (includedDynamicImporters m = [])) then
          hret true
        else
          let+ namespaceIncluded := variableIncluded (NamespaceVar this) in
          hret (namespaceIncluded || negb (bool_decide (implicitlyLoadedAfter m = []))) in
      let+ dependencyVariables :=
        if exposed : bool then
          let+ reexports := lift (getReexports fuel this) in
          let+ m := lift (getModule this) in
          hfoldM
            (λ dependencyVariables exportName,
               let+ ((exportedVariable, _), _) :=
                 lift (getVariableForExportName options fuel this exportName
                         EMPTY_OBJECT) in
               hret (match exportedVariable with
                     | Some v => setAdd v dependencyVariables
                     | None => dependencyVariables
                     end))
            dependencyVariables (reexports ++ getExports m)
        else hret dependencyVariables in
      let+ m := lift (getModule this) in
      let '(necessaryDependencies, alwaysCheckedDependencies) :=
        foldl (recordDependencyVariable m) ([], []) dependencyVariables in
      let+ relevantDependencies :=
        if negb (treeshake options)
           || bool_decide (info_moduleSideEffects m = NoTreeshake)
        then hret (addAll (dependencies m) [])
        else
          addRelevantSideEffectDependencies fuel this [] necessaryDependencies
            alwaysCheckedDependencies in
      let relevantDependencies := addAll necessaryDependencies relevantDependencies in
      let+ _ :=
        lift (updateModule this (setRelevantDependencies (Some relevantDependencies))) in
      hret relevantDependencies
  end.

(** [updateOptions({ moduleSideEffects, syntheticNamedExports })]; [null] and
    [undefined] leave an option as it is. *)
Definition updateOptions (this : ModuleId) (moduleSideEffects : option ModuleSideEffects)
    (syntheticNamedExports : option BoolOrString) : M unit :=
  let* _ :=
    match moduleSideEffects with
    | Some x => updateModule this (setInfo_moduleSideEffects x)
    | None => ret ()
    end in
  match syntheticNamedExports with
  | Some x => updateModule this (setInfo_syntheticNamedExports x)
  | None => ret ()
  end.

(** The [while (true)] loop of [getAndExtendSideEffectModules]. *)
Fixpoint extendSideEffectModules (fuel : nat) (currentVariable : Var)
    (referencedVariables : list Var) (sideEffectModules : list ModuleId)
    : M (list ModuleId) :=
  match fuel with
  | 0 => outOfFuel
  | S fuel =>
      let importingModule := variableModule currentVariable in
      let* next :=
        match currentVariable with
        | ExportDefaultVar _ => ret (getDirectOriginalVariable C currentVariable)
        | SyntheticVar m _ =>
            let* md := getModule m in
            ret (match syntheticNamespace md with
                 | NsVariable v => Some v
                 | _ => None
                 end)
        | _ => ret None
        end in
      match next with
      | None => ret sideEffectModules
      | Some currentVariable =>
          if bool_decide (currentVariable ∈ referencedVariables) then ret sideEffectModules
          else
            let* im := getModule importingModule in
            extendSideEffectModules fuel currentVariable
              (referencedVariables ++ [currentVariable])
              (addAll
                 (default [] (sideEffectDependenciesByVariable im !! currentVariable))
                 (setAdd importingModule sideEffectModules))
      end
  end.

(** [getAndExtendSideEffectModules(variable, module)]; the set returned is the
    one stored in [module.sideEffectDependenciesByVariable]. *)
Definition getAndExtendSideEffectModules (fuel : nat) (variable : Var) (module : ModuleId)
    : M (list ModuleId) :=
  let* m := getModule module in
  let* sideEffectModules :=
    extendSideEffectModules fuel variable [variable]
      (default [] (sideEffectDependenciesByVariable m !! variable)) in
  let* _ :=
    updateModule module (λ m,
      setSideEffectDependenciesByVariable
        (<[variable := sideEffectModules]> (sideEffectDependenciesByVariable m)) m) in
  ret sideEffectModules.

Definition markExecuted (module : ModuleId) : H unit :=
  λ h, (Normal (), withGraph h (markModuleAndImpureDependenciesAsExecuted C module (graph h))).

Definition markExecutedIfNeeded (module : ModuleId) : H unit :=
  let+ m := lift (getModule module) in
  if isExecuted m then hret () else markExecuted module.

Definition requestTreeshakingPass : H unit :=
  λ h, (Normal (), mkHeap (graph h) (variables h) (world h) true).

(** [includeVariable(variable)] *)
Definition includeVariable (fuel : nat) (this : ModuleId) (variable : Var) : H unit :=
  let+ included := variableIncluded variable in
  if included then hret ()
  else
    let+ _ := variableInclude variable in
    let+ _ := requestTreeshakingPass in
    let+ variableModuleRecord := lift (lookupModule (variableModule variable)) in
    match variableModuleRecord with
    | Some vm =>
        if isExternalModule vm then hret ()
        else
          let+ _ := markExecutedIfNeeded (variableModule variable) in
          if bool_decide (variableModule variable ≠ this) then
            let+ sideEffectModules :=
              lift (getAndExtendSideEffectModules fuel variable this) in
            forEach sideEffectModules markExecutedIfNeeded
          else hret ()
    | None => hret ()
    end.

(** [includeVariableInModule(variable)] *)
Definition includeVariableInModule (fuel : nat) (this : ModuleId) (variable : Var)
    : H unit :=
  let+ _ := includeVariable fuel this variable in
  if bool_decide (variableModule variable ≠ this) then
    lift (updateModule this (λ m, setImports (setAdd variable (imports m)) m))
  else hret ().

(** ** The operations of the inclusion phase as a transition system *)

Inductive Op :=
| OpVariableInclude (v : Var)
| OpVariableDeoptimizePath (v : Var) (path : ObjectPath)
| OpLocalVariable (v : Var) (op : LocalVariable.Op)
| OpSequenceInclude (s : SequenceExpression.t) (context : InclusionContext)
    (includeChildrenRecursively : IncludeChildren)
| OpModuleInclude (module : ModuleId)
| OpIncludeVariable (fuel : nat) (module : ModuleId) (v : Var)
| OpIncludeVariableInModule (fuel : nat) (module : ModuleId) (v : Var)
| OpGetDependenciesToBeIncluded (fuel : nat) (module : ModuleId)
| OpHasEffects (module : ModuleId).

(** The heap an operation leaves, however it ends. *)
Definition step (op : Op) (h : Heap) : Heap :=
  match op with
  | OpVariableInclude v => (variableInclude v h).2
  | OpVariableDeoptimizePath v path => (variableDeoptimizePath v path h).2
  | OpLocalVariable v op =>
      match variables h !! v with
      | Some (LocalObject lv) =>
          let '(lv, w) := LocalVariable.step E op (lv, world h) in
          withWorld (withVariables h (<[v := LocalObject lv]> (variables h))) w
      | _ => h
      end
  | OpSequenceInclude s context r =>
      withWorld h (SequenceExpression.include E context r s (world h)).1
  | OpModuleInclude module => (include module h).2
  | OpIncludeVariable fuel module v => (includeVariable fuel module v h).2
  | OpIncludeVariableInModule fuel module v => (includeVariableInModule fuel module v h).2
  | OpGetDependenciesToBeIncluded fuel module =>
      (getDependenciesToBeIncluded fuel module h).2
  | OpHasEffects module => (hasEffects module h).2
  end.

Definition run (ops : list Op) (h : Heap) : Heap :=
  foldl (λ h op, step op h) h ops.

End Operations.

End Inclusion.

(** * Module: analysis and linking of the import and export descriptors *)

Module Linking.

Import Resolver.

(** The fields of a module that only analysis and linking use: the sources
    named by its import and export statements, those of its [export * from]
    statements, and for each source the id it was resolved to
    ([resolvedIds[source].id]). *)
Record Sources := mkSources {
  sources : list string;
  exportAllSources : list string;
  resolvedIds : gmap string ModuleId
}.

(** The export statements as [addExport] reads them.  A specifier is
    [local as exported]; a variable declaration is given by the names each of
    its declarators assigns ([extractAssignedNames(declarator.id)]), any other
    declaration by the name of its [id]. *)
Record ExportSpecifier := mkExportSpecifier {
  specifier_local : string;
  specifier_exported : string;
  specifier_start : nat
}.

Inductive Declaration :=
| VariableDeclaration (declarators : list (list string))
| OtherDeclaration (idName : string).

Inductive ExportNode :=
| ExportDefaultDeclaration (assignedVariableName : option string)
| ExportAllDeclaration (source : string) (exported : option string) (start : nat)
| ExportNamedDeclaration (source : option string) (specifiers : list ExportSpecifier)
    (declaration : option Declaration).

(** [addExport(node)] *)
Definition addExport (node : ExportNode) (ms : Module * Sources) : Module * Sources :=
  let '(m, s) := ms in
  match node with
  | ExportDefaultDeclaration assignedVariableName =>
      (* export default foo; *)
      (setExports (mapSet "default" (ExportDesc assignedVariableName "default") (exports m)) m,
       s)
  | ExportAllDeclaration source exported start =>
      let s := mkSources (setAdd source (sources s)) (exportAllSources s) (resolvedIds s) in
      match exported with
      | Some name =>
          (* export * as name from './other' *)
          (setReexportDescriptions
             (mapSet name (mkReexportDescription "*" None source start)
                (reexportDescriptions m)) m,
           s)
      | None =>
          (* export * from './other' *)
          (m, mkSources (sources s) (setAdd source (exportAllSources s)) (resolvedIds s))
      end
  | ExportNamedDeclaration (Some source) specifiers _ =>
      (* export { name } from './other' *)
      (setReexportDescriptions
         (foldl
            (λ descriptions specifier,
               mapSet (specifier_exported specifier)
                 (mkReexportDescription (specifier_local specifier) None source
                    (specifier_start specifier))
                 descriptions)
            (reexportDescriptions m) specifiers) m,
       mkSources (setAdd source (sources s)) (exportAllSources s) (resolvedIds s))
  | ExportNamedDeclaration None _ (Some declaration) =>
      match declaration with
      | VariableDeclaration declarators =>
          (* export var { foo, bar } = ...   export var foo = 1, bar = 2; *)
          (setExports
             (foldl
                (λ exports declarator,
                   foldl (λ exports localName,
                            mapSet localName (ExportDesc None localName) exports)
                     exports declarator)
                (exports m) declarators) m,
           s)
      | OtherDeclaration localName =>
          (* export function foo () {} *)
          (setExports (mapSet localName (ExportDesc None localName) (exports m)) m, s)
      end
  | ExportNamedDeclaration None specifiers None =>
      (* export { foo, bar, baz } *)
      (setExports
         (foldl
            (λ exports specifier,
               mapSet (specifier_exported specifier)
                 (ExportDesc None (specifier_local specifier)) exports)
            (exports m) specifiers) m,
       s)
  end.

(** The import statements as [addImport] reads them. *)
Inductive ImportSpecifierType :=
| ImportDefaultSpecifier
| ImportNamespaceSpecifier
| ImportSpecifier.

Record ImportSpecifierNode := mkImportSpecifierNode {
  specifier_type : ImportSpecifierType;
  specifier_imported : string;
  specifier_localName : string;
  specifier_position : nat
}.

Record ImportDeclaration := mkImportDeclaration {
  declaration_source : string;
  declaration_specifiers : list ImportSpecifierNode
}.

(** [addImport(node)] *)
Definition addImport (node : ImportDeclaration) (ms : Module * Sources)
    : Module * Sources :=
  let '(m, s) := ms in
  let source := declaration_source node in
  (setImportDescriptions
     (foldl
        (λ descriptions specifier,
           let name :=
             match specifier_type specifier with
             | ImportDefaultSpecifier => "default"
             | ImportNamespaceSpecifier => "*"
             | ImportSpecifier => specifier_imported specifier
             end in
           mapSet (specifier_localName specifier)
             (mkImportDescription None name source (specifier_position specifier))
             descriptions)
        (importDescriptions m) (declaration_specifiers node)) m,
   mkSources (setAdd source (sources s)) (exportAllSources s) (resolvedIds s)).

(** [this.graph.modulesById.get(this.resolvedIds[source].id)]: reading [id]
    of a source that was not resolved throws; a module that is not in the
    graph is [undefined]. *)
Definition resolvedModule (s : Sources) (source : string) : M (ModuleId * option Module) :=
  match resolvedIds s !! source with
  | Some id =>
      let* md := lookupModule id in
      ret (id, md)
  | None => throw TYPE_ERROR
  end.

(** The module reference a descriptor is given. *)
Definition moduleReference (resolved : ModuleId * option Module) : option ModuleId :=
  match resolved.2 with
  | Some _ => Some resolved.1
  | None => None
  end.

(** [addModulesToImportDescriptions(this.importDescriptions)] *)
Fixpoint linkImportDescriptions (s : Sources)
    (descriptions : OrderedMap string ImportDescription)
    : M (OrderedMap string ImportDescription) :=
  match descriptions with
  | [] => ret []
  | (name, specifier) :: descriptions =>
      let* resolved := resolvedModule s (import_source specifier) in
      let* descriptions := linkImportDescriptions s descriptions in
      ret ((name,
            mkImportDescription (moduleReference resolved) (import_name specifier)
              (import_source specifier) (import_start specifier))
           :: descriptions)
  end.

(** [addModulesToImportDescriptions(this.reexportDescriptions)] *)
Fixpoint linkReexportDescriptions (s : Sources)
    (descriptions : OrderedMap string ReexportDescription)
    : M (OrderedMap string ReexportDescription) :=
  match descriptions with
  | [] => ret []
  | (name, specifier) :: descriptions =>
      let* resolved := resolvedModule s (reexport_source specifier) in
      let* descriptions := linkReexportDescriptions s descriptions in
      ret ((name,
            mkReexportDescription (reexport_localName specifier)
              (moduleReference resolved) (reexport_source specifier)
              (reexport_start specifier))
           :: descriptions)
  end.

(** The loop of [linkImports] over [this.exportAllSources]: internal modules
    are pushed to [this.exportAllModules] at once, external ones collected. *)
Fixpoint linkExportAllSources (this : ModuleId) (s : Sources) (exportAll : list string)
    (externalExportAllModules : list ModuleId) : M (list ModuleId) :=
  match exportAll with
  | [] => ret externalExportAllModules
  | source :: exportAll =>
      let* (id, module) := resolvedModule s source in
      if match module with Some md => isExternalModule md | None => false end then
        linkExportAllSources this s exportAll (externalExportAllModules ++ [id])
      else
        let* _ :=
          updateModule this (λ m, setExportAllModules (exportAllModules m ++ [id]) m) in
        linkExportAllSources this s exportAll externalExportAllModules
  end.

(** [linkImports()] *)
Definition linkImports (this : ModuleId) (s : Sources) : M unit :=
  let* m := getModule this in
  let* importDescriptions := linkImportDescriptions s (importDescriptions m) in
  let* _ := updateModule this (setImportDescriptions importDescriptions) in
  let* reexportDescriptions := linkReexportDescriptions s (reexportDescriptions m) in
  let* _ := updateModule this (setReexportDescriptions reexportDescriptions) in
  let* externalExportAllModules :=
    linkExportAllSources this s (exportAllSources s) [] in
  updateModule this
    (λ m, setExportAllModules (exportAllModules m ++ externalExportAllModules) m).

(** [info.hasDefaultExport]: [null] before the module was parsed. *)
Definition hasDefaultExport (m : Module) : option bool :=
  match ast m with
  | None => None
  | Some _ =>
      Some (bool_decide (is_Some (mapGet "default" (exports m)))
            || bool_decide (is_Some (mapGet "default" (reexportDescriptions m))))
  end.

End Linking.

(** * Module: the exports that are rendered *)

Module Rendering.

Import Resolver Inclusion.

(** The loop of [getRenderedExports] from the [i]-th key of [this.exports]
    on.  The keys are read from the map as it is when the loop gets there: an
    entry added to the map while the loop runs is visited as well. *)
Fixpoint renderedExportsFrom (options : InputOptions) (fuel steps : nat)
    (this : ModuleId) (i : nat) (renderedExports removedExports : list string)
    : H (list string * list string) :=
  match steps with
  | 0 => λ h, (Abrupt NoFuel, h)
  | S steps =>
      let+ m := lift (getModule this) in
      match getExports m !! i with
      | None => hret (removedExports, renderedExports)
      | Some exportName =>
          let+ ((variable, _), _) :=
            lift (getVariableForExportName options fuel this exportName EMPTY_OBJECT) in
          let+ included :=
            match variable with
            | Some v => variableIncluded v
            | None => hret false
            end in
          if included : bool then
            renderedExportsFrom options fuel steps this (S i)
              (renderedExports ++ [exportName]) removedExports
          else
            renderedExportsFrom options fuel steps this (S i)
              renderedExports (removedExports ++ [exportName])
      end
  end.

(** [getRenderedExports()]: the pair [{ removedExports, renderedExports }]. *)
Definition getRenderedExports (options : InputOptions) (fuel steps : nat)
    (this : ModuleId) : H (list string * list string) :=
  renderedExportsFrom options fuel steps this 0 [] [].

End Rendering.

(** * Example programs *)

Module Examples.

(** Entities whose answers are fixed: every initialiser is the literal [1],
    calls return the callee, and nothing has effects; [include] sets the flag
    of the node. *)
Definition entities : Entities :=
  mkEntities
    (λ _ _ _ _, Known (LitNumber 1))
    (λ e _ _ _ _, e)
    (λ _ _ context, (false, context))
    (λ _ _ context, (false, context))
    (λ _ _ _ context, (false, context))
    (λ _ context, (false, context))
    (λ n context _ ns, (setIncluded n ns, context))
    (λ n _ ns, isIncluded ns n)
    (λ _ context _ ns, (ns, context)).

(** [var x = 1;] as the only statement of a program: the program (0), the
    declaration (1), the declarator (2), the identifier (3), the literal (4),
    nothing included yet. *)
Definition declarationNodes : NodeStore :=
  list_to_map
    [(0, mkNode false None Program);
     (1, mkNode false (Some 0) (OtherNode "VariableDeclaration"));
     (2, mkNode false (Some 1) (OtherNode "VariableDeclarator"));
     (3, mkNode false (Some 2) (OtherNode "Identifier"));
     (4, mkNode false (Some 2) (OtherNode "Literal"))].

Definition declarationWorld : World := mkWorld declarationNodes [] [].

(** The variable [x] of that program. *)
Definition x : LocalVariable.t := LocalVariable.new "x" (Some 3) (Some (Entity 4)).

(** [x] after an assignment to it was seen. *)
Definition xReassigned : LocalVariable.t :=
  (LocalVariable.deoptimizePath [] x declarationWorld).1.

Definition someCall : CallOptions := mkCallOptions false 9.

(** [(a(), b)] as the argument of a call: the call (10), the sequence (11),
    its expressions (12) and (13). *)
Definition sequenceNodes : NodeStore :=
  list_to_map
    [(10, mkNode false None (OtherNode "CallExpression"));
     (11, mkNode false (Some 10) SequenceExpressionT);
     (12, mkNode false (Some 11) (OtherNode "CallExpression"));
     (13, mkNode false (Some 11) (OtherNode "Identifier"))].

Definition sequenceWorld : World := mkWorld sequenceNodes [] [].

Definition sequence : SequenceExpression.t := SequenceExpression.mk 11 [12; 13].

Import Resolver.

(** The ids of the examples are not absolute paths; [relativeId] leaves such
    ids as they are. *)
Definition inputOptions : InputOptions := mkInputOptions false true (λ id, id).

(** [export * from] a module; the module lists are as [linkImports] leaves
    them, internal modules first. *)
Definition exportingAllOf (targets : list ModuleId) (m : Module) : Module :=
  setExportAllModules targets m.

(** [export { name } from source] *)
Definition reexporting (name : string) (source : ModuleId) (m : Module) : Module :=
  setReexportDescriptions
    (mapSet name (mkReexportDescription name (Some source) source 0)
       (reexportDescriptions m)) m.

(** [export const name = ...] *)
Definition exportingLocal (name : string) (m : Module) : Module :=
  setScope_variables (<[name := LocalVar (id m) name]> (scope_variables m))
    (setExports (mapSet name (ExportDesc None name) (exports m)) m).

(** [export default ...] *)
Definition exportingDefault (m : Module) : Module :=
  setScope_variables (<["default" := ExportDefaultVar (id m)]> (scope_variables m))
    (setExports (mapSet "default" (ExportDesc None "default") (exports m)) m).

Definition plainModule (id : ModuleId) : Module :=
  newModule id false (SideEffects true) (OfBool false).

(** A namespace re-exported along two paths:
    [t.js: export * from './m']
    [m.js: export * from './a'; export * from 'ext']
    [a.js: export * from 'ext'] *)
Definition sharedExternal : State :=
  newGraph
    [exportingAllOf ["m"] (plainModule "t");
     exportingAllOf ["a"; "ext"] (plainModule "m");
     exportingAllOf ["ext"] (plainModule "a");
     newExternalModule "ext" (SideEffects true)].

(** [a.js: export { x } from './b'], [b.js: export { x } from './a'] *)
Definition circularReexport : State :=
  newGraph
    [reexporting "x" "b" (plainModule "a");
     reexporting "x" "a" (plainModule "b")].

(** [a.js: export const k = 1], [b.js: export const k = 2],
    [m.js: export * from './a'; export * from './b'] *)
Definition starConflict : State :=
  newGraph
    [exportingLocal "k" (plainModule "a");
     exportingLocal "k" (plainModule "b");
     exportingAllOf ["a"; "b"] (plainModule "m")].

(** [s.js] has [syntheticNamedExports = true] and a default export,
    [r.js: export const x = 1],
    [m.js: export * from './s'], [n.js: export * from './s'; export * from './r'] *)
Definition syntheticFallback : State :=
  newGraph
    [exportingDefault (newModule "s" false (SideEffects true) (OfBool true));
     exportingLocal "x" (plainModule "r");
     exportingAllOf ["s"] (plainModule "m");
     exportingAllOf ["s"; "r"] (plainModule "n")].

Import Inclusion.

(** Collaborators that do the least their contracts ask for: [include] sets
    the flag of the variable, marking a module executed sets its flag. *)
Definition collaborators : Collaborators :=
  mkCollaborators
    (λ v h, withVariables h (<[v := OtherObject true]> (variables h)))
    (λ _ _ h, h)
    (λ v, v)
    (λ v, v)
    (λ _, None)
    (λ m st, mkState (alter (setIsExecuted true) m (modulesById st)) (warnings st)).

(** Entities for which the program (node 0) has effects. *)
Definition effectfulEntities : Entities :=
  mkEntities
    (entityGetLiteralValueAtPath entities)
    (entityGetReturnExpressionWhenCalledAtPath entities)
    (entityHasEffectsWhenAccessedAtPath entities)
    (entityHasEffectsWhenAssignedAtPath entities)
    (entityHasEffectsWhenCalledAtPath entities)
    (λ e context, (bool_decide (e = Entity 0), context))
    (nodeInclude entities)
    (nodeShouldBeIncluded entities)
    (entityIncludeCallArguments entities).

(** [main.js] is marked ["no-treeshake"] and imports [./dep] and [ext] without
    using a binding of either; [lib.js: var x = 1; export { x }] is the
    program of [declarationNodes]. *)
Definition mainModule : Module :=
  setDependencies ["dep"; "ext"] (newModule "main" false NoTreeshake (OfBool false)).

Definition libModule : Module :=
  setAst (Some 0) (exportingLocal "x" (plainModule "lib")).

Definition bundleGraph : State :=
  newGraph
    [mainModule; plainModule "dep"; newExternalModule "ext" (SideEffects true); libModule].

Definition bundle : Heap :=
  mkHeap bundleGraph
    (list_to_map
       [(NamespaceVar "main", OtherObject false);
        (NamespaceVar "lib", OtherObject false);
        (LocalVar "lib" "x", LocalObject x)])
    declarationWorld false.

(** The same bundle once [x] was included. *)
Definition bundleWithX : Heap :=
  (includeVariable entities collaborators 4 "main" (LocalVar "lib" "x") bundle).2.

End Examples.

(** * More example programs *)

Module Scenarios.

Import Resolver Inclusion Linking Examples.

(** [a.js: export const x = 1] and [b.js: export { x } from './a'] import
    each other and so share the cycle [1]; [i.js] imports [x] from [./b]. *)
Definition cyclicReexport : State :=
  newGraph
    [setCycles {[1]} (exportingLocal "x" (plainModule "a"));
     setCycles {[1]} (reexporting "x" "a" (plainModule "b"));
     plainModule "i"].

(** [relativeId] for a build whose working directory is the root [/]: an
    absolute id loses its leading slash, any other id is left as it is. *)
Definition relativeToRoot (id : ModuleId) : string :=
  match id with
  | String "/"%char rest => rest
  | _ => id
  end.

(** The options of a bundle that shims missing exports, built in [/]. *)
Definition shimmingOptions : InputOptions := mkInputOptions true true relativeToRoot.

(** Modules under absolute ids:
    [/src/a.js: export * from './b'], parsed; [/src/b.js: export default ...] *)
Definition absoluteStar : State :=
  newGraph
    [setAst (Some 0) (exportingAllOf ["/src/b.js"] (plainModule "/src/a.js"));
     exportingDefault (plainModule "/src/b.js")].

(** [s.js] has [syntheticNamedExports = true] and no default export of its
    own, only [export * from './d'] where [d.js] has one. *)
Definition syntheticWithoutFallback : State :=
  newGraph
    [exportingAllOf ["d"] (newModule "s" false (SideEffects true) (OfBool true));
     exportingDefault (plainModule "d")].

(** [a.js: export { y } from './c'; export * from './b'; export * from 'ext']
    [b.js: export const k = 1; export default ...; export * from './a']
    [c.js: export const y = 1] *)
Definition circularStars : State :=
  newGraph
    [exportingAllOf ["b"; "ext"] (reexporting "y" "c" (plainModule "a"));
     exportingAllOf ["a"] (exportingDefault (exportingLocal "k" (plainModule "b")));
     exportingLocal "y" (plainModule "c");
     newExternalModule "ext" (SideEffects true)].

(** The graph [syntheticFallback] once the name [y] was resolved on [s.js]:
    [y] is a synthetic export of [s.js], whose synthetic namespace is its
    default export. *)
Definition syntheticResolved : State :=
  match getVariableForExportName inputOptions 8 "s" "y" EMPTY_OBJECT syntheticFallback with
  | Ok _ st => st
  | _ => syntheticFallback
  end.

(** A module with synthetic named exports in a circle of [export *]:
    [t.js: export * from './u'], [m.js: export * from './a'],
    [u.js: export * from './a'; export * from './c'],
    [a.js: export * from './u'; export default ...] with
    [syntheticNamedExports = true], [c.js: export const x = 1] *)
Definition circularSynthetic : State :=
  newGraph
    [exportingAllOf ["u"] (plainModule "t");
     exportingAllOf ["a"] (plainModule "m");
     exportingAllOf ["a"; "c"] (plainModule "u");
     exportingAllOf ["u"]
       (exportingDefault (newModule "a" false (SideEffects true) (OfBool true)));
     exportingLocal "x" (plainModule "c")].

(** [a.js: export * from './b'], parsed; [b.js: export default ...] *)
Definition starOverDefault : State :=
  newGraph
    [setAst (Some 0) (exportingAllOf ["b"] (plainModule "a"));
     exportingDefault (plainModule "b")].

(** The bundle once [x] was included, with two more modules:
    [app.js] imports [./lib], [./pure] and [ext] without using a binding;
    [pure.js] is marked free of side effects. *)
Definition shaken : Heap :=
  withGraph bundleWithX
    (mkState
       (<["app" := setDependencies ["lib"; "pure"; "ext"] (plainModule "app")]>
          (<["pure" := newModule "pure" false (SideEffects false) (OfBool false)]>
             (modulesById (graph bundleWithX))))
       (warnings (graph bundleWithX))).

(** The same bundle with [user.js], which uses the binding [x] of [./lib]. *)
Definition importing : Heap :=
  withVariables
    (withGraph bundleWithX
       (mkState
          (<["user" := setImports [LocalVar "lib" "x"] (plainModule "user")]>
             (modulesById (graph bundleWithX)))
          (warnings (graph bundleWithX))))
    (<[NamespaceVar "user" := OtherObject false]> (variables bundleWithX)).

(** [m.js] before it is analysed, [o.js: export const v = 1] and an external
    module; in [m.js] the source ['./o'] was resolved to [o], ['ext'] to
    [ext]. *)
Definition unlinked : State :=
  newGraph
    [plainModule "m"; exportingLocal "v" (plainModule "o");
     newExternalModule "ext" (SideEffects true)].

Definition resolvedSources : Sources :=
  mkSources [] [] (list_to_map [("./o", "o"); ("ext", "ext")]).

(** [export * from 'ext'; export * from './o'] *)
Definition starExports : Module * Sources :=
  addExport (ExportAllDeclaration "./o" None 20)
    (addExport (ExportAllDeclaration "ext" None 0) (plainModule "m", resolvedSources)).

(** [import { v as w } from './o'] *)
Definition namedImport : ImportDeclaration :=
  mkImportDeclaration "./o" [mkImportSpecifierNode ImportSpecifier "v" "w" 9].

(** [main.js], an entry marked ["no-treeshake"]: [export const k = 1], with
    imports of [./dep] and [ext] that bind nothing. *)
Definition entryMain : Module :=
  exportingLocal "k"
    (setDependencies ["dep"; "ext"] (newModule "main" true NoTreeshake (OfBool false))).

Definition entryBundle : Heap :=
  mkHeap
    (newGraph [entryMain; plainModule "dep"; newExternalModule "ext" (SideEffects true)])
    (list_to_map [(NamespaceVar "main", OtherObject false)])
    declarationWorld false.

(** [main.js], an entry marked ["no-treeshake"]: [export { x } from './dep'],
    where [dep.js] exports nothing. *)
Definition brokenMain : Module :=
  reexporting "x" "dep"
    (setDependencies ["dep"] (newModule "main" true NoTreeshake (OfBool false))).

Definition brokenBundle : Heap :=
  mkHeap (newGraph [brokenMain; plainModule "dep"])
    (list_to_map [(NamespaceVar "main", OtherObject false)])
    declarationWorld false.

(** [lib.js: var x = 1; export { x }; console.log("hi");]: the nodes of
    [declarationNodes] and the call statement (5), nothing included yet. *)
Definition loggingNodes : NodeStore :=
  <[5 := mkNode false (Some 0) ExpressionStatement]> declarationNodes.

(** The call of the unknown global [console.log] has effects. *)
Definition callHasEffects (n : NodeId) : bool := bool_decide (n = 5).

(** Modelled from the spec: [Program.hasEffects] is not among the sources.  By
    the scenario [Side-effect module] of the specification a module whose only
    statement [console.log("hi")] is excluded still has effects because of the
    unknown-global call, so the program asks the statements of its body
    whether they are included or not. *)
Definition programHasEffects (body : list NodeId) : bool := existsb callHasEffects body.

(** The entities of that program: the program (0) with the body [1; 5]; a
    node should be included when it is included or has effects. *)
Definition loggingEntities : Entities :=
  mkEntities
    (entityGetLiteralValueAtPath entities)
    (entityGetReturnExpressionWhenCalledAtPath entities)
    (entityHasEffectsWhenAccessedAtPath entities)
    (entityHasEffectsWhenAssignedAtPath entities)
    (entityHasEffectsWhenCalledAtPath entities)
    (λ e context,
       (match e with
        | Entity 0 => programHasEffects [1; 5]
        | Entity n => callHasEffects n
        | UNKNOWN_EXPRESSION => false
        end, context))
    (nodeInclude entities)
    (λ n _ ns,
       isIncluded ns n
       || match n with 0 => programHasEffects [1; 5] | _ => callHasEffects n end)
    (entityIncludeCallArguments entities).

(** The bundle of [Examples.bundle] with that program for [lib.js], once [x]
    was included: the declaration and the program are included, the call
    statement is not. *)
Definition loggingBundle : Heap :=
  (includeVariable loggingEntities collaborators 4 "main" (LocalVar "lib" "x")
     (mkHeap bundleGraph (variables bundle) (mkWorld loggingNodes [] []) false)).2.

End Scenarios.

(** * Invariants used in the proofs *)

Module Invariants.

(** ** Local variables *)

(** The fields the value queries may write: only the list of expressions to
    deoptimize grows. *)
Definition sameFlags (v v' : LocalVariable.t) : Prop :=
  LocalVariable.included v' = LocalVariable.included v
  ∧ LocalVariable.isReassigned v' = LocalVariable.isReassigned v
  ∧ LocalVariable.init v' = LocalVariable.init v.

(** Additional initialisers are pending only for a variable that was marked:
    it is then reassigned and its initialiser is the unknown expression. *)
Definition marked (v : LocalVariable.t) : Prop :=
  LocalVariable.additionalInitializers v ≠ None →
  LocalVariable.isReassigned v = true
  ∧ LocalVariable.init v = Some UNKNOWN_EXPRESSION.

(** The number of nodes that are not included: what the walk over the
    ancestors of a declaration decreases. *)
Definition pending (ns : NodeStore) : nat :=
  size (filter (λ kv : NodeId * Node, node_included kv.2 = false) ns).

(** ** Sequences *)

(** The state in which the loop of [include] starts. *)
Definition started (s : SequenceExpression.t) (w : World) : World :=
  withNodes w (setIncluded (SequenceExpression.self s) (nodes w)).

(** ** Resolution *)

Import Resolver.

(** [null] or an external variable. *)
Definition externalOrNull (v : option Var) : bool :=
  match v with
  | Some v => isExternalVariable v
  | None => true
  end.

(** A resolution flagged [indirectExternal] carries an external variable or
    [null]. *)
Definition flagOk (r : Resolution) : bool := negb r.2 || externalOrNull r.1.

(** The memoised star resolutions of every module are of that kind. *)
Definition cachesOk (st : State) : Prop :=
  map_Forall
    (λ _ md, map_Forall (λ _ r, flagOk r = true) (namespaceReexportsByName md))
    (modulesById st).

Global Instance cachesOk_dec st : Decision (cachesOk st).
Proof. unfold cachesOk. apply _. Defined.

(** Operations that leave the kind and the caches of the modules alone. *)
Definition sameCaches (st st' : State) : Prop :=
  ∀ m, (λ md, (isExternalModule md, namespaceReexportsByName md)) <$> modulesById st !! m
     = (λ md, (isExternalModule md, namespaceReexportsByName md)) <$> modulesById st' !! m.

(** What the loop over the star targets has collected is well sorted: the
    external declarations are external variables or [null], the internal ones
    are not synthetic, the synthetic one is. *)
Definition foundOk (f : Found) : Prop :=
  Forall (λ d, externalOrNull d = true) (foundExternalDeclarations f)
  ∧ Forall (λ d, isSyntheticNamedExportVariable d.1 = false) (foundInternalDeclarations f)
  ∧ (∀ v, foundSyntheticDeclaration f = Some v → isSyntheticNamedExportVariable v = true).

(** What a call of [getVariableForExportName] on [target] must satisfy. *)
Definition callOk (st : State) (target : ModuleId)
    (out : Outcome (Resolution * option Searched)) : Prop :=
  match out with
  | Ok (r, _) st' =>
      cachesOk st' ∧ flagOk r = true
      ∧ (∀ md, modulesById st !! target = Some md → isExternalModule md = true →
               externalOrNull r.1 = true)
  | _ => True
  end.

Definition selfOk (self : SelfType) : Prop :=
  ∀ st target name o, cachesOk st → callOk st target (self target name o st).

(** A triple for operations that keep the caches well sorted: if the
    operation returns, the caches still are and the result satisfies [Q]. *)
Definition post {A} (c : M A) (Q : A → Prop) : Prop :=
  ∀ st a st', cachesOk st → c st = Ok a st' → cachesOk st' ∧ Q a.

Definition flagged (x : Resolution * option Searched) : Prop := flagOk x.1 = true.

(** The fields of a module that are fixed once the graph is linked. *)
Definition linked (md : Module)
    : bool * ModuleSideEffects * BoolOrString * list ModuleId * list ModuleId :=
  (isExternalModule md, info_moduleSideEffects md, info_syntheticNamedExports md,
   dependencies md, exportAllModules md).

Definition sameLinks (st st' : State) : Prop :=
  ∀ m, linked <$> modulesById st !! m = linked <$> modulesById st' !! m.

(** An operation that, when it returns, has left those fields alone. *)
Definition frames {A} (c : M A) : Prop :=
  ∀ st a st', c st = Ok a st' → sameLinks st st'.

(** ** Inclusion *)

Import Inclusion.

(** Operations on the heap that leave the linked fields of the modules
    alone. *)
Definition hframes {A} (c : H A) : Prop :=
  ∀ h a h', c h = (Normal a, h') → sameLinks (graph h) (graph h').

(** An operation that clears no flag, however it ends. *)
Definition monotone {A} (c : H A) : Prop := ∀ h, heap_le h (c h).2.

End Invariants.

(** * Properties of the operations, as the theorems below state them *)

Module VariableProperties.

Import LocalVariable.

(** The origin of a cached query is still registered with the variable, or
    its cache was deoptimized. *)
Definition keptOrNotified (origin : DeoptimizableEntity) (s : t * World) : Prop :=
  origin ∈ expressionsToBeDeoptimized s.1 ∨ CallDeoptimizeCache origin ∈ calls s.2.

(** The declarators of a variable, declared one after the other. *)
Definition declare (v : t) (ds : list (NodeId * option ExpressionEntity)) : t :=
  foldl (λ v d, addDeclaration d.1 d.2 v) v ds.

(** A variable created without an initialiser has none until it is marked,
    and then the unknown one. *)
Definition uninitialised (v : t) : Prop :=
  init v = None ∨ (init v = Some UNKNOWN_EXPRESSION ∧ isReassigned v = true).

End VariableProperties.

Module GraphProperties.

Import Resolver Inclusion Linking.

(** ** What resolution writes *)

(** The warnings resolution hands to [onwarn]: a conflict between at least
    two modules, an ambiguity between at least two external declarations of
    which the first is used, or a shim (only with [shimMissingExports]). *)
Definition emitted (options : InputOptions) (w : Warning) : Prop :=
  match w with
  | NAMESPACE_CONFLICT _ _ sources => 2 ≤ length sources
  | AMBIGUOUS_EXTERNAL_NAMESPACES _ _ used sources =>
      2 ≤ length sources ∧ head sources = Some used
  | SHIMMED_EXPORT _ _ => shimMissingExports options = true
  end.

(** The writes resolution makes to the module [m] in the state [st]. *)
Inductive written (options : InputOptions) (st : State) (m : ModuleId)
    : (Module → Module) → Prop :=
| write_shim name :
    shimMissingExports options = true →
    written options st m
      (λ md, setExports (mapSet name MISSING_EXPORT_SHIM_DESCRIPTION (exports md)) md)
| write_cache name r :
    written options st m
      (λ md, setNamespaceReexportsByName (<[name := r]> (namespaceReexportsByName md)) md)
| write_syntheticNamespace ns :
    written options st m (setSyntheticNamespace ns)
| write_syntheticExport name :
    written options st m
      (λ md, setSyntheticExports (<[name := SyntheticVar m name]> (syntheticExports md)) md)
| write_sideEffectDependency variable module :
    written options st m
      (λ md,
         setSideEffectDependenciesByVariable
           (<[variable := setAdd module
                            (default [] (sideEffectDependenciesByVariable md !! variable))]>
              (sideEffectDependenciesByVariable md)) md)
| write_alternativeReexport variable reexporter exporter :
    modulesById st !! variableModule variable = Some exporter →
    isExternalModule exporter = false →
    variableModule variable ≠ reexporter →
    written options st m
      (λ md,
         setAlternativeReexportModules
           (<[variable := reexporter]> (alternativeReexportModules md)) md).

(** A relation between the state before and the state after that every
    warning and every write of resolution keeps. *)
Record Kept (options : InputOptions) (R : State → State → Prop) : Prop := {
  kept_refl : ∀ st, R st st;
  kept_trans : ∀ a b c, R a b → R b c → R a c;
  kept_onwarn : ∀ st w,
    emitted options w → R st (mkState (modulesById st) (warnings st ++ [w]));
  kept_write : ∀ st m f,
    written options st m f → R st (mkState (alter f m (modulesById st)) (warnings st))
}.

(** An operation that, when it returns, has kept [R]. *)
Definition keeps {A} (R : State → State → Prop) (c : M A) : Prop :=
  ∀ st a st', c st = Ok a st' → R st st'.

(** The fields of a module that resolution only reads. *)
Definition settled (md : Module) :=
  (id md, isExternalModule md, info_isEntry md, info_moduleSideEffects md,
   info_syntheticNamedExports md, cycles md, dependencies md, implicitlyLoadedAfter md,
   exportAllModules md, reexportDescriptions md, importDescriptions md,
   scope_variables md, ast md, imports md, includedDynamicImporters md, isExecuted md,
   relevantDependencies md, transitiveReexports md).

(** Those fields are the same in every module, and the modules are the same. *)
Definition sameSettled (st st' : State) : Prop :=
  ∀ m, settled <$> modulesById st !! m = settled <$> modulesById st' !! m.

(** The export tables of the modules are the same. *)
Definition sameExports (st st' : State) : Prop :=
  ∀ m, exports <$> modulesById st !! m = exports <$> modulesById st' !! m.

(** The warnings of [st'] are those of [st] followed by warnings of the kinds
    resolution emits. *)
Definition warned (options : InputOptions) (st st' : State) : Prop :=
  ∃ ws, warnings st' = warnings st ++ ws ∧ Forall (emitted options) ws.

(** The alternative exporters recorded in [st'] and not in [st] are other
    modules than the one the variable belongs to, which is internal. *)
Definition alternativesOk (st st' : State) : Prop :=
  (∀ m, isExternalModule <$> modulesById st !! m
        = isExternalModule <$> modulesById st' !! m)
  ∧ ∀ m md' v r,
      modulesById st' !! m = Some md' → alternativeReexportModules md' !! v = Some r →
      (∃ md, modulesById st !! m = Some md ∧ alternativeReexportModules md !! v = Some r)
      ∨ (variableModule v ≠ r
         ∧ ∃ e, modulesById st !! variableModule v = Some e
                ∧ isExternalModule e = false).

(** A name that is not a star name: it does not start with [*]. *)
Definition regular (name : string) : Prop := ∀ rest, name ≠ String "*"%char rest.

(** ** The memoised lists of re-exports *)

(** The number of modules whose re-exports were not listed yet: what a
    nested [getReexports] decreases. *)
Definition unlisted (st : State) : nat :=
  size (filter (λ kv : ModuleId * Module, transitiveReexports kv.2 = None)
          (modulesById st)).

(** Everything of a module but the memoised list of its re-exports. *)
Definition exceptReexports (md : Module) : Module := setTransitiveReexports None md.

(** The states differ in the memoised lists only. *)
Definition sameExceptReexports (st st' : State) : Prop :=
  warnings st' = warnings st
  ∧ ∀ m, exceptReexports <$> modulesById st !! m = exceptReexports <$> modulesById st' !! m.

(** The state a call leaves has no more unlisted modules, and the call did
    not stop for want of fuel. *)
Definition listed {A} (st : State) (out : Outcome A) : Prop :=
  match out with
  | Ok _ st' => unlisted st' ≤ unlisted st
  | Throw _ => True
  | OutOfFuel => False
  end.

(** ** The traversal for side effects *)

(** Why the traversal of [addRelevantSideEffectDependencies] keeps a
    dependency: it is necessary, or its side effects count (by its own
    option or because it is always checked) and it is external or has
    effects. *)
Definition keptDependency (E : Entities) (h : Heap)
    (necessaryDependencies alwaysCheckedDependencies : list ModuleId) (d : ModuleId)
    : Prop :=
  d ∈ necessaryDependencies
  ∨ ∃ md,
      modulesById (graph h) !! d = Some md
      ∧ (truthyModuleSideEffects (info_moduleSideEffects md) = true
         ∨ d ∈ alwaysCheckedDependencies)
      ∧ (isExternalModule md = true ∨ (hasEffects E d h).1 = Normal true).

(** The side effects of a dependency count for the traversal: its
    [moduleSideEffects] is truthy or it is always checked. *)
Definition sideEffectsCount (h : Heap) (alwaysCheckedDependencies : list ModuleId)
    (d : ModuleId) (md : Module) : Prop :=
  modulesById (graph h) !! d = Some md
  ∧ (truthyModuleSideEffects (info_moduleSideEffects md) = true
     ∨ d ∈ alwaysCheckedDependencies).

(** Every dependency handled so far that is to be kept is among the relevant
    ones. *)
Definition handledOk (E : Entities) (h : Heap)
    (necessaryDependencies alwaysCheckedDependencies : list ModuleId) (t : Traversal)
    : Prop :=
  ∀ d, d ∈ handledDependencies t →
       keptDependency E h necessaryDependencies alwaysCheckedDependencies d →
       d ∈ relevant t.

(** What a traversal that returns has done. *)
Definition traversed (E : Entities) (necessary always : list ModuleId) (h : Heap)
    (possible : list ModuleId) (t t' : Traversal) : Prop :=
  (∀ d, d ∈ handledDependencies t → d ∈ handledDependencies t')
  ∧ (∀ d, d ∈ relevant t → d ∈ relevant t')
  ∧ (∀ d, d ∈ possible → d ∈ handledDependencies t')
  ∧ (∀ d, d ∈ relevant t' → d ∈ relevant t ∨ keptDependency E h necessary always d)
  ∧ (handledOk E h necessary always t → handledOk E h necessary always t').

(** The number of modules of the graph that the traversal has not handled:
    what a nested traversal decreases. *)
Definition unhandled (st : State) (handled : list ModuleId) : nat :=
  size (filter (λ kv : ModuleId * Module, kv.1 ∉ handled) (modulesById st)).

(** The variable whose module provides an imported or exported variable. *)
Definition provider (C : Collaborators) (variable : Var) : Var :=
  if isSyntheticNamedExportVariable variable then getBaseVariable C variable
  else if isExportDefaultVariable variable then getOriginalVariable C variable
  else variable.

(** ** The effects of a module *)

(** The top-level statements of a program: the nodes whose parent it is. *)
Definition topLevelStatements (ns : NodeStore) (program : NodeId) : list NodeId :=
  (map_to_list (filter (λ entry, node_parent entry.2 = Some program) ns)).*1.

(** Some included top-level statement of the program has effects, each asked
    with a fresh effects context. *)
Definition includedStatementHasEffects (E : Entities) (ns : NodeStore)
    (program : NodeId) : bool :=
  existsb
    (λ n, isIncluded ns n && (entityHasEffects E (Entity n) createHasEffectsContext).1)
    (topLevelStatements ns program).

(** ** The dependencies to be included *)

(** Whether [getDependenciesToBeIncluded] resolves the exports of the module:
    it is an entry, is imported dynamically, has its namespace included or is
    loaded implicitly. *)
Definition exposed (h : Heap) (this : ModuleId) (m : Module) : bool :=
  info_isEntry m || negb (bool_decide (includedDynamicImporters m = []))
  || variableIsIncluded h (NamespaceVar this)
  || negb (bool_decide (implicitlyLoadedAfter m = [])).

(** The loop of [getDependenciesToBeIncluded] over the names the module
    re-exports and exports, which adds the variables they resolve to. *)
Definition exportedVariables (options : InputOptions) (fuel : nat) (this : ModuleId)
    (dependencyVariables : list Var) : H (list Var) :=
  let+ reexports := lift (getReexports fuel this) in
  let+ m := lift (getModule this) in
  hfoldM
    (λ dependencyVariables exportName,
       let+ ((exportedVariable, _), _) :=
         lift (getVariableForExportName options fuel this exportName EMPTY_OBJECT) in
       hret (match exportedVariable with
             | Some v => setAdd v dependencyVariables
             | None => dependencyVariables
             end))
    dependencyVariables (reexports ++ getExports m).

(** The heap once the empty set was stored in [relevantDependencies]. *)
Definition begun (this : ModuleId) (h : Heap) : Heap :=
  withGraph h
    (mkState (alter (setRelevantDependencies (Some [])) this (modulesById (graph h)))
       (warnings (graph h))).

(** ** Including a variable *)

(** An operation that leaves the variable objects and the request for a
    tree-shaking pass alone, however it ends. *)
Definition graphOnly {A} (c : H A) : Prop :=
  ∀ h, variables (c h).2 = variables h
       ∧ needsTreeshakingPass (c h).2 = needsTreeshakingPass h.

(** The rest of [includeVariable] once the variable was included. *)
Definition afterInclude (C : Collaborators) (fuel : nat) (this : ModuleId) (variable : Var)
    : H unit :=
  let+ variableModuleRecord := lift (lookupModule (variableModule variable)) in
  match variableModuleRecord with
  | Some vm =>
      if isExternalModule vm then hret ()
      else
        let+ _ := markExecutedIfNeeded C (variableModule variable) in
        if bool_decide (variableModule variable ≠ this) then
          let+ sideEffectModules :=
            lift (getAndExtendSideEffectModules C fuel variable this) in
          forEach sideEffectModules (markExecutedIfNeeded C)
        else hret ()
  | None => hret ()
  end.

(** ** Linking *)

(** Whether an id is that of an external module of the graph. *)
Definition isExternalIn (st : State) (id : ModuleId) : bool :=
  match modulesById st !! id with
  | Some md => isExternalModule md
  | None => false
  end.

(** The reference a descriptor holds once its source was looked up in the
    graph [st]. *)
Definition referenceIn (st : State) (s : Sources) (source : string)
    (reference : option ModuleId) : Prop :=
  ∃ id, resolvedIds s !! source = Some id
        ∧ reference = if modulesById st !! id is Some _ then Some id else None.

(** The states differ in the module [this] only. *)
Definition onlyModule (this : ModuleId) (st st' : State) : Prop :=
  warnings st' = warnings st
  ∧ ∀ k, k ≠ this → modulesById st' !! k = modulesById st !! k.

(** The state in which the module [this] is [m'] and everything else is as in
    [st]. *)
Definition updated (this : ModuleId) (m' : Module) (st : State) : State :=
  mkState (<[this := m']> (modulesById st)) (warnings st).

(** ** Rendering *)

(** The export names of every module are kept in their order, new ones come
    after them, and no name comes to be listed twice. *)
Definition exportsGrow (st st' : State) : Prop :=
  ∀ k md,
    modulesById st !! k = Some md →
    ∃ md', modulesById st' !! k = Some md'
           ∧ getExports md `prefix_of` getExports md'
           ∧ (NoDup (getExports md) → NoDup (getExports md')).

End GraphProperties.

(** * Properties of the node store *)

Module NodeFacts.

Lemma setIncluded_structure n ns : sameStructure ns (setIncluded n ns).
Proof.
  intros m. unfold setIncluded. destruct (decide (n = m)) as [->|Hne].
  - rewrite lookup_alter_eq. by destruct (ns !! m).
  - by rewrite lookup_alter_ne.
Qed.

Lemma sameStructure_trans a b c :
  sameStructure a b → sameStructure b c → sameStructure a c.
Proof. intros Hab Hbc n. by rewrite Hab. Qed.

Lemma sameStructure_is_Some a b n :
  sameStructure a b → is_Some (a !! n) → is_Some (b !! n).
Proof.
  intros Hab [nd Hn]. specialize (Hab n). rewrite Hn in Hab.
  destruct (b !! n); [by eexists|done].
Qed.

Lemma store_le_refl ns : store_le ns ns.
Proof. by intros n. Qed.

Lemma store_le_trans a b c : store_le a b → store_le b c → store_le a c.
Proof. intros Hab Hbc n Hn. by apply Hbc, Hab. Qed.

Lemma isIncluded_setIncluded n ns : is_Some (ns !! n) → isIncluded (setIncluded n ns) n = true.
Proof.
  intros [nd Hn]. unfold isIncluded, setIncluded. by rewrite lookup_alter_eq, Hn.
Qed.

Lemma setIncluded_le n ns : store_le ns (setIncluded n ns).
Proof.
  intros m Hm. unfold isIncluded, setIncluded in *.
  destruct (decide (n = m)) as [->|Hne].
  - rewrite lookup_alter_eq. by destruct (ns !! m).
  - by rewrite lookup_alter_ne.
Qed.

(** The example entities keep the contracts of [include]. *)
Lemma entities_contract : IncludeContract Examples.entities.
Proof.
  split; simpl.
  - intros n _ _ ns. apply isIncluded_setIncluded.
  - intros n _ _ ns. apply setIncluded_structure.
Qed.

Lemma entities_monotone : IncludeMonotone Examples.entities.
Proof.
  split; simpl.
  - intros n _ _ ns. apply setIncluded_le.
  - intros _ _ _ ns. apply store_le_refl.
Qed.

End NodeFacts.

(** * Properties of LocalVariable *)

Module LocalVariableFacts.

Import LocalVariable Invariants.

(** ** What each method does to the flags *)

Section Methods.

Variable E : Entities.

Lemma withTracked_state {A} path entity (f : PathTracker.t → t → A * t) (d : A) tr v
    (P : t → Prop) :
  P v → (∀ tr v', P (f tr v').2) →
  P (PathTracker.withTrackedEntityAtPath path entity f d tr v).2.
Proof.
  intros Hv Hf. unfold PathTracker.withTrackedEntityAtPath.
  destruct (PathTracker.isTracked path entity tr); simpl; auto.
Qed.


Lemma getLiteralValueAtPath_flags path tr origin v :
  sameFlags v (getLiteralValueAtPath E path tr origin v).2.
Proof.
  unfold getLiteralValueAtPath, PathTracker.withTrackedEntityAtPath, sameFlags.
  destruct (isReassigned v) eqn:Hr, (init v) eqn:Hi; simpl; auto.
  destruct (PathTracker.isTracked _ _ _); simpl; auto.
Qed.

Lemma getReturnExpressionWhenCalledAtPath_flags path callOptions tr origin v :
  sameFlags v (getReturnExpressionWhenCalledAtPath E path callOptions tr origin v).2.
Proof.
  unfold getReturnExpressionWhenCalledAtPath, PathTracker.withTrackedEntityAtPath,
    sameFlags.
  destruct (isReassigned v) eqn:Hr, (init v) eqn:Hi; simpl; auto.
  destruct (PathTracker.isTracked _ _ _); simpl; auto.
Qed.

Lemma markInitializersForDeoptimization_flags v :
  let v' := (markInitializersForDeoptimization v).2 in
  included v' = included v
  ∧ (isReassigned v = true → isReassigned v' = true)
  ∧ (init v = Some UNKNOWN_EXPRESSION → init v' = Some UNKNOWN_EXPRESSION).
Proof.
  unfold markInitializersForDeoptimization.
  destruct (additionalInitializers v); simpl; auto.
Qed.

(** After [markInitializersForDeoptimization] the variable is reassigned and
    its initialiser is the unknown expression, unless additional initialisers
    were pending, in which case nothing is written. *)
Lemma markInitializersForDeoptimization_fresh v :
  additionalInitializers v = None →
  let v' := (markInitializersForDeoptimization v).2 in
  isReassigned v' = true ∧ init v' = Some UNKNOWN_EXPRESSION.
Proof. unfold markInitializersForDeoptimization. intros ->. simpl. auto. Qed.

Lemma addDeclaration_flags identifier i v :
  let v' := addDeclaration identifier i v in
  included v' = included v
  ∧ (isReassigned v = true → isReassigned v' = true)
  ∧ (init v = Some UNKNOWN_EXPRESSION → init v' = Some UNKNOWN_EXPRESSION).
Proof.
  unfold addDeclaration, markInitializersForDeoptimization. simpl.
  destruct (additionalInitializers v), i; simpl; auto.
Qed.

Lemma deoptimizePath_flags path v w :
  let v' := (deoptimizePath path v w).1 in
  included v' = included v
  ∧ (isReassigned v = true → isReassigned v' = true)
  ∧ init v' = init v.
Proof.
  unfold deoptimizePath. destruct (isReassigned v) eqn:Hr; simpl; auto.
  destruct (PathTracker.trackEntityAtPathAndGetIfTracked _ _ _) as [[] tr]; simpl;
    [by rewrite Hr|].
  destruct path; simpl; by rewrite ?Hr.
Qed.

Lemma deoptimizeThisOnEventAtPath_state event path thisParameter tr v w :
  (deoptimizeThisOnEventAtPath event path thisParameter tr v w).1 = v.
Proof.
  unfold deoptimizeThisOnEventAtPath, PathTracker.withTrackedEntityAtPath.
  destruct (isReassigned v), (init v); simpl; auto.
  destruct (PathTracker.isTracked _ _ _); auto.
Qed.

Lemma consolidateInitializers_flags v w :
  sameFlags v (consolidateInitializers v w).1.
Proof.
  unfold consolidateInitializers, sameFlags.
  destruct (additionalInitializers v); simpl; auto.
Qed.

Lemma include_flags v w :
  let v' := (include E v w).1.1 in
  included v' = true ∧ isReassigned v' = isReassigned v ∧ init v' = init v.
Proof.
  unfold include. destruct (included v) eqn:Hi; simpl; auto.
  destruct (includeDeclarations E (declarations v) w). simpl. auto.
Qed.

(** Every method keeps [included], keeps [isReassigned] once it is set, and
    keeps the unknown initialiser. *)
Lemma step_flags op v w :
  let v' := (step E op (v, w)).1 in
  (included v = true → included v' = true)
  ∧ (isReassigned v = true → isReassigned v' = true)
  ∧ (init v = Some UNKNOWN_EXPRESSION → init v' = Some UNKNOWN_EXPRESSION).
Proof.
  destruct op; simpl.
  - destruct (addDeclaration_flags identifier init0 v) as (-> & ? & ?); auto.
  - destruct (consolidateInitializers_flags v w) as (-> & -> & ->); auto.
  - destruct (deoptimizePath_flags path v w) as (-> & ? & ->); auto.
  - rewrite deoptimizeThisOnEventAtPath_state; auto.
  - destruct (getLiteralValueAtPath_flags path recursionTracker origin v)
      as (-> & -> & ->); auto.
  - destruct (getReturnExpressionWhenCalledAtPath_flags path callOptions
                recursionTracker origin v) as (-> & -> & ->); auto.
  - auto.
  - auto.
  - auto.
  - destruct (include_flags v w) as (-> & -> & ->); auto.
  - auto.
  - auto.
  - destruct (markInitializersForDeoptimization_flags v) as (-> & ? & ?); auto.
Qed.

Lemma run_flags ops v w :
  let v' := (run E ops (v, w)).1 in
  (included v = true → included v' = true)
  ∧ (isReassigned v = true → isReassigned v' = true)
  ∧ (init v = Some UNKNOWN_EXPRESSION → init v' = Some UNKNOWN_EXPRESSION).
Proof.
  revert v w. induction ops as [|op ops IH]; intros v w; [simpl; auto|].
  change (run E (op :: ops) (v, w)) with (run E ops (step E op (v, w))).
  pose proof (step_flags op v w) as Hf.
  destruct (step E op (v, w)) as [v1 w1].
  destruct Hf as (H1 & H2 & H3), (IH v1 w1) as (I1 & I2 & I3).
  repeat split; intros ?; auto.
Qed.


Lemma new_marked name declarator i : marked (new name declarator i).
Proof. by intros []. Qed.

Lemma step_marked op v w : marked v → marked (step E op (v, w)).1.
Proof.
  unfold marked. intros Hv.
  destruct op; simpl; try done.
  - unfold addDeclaration, markInitializersForDeoptimization. simpl.
    destruct (additionalInitializers v) eqn:Ha, init0; simpl; intros _; auto;
      apply Hv; by rewrite ?Ha.
  - unfold consolidateInitializers.
    destruct (additionalInitializers v) eqn:Ha; simpl; [done|]. by rewrite Ha.
  - unfold deoptimizePath. destruct (isReassigned v) eqn:Hr; simpl; [by rewrite Hr|].
    destruct (PathTracker.trackEntityAtPathAndGetIfTracked _ _ _) as [[] tr]; simpl;
      [by rewrite Hr|].
    destruct path; simpl; rewrite ?Hr; simpl; intros Ha; by destruct (Hv Ha).
  - by rewrite deoptimizeThisOnEventAtPath_state.
  - unfold getLiteralValueAtPath, PathTracker.withTrackedEntityAtPath.
    destruct (isReassigned v) eqn:Hr, (init v) eqn:Hi; simpl; rewrite ?Hr, ?Hi; try done.
    destruct (PathTracker.isTracked _ _ _); simpl; by rewrite ?Hr, ?Hi.
  - unfold getReturnExpressionWhenCalledAtPath, PathTracker.withTrackedEntityAtPath.
    destruct (isReassigned v) eqn:Hr, (init v) eqn:Hi; simpl; rewrite ?Hr, ?Hi; try done.
    destruct (PathTracker.isTracked _ _ _); simpl; by rewrite ?Hr, ?Hi.
  - unfold include. destruct (included v); simpl; [done|].
    by destruct (includeDeclarations E (declarations v) w).
  - unfold markInitializersForDeoptimization.
    destruct (additionalInitializers v) eqn:Ha; simpl; [by rewrite Ha|auto].
Qed.

Lemma run_marked ops v w : marked v → marked (run E ops (v, w)).1.
Proof.
  revert v w. induction ops as [|op ops IH]; intros v w Hv; [done|].
  change (run E (op :: ops) (v, w)) with (run E ops (step E op (v, w))).
  pose proof (step_marked op v w Hv) as Hs.
  destruct (step E op (v, w)) as [v1 w1]. by apply IH.
Qed.

(** [addDeclaration] on a variable in that situation, or on one without
    pending initialisers. *)
Lemma addDeclaration_unknown identifier i v :
  marked v →
  isReassigned (addDeclaration identifier i v) = true
  ∧ init (addDeclaration identifier i v) = Some UNKNOWN_EXPRESSION.
Proof.
  unfold marked, addDeclaration, markInitializersForDeoptimization. simpl.
  intros Hv. destruct (additionalInitializers v) eqn:Ha, i; simpl; auto.
Qed.

(** ** What the methods do to the inclusion flags of the nodes *)

Lemma includeParents_le fuel node ns :
  store_le ns (includeParents fuel node ns).1.
Proof.
  revert node ns. induction fuel as [|fuel IH]; intros node ns; simpl.
  - apply NodeFacts.store_le_refl.
  - destruct (node ≫= _) as [[n nd]|]; simpl; [|apply NodeFacts.store_le_refl].
    destruct (node_included nd); simpl; [apply NodeFacts.store_le_refl|].
    destruct (decide (node_type nd = Program)); simpl.
    + apply NodeFacts.setIncluded_le.
    + eapply NodeFacts.store_le_trans; [apply NodeFacts.setIncluded_le|apply IH].
Qed.

Lemma includeDeclaration_le d w :
  IncludeMonotone E → store_le (nodes w) (nodes (includeDeclaration E d w).1).
Proof.
  intros HE. unfold includeDeclaration.
  destruct (nodes w !! d) as [nd|]; [|apply NodeFacts.store_le_refl].
  match goal with |- context [includeParents ?f ?p (nodes ?w1)] =>
    assert (store_le (nodes w) (nodes w1)) as Hw;
    [|pose proof (includeParents_le f p (nodes w1)) as Hp;
      destruct (includeParents f p (nodes w1)) as [ns st]] end.
  - destruct (node_included nd); [apply NodeFacts.store_le_refl|].
    apply (nodeInclude_le E HE).
  - eapply NodeFacts.store_le_trans; [exact Hw|exact Hp].
Qed.

Lemma includeDeclarations_le ds w :
  IncludeMonotone E → store_le (nodes w) (nodes (includeDeclarations E ds w).1).
Proof.
  intros HE. revert w. induction ds as [|d ds IH]; intros w; simpl.
  - apply NodeFacts.store_le_refl.
  - pose proof (includeDeclaration_le d w HE) as Hd.
    destruct (includeDeclaration E d w) as [w1 []]; simpl in *; try done.
    eapply NodeFacts.store_le_trans; [exact Hd|apply IH].
Qed.

Lemma variable_include_le v w :
  IncludeMonotone E → store_le (nodes w) (nodes (include E v w).1.2).
Proof.
  intros HE. unfold include. destruct (included v); simpl.
  - apply NodeFacts.store_le_refl.
  - pose proof (includeDeclarations_le (declarations v) w HE) as Hd.
    by destruct (includeDeclarations E (declarations v) w).
Qed.

Lemma includeArgs_le args context w :
  IncludeMonotone E → store_le (nodes w) (nodes (includeArgs E args context w).1).
Proof.
  intros HE. revert context w. induction args as [|arg args IH]; intros context w; simpl.
  - apply NodeFacts.store_le_refl.
  - pose proof (nodeInclude_le E HE arg context IncludeFalse (nodes w)) as Ha.
    destruct (nodeInclude E arg context IncludeFalse (nodes w)) as [ns c].
    eapply NodeFacts.store_le_trans; [exact Ha|].
    apply (IH c (logCalls (withNodes w ns) [CallInclude arg IncludeFalse])).
Qed.

Lemma includeCallArguments_le context args v w :
  IncludeMonotone E →
  store_le (nodes w) (nodes (includeCallArguments E context args v w).1).
Proof.
  intros HE. unfold includeCallArguments.
  destruct (_ || _); [by apply includeArgs_le|].
  destruct (init v) as [i|]; [|apply NodeFacts.store_le_refl].
  pose proof (entityIncludeCallArguments_le E HE i (addCallArguments i context) args
                (nodes w)) as Hi.
  by destruct (entityIncludeCallArguments E i _ args (nodes w)).
Qed.

Lemma deoptimizePath_nodes path v w :
  nodes (deoptimizePath path v w).2 = nodes w.
Proof.
  unfold deoptimizePath. destruct (isReassigned v); simpl; [done|].
  destruct (PathTracker.trackEntityAtPathAndGetIfTracked _ _ _) as [[] tr]; simpl;
    [done|].
  destruct path; simpl; [|done]. by destruct (isReassigned v).
Qed.

(** No method of the variable clears the inclusion flag of a node. *)
Lemma variable_step_le op v w :
  IncludeMonotone E → store_le (nodes w) (nodes (step E op (v, w)).2).
Proof.
  intros HE. destruct op; simpl; try apply NodeFacts.store_le_refl.
  - unfold consolidateInitializers.
    destruct (additionalInitializers v); apply NodeFacts.store_le_refl.
  - rewrite deoptimizePath_nodes. apply NodeFacts.store_le_refl.
  - unfold deoptimizeThisOnEventAtPath, PathTracker.withTrackedEntityAtPath.
    destruct (isReassigned v), (init v); simpl; try apply NodeFacts.store_le_refl.
    destruct (PathTracker.isTracked _ _ _); apply NodeFacts.store_le_refl.
  - by apply variable_include_le.
  - by apply includeCallArguments_le.
Qed.

(** ** The walk over the ancestors of a declaration ends *)

Lemma pending_setIncluded n nd (ns : NodeStore) :
  ns !! n = Some nd → node_included nd = false →
  pending (setIncluded n ns) < pending ns.
Proof.
  intros Hn Hnd. unfold pending, setIncluded.
  rewrite (alter_alt_Some _ _ _ _ Hn), map_filter_insert_False by done.
  rewrite map_filter_delete, map_size_delete.
  assert (filter (λ kv : NodeId * Node, node_included kv.2 = false) ns !! n = Some nd)
    as Hf by (by apply map_lookup_filter_Some).
  rewrite Hf. simpl.
  assert (size (filter (λ kv : NodeId * Node, node_included kv.2 = false) ns) ≠ 0);
    [|lia].
  intros Hz%map_size_empty_inv. by rewrite Hz in Hf.
Qed.

Lemma pending_le_size (ns : NodeStore) : pending ns ≤ size ns.
Proof. apply map_size_filter. Qed.

(** The walk over the ancestors ends before its fuel does when the fuel
    exceeds the number of nodes that are not included. *)
Lemma includeParents_fuel fuel node ns :
  pending ns < fuel → (includeParents fuel node ns).2 ≠ RanOutOfFuel.
Proof.
  revert node ns. induction fuel as [|fuel IH]; intros node ns Hfuel; [lia|]. simpl.
  destruct node as [n|]; simpl; [|done].
  destruct (ns !! n) as [nd|] eqn:Hn; simpl; [|done].
  destruct (node_included nd) eqn:Hnd; simpl; [done|].
  destruct (decide (node_type nd = Program)); simpl; [done|].
  apply IH. pose proof (pending_setIncluded n nd ns Hn Hnd). lia.
Qed.

(** [include] never stops for want of fuel. *)
Lemma include_terminates v w : (include E v w).2 ≠ RanOutOfFuel.
Proof.
  unfold include. destruct (included v); [done|].
  assert (∀ ds w, (includeDeclarations E ds w).2 ≠ RanOutOfFuel) as Hds.
  { clear. intros ds. induction ds as [|d ds IH]; intros w; simpl; [done|].
    assert ((includeDeclaration E d w).2 ≠ RanOutOfFuel) as Hd.
    { unfold includeDeclaration. destruct (nodes w !! d) as [nd|]; [|done].
      match goal with |- context [includeParents ?f ?p (nodes ?w1)] =>
        pose proof (includeParents_fuel f p (nodes w1)) as Hp;
        destruct (includeParents f p (nodes w1)) as [ns st] end.
      simpl in *. apply Hp. pose proof (pending_le_size (nodes
        (if node_included nd then w
         else logCalls (withNodes w (nodeInclude E d createInclusionContext IncludeFalse (nodes w)).1)
                [CallInclude d IncludeFalse]))). lia. }
    destruct (includeDeclaration E d w) as [w1 []]; simpl in *; try done. }
  specialize (Hds (declarations v) w).
  by destruct (includeDeclarations E (declarations v) w).
Qed.

(** The value queries of a reassigned variable. *)
Lemma reassigned_unknown v :
  isReassigned v = true →
  ∀ path callOptions tr origin,
    getLiteralValueAtPath E path tr origin v = (UnknownValue, v)
    ∧ getReturnExpressionWhenCalledAtPath E path callOptions tr origin v
      = (UNKNOWN_EXPRESSION, v).
Proof.
  intros Hr path callOptions tr origin.
  unfold getLiteralValueAtPath, getReturnExpressionWhenCalledAtPath.
  by rewrite Hr.
Qed.

End Methods.

(** C8.  Once [isReassigned] is true it stays true under every later method
    call, and every value query then reports unknown:
    [getLiteralValueAtPath] returns [UnknownValue] and
    [getReturnExpressionWhenCalledAtPath] returns [UNKNOWN_EXPRESSION], at
    every path and whatever the initialiser is; the queries leave the variable
    as it is. *)
Theorem reassigned_reports_unknown (E : Entities) (v : t) (w : World) (ops : list Op) :
  isReassigned v = true →
  ∀ path callOptions tr origin,
    let v' := (run E ops (v, w)).1 in
    isReassigned v' = true
    ∧ getLiteralValueAtPath E path tr origin v' = (UnknownValue, v')
    ∧ getReturnExpressionWhenCalledAtPath E path callOptions tr origin v'
      = (UNKNOWN_EXPRESSION, v').
Proof.
  intros Hr path callOptions tr origin v'.
  assert (isReassigned v' = true) as Hr' by (by apply run_flags).
  split; [done|]. by apply reassigned_unknown.
Qed.

(** The variable [x] of [var x = 1] after an assignment: included later on and
    asked for its value at the path [.a], it reports unknown. *)
Lemma reassigned_reports_unknown_witness :
  isReassigned Examples.xReassigned = true
  ∧ let v' := (run Examples.entities [OpInclude; OpDeoptimizePath [PathKey "a"]]
                 (Examples.xReassigned, Examples.declarationWorld)).1 in
    getLiteralValueAtPath Examples.entities [PathKey "a"] [] 7 v' = (UnknownValue, v').
Proof.
  split; [reflexivity|].
  exact (proj1 (proj2 (reassigned_reports_unknown Examples.entities
                         Examples.xReassigned Examples.declarationWorld
                         [OpInclude; OpDeoptimizePath [PathKey "a"]] eq_refl
                         [PathKey "a"] Examples.someCall [] 7))).
Defined.

(** C9.  [hasEffectsWhenAssignedAtPath] answers [true] for an included
    variable at every path, and [false] at the empty path for a variable that
    is neither included nor reassigned; the context is not touched in either
    case. *)
Theorem hasEffectsWhenAssignedAtPath_included_or_top
    (E : Entities) (v : t) (context : HasEffectsContext) :
  (included v = true →
   ∀ path, hasEffectsWhenAssignedAtPath E path context v = (JsBoolean true, context))
  ∧ (included v = false → isReassigned v = false →
     hasEffectsWhenAssignedAtPath E [] context v = (JsBoolean false, context)).
Proof.
  unfold hasEffectsWhenAssignedAtPath. split.
  - by intros ->.
  - by intros -> _.
Qed.

(** C10.  For a variable made by the constructor and used through its
    methods, [addDeclaration] (the second declarator and every further one)
    leaves the variable reassigned with the unknown expression as its
    initialiser; no later method call changes that, so the variable reports
    an unknown literal value and an unknown return expression at every path
    from then on. *)
Theorem addDeclaration_makes_unknown (E : Entities)
    (name : string) (declarator : option NodeId) (init0 : option ExpressionEntity)
    (w0 : World) (before : list Op)
    (identifier : NodeId) (init1 : option ExpressionEntity) (after : list Op) :
  ∀ path callOptions tr origin,
    let s := run E before (new name declarator init0, w0) in
    let v' := (run E after (addDeclaration identifier init1 s.1, s.2)).1 in
    init v' = Some UNKNOWN_EXPRESSION
    ∧ isReassigned v' = true
    ∧ getLiteralValueAtPath E path tr origin v' = (UnknownValue, v')
    ∧ getReturnExpressionWhenCalledAtPath E path callOptions tr origin v'
      = (UNKNOWN_EXPRESSION, v').
Proof.
  intros path callOptions tr origin s v'.
  assert (marked s.1) as Hm by apply run_marked, new_marked.
  destruct (addDeclaration_unknown identifier init1 s.1 Hm) as [Hr Hi].
  destruct (run_flags E after (addDeclaration identifier init1 s.1) s.2)
    as (_ & Hr' & Hi').
  split; [by apply Hi'|]. split; [by apply Hr'|].
  apply reassigned_unknown. by apply Hr'.
Qed.

End LocalVariableFacts.

(** * Properties of SequenceExpression *)

Module SequenceExpressionFacts.

Import SequenceExpression NodeFacts Invariants.

Lemma parentIsExpressionStatement_structure s a b :
  sameStructure a b →
  parentIsExpressionStatement s a = parentIsExpressionStatement s b.
Proof.
  intros Hab. unfold parentIsExpressionStatement.
  pose proof (Hab (self s)) as Hs.
  destruct (a !! self s) as [[i p ty]|], (b !! self s) as [[i' p' ty']|];
    simpl in Hs; try done.
  unfold nodeShape in Hs. simpl in *. simplify_eq.
  destruct p' as [p|]; [|done].
  pose proof (Hab p) as Hp.
  destruct (a !! p) as [[]|], (b !! p) as [[]|]; simpl in Hp; try done.
  unfold nodeShape in Hp. simpl in *. by simplify_eq.
Qed.

Section Sequence.

Variable E : Entities.

Lemma includeExpressions_app s r es1 es2 context w :
  includeExpressions E s r (es1 ++ es2) context w
  = let '(w1, c1) := includeExpressions E s r es1 context w in
    includeExpressions E s r es2 c1 w1.
Proof.
  revert context w. induction es1 as [|e es1 IH]; intros context w; simpl.
  - done.
  - destruct (includesExpression E s context r e (nodes w)); [|apply IH].
    destruct (nodeInclude E e context r (nodes w)). apply IH.
Qed.

Lemma includeExpressions_structure s r es context w :
  IncludeContract E →
  sameStructure (nodes w) (nodes (includeExpressions E s r es context w).1).
Proof.
  intros HE. revert context w. induction es as [|e es IH]; intros context w; simpl.
  - done.
  - destruct (includesExpression E s context r e (nodes w)); [|apply IH].
    pose proof (nodeInclude_structure E HE e context r (nodes w)) as Hs.
    destruct (nodeInclude E e context r (nodes w)) as [ns c]. simpl in Hs.
    eapply sameStructure_trans; [exact Hs|].
    apply (IH c (logCalls (withNodes w ns) [CallInclude e r])).
Qed.

Lemma includeExpressions_le s r es context w :
  IncludeMonotone E →
  store_le (nodes w) (nodes (includeExpressions E s r es context w).1).
Proof.
  intros HE. revert context w. induction es as [|e es IH]; intros context w; simpl.
  - apply store_le_refl.
  - destruct (includesExpression E s context r e (nodes w)); [|apply IH].
    pose proof (nodeInclude_le E HE e context r (nodes w)) as Hs.
    destruct (nodeInclude E e context r (nodes w)) as [ns c]. simpl in Hs.
    eapply store_le_trans; [exact Hs|].
    apply (IH c (logCalls (withNodes w ns) [CallInclude e r])).
Qed.

Lemma sequence_include_le context r s w :
  IncludeMonotone E → store_le (nodes w) (nodes (include E context r s w).1).
Proof.
  intros HE. unfold include.
  eapply store_le_trans; [apply setIncluded_le|].
  apply (includeExpressions_le s r (expressions s) context
           (withNodes w (setIncluded (self s) (nodes w))) HE).
Qed.


(** The last expression of a sequence that is not an expression statement is
    handed to [include], whatever it answers to [shouldBeIncluded]. *)
Lemma include_last s lastNode context r w :
  IncludeContract E →
  lastExpression s = Some lastNode →
  is_Some (nodes w !! lastNode) →
  parentIsExpressionStatement s (nodes w) = false →
  isIncluded (nodes (include E context r s w).1) lastNode = true
  ∧ last (calls (include E context r s w).1) = Some (CallInclude lastNode r).
Proof.
  intros HE Hlast Hin Hparent. unfold include, lastExpression in *.
  apply last_Some in Hlast as [pre Hpre].
  fold (started s w). rewrite Hpre, includeExpressions_app.
  pose proof (includeExpressions_structure s r pre context (started s w) HE) as Hs.
  destruct (includeExpressions E s r pre context (started s w)) as [w1 c1].
  simpl in Hs.
  assert (sameStructure (nodes w) (nodes w1)) as Hs'.
  { eapply sameStructure_trans; [|exact Hs]. apply setIncluded_structure. }
  simpl. unfold includesExpression, lastExpression.
  rewrite Hpre, last_snoc, bool_decide_eq_true_2 by done.
  rewrite <-(parentIsExpressionStatement_structure s _ _ Hs'), Hparent. simpl.
  rewrite orb_true_r. simpl.
  pose proof (nodeInclude_own E HE lastNode c1 r (nodes w1)
                (sameStructure_is_Some _ _ _ Hs' Hin)) as Hown.
  destruct (nodeInclude E lastNode c1 r (nodes w1)) as [ns c2]. simpl in *.
  split; [done|]. by rewrite last_snoc.
Qed.

(** An expression before the last one is handed to [include] exactly when it
    answers [true] to [shouldBeIncluded] at its turn (the children are not
    forced). *)
Lemma include_earlier s pre e post context w :
  expressions s = pre ++ e :: post → post ≠ [] → NoDup (expressions s) →
  includeExpressions E s IncludeFalse (pre ++ [e]) context w
  = let '(w1, c1) := includeExpressions E s IncludeFalse pre context w in
    if nodeShouldBeIncluded E e c1 (nodes w1) then
      let '(ns, c2) := nodeInclude E e c1 IncludeFalse (nodes w1) in
      (logCalls (withNodes w1 ns) [CallInclude e IncludeFalse], c2)
    else (w1, c1).
Proof.
  intros Hes Hpost Hnd. rewrite includeExpressions_app.
  destruct (includeExpressions E s IncludeFalse pre context w) as [w1 c1]. simpl.
  assert (lastExpression s ≠ Some e) as Hne.
  { unfold lastExpression. rewrite Hes. intros Hl.
    destruct (exists_last Hpost) as (post' & z & ->).
    rewrite app_comm_cons, app_assoc, last_snoc in Hl.
    simplify_eq. rewrite Hes in Hnd.
    apply NoDup_app in Hnd as (_ & _ & Hnd). apply NoDup_cons in Hnd as [Hnd _].
    apply Hnd. set_solver. }
  unfold includesExpression. simpl.
  rewrite bool_decide_eq_false_2 by (intros Heq; by apply Hne). simpl.
  destruct (nodeShouldBeIncluded E e c1 (nodes w1)); [|done].
  by destruct (nodeInclude E e c1 IncludeFalse (nodes w1)).
Qed.

(** The loop logs calls of [include] on the expressions it is given, and
    nothing else. *)
Lemma includeExpressions_log s r es context w :
  ∃ cs,
    calls (includeExpressions E s r es context w).1 = calls w ++ cs
    ∧ ∀ c, c ∈ cs → ∃ e, e ∈ es ∧ c = CallInclude e r.
Proof.
  revert context w. induction es as [|e es IH]; intros context w; simpl.
  - exists []. rewrite app_nil_r. split; [done|]. intros c Hc. by apply elem_of_nil in Hc.
  - destruct (includesExpression E s context r e (nodes w)).
    + destruct (nodeInclude E e context r (nodes w)) as [ns c].
      destruct (IH c (logCalls (withNodes w ns) [CallInclude e r])) as (cs & -> & Hcs).
      exists (CallInclude e r :: cs). simpl. rewrite <-app_assoc. split; [done|].
      intros c' [->|Hc']%elem_of_cons; [exists e; split; [by left|done]|].
      destruct (Hcs c' Hc') as (e' & He' & ->). exists e'. split; [by right|done].
    + destruct (IH context w) as (cs & -> & Hcs). exists cs. split; [done|].
      intros c' Hc'. destruct (Hcs c' Hc') as (e' & He' & ->).
      exists e'. split; [by right|done].
Qed.

(** An expression before the last one is handed to [include] by the
    [include] of the sequence exactly when it answers [true] to
    [shouldBeIncluded] at its turn (the children are not forced). *)
Lemma include_earlier_calls s pre e post context w :
  expressions s = pre ++ e :: post → post ≠ [] → NoDup (expressions s) →
  let reached := includeExpressions E s IncludeFalse pre context (started s w) in
  ∃ cs,
    calls (include E context IncludeFalse s w).1 = calls w ++ cs
    ∧ (CallInclude e IncludeFalse ∈ cs
       ↔ nodeShouldBeIncluded E e reached.2 (nodes reached.1) = true).
Proof.
  intros Hes Hpost Hnd reached. unfold include. fold (started s w).
  assert ((e ∉ pre) ∧ (e ∉ post)) as [Hpre Hpost'].
  { rewrite Hes in Hnd. apply NoDup_app in Hnd as (_ & Hpre & Hnd).
    apply NoDup_cons in Hnd as [Hpost' _]. split; [|done].
    intros Hin. apply (Hpre e Hin). by left. }
  rewrite Hes, (cons_middle e pre post), app_assoc, includeExpressions_app.
  rewrite (include_earlier s pre e post context (started s w) Hes Hpost Hnd).
  destruct (includeExpressions_log s IncludeFalse pre context (started s w))
    as (cs1 & Hcs1 & Hin1).
  fold reached in Hcs1. fold reached.
  destruct reached as [w1 c1]. simpl in *.
  destruct (nodeShouldBeIncluded E e c1 (nodes w1)).
  - destruct (nodeInclude E e c1 IncludeFalse (nodes w1)) as [ns c2].
    destruct (includeExpressions_log s IncludeFalse post c2
                (logCalls (withNodes w1 ns) [CallInclude e IncludeFalse]))
      as (cs2 & -> & _).
    simpl. rewrite Hcs1. exists (cs1 ++ [CallInclude e IncludeFalse] ++ cs2).
    rewrite <-!app_assoc. split; [done|]. split; [done|]. intros _.
    apply elem_of_app. right. by left.
  - destruct (includeExpressions_log s IncludeFalse post c1 w1) as (cs2 & -> & Hin2).
    rewrite Hcs1. exists (cs1 ++ cs2). rewrite <-app_assoc. split; [done|].
    split; [|done]. intros [Hin|Hin]%elem_of_app.
    + destruct (Hin1 _ Hin) as (e' & He' & [= <-]). done.
    + destruct (Hin2 _ Hin) as (e' & He' & [= <-]). done.
Qed.

End Sequence.

(** C7.  For a sequence with a last expression: the path queries
    [getLiteralValueAtPath], [hasEffectsWhenAssignedAtPath],
    [hasEffectsWhenCalledAtPath] and [deoptimizePath] are the same calls on
    the last expression; [include] hands the last expression to [include]
    (so that it is marked included) whenever the parent of the sequence is
    not an expression statement; and, the children not being forced, the
    [include] of the sequence hands an expression before the last one to
    [include] exactly when that expression answers [true] to
    [shouldBeIncluded] as the loop reaches it, so only if it should be
    included. *)
Theorem sequence_defers_to_last_expression (E : Entities) (s : t) (lastNode : NodeId) :
  lastExpression s = Some lastNode →
  (∀ path tr origin,
     getLiteralValueAtPath E path tr origin s
     = Value (entityGetLiteralValueAtPath E (Entity lastNode) path tr origin))
  ∧ (∀ path context,
       hasEffectsWhenAssignedAtPath E path context s
       = Value (entityHasEffectsWhenAssignedAtPath E (Entity lastNode) path context))
  ∧ (∀ path callOptions context,
       hasEffectsWhenCalledAtPath E path callOptions context s
       = Value (entityHasEffectsWhenCalledAtPath E (Entity lastNode) path callOptions
                  context))
  ∧ (∀ path w,
       deoptimizePath path s w
       = Value (logCalls w [CallDeoptimizePath (Entity lastNode) path]))
  ∧ (IncludeContract E →
     ∀ context r w,
       is_Some (nodes w !! lastNode) →
       parentIsExpressionStatement s (nodes w) = false →
       isIncluded (nodes (include E context r s w).1) lastNode = true
       ∧ last (calls (include E context r s w).1) = Some (CallInclude lastNode r))
  ∧ (NoDup (expressions s) →
     ∀ pre e post context w,
       expressions s = pre ++ e :: post → post ≠ [] →
       let reached := includeExpressions E s IncludeFalse pre context (started s w) in
       ∃ cs,
         calls (include E context IncludeFalse s w).1 = calls w ++ cs
         ∧ (CallInclude e IncludeFalse ∈ cs
            ↔ nodeShouldBeIncluded E e reached.2 (nodes reached.1) = true)
         ∧ (CallInclude e IncludeFalse ∈ cs →
            ∃ c ns, nodeShouldBeIncluded E e c ns = true)).
Proof.
  intros Hlast.
  unfold getLiteralValueAtPath, hasEffectsWhenAssignedAtPath,
    hasEffectsWhenCalledAtPath, deoptimizePath, onLast.
  rewrite Hlast. do 4 (split; [done|]).
  split; [intros HE context r w Hin Hparent; by apply include_last|].
  intros Hnd pre e post context w Hes Hpost. cbv zeta.
  pose proof (include_earlier_calls E s pre e post context w Hes Hpost Hnd) as Hcalls.
  cbv zeta in Hcalls. destruct Hcalls as (cs & Hcs & Hiff).
  exists cs. split; [done|]. split; [done|]. intros Hin. apply Hiff in Hin. eauto.
Qed.

(** [(a(), b)] passed as an argument: the value is asked of [b], and [b] is
    included although it has no effects; [a()], which does not answer that
    it should be included, is not handed to [include]. *)
Lemma sequence_defers_to_last_expression_witness :
  lastExpression Examples.sequence = Some 13
  ∧ getLiteralValueAtPath Examples.entities [] [] 7 Examples.sequence
    = Value (Known (LitNumber 1))
  ∧ isIncluded
      (nodes (include Examples.entities createInclusionContext IncludeFalse
                Examples.sequence Examples.sequenceWorld).1) 13 = true
  ∧ ∃ cs,
      calls (include Examples.entities createInclusionContext IncludeFalse
               Examples.sequence Examples.sequenceWorld).1
      = calls Examples.sequenceWorld ++ cs
      ∧ CallInclude 12 IncludeFalse ∉ cs.
Proof.
  split; [reflexivity|].
  destruct (sequence_defers_to_last_expression Examples.entities Examples.sequence 13
              eq_refl) as (Hvalue & _ & _ & _ & Hinclude & Hearlier).
  split; [apply Hvalue|].
  split; [apply Hinclude; [apply entities_contract|by eexists|reflexivity]|].
  assert (NoDup (expressions Examples.sequence)) as Hnd.
  { apply NoDup_cons. split; [|apply NoDup_singleton].
    intros Hin. apply list_elem_of_singleton in Hin. discriminate. }
  assert ([13] ≠ @nil NodeId) as Hpost by discriminate.
  destruct (Hearlier Hnd [] 12 [13] createInclusionContext Examples.sequenceWorld
              eq_refl Hpost) as (cs & Hcs & Hiff & _).
  exists cs. split; [exact Hcs|]. intros Hin. apply Hiff in Hin. by vm_compute in Hin.
Defined.

End SequenceExpressionFacts.

(** * Properties of the resolver *)

Module ResolverFacts.

Import Resolver Invariants.

(** ** Reasoning about the monad *)

Lemma bind_Ok {A B} (c : M A) (k : A → M B) st b st' :
  bind c k st = Ok b st' ↔ ∃ a st1, c st = Ok a st1 ∧ k a st1 = Ok b st'.
Proof.
  unfold bind. split.
  - destruct (c st) as [a st1| |]; [eauto|done|done].
  - by intros (a & st1 & -> & ?).
Qed.

Lemma ret_Ok {A} (a b : A) st st' : ret a st = Ok b st' ↔ a = b ∧ st = st'.
Proof. unfold ret. split; [by intros [= -> ->]|by intros [-> ->]]. Qed.

Lemma getModule_Ok m st md st' :
  getModule m st = Ok md st' ↔ modulesById st !! m = Some md ∧ st' = st.
Proof.
  unfold getModule. destruct (modulesById st !! m); split; try done.
  - by intros [= -> ->].
  - by intros [[= ->] ->].
  - by intros [? _].
Qed.

Lemma lookupModule_Ok m st md st' :
  lookupModule m st = Ok md st' ↔ md = modulesById st !! m ∧ st' = st.
Proof. unfold lookupModule. split; [by intros [= <- <-]|by intros [-> ->]]. Qed.

Lemma updateModule_Ok m f st u st' :
  updateModule m f st = Ok u st'
  ↔ st' = mkState (alter f m (modulesById st)) (warnings st).
Proof. unfold updateModule. destruct u. split; [by intros [= <-]|by intros ->]. Qed.

Lemma onwarn_Ok w st u st' :
  onwarn w st = Ok u st' ↔ st' = mkState (modulesById st) (warnings st ++ [w]).
Proof. unfold onwarn. destruct u. split; [by intros [= <-]|by intros ->]. Qed.

Lemma deref_Ok m st a st' : deref m st = Ok a st' ↔ m = Some a ∧ st' = st.
Proof.
  unfold deref, ret, throw. destruct m; split; try done.
  - by intros [= -> ->].
  - by intros [[= ->] ->].
  - by intros [? _].
Qed.

(** Takes apart the hypotheses saying that a sequence of operations
    returned. *)
Ltac inv_step :=
  match goal with
  | H : bind _ _ _ = Ok _ _ |- _ =>
      apply bind_Ok in H as (? & ? & ? & H)
  | H : (let* _ := _ in _) _ = Ok _ _ |- _ =>
      apply bind_Ok in H as (? & ? & ? & H)
  | H : ret _ _ = Ok _ _ |- _ => apply ret_Ok in H as [? ?]
  | H : throw _ _ = Ok _ _ |- _ => discriminate H
  | H : Throw _ = Ok _ _ |- _ => discriminate H
  | H : OutOfFuel = Ok _ _ |- _ => discriminate H
  | H : getModule _ _ = Ok _ _ |- _ => apply getModule_Ok in H as [? ?]
  | H : lookupModule _ _ = Ok _ _ |- _ => apply lookupModule_Ok in H as [? ?]
  | H : updateModule _ _ _ = Ok _ _ |- _ => apply updateModule_Ok in H
  | H : onwarn _ _ = Ok _ _ |- _ => apply onwarn_Ok in H
  | H : deref _ _ = Ok _ _ |- _ => apply deref_Ok in H as [? ?]
  | H : Ok _ _ = Ok _ _ |- _ => injection H as ? ?
  end.

Ltac inv_monad := repeat (inv_step; simplify_eq/=).


Lemma cachesOk_lookup st :
  cachesOk st
  ↔ ∀ m md name r,
      modulesById st !! m = Some md → namespaceReexportsByName md !! name = Some r →
      flagOk r = true.
Proof.
  unfold cachesOk. rewrite map_Forall_lookup. split.
  - intros Hst m md name r Hm Hr. specialize (Hst m md Hm).
    rewrite map_Forall_lookup in Hst. by eapply Hst.
  - intros Hst m md Hm. rewrite map_Forall_lookup. intros name r Hr. by eapply Hst.
Qed.


Lemma sameCaches_refl st : sameCaches st st.
Proof. done. Qed.

Lemma sameCaches_trans a b c : sameCaches a b → sameCaches b c → sameCaches a c.
Proof. intros Hab Hbc m. by rewrite Hab. Qed.

Lemma sameCaches_cachesOk st st' : sameCaches st st' → cachesOk st → cachesOk st'.
Proof.
  rewrite !cachesOk_lookup.
  intros Hs Hc m md' name r Hm Hr. specialize (Hs m). rewrite Hm in Hs.
  destruct (modulesById st !! m) as [md|] eqn:Hmd; [|done].
  injection Hs as _ Hn. eapply Hc; [done|]. by rewrite Hn.
Qed.

Lemma sameCaches_alter st m f :
  (∀ md, isExternalModule (f md) = isExternalModule md
         ∧ namespaceReexportsByName (f md) = namespaceReexportsByName md) →
  sameCaches st (mkState (alter f m (modulesById st)) (warnings st)).
Proof.
  intros Hf m'. simpl. destruct (decide (m = m')) as [->|Hne].
  - rewrite lookup_alter_eq. destruct (modulesById st !! m') as [md|]; [|done].
    simpl. by destruct (Hf md) as [-> ->].
  - by rewrite lookup_alter_ne.
Qed.

Lemma cachesOk_warnings st ws : cachesOk st → cachesOk (mkState (modulesById st) ws).
Proof. done. Qed.


Lemma noneFound_ok : foundOk noneFound.
Proof. split; [constructor|]. split; [constructor|done]. Qed.

Lemma Forall_setAdd {A} `{EqDecision A} (P : A → Prop) x (s : list A) :
  P x → Forall P s → Forall P (setAdd x s).
Proof.
  intros Hx Hs. unfold setAdd. case_bool_decide; [done|].
  apply Forall_app. by split; [|constructor].
Qed.

Lemma Forall_mapSet {K V} `{EqDecision K} (P : K * V → Prop) k v (m : OrderedMap K V) :
  P (k, v) → Forall P m → Forall P (mapSet k v m).
Proof.
  intros Hk. induction m as [|[k' v'] m IH]; intros Hm; simpl.
  - by constructor.
  - apply Forall_cons in Hm as [Hh Ht]. case_decide; constructor; auto.
Qed.

Lemma recordDeclaration_ok isExternal module variable indirectExternal f :
  foundOk f →
  (isExternal || indirectExternal = true → externalOrNull variable = true) →
  foundOk (recordDeclaration isExternal module variable indirectExternal f).
Proof.
  intros (He & Hi & Hs) Hv. unfold recordDeclaration.
  destruct (isExternal || indirectExternal).
  - split; [|done]. simpl. by apply Forall_setAdd; [apply Hv|].
  - destruct variable as [v|]; [|done].
    destruct (isSyntheticNamedExportVariable v) eqn:Hsyn.
    + destruct (foundSyntheticDeclaration f) eqn:Hf.
      { repeat split; try done. by rewrite Hf. }
      split; [done|]. split; [done|]. simpl. by intros ? [= <-].
    + split; [done|]. split; [|done]. simpl. by apply Forall_mapSet.
Qed.


Section Invariant.

Variable options : InputOptions.
Variable self : SelfType.
Hypothesis Hself : selfOk self.

Lemma getVariableForExportNameRecursive_ok st target name importer isExportAllSearch
    searched :
  cachesOk st →
  callOk st target
    (getVariableForExportNameRecursive self target name importer isExportAllSearch
       searched st).
Proof using Hself.
  intros Hst. unfold getVariableForExportNameRecursive.
  assert (∀ s : Searched,
            callOk st target
              (bind (self target name (mkOptions importer isExportAllSearch false (Some s)))
                 (λ '(resolution, searched'),
                    ret (resolution,
                         match searched with Some _ => searched' | None => None end))
                 st)) as Hvisit.
  { intros s. unfold bind.
    pose proof (Hself st target name
                  (mkOptions importer isExportAllSearch false (Some s)) Hst) as Hc.
    destruct (self _ _ _ st) as [[r S] st'| |]; simpl in *; done. }
  destruct (default ∅ searched !! name) as [ms|]; [|apply Hvisit].
  case_bool_decide; [|apply Hvisit].
  destruct isExportAllSearch; simpl; [|done]. by repeat split.
Qed.

Lemma probeExportAllModules_ok name importer modules searched f st f' searched' st' :
  cachesOk st → foundOk f →
  probeExportAllModules self name importer modules searched f st
    = Ok (f', searched') st' →
  cachesOk st' ∧ foundOk f'.
Proof using Hself.
  revert searched f st. induction modules as [|module modules IH];
    intros searched f st Hst Hf Hp; simpl in Hp.
  - by inv_monad.
  - apply bind_Ok in Hp as (md & st1 & Hmd & Hp).
    apply getModule_Ok in Hmd as [Hmd ->].
    case_bool_decide; [by eapply IH|].
    apply bind_Ok in Hp as ([[variable indirectExternal] searched1] & st1 & Hr & Hp).
    pose proof (getVariableForExportNameRecursive_ok st module name importer true
                  searched Hst) as Hc.
    rewrite Hr in Hc. destruct Hc as (Hst1 & Hflag & Hext).
    eapply IH; [exact Hst1| |exact Hp].
    apply recordDeclaration_ok; [done|]. simpl in *.
    intros [He| ->]%orb_true_iff; [by eapply Hext|]. exact Hflag.
Qed.

Lemma selectDeclaration_ok this name f st r st' :
  cachesOk st → foundOk f →
  selectDeclaration this name f st = Ok r st' →
  cachesOk st' ∧ flagOk r = true.
Proof.
  intros Hst (He & Hi & Hs) Hsel. unfold selectDeclaration in Hsel.
  destruct (foundInternalDeclarations f) as [|[used ?] rest].
  - destruct (foundExternalDeclarations f) as [|used rest].
    + destruct (foundSyntheticDeclaration f); by inv_monad.
    + apply Forall_cons in He as [Hused _].
      apply bind_Ok in Hsel as ([] & st1 & Hw & Hsel).
      apply ret_Ok in Hsel as [<- <-].
      split; [|exact Hused].
      destruct rest; [by apply ret_Ok in Hw as [_ <-]|].
      destruct used; [|done].
      destruct (declarationModuleIds _); [|done].
      apply onwarn_Ok in Hw as ->. by apply cachesOk_warnings.
  - destruct rest; inv_monad; [done|].
    split; [|done]. by apply cachesOk_warnings.
Qed.

Lemma getVariableFromNamespaceReexports_ok this name importer searched st r searched' st' :
  cachesOk st →
  getVariableFromNamespaceReexports self this name importer searched st
    = Ok (r, searched') st' →
  cachesOk st' ∧ flagOk r = true.
Proof using Hself.
  intros Hst Hg. unfold getVariableFromNamespaceReexports in Hg.
  apply bind_Ok in Hg as (m & st1 & Hm & Hg). apply getModule_Ok in Hm as [Hm ->].
  apply bind_Ok in Hg as ([f s1] & st1 & Hp & Hg).
  apply probeExportAllModules_ok in Hp as [Hst1 Hf]; [|done|apply noneFound_ok].
  apply bind_Ok in Hg as (r' & st2 & Hsel & Hg). inv_monad.
  by eapply selectDeclaration_ok.
Qed.


Lemma post_ret {A} (a : A) (Q : A → Prop) : Q a → post (ret a) Q.
Proof. intros Ha st b st' Hst [<- <-]%ret_Ok. done. Qed.

Lemma post_throw {A} e (Q : A → Prop) : post (throw e) Q.
Proof. by intros st b st' _ ?. Qed.

Lemma post_bind {A B} (c : M A) (k : A → M B) (Q : A → Prop) (R : B → Prop) :
  post c Q → (∀ a, Q a → post (k a) R) → post (bind c k) R.
Proof.
  intros Hc Hk st b st' Hst (a & st1 & Ha & Hb)%bind_Ok.
  destruct (Hc st a st1 Hst Ha) as [Hst1 HQ]. by eapply Hk.
Qed.

Lemma post_weaken {A} (c : M A) (Q R : A → Prop) :
  post c Q → (∀ a, Q a → R a) → post c R.
Proof. intros Hc HQR st a st' Hst Ha. destruct (Hc st a st' Hst Ha). auto. Qed.

Lemma post_getModule m : post (getModule m) (λ _, True).
Proof. by intros st md st' Hst [_ ->]%getModule_Ok. Qed.

Lemma post_getModule_cache m :
  post (getModule m)
    (λ md, ∀ name r, namespaceReexportsByName md !! name = Some r → flagOk r = true).
Proof.
  intros st md st' Hst [Hm ->]%getModule_Ok. split; [done|].
  intros name r Hr. rewrite cachesOk_lookup in Hst. by eapply Hst.
Qed.

Lemma post_lookupModule m : post (lookupModule m) (λ _, True).
Proof. by intros st md st' Hst [_ ->]%lookupModule_Ok. Qed.

Lemma post_deref m : post (deref m) (λ _, True).
Proof. by intros st md st' Hst [_ ->]%deref_Ok. Qed.

Lemma post_onwarn w : post (onwarn w) (λ _, True).
Proof. intros st [] st' Hst ->%onwarn_Ok. by split; [apply cachesOk_warnings|]. Qed.

Lemma post_updateModule m f :
  (∀ md, isExternalModule (f md) = isExternalModule md
         ∧ namespaceReexportsByName (f md) = namespaceReexportsByName md) →
  post (updateModule m f) (λ _, True).
Proof.
  intros Hf st [] st' Hst ->%updateModule_Ok. split; [|done].
  eapply sameCaches_cachesOk; [by apply sameCaches_alter|done].
Qed.

Lemma post_cache this name r :
  flagOk r = true →
  post (updateModule this (λ m,
          setNamespaceReexportsByName (<[name := r]> (namespaceReexportsByName m)) m))
       (λ _, True).
Proof.
  intros Hr st [] st' Hst ->%updateModule_Ok. split; [|done].
  rewrite cachesOk_lookup in Hst. apply cachesOk_lookup.
  intros m md name' r' Hm Hr'. simpl in Hm.
  destruct (decide (this = m)) as [->|Hne].
  - rewrite lookup_alter_eq in Hm.
    destruct (modulesById st !! m) as [md0|] eqn:Hmd; simplify_eq/=.
    destruct (decide (name = name')) as [->|Hn].
    + rewrite lookup_insert_eq in Hr'. by simplify_eq.
    + rewrite lookup_insert_ne in Hr' by done. by eapply Hst.
  - rewrite lookup_alter_ne in Hm by done. by eapply Hst.
Qed.

Lemma post_setAlternativeExporterIfCyclic variable importer reexporter :
  post (setAlternativeExporterIfCyclic variable importer reexporter) (λ _, True).
Proof.
  unfold setAlternativeExporterIfCyclic.
  eapply post_bind; [apply post_lookupModule|]. intros exporter _.
  eapply post_bind; [apply post_getModule|]. intros r _.
  destruct exporter as [exporter|]; [|by apply post_ret].
  destruct (_ && _); [|by apply post_ret].
  by apply post_updateModule.
Qed.

Lemma post_addSideEffectDependency importer variable module :
  post (addSideEffectDependency importer variable module) (λ _, True).
Proof. by apply post_updateModule. Qed.

Lemma post_shimMissingExport this name :
  post (shimMissingExport options this name) (λ _, True).
Proof.
  unfold shimMissingExport.
  eapply post_bind; [apply post_onwarn|]. intros _ _. by apply post_updateModule.
Qed.


Lemma post_self target name o : post (self target name o) flagged.
Proof using Hself.
  intros st [r S] st' Hst Hs. pose proof (Hself st target name o Hst) as Hc.
  rewrite Hs in Hc. by destruct Hc as (? & ? & _).
Qed.

Lemma post_getVariableForExportNameRecursive target name importer isExportAllSearch
    searched :
  post (getVariableForExportNameRecursive self target name importer isExportAllSearch
          searched) flagged.
Proof using Hself.
  intros st [r S] st' Hst Hs.
  pose proof (getVariableForExportNameRecursive_ok st target name importer
                isExportAllSearch searched Hst) as Hc.
  rewrite Hs in Hc. by destruct Hc as (? & ? & _).
Qed.

Lemma post_getVariableFromNamespaceReexports this name importer searched :
  post (getVariableFromNamespaceReexports self this name importer searched) flagged.
Proof using Hself.
  intros st [r S] st' Hst Hs. by eapply getVariableFromNamespaceReexports_ok.
Qed.

Lemma post_traceVariable this name importer :
  post (traceVariable self this name importer) (λ _, True).
Proof using Hself.
  unfold traceVariable.
  eapply post_bind; [apply post_getModule|]. intros m _.
  destruct (scope_variables m !! name); [by apply post_ret|].
  destruct (mapGet name (importDescriptions m)) as [d|]; [|by apply post_ret].
  eapply post_bind.
  { instantiate (1 := λ _, True).
    destruct (import_module d); [apply post_lookupModule|by apply post_ret]. }
  intros o _. destruct (_ && _); [by apply post_ret|].
  eapply post_bind; [apply post_deref|]. intros otherModule _.
  eapply post_bind; [apply post_self|]. intros [[declaration ?] ?] _.
  destruct declaration; [by apply post_ret|apply post_throw].
Qed.

Lemma post_getSyntheticNamespace this :
  post (getSyntheticNamespace self this) (λ _, True).
Proof using Hself.
  unfold getSyntheticNamespace.
  eapply post_bind; [apply post_getModule|]. intros m _.
  eapply post_bind.
  { instantiate (1 := λ _, True).
    destruct (syntheticNamespace m); try by apply post_ret.
    eapply post_bind; [by apply post_updateModule|]. intros _ _.
    eapply post_bind; [apply post_self|]. intros [[variable ?] ?] _.
    by apply post_updateModule. }
  intros _ _. eapply post_bind; [apply post_getModule|]. intros m' _.
  destruct (syntheticNamespace m'); first [by apply post_ret|apply post_throw].
Qed.

Lemma post_getVariableForRegularExportName this name o :
  post (getVariableForRegularExportName options self this name o) flagged.
Proof using Hself.
  unfold getVariableForRegularExportName.
  eapply post_bind; [apply post_getModule_cache|]. intros m Hm.
  destruct (mapGet name (reexportDescriptions m)) as [d|].
  { eapply post_bind; [apply post_deref|]. intros target _.
    eapply post_bind; [apply post_getVariableForExportNameRecursive|].
    intros [[variable ?] searched] _.
    destruct variable as [variable|]; [|apply post_throw].
    eapply post_bind.
    { instantiate (1 := λ _, True).
      destruct (importerForSideEffects o);
        [apply post_setAlternativeExporterIfCyclic|by apply post_ret]. }
    intros _ _. by apply post_ret. }
  destruct (mapGet name (exports m)) as [[|identifier localName]|].
  { by apply post_ret. }
  { eapply post_bind; [apply post_traceVariable|]. intros variable _.
    eapply post_bind.
    { instantiate (1 := λ _, True).
      destruct (importerForSideEffects o); [|by apply post_ret].
      destruct variable; [|apply post_throw].
      eapply post_bind; [apply post_addSideEffectDependency|]. intros _ _.
      apply post_setAlternativeExporterIfCyclic. }
    intros _ _. by apply post_ret. }
  destruct (onlyExplicit o); [by apply post_ret|].
  eapply post_bind.
  { instantiate (1 := λ x, match x.1 with Some r => flagOk r = true | None => True end).
    case_bool_decide; [|by apply post_ret].
    eapply post_bind.
    { instantiate (1 := flagged).
      destruct (namespaceReexportsByName m !! name) as [cached|] eqn:Hc.
      - apply post_ret. by eapply Hm.
      - apply post_getVariableFromNamespaceReexports. }
    intros [found searched] Hfound.
    eapply post_bind; [by apply post_cache|]. intros _ _.
    apply post_ret. simpl. by destruct found.1. }
  intros [found searched] Hfound. simpl in Hfound.
  destruct found as [found|]; [by apply post_ret|].
  eapply post_bind; [apply post_getModule|]. intros m' _.
  destruct (truthyBoolOrString _).
  { destruct (syntheticExports m' !! name); [by apply post_ret|].
    eapply post_bind; [apply post_getSyntheticNamespace|]. intros _ _.
    eapply post_bind; [by apply post_updateModule|]. intros _ _.
    by apply post_ret. }
  destruct (_ && _); [|by apply post_ret].
  eapply post_bind; [apply post_shimMissingExport|]. intros _ _. by apply post_ret.
Qed.

(** The body of the resolver keeps what it assumes of the calls it makes. *)
Lemma getVariableForExportNameBody_ok :
  selfOk (getVariableForExportNameBody options self).
Proof using Hself.
  intros st this name o Hst. unfold getVariableForExportNameBody, bind at 1.
  unfold getModule at 1. destruct (modulesById st !! this) as [m|] eqn:Hm; [|done].
  destruct (isExternalModule m) eqn:Hext.
  { simpl. repeat split; try done. }
  assert (∀ c : M (Resolution * option Searched), post c flagged → callOk st this (c st))
    as Hpost.
  { intros c Hc. destruct (c st) as [[r S] st'| |] eqn:Hcs; try done.
    destruct (Hc st (r, S) st' Hst Hcs) as [? ?].
    repeat split; try done. intros md ? ?. congruence. }
  assert (post (getVariableForRegularExportName options self this name o) flagged)
    as Hregular by apply post_getVariableForRegularExportName.
  destruct name as [|c name]; [by apply Hpost|].
  destruct (decide (c = "*"%char)) as [->|Hc].
  - destruct name.
    + apply Hpost. by apply post_ret.
    + apply Hpost.
      eapply post_bind; [apply post_getModule|]. intros _ _.
      eapply post_bind; [apply post_self|]. intros [r ?] Hr. by apply post_ret.
  - replace (match String c name with
             | String "*"%char "" => _
             | String "*"%char (String _ _ as externalId) => _
             | _ => getVariableForRegularExportName options self this (String c name) o
             end)
      with (getVariableForRegularExportName options self this (String c name) o);
      [by apply Hpost|].
    destruct c as [[] [] [] [] [] [] [] []]; try done.
Qed.

End Invariant.

Lemma getVariableForExportName_ok options fuel :
  selfOk (getVariableForExportName options fuel).
Proof.
  induction fuel as [|fuel IH]; [by intros st target name o _|].
  by apply getVariableForExportNameBody_ok.
Qed.

(** ** The tie-break after the loop *)

Lemma declarationModuleIds_Some ds :
  Forall is_Some ds →
  declarationModuleIds ds = Some (omap (fmap variableModule) ds).
Proof.
  induction ds as [|d ds IH]; intros He; [done|].
  apply Forall_cons in He as [[x ->] He]. unfold declarationModuleIds in *.
  simpl. by rewrite IH.
Qed.

(** When no found external declaration is [null], the choice after the loop
    is the tie-break of the specification: a single internal declaration is
    returned; several raise [NAMESPACE_CONFLICT] and give [null]; otherwise
    the first external declaration is returned, flagged, with
    [AMBIGUOUS_EXTERNAL_NAMESPACES] when there are several; otherwise the
    synthetic declaration, or [null]. *)
Lemma selectDeclaration_tie_break this name f st :
  Forall is_Some (foundExternalDeclarations f) →
  selectDeclaration this name f st
  = match foundInternalDeclarations f with
    | [(v, _)] => Ok (Some v, false) st
    | _ :: _ :: _ =>
        Ok (None, false)
           (mkState (modulesById st)
              (warnings st
               ++ [NAMESPACE_CONFLICT name this (foundInternalDeclarations f).*2]))
    | [] =>
        match foundExternalDeclarations f with
        | [d] => Ok (d, true) st
        | d :: _ :: _ =>
            Ok (d, true)
               (mkState (modulesById st)
                  (warnings st
                   ++ [AMBIGUOUS_EXTERNAL_NAMESPACES name this
                         (from_option variableModule "" d)
                         (omap (fmap variableModule) (foundExternalDeclarations f))]))
        | [] => Ok (foundSyntheticDeclaration f, false) st
        end
    end.
Proof.
  intros He. unfold selectDeclaration.
  destruct (foundInternalDeclarations f) as [|[v owner] [|? ?]]; try done.
  destruct (foundExternalDeclarations f) as [|d [|d' rest]] eqn:Hf.
  - by destruct (foundSyntheticDeclaration f).
  - done.
  - rewrite (declarationModuleIds_Some _ He).
    apply Forall_cons in He as [[u ->] _]. done.
Qed.

(** C2.  When [getVariableForExportNameRecursive] is entered for a pair of a
    name and a module that [searchedNamesAndModules] already records, a search
    that is not an [export *] probe throws [CIRCULAR_REEXPORT] with the name
    and the id of the module entered again, and an [export *] probe returns
    [null] and leaves the map and the state as they are; neither calls the
    module. *)
Theorem reentered_pair_is_circular (self : SelfType) (target : ModuleId) (name : string)
    (importer : option ModuleId) (searched : Searched) (searchedModules : gset ModuleId)
    (st : State) :
  searched !! name = Some searchedModules → target ∈ searchedModules →
  getVariableForExportNameRecursive self target name importer false (Some searched) st
  = Throw (CIRCULAR_REEXPORT name target)
  ∧ getVariableForExportNameRecursive self target name importer true (Some searched) st
    = Ok ((None, false), Some searched) st.
Proof.
  intros Hname Htarget. unfold getVariableForExportNameRecursive. simpl.
  by rewrite Hname, bool_decide_eq_true_2.
Qed.

Lemma reentered_pair_is_circular_witness :
  ({["x" := {["b"; "a"]}]} : Searched) !! "x" = Some ({["b"; "a"]} : gset ModuleId)
  ∧ "b" ∈ ({["b"; "a"]} : gset ModuleId)
  ∧ getVariableForExportNameRecursive
      (getVariableForExportName Examples.inputOptions 8) "b" "x" None false
      (Some {["x" := {["b"; "a"]}]}) Examples.circularReexport
    = Throw (CIRCULAR_REEXPORT "x" "b").
Proof.
  assert (({["x" := {["b"; "a"]}]} : Searched) !! "x"
          = Some ({["b"; "a"]} : gset ModuleId)) as Hx by reflexivity.
  assert ("b" ∈ ({["b"; "a"]} : gset ModuleId)) as Hb by set_solver.
  split; [exact Hx|]. split; [exact Hb|].
  exact (proj1 (reentered_pair_is_circular
                  (getVariableForExportName Examples.inputOptions 8) "b" "x" None
                  {["x" := {["b"; "a"]}]} {["b"; "a"]} Examples.circularReexport Hx Hb)).
Defined.

(** The circular re-export of the specification, from either side: the error
    names the module that is entered for the second time. *)
Example circular_reexport_from_a :
  getVariableForExportName Examples.inputOptions 8 "a" "x" EMPTY_OBJECT
    Examples.circularReexport
  = Throw (CIRCULAR_REEXPORT "x" "b").
Proof. reflexivity. Qed.

Example circular_reexport_from_b :
  getVariableForExportName Examples.inputOptions 8 "b" "x" EMPTY_OBJECT
    Examples.circularReexport
  = Throw (CIRCULAR_REEXPORT "x" "a").
Proof. reflexivity. Qed.

(** The star conflict of the specification: a warning and [null]. *)
Example star_conflict :
  ∃ st,
    getVariableForExportName Examples.inputOptions 8 "m" "k" EMPTY_OBJECT
      Examples.starConflict
    = Ok ((None, false), None) st
    ∧ warnings st = [NAMESPACE_CONFLICT "k" "m" ["a"; "b"]].
Proof. eexists. split; reflexivity. Qed.

(** C1, at the input where it fails.  [t] re-exports everything of [m], which
    re-exports everything of [a] and of the external module [ext], and [a]
    re-exports everything of [ext] as well.  Resolving [x] on [t] probes [m]
    with a map of searched modules; the probe of [a] enters [ext] in it, so
    the probe of [ext] itself returns [null], which is recorded as an external
    declaration next to the variable of [ext].  Building the warning for
    the two "declarations" then reads the module of [null]. *)
Theorem shared_external_namespace_throws :
  getVariableForExportName Examples.inputOptions 8 "t" "x" EMPTY_OBJECT
    Examples.sharedExternal
  = Throw TYPE_ERROR
  ∧ ∃ f searched st,
      probeExportAllModules (getVariableForExportName Examples.inputOptions 6)
        "x" None ["a"; "ext"] (Some {["x" := {["m"]}]}) noneFound Examples.sharedExternal
      = Ok (f, searched) st
      ∧ foundInternalDeclarations f = []
      ∧ foundExternalDeclarations f = [Some (ExternalVar "ext" "x"); None]
      ∧ selectDeclaration "m" "x" f st = Throw TYPE_ERROR.
Proof.
  split; [by vm_compute|].
  eexists _, _, _. split; [vm_compute; reflexivity|]. by vm_compute.
Qed.

(** What one run of the loop over the star targets does.  A target whose
    [syntheticNamedExports] equals the name is passed over: it is not called
    and nothing is recorded for it.  Of what the loop has found, a single
    internal declaration is returned, and without internal declarations the
    first external one, whether or not a synthetic declaration was found as
    well; a synthetic variable is the result only when no internal and no
    external declaration was found.  What the loop finds is what the targets
    answer in this run, which for a target in a circle of [export *] can be a
    memoised [null], as the theorem after this one shows. *)
Lemma synthetic_declaration_comes_last (options : InputOptions) (fuel : nat)
    (this : ModuleId) (name : string) (importer : option ModuleId)
    (searched : option Searched) (st : State) :
  cachesOk st →
  let self := getVariableForExportName options fuel in
  (∀ target md modules f,
     modulesById st !! target = Some md →
     info_syntheticNamedExports md = OfString name →
     probeExportAllModules self name importer (target :: modules) searched f st
     = probeExportAllModules self name importer modules searched f st)
  ∧ (∀ r searched' st',
       getVariableFromNamespaceReexports self this name importer searched st
       = Ok (r, searched') st' →
       ∃ m f st1,
         modulesById st !! this = Some m
         ∧ probeExportAllModules self name importer (exportAllModules m) searched
             noneFound st = Ok (f, searched') st1
         ∧ (∀ v owner, foundInternalDeclarations f = [(v, owner)] → r = (Some v, false))
         ∧ (∀ d rest,
              foundInternalDeclarations f = [] →
              foundExternalDeclarations f = d :: rest → r = (d, true))
         ∧ (∀ v, r.1 = Some v → isSyntheticNamedExportVariable v = true →
                 foundInternalDeclarations f = [] ∧ foundExternalDeclarations f = []
                 ∧ foundSyntheticDeclaration f = Some v)).
Proof.
  intros Hst self. split.
  - intros target md modules f Hmd Hsyn. simpl. unfold bind at 1, getModule at 1.
    by rewrite Hmd, Hsyn, bool_decide_eq_true_2.
  - intros r searched' st' Hg. unfold getVariableFromNamespaceReexports in Hg.
    apply bind_Ok in Hg as (m & st0 & Hm & Hg). apply getModule_Ok in Hm as [Hm ->].
    apply bind_Ok in Hg as ([f s1] & st1 & Hp & Hg).
    apply bind_Ok in Hg as (r' & st2 & Hsel & Hg). apply ret_Ok in Hg as [[= -> ->] ->].
    exists m, f, st1. split; [done|]. split; [done|].
    pose proof (getVariableForExportName_ok options fuel) as Hself.
    destruct (probeExportAllModules_ok self Hself _ _ _ _ _ _ _ _ _ Hst noneFound_ok Hp)
      as (_ & He & Hi & Hs).
    unfold selectDeclaration in Hsel.
    split; [|split].
    + intros v owner Hf. rewrite Hf in Hsel. by apply ret_Ok in Hsel as [<- _].
    + intros d rest Hf Hf'. rewrite Hf, Hf' in Hsel.
      apply bind_Ok in Hsel as (? & ? & _ & Hsel). by apply ret_Ok in Hsel as [<- _].
    + intros v Hv Hsyn.
      destruct (foundInternalDeclarations f) as [|[used owner] rest].
      * destruct (foundExternalDeclarations f) as [|used rest].
        { destruct (foundSyntheticDeclaration f);
            apply ret_Ok in Hsel as [<- _]; by simplify_eq/=. }
        apply Forall_cons in He as [Hused _].
        apply bind_Ok in Hsel as (? & ? & _ & Hsel). apply ret_Ok in Hsel as [<- _].
        simpl in Hv. subst used. by destruct v.
      * apply Forall_cons in Hi as [Hused _]. simpl in Hused.
        destruct rest.
        { apply ret_Ok in Hsel as [<- _]. simpl in Hv. congruence. }
        apply bind_Ok in Hsel as (? & ? & _ & Hsel). by apply ret_Ok in Hsel as [<- _].
Qed.

(** [m] re-exports everything of [s], which has synthetic named exports: [x]
    resolves to the synthetic variable of [s], and nothing else was found. *)
Lemma synthetic_declaration_comes_last_witness :
  cachesOk Examples.syntheticFallback
  ∧ ∃ f searched st,
      probeExportAllModules (getVariableForExportName Examples.inputOptions 8)
        "x" None ["s"] None noneFound Examples.syntheticFallback
      = Ok (f, searched) st
      ∧ foundInternalDeclarations f = [] ∧ foundExternalDeclarations f = []
      ∧ foundSyntheticDeclaration f = Some (SyntheticVar "s" "x").
Proof.
  assert (cachesOk Examples.syntheticFallback) as Hst
    by (apply (bool_decide_unpack (cachesOk Examples.syntheticFallback)); vm_compute;
        exact I).
  split; [exact Hst|].
  destruct (proj2 (synthetic_declaration_comes_last Examples.inputOptions 8 "m" "x"
                     None None Examples.syntheticFallback Hst)
              (Some (SyntheticVar "s" "x"), false) None
              (mkState
                 (alter (setSyntheticExports {["x" := SyntheticVar "s" "x"]})
                    "s"
                    (alter (setSyntheticNamespace (NsVariable (ExportDefaultVar "s")))
                       "s"
                       (alter (setNamespaceReexportsByName {["x" := (None, false)]}) "s"
                          (modulesById Examples.syntheticFallback))))
                 []))
    as (m & f & st1 & Hm & Hp & _ & _ & Hsyn).
  { vm_compute. reflexivity. }
  injection Hm as <-. exists f, None, st1. split; [exact Hp|].
  by apply (Hsyn (SyntheticVar "s" "x")).
Defined.


End ResolverFacts.

(** * What resolution leaves alone *)

Module FrameFacts.

Import Resolver Invariants ResolverFacts.

(** ** What resolution leaves alone *)


Lemma sameLinks_refl st : sameLinks st st.
Proof. done. Qed.

Lemma sameLinks_trans a b c : sameLinks a b → sameLinks b c → sameLinks a c.
Proof. intros Hab Hbc m. by rewrite Hab. Qed.

Lemma sameLinks_alter st m f :
  (∀ md, linked (f md) = linked md) →
  sameLinks st (mkState (alter f m (modulesById st)) (warnings st)).
Proof.
  intros Hf m'. simpl. destruct (decide (m = m')) as [->|Hne].
  - rewrite lookup_alter_eq. destruct (modulesById st !! m') as [md|]; [|done].
    simpl. by rewrite Hf.
  - by rewrite lookup_alter_ne.
Qed.


Lemma frames_ret {A} (a : A) : frames (ret a).
Proof. by intros st b st' [_ <-]%ret_Ok. Qed.

Lemma frames_throw {A} e : frames (@throw A e).
Proof. by intros st b st' ?. Qed.

Lemma frames_bind {A B} (c : M A) (k : A → M B) :
  frames c → (∀ a, frames (k a)) → frames (bind c k).
Proof.
  intros Hc Hk st b st' (a & st1 & Ha & Hb)%bind_Ok.
  eapply sameLinks_trans; [by eapply Hc|by eapply Hk].
Qed.

Lemma frames_getModule m : frames (getModule m).
Proof. by intros st md st' [_ ->]%getModule_Ok. Qed.

Lemma frames_lookupModule m : frames (lookupModule m).
Proof. by intros st md st' [_ ->]%lookupModule_Ok. Qed.

Lemma frames_deref m : frames (deref m).
Proof. by intros st md st' [_ ->]%deref_Ok. Qed.

Lemma frames_onwarn w : frames (onwarn w).
Proof. by intros st [] st' ->%onwarn_Ok. Qed.

Lemma frames_updateModule m f :
  (∀ md, linked (f md) = linked md) → frames (updateModule m f).
Proof. intros Hf st [] st' ->%updateModule_Ok. by apply sameLinks_alter. Qed.

Lemma frames_if {A} (b : bool) (c1 c2 : M A) :
  frames c1 → frames c2 → frames (if b then c1 else c2).
Proof. by destruct b. Qed.

Lemma frames_foldM {A B} (f : B → A → M B) (b : B) (xs : list A) :
  (∀ b x, frames (f b x)) → frames (Inclusion.foldM f b xs).
Proof.
  intros Hf. revert b. induction xs as [|x xs IH]; intros b; simpl.
  - apply frames_ret.
  - apply frames_bind; [apply Hf|intros b'; apply IH].
Qed.

Lemma frames_setAlternativeExporterIfCyclic variable importer reexporter :
  frames (setAlternativeExporterIfCyclic variable importer reexporter).
Proof.
  unfold setAlternativeExporterIfCyclic.
  apply frames_bind; [apply frames_lookupModule|]. intros exporter.
  apply frames_bind; [apply frames_getModule|]. intros r.
  destruct exporter as [exporter|]; [|apply frames_ret].
  apply frames_if; [by apply frames_updateModule|apply frames_ret].
Qed.

Lemma frames_shimMissingExport options this name :
  frames (shimMissingExport options this name).
Proof.
  apply frames_bind; [apply frames_onwarn|]. intros _. by apply frames_updateModule.
Qed.

Lemma frames_selectDeclaration this name f : frames (selectDeclaration this name f).
Proof.
  unfold selectDeclaration.
  destruct (foundInternalDeclarations f) as [|[used ?] rest].
  - destruct (foundExternalDeclarations f) as [|used rest].
    + destruct (foundSyntheticDeclaration f); apply frames_ret.
    + apply frames_bind; [|intros; apply frames_ret].
      destruct rest; [apply frames_ret|].
      destruct used; [|apply frames_throw].
      destruct (declarationModuleIds _); [apply frames_onwarn|apply frames_throw].
  - destruct rest; [apply frames_ret|].
    apply frames_bind; [apply frames_onwarn|intros; apply frames_ret].
Qed.

Section Frame.

Variable options : InputOptions.
Variable self : SelfType.
Hypothesis Hself : ∀ target name o, frames (self target name o).

Lemma frames_getVariableForExportNameRecursive target name importer isExportAllSearch
    searched :
  frames (getVariableForExportNameRecursive self target name importer isExportAllSearch
            searched).
Proof using Hself.
  unfold getVariableForExportNameRecursive.
  assert (∀ s : Searched,
            frames
              (bind (self target name (mkOptions importer isExportAllSearch false (Some s)))
                 (λ '(resolution, searched'),
                    ret (resolution,
                         match searched with Some _ => searched' | None => None end))))
    as Hvisit.
  { intros s. apply frames_bind; [apply Hself|]. intros [? ?]. apply frames_ret. }
  destruct (default ∅ searched !! name) as [ms|]; [|apply Hvisit].
  apply frames_if; [|apply Hvisit].
  apply frames_if; [apply frames_ret|apply frames_throw].
Qed.

Lemma frames_probeExportAllModules name importer modules searched f :
  frames (probeExportAllModules self name importer modules searched f).
Proof using Hself.
  revert searched f. induction modules as [|module modules IH]; intros searched f; simpl.
  - apply frames_ret.
  - apply frames_bind; [apply frames_getModule|]. intros md.
    apply frames_if; [apply IH|].
    apply frames_bind; [apply frames_getVariableForExportNameRecursive|].
    intros [[variable indirectExternal] searched1]. apply IH.
Qed.

Lemma frames_getVariableFromNamespaceReexports this name importer searched :
  frames (getVariableFromNamespaceReexports self this name importer searched).
Proof using Hself.
  unfold getVariableFromNamespaceReexports.
  apply frames_bind; [apply frames_getModule|]. intros m.
  apply frames_bind; [apply frames_probeExportAllModules|]. intros [f s].
  apply frames_bind; [apply frames_selectDeclaration|]. intros r. apply frames_ret.
Qed.

Lemma frames_traceVariable this name importer :
  frames (traceVariable self this name importer).
Proof using Hself.
  unfold traceVariable.
  apply frames_bind; [apply frames_getModule|]. intros m.
  destruct (scope_variables m !! name); [apply frames_ret|].
  destruct (mapGet name (importDescriptions m)) as [d|]; [|apply frames_ret].
  apply frames_bind.
  { destruct (import_module d); [apply frames_lookupModule|apply frames_ret]. }
  intros o. apply frames_if; [apply frames_ret|].
  apply frames_bind; [apply frames_deref|]. intros otherModule.
  apply frames_bind; [apply Hself|]. intros [[declaration ?] ?].
  destruct declaration; [apply frames_ret|apply frames_throw].
Qed.

Lemma frames_getSyntheticNamespace this : frames (getSyntheticNamespace self this).
Proof using Hself.
  unfold getSyntheticNamespace.
  apply frames_bind; [apply frames_getModule|]. intros m.
  apply frames_bind.
  { destruct (syntheticNamespace m); try apply frames_ret.
    apply frames_bind; [by apply frames_updateModule|]. intros _.
    apply frames_bind; [apply Hself|]. intros [[variable ?] ?].
    by apply frames_updateModule. }
  intros _. apply frames_bind; [apply frames_getModule|]. intros m'.
  destruct (syntheticNamespace m'); first [apply frames_ret|apply frames_throw].
Qed.

Lemma frames_getVariableForRegularExportName this name o :
  frames (getVariableForRegularExportName options self this name o).
Proof using Hself.
  unfold getVariableForRegularExportName.
  apply frames_bind; [apply frames_getModule|]. intros m.
  destruct (mapGet name (reexportDescriptions m)) as [d|].
  { apply frames_bind; [apply frames_deref|]. intros target.
    apply frames_bind; [apply frames_getVariableForExportNameRecursive|].
    intros [[variable ?] searched].
    destruct variable as [variable|]; [|apply frames_throw].
    apply frames_bind; [|intros; apply frames_ret].
    destruct (importerForSideEffects o);
      [apply frames_setAlternativeExporterIfCyclic|apply frames_ret]. }
  destruct (mapGet name (exports m)) as [[|identifier localName]|].
  { apply frames_ret. }
  { apply frames_bind; [apply frames_traceVariable|]. intros variable.
    apply frames_bind; [|intros; apply frames_ret].
    destruct (importerForSideEffects o); [|apply frames_ret].
    destruct variable; [|apply frames_throw].
    apply frames_bind; [by apply frames_updateModule|]. intros _.
    apply frames_setAlternativeExporterIfCyclic. }
  apply frames_if; [apply frames_ret|].
  apply frames_bind.
  { apply frames_if; [|apply frames_ret].
    apply frames_bind.
    { destruct (namespaceReexportsByName m !! name);
        [apply frames_ret|apply frames_getVariableFromNamespaceReexports]. }
    intros [found searched].
    apply frames_bind; [by apply frames_updateModule|]. intros _. apply frames_ret. }
  intros [found searched].
  destruct found as [found|]; [apply frames_ret|].
  apply frames_bind; [apply frames_getModule|]. intros m'.
  apply frames_if.
  { destruct (syntheticExports m' !! name); [apply frames_ret|].
    apply frames_bind; [apply frames_getSyntheticNamespace|]. intros _.
    apply frames_bind; [by apply frames_updateModule|]. intros _. apply frames_ret. }
  apply frames_if; [|apply frames_ret].
  apply frames_bind; [apply frames_shimMissingExport|]. intros _. apply frames_ret.
Qed.

Lemma frames_getVariableForExportNameBody this name o :
  frames (getVariableForExportNameBody options self this name o).
Proof using Hself.
  unfold getVariableForExportNameBody.
  apply frames_bind; [apply frames_getModule|]. intros m.
  apply frames_if; [apply frames_ret|].
  pose proof (frames_getVariableForRegularExportName this) as Hregular.
  destruct name as [|c name]; [apply Hregular|].
  destruct c as [[] [] [] [] [] [] [] []]; try apply Hregular.
  destruct name; [apply frames_ret|].
  apply frames_bind; [apply frames_getModule|]. intros _.
  apply frames_bind; [apply Hself|]. intros [r ?]. apply frames_ret.
Qed.

End Frame.

Lemma frames_getVariableForExportName options fuel target name o :
  frames (getVariableForExportName options fuel target name o).
Proof.
  revert target name o. induction fuel as [|fuel IH]; intros target name o.
  - by intros st a st' ?.
  - by apply frames_getVariableForExportNameBody.
Qed.

Lemma frames_getReexports fuel this : frames (Inclusion.getReexports fuel this).
Proof.
  revert this. induction fuel as [|fuel IH]; intros this; simpl.
  - by intros st a st' ?.
  - apply frames_bind; [apply frames_getModule|]. intros m.
    destruct (transitiveReexports m); [apply frames_ret|].
    apply frames_bind; [by apply frames_updateModule|]. intros _.
    apply frames_bind.
    { apply frames_foldM. intros reexports module.
      apply frames_bind; [apply frames_getModule|]. intros md.
      apply frames_if; [apply frames_ret|].
      apply frames_bind; [apply IH|]. intros names. apply frames_ret. }
    intros reexports.
    apply frames_bind; [by apply frames_updateModule|]. intros _. apply frames_ret.
Qed.

End FrameFacts.

(** * Properties of the relevant dependencies and of the effects of a module *)

Module DependencyFacts.

Import Resolver Inclusion Invariants GraphProperties ResolverFacts FrameFacts.

Lemma hbind_Normal {A B} (c : H A) (k : A → H B) h b h' :
  hbind c k h = (Normal b, h') ↔ ∃ a h1, c h = (Normal a, h1) ∧ k a h1 = (Normal b, h').
Proof.
  unfold hbind. split.
  - destruct (c h) as [[a|stop] h1]; [eauto|done].
  - by intros (a & h1 & -> & ?).
Qed.

Lemma lift_Normal {A} (c : M A) h a h' :
  lift c h = (Normal a, h') ↔ ∃ g, c (graph h) = Ok a g ∧ h' = withGraph h g.
Proof.
  unfold lift. split.
  - destruct (c (graph h)) as [a' g| |]; [|done|done]. intros [= -> <-]. eauto.
  - by intros (g & -> & ->).
Qed.


Lemma hframes_hret {A} (a : A) : hframes (hret a).
Proof. by intros h b h' [= _ <-]. Qed.

Lemma hframes_hbind {A B} (c : H A) (k : A → H B) :
  hframes c → (∀ a, hframes (k a)) → hframes (hbind c k).
Proof.
  intros Hc Hk h b h' (a & h1 & Ha & Hb)%hbind_Normal.
  eapply sameLinks_trans; [by eapply Hc|by eapply Hk].
Qed.

Lemma hframes_lift {A} (c : M A) : frames c → hframes (lift c).
Proof. intros Hc h a h' (g & Hg & ->)%lift_Normal. simpl. by eapply Hc. Qed.

Lemma hframes_if {A} (b : bool) (c1 c2 : H A) :
  hframes c1 → hframes c2 → hframes (if b then c1 else c2).
Proof. by destruct b. Qed.

Lemma hframes_hfoldM {A B} (f : B → A → H B) (b : B) (xs : list A) :
  (∀ b x, hframes (f b x)) → hframes (hfoldM f b xs).
Proof.
  intros Hf. revert b. induction xs as [|x xs IH]; intros b; simpl.
  - apply hframes_hret.
  - apply hframes_hbind; [apply Hf|intros b'; apply IH].
Qed.

Lemma hframes_variableIncluded v : hframes (variableIncluded v).
Proof.
  apply hframes_hbind; [|intros; apply hframes_hret].
  intros h a h'. unfold getVariable. by destruct (variables h !! v); intros [= _ <-].
Qed.

Lemma elem_of_setAdd {A} `{EqDecision A} (x y : A) (s : list A) :
  x ∈ setAdd y s ↔ x = y ∨ x ∈ s.
Proof.
  unfold setAdd. case_bool_decide.
  - split; [auto|]. by intros [->|].
  - rewrite elem_of_app, list_elem_of_singleton. tauto.
Qed.

Lemma elem_of_addAll {A} `{EqDecision A} (x : A) (xs s : list A) :
  x ∈ addAll xs s ↔ x ∈ xs ∨ x ∈ s.
Proof.
  unfold addAll. revert s. induction xs as [|y xs IH]; intros s; simpl.
  - split; [auto|]. intros [Hx|?]; [|done]. by apply elem_of_nil in Hx.
  - rewrite IH, elem_of_setAdd, elem_of_cons. tauto.
Qed.

Lemma hbind_getModule {B} this (k : Module → H B) h m :
  modulesById (graph h) !! this = Some m →
  hbind (lift (getModule this)) k h = k m h.
Proof. intros Hm. unfold hbind, lift, getModule. rewrite Hm. by destruct h. Qed.

Section Dependencies.

Variable options : InputOptions.
Variable E : Entities.
Variable C : Collaborators.

(** A cached set is returned as it is. *)
Lemma getDependenciesToBeIncluded_cached fuel this h m cached :
  modulesById (graph h) !! this = Some m →
  relevantDependencies m = Some cached →
  getDependenciesToBeIncluded options E C fuel this h
  = (Normal cached, withGraph h (graph h)).
Proof.
  intros Hm Hc. unfold getDependenciesToBeIncluded, hbind, lift, getModule.
  by rewrite Hm, Hc.
Qed.

Lemma hframes_exportedVariables fuel this dvs :
  hframes (exportedVariables options fuel this dvs).
Proof.
  apply hframes_hbind; [apply hframes_lift, frames_getReexports|]. intros reexports.
  apply hframes_hbind; [apply hframes_lift, frames_getModule|]. intros m1.
  apply hframes_hfoldM. intros b exportName.
  apply hframes_hbind; [apply hframes_lift, frames_getVariableForExportName|].
  intros [[? ?] ?]. apply hframes_hret.
Qed.

(** The first computation for a module that is not tree-shaken ends as the
    resolution of its exports does. *)
Lemma getDependenciesToBeIncluded_first fuel this h m :
  modulesById (graph h) !! this = Some m →
  relevantDependencies m = None →
  negb (treeshake options) || bool_decide (info_moduleSideEffects m = NoTreeshake) = true →
  is_Some (variables h !! NamespaceVar this) →
  if exposed h this m then
    match exportedVariables options fuel this (addAll (imports m) []) (begun this h) with
    | (Normal _, _) =>
        ∃ relevant h',
          getDependenciesToBeIncluded options E C fuel this h = (Normal relevant, h')
    | (Abrupt stop, h') =>
        getDependenciesToBeIncluded options E C fuel this h = (Abrupt stop, h')
    end
  else
    ∃ relevant h',
      getDependenciesToBeIncluded options E C fuel this h = (Normal relevant, h').
Proof.
  intros Hm Hcache Hno [o Ho].
  pose (finish := λ dependencyVariables : list Var,
          let+ m := lift (getModule this) in
          let '(necessaryDependencies, alwaysCheckedDependencies) :=
            foldl (recordDependencyVariable C m) ([], []) dependencyVariables in
          let+ relevantDependencies :=
            if negb (treeshake options)
               || bool_decide (info_moduleSideEffects m = NoTreeshake)
            then hret (addAll (dependencies m) [])
            else
              addRelevantSideEffectDependencies E fuel this [] necessaryDependencies
                alwaysCheckedDependencies in
          let relevantDependencies :=
            addAll necessaryDependencies relevantDependencies in
          let+ _ :=
            lift (updateModule this
                    (setRelevantDependencies (Some relevantDependencies))) in
          hret relevantDependencies).
  assert (∀ dvs h2,
            sameLinks (graph (begun this h)) (graph h2) →
            ∃ relevant h', finish dvs h2 = (Normal relevant, h')) as Hfinish.
  { intros dvs h2 Hlinks. specialize (Hlinks this). unfold begun in Hlinks.
    simpl in Hlinks. rewrite lookup_alter_eq, Hm in Hlinks. simpl in Hlinks.
    destruct (modulesById (graph h2) !! this) as [m'|] eqn:Hm'; [|done].
    simpl in Hlinks. unfold linked in Hlinks. injection Hlinks as _ Hse _ _ _.
    unfold finish. rewrite (hbind_getModule _ _ _ m') by done.
    destruct (foldl _ _ dvs) as [necessary always].
    rewrite <-Hse, Hno. unfold hbind, hret, lift, updateModule. eauto. }
  assert (getDependenciesToBeIncluded options E C fuel this h
          = hbind (if exposed h this m
                   then exportedVariables options fuel this (addAll (imports m) [])
                   else hret (addAll (imports m) []))
              finish (begun this h)) as ->.
  { unfold getDependenciesToBeIncluded.
    rewrite (hbind_getModule _ _ _ m) by done. rewrite Hcache.
    unfold hbind at 1, lift at 1, updateModule at 1. fold (begun this h).
    unfold hbind at 1.
    assert ((if info_isEntry m || negb (bool_decide (includedDynamicImporters m = []))
             then hret true
             else
               let+ namespaceIncluded := variableIncluded (NamespaceVar this) in
               hret (namespaceIncluded
                     || negb (bool_decide (implicitlyLoadedAfter m = []))))
              (begun this h)
            = (Normal (exposed h this m), begun this h)) as ->; [|done].
    unfold exposed, variableIsIncluded. rewrite Ho.
    destruct (info_isEntry m || negb (bool_decide (includedDynamicImporters m = [])));
      [done|].
    unfold hbind, variableIncluded, hbind, getVariable, hret. simpl. by rewrite Ho. }
  clearbody finish. unfold hbind.
  destruct (exposed h this m).
  - pose proof (hframes_exportedVariables fuel this (addAll (imports m) [])
                  (begun this h)) as Hframes.
    destruct (exportedVariables options fuel this (addAll (imports m) [])
                (begun this h)) as [[dvs|stop] h2]; [|done].
    apply Hfinish. by eapply Hframes.
  - apply Hfinish, sameLinks_refl.
Qed.

(** A name that the module exports itself, bound in its scope, is resolved
    at once. *)
Lemma own_export_resolves self this name st m identifier localName v :
  modulesById st !! this = Some m → isExternalModule m = false → regular name →
  mapGet name (reexportDescriptions m) = None →
  mapGet name (exports m) = Some (ExportDesc identifier localName) →
  scope_variables m !! localName = Some v →
  getVariableForExportNameBody options self this name EMPTY_OBJECT st
  = Ok ((Some v, false), None) st.
Proof.
  intros Hm Hint Hname Hre Hex Hv.
  assert (getVariableForRegularExportName options self this name EMPTY_OBJECT st
          = Ok ((Some v, false), None) st) as Hregular.
  { unfold getVariableForRegularExportName, traceVariable, bind, getModule, ret.
    rewrite Hm, Hre, Hex. simpl. by rewrite Hm, Hv. }
  unfold getVariableForExportNameBody, bind, getModule. rewrite Hm, Hint.
  destruct name as [|c name]; [done|].
  destruct c as [[] [] [] [] [] [] [] []]; try done.
  by destruct (Hname name).
Qed.

(** The exports of a module that exports only bindings of its own scope are
    resolved with any fuel but none. *)
Lemma exportedVariables_own fuel this dvs h m :
  modulesById (graph h) !! this = Some m → isExternalModule m = false →
  transitiveReexports m = None → exportAllModules m = [] → reexportDescriptions m = [] →
  (∀ name, name ∈ getExports m →
     regular name
     ∧ ∃ identifier localName v,
         mapGet name (exports m) = Some (ExportDesc identifier localName)
         ∧ scope_variables m !! localName = Some v) →
  ∃ dvs' h', exportedVariables options (S fuel) this dvs h = (Normal dvs', h').
Proof.
  intros Hm Hint Hmemo Hstars Hre Hown.
  assert (∀ names dvs h2 m2,
            modulesById (graph h2) !! this = Some m2 → isExternalModule m2 = false →
            reexportDescriptions m2 = [] →
            (∀ name, name ∈ names →
               regular name
               ∧ ∃ identifier localName v,
                   mapGet name (exports m2) = Some (ExportDesc identifier localName)
                   ∧ scope_variables m2 !! localName = Some v) →
            ∃ dvs',
              hfoldM
                (λ dependencyVariables exportName,
                   let+ ((exportedVariable, _), _) :=
                     lift (getVariableForExportName options (S fuel) this exportName
                             EMPTY_OBJECT) in
                   hret (match exportedVariable with
                         | Some v => setAdd v dependencyVariables
                         | None => dependencyVariables
                         end))
                dvs names h2 = (Normal dvs', h2)) as Hloop.
  { clear. intros names. induction names as [|name names IH];
      intros dvs h2 m2 Hm2 Hint Hre Hown; simpl; [by eexists|].
    destruct (Hown name) as (Hname & identifier & localName & v & Hex & Hv); [by left|].
    unfold hbind at 1, hbind at 1, lift at 1.
    rewrite (own_export_resolves _ this name (graph h2) m2 identifier localName v)
      by (done || by rewrite Hre).
    assert (withGraph h2 (graph h2) = h2) as -> by by destruct h2.
    simpl. apply (IH _ h2 m2); [done..|]. intros name' Hin. apply Hown. by right. }
  unfold exportedVariables, hbind at 1, lift at 1. simpl.
  unfold bind at 1, getModule at 1. rewrite Hm, Hmemo.
  unfold bind at 1, updateModule at 1. rewrite Hstars, Hre. simpl.
  unfold bind, updateModule, ret. simpl.
  set (m2 := setTransitiveReexports (Some [])
               (setTransitiveReexports (Some []) m)).
  set (h2 := withGraph h _).
  assert (modulesById (graph h2) !! this = Some m2) as Hm2.
  { unfold h2. simpl. by rewrite !lookup_alter_eq, Hm. }
  rewrite (hbind_getModule _ _ _ m2) by done.
  destruct (Hloop (getExports m2) dvs h2 m2) as (dvs' & Hdvs'); [done..|eauto].
Qed.



End Dependencies.





End DependencyFacts.

(** * Properties of the inclusion phase *)

Module InclusionFacts.

Import Resolver Inclusion Invariants NodeFacts.

Lemma heap_le_refl h : heap_le h h.
Proof. split; [done|apply store_le_refl]. Qed.

Lemma heap_le_trans a b c : heap_le a b → heap_le b c → heap_le a c.
Proof.
  intros [Hv Hn] [Hv' Hn']. split; [naive_solver|by eapply store_le_trans].
Qed.


Lemma monotone_hret {A} (a : A) : monotone (hret a).
Proof. intros h. apply heap_le_refl. Qed.

Lemma monotone_hthrow {A} e : monotone (@hthrow A e).
Proof. intros h. apply heap_le_refl. Qed.

Lemma monotone_hbind {A B} (c : H A) (k : A → H B) :
  monotone c → (∀ a, monotone (k a)) → monotone (hbind c k).
Proof.
  intros Hc Hk h. unfold hbind. specialize (Hc h).
  destruct (c h) as [[a|stop] h1]; simpl in *; [|done].
  eapply heap_le_trans; [exact Hc|apply Hk].
Qed.

Lemma heap_le_same a b :
  variables a = variables b → nodes (world a) = nodes (world b) → heap_le a b.
Proof.
  intros Hv Hn. split.
  - intros v. unfold variableIsIncluded. by rewrite Hv.
  - rewrite Hn. apply store_le_refl.
Qed.

Lemma monotone_lift {A} (c : M A) : monotone (lift c).
Proof.
  intros h. unfold lift. destruct (c (graph h)); simpl; by apply heap_le_same.
Qed.

Lemma monotone_forEach {A} (xs : list A) (f : A → H unit) :
  (∀ x, monotone (f x)) → monotone (forEach xs f).
Proof.
  intros Hf. induction xs as [|x xs IH]; simpl.
  - apply monotone_hret.
  - apply monotone_hbind; [apply Hf|by intros _].
Qed.

Lemma monotone_hfoldM {A B} (f : B → A → H B) (b : B) (xs : list A) :
  (∀ b x, monotone (f b x)) → monotone (hfoldM f b xs).
Proof.
  intros Hf. revert b. induction xs as [|x xs IH]; intros b; simpl.
  - apply monotone_hret.
  - apply monotone_hbind; [apply Hf|intros b'; apply IH].
Qed.

Lemma monotone_if {A} (b : bool) (c1 c2 : H A) :
  monotone c1 → monotone c2 → monotone (if b then c1 else c2).
Proof. by destruct b. Qed.

Section Operations.

Variable options : InputOptions.
Variable E : Entities.
Variable C : Collaborators.
Hypothesis HE : IncludeMonotone E.
Hypothesis HC : CollaboratorsContract C.

(** Writing a variable object back with its flag not cleared. *)
Lemma heap_le_update h v lv lv' w :
  variables h !! v = Some (LocalObject lv) →
  (LocalVariable.included lv = true → LocalVariable.included lv' = true) →
  store_le (nodes (world h)) (nodes w) →
  heap_le h (withWorld (withVariables h (<[v := LocalObject lv']> (variables h))) w).
Proof.
  intros Hv Hi Hw. split; [|done].
  intros u. unfold variableIsIncluded. simpl.
  destruct (decide (v = u)) as [->|Hne].
  - rewrite lookup_insert_eq, Hv. simpl. exact Hi.
  - by rewrite lookup_insert_ne.
Qed.

Lemma monotone_getVariable v : monotone (getVariable v).
Proof.
  intros h. unfold getVariable. destruct (variables h !! v); apply heap_le_refl.
Qed.

Lemma monotone_variableIncluded v : monotone (variableIncluded v).
Proof.
  apply monotone_hbind; [apply monotone_getVariable|intros; apply monotone_hret].
Qed.

Lemma monotone_variableInclude v : monotone (variableInclude E C v).
Proof using HE HC.
  intros h. unfold variableInclude.
  destruct (variables h !! v) as [[lv|b]|] eqn:Hv; simpl.
  - pose proof (LocalVariableFacts.include_flags E lv (world h)) as (Hi & _).
    pose proof (LocalVariableFacts.variable_include_le E lv (world h) HE) as Hw.
    destruct (LocalVariable.include E lv (world h)) as [[lv' w] st]. simpl in *.
    by apply heap_le_update with lv.
  - apply (otherInclude_le C HC).
  - apply heap_le_refl.
Qed.

Lemma monotone_variableDeoptimizePath v path :
  monotone (variableDeoptimizePath C v path).
Proof using HC.
  intros h. unfold variableDeoptimizePath.
  destruct (variables h !! v) as [[lv|b]|] eqn:Hv; simpl.
  - pose proof (LocalVariableFacts.deoptimizePath_flags path lv (world h)) as (Hi & _).
    pose proof (LocalVariableFacts.deoptimizePath_nodes path lv (world h)) as Hw.
    destruct (LocalVariable.deoptimizePath path lv (world h)) as [lv' w]. simpl in *.
    apply heap_le_update with lv; [done|by rewrite Hi|rewrite Hw; apply store_le_refl].
  - apply (otherDeoptimizePath_le C HC).
  - apply heap_le_refl.
Qed.

Lemma monotone_hasEffects this : monotone (hasEffects E this).
Proof.
  apply monotone_hbind; [apply monotone_lift|]. intros m.
  destruct (bool_decide _); [apply monotone_hret|].
  destruct (ast m); [|apply monotone_hthrow]. intros h. apply heap_le_refl.
Qed.

Lemma monotone_include this : monotone (include E this).
Proof using HE.
  apply monotone_hbind; [apply monotone_lift|]. intros m.
  destruct (ast m) as [program|]; [|apply monotone_hthrow]. intros h. cbv zeta.
  destruct (nodeShouldBeIncluded E program createInclusionContext (nodes (world h)));
    simpl; [|apply heap_le_refl].
  split; [done|]. simpl. apply (nodeInclude_le E HE).
Qed.

Lemma monotone_addSideEffectDependencies fuel necessary always possible t :
  monotone (addSideEffectDependencies E fuel necessary always possible t).
Proof.
  revert possible t. induction fuel as [|fuel IH]; intros possible t; simpl.
  - intros h. apply heap_le_refl.
  - apply monotone_hfoldM. intros t' dependency.
    repeat first
      [ apply monotone_hret | apply monotone_if | apply monotone_lift
      | apply monotone_hasEffects | apply IH
      | apply monotone_hbind; [|intros ?] ].
Qed.

Lemma monotone_getDependenciesToBeIncluded fuel this :
  monotone (getDependenciesToBeIncluded options E C fuel this).
Proof.
  unfold getDependenciesToBeIncluded, addRelevantSideEffectDependencies.
  apply monotone_hbind; [apply monotone_lift|]. intros m.
  destruct (relevantDependencies m); [apply monotone_hret|].
  apply monotone_hbind; [apply monotone_lift|]. intros _.
  apply monotone_hbind.
  { apply monotone_if; [apply monotone_hret|].
    apply monotone_hbind; [apply monotone_variableIncluded|].
    intros; apply monotone_hret. }
  intros exposed. apply monotone_hbind.
  { apply monotone_if; [|apply monotone_hret].
    apply monotone_hbind; [apply monotone_lift|]. intros reexports.
    apply monotone_hbind; [apply monotone_lift|]. intros m'.
    apply monotone_hfoldM. intros dvs exportName.
    apply monotone_hbind; [apply monotone_lift|].
    intros [[? ?] ?]. apply monotone_hret. }
  intros dvs. apply monotone_hbind; [apply monotone_lift|]. intros m'.
  destruct (foldl _ _ _) as [necessary always].
  apply monotone_hbind.
  { apply monotone_if; [apply monotone_hret|].
    apply monotone_hbind; [apply monotone_lift|]. intros m''.
    apply monotone_hbind; [apply monotone_addSideEffectDependencies|]. intros t.
    apply monotone_hbind; [apply monotone_addSideEffectDependencies|]. intros t'.
    apply monotone_hret. }
  intros relevant. apply monotone_hbind; [apply monotone_lift|].
  intros; apply monotone_hret.
Qed.

Lemma monotone_markExecuted module : monotone (markExecuted C module).
Proof. intros h. by apply heap_le_same. Qed.

Lemma monotone_markExecutedIfNeeded module : monotone (markExecutedIfNeeded C module).
Proof.
  apply monotone_hbind; [apply monotone_lift|]. intros m.
  apply monotone_if; [apply monotone_hret|apply monotone_markExecuted].
Qed.

Lemma monotone_includeVariable fuel this v : monotone (includeVariable E C fuel this v).
Proof using HE HC.
  unfold includeVariable.
  apply monotone_hbind; [apply monotone_variableIncluded|]. intros included.
  apply monotone_if; [apply monotone_hret|].
  apply monotone_hbind; [apply monotone_variableInclude|]. intros _.
  apply monotone_hbind; [intros h; by apply heap_le_same|]. intros _.
  apply monotone_hbind; [apply monotone_lift|]. intros [vm|]; [|apply monotone_hret].
  apply monotone_if; [apply monotone_hret|].
  apply monotone_hbind; [apply monotone_markExecutedIfNeeded|]. intros _.
  apply monotone_if; [|apply monotone_hret].
  apply monotone_hbind; [apply monotone_lift|]. intros sideEffectModules.
  apply monotone_forEach. intros module. apply monotone_markExecutedIfNeeded.
Qed.

Lemma monotone_includeVariableInModule fuel this v :
  monotone (includeVariableInModule E C fuel this v).
Proof using HE HC.
  apply monotone_hbind; [apply monotone_includeVariable|]. intros _.
  apply monotone_if; [apply monotone_lift|apply monotone_hret].
Qed.

(** No operation of the inclusion phase clears a flag. *)
Lemma inclusion_step_le op h : heap_le h (step options E C op h).
Proof using HE HC.
  destruct op; cbv beta iota delta [step].
  - apply monotone_variableInclude.
  - apply monotone_variableDeoptimizePath.
  - destruct (variables h !! v) as [[lv|]|] eqn:Hv; try apply heap_le_refl.
    pose proof (LocalVariableFacts.step_flags E op lv (world h)) as (Hi & _).
    pose proof (LocalVariableFacts.variable_step_le E op lv (world h) HE) as Hw.
    destruct (LocalVariable.step E op (lv, world h)) as [lv' w]. simpl in Hi, Hw.
    by apply heap_le_update with lv.
  - split; [done|]. by apply SequenceExpressionFacts.sequence_include_le.
  - apply monotone_include.
  - apply monotone_includeVariable.
  - apply monotone_includeVariableInModule.
  - apply monotone_getDependenciesToBeIncluded.
  - apply monotone_hasEffects.
Qed.

End Operations.

(** C3.  The [included] flags are monotone: whatever operations of the core
    are run, in whatever order and however each of them ends (variable
    [include] and [deoptimizePath], every method of a local variable, the
    [include] of a sequence, the inclusion pass of a module,
    [includeVariable], [includeVariableInModule], the relevant-dependency
    and effect queries), every variable and every AST node that was included
    before is included afterwards.  The [include] and [deoptimizePath]
    methods of the classes outside the sources are assumed to clear no flag
    either. *)
Theorem included_is_monotone (options : InputOptions) (E : Entities) (C : Collaborators)
    (ops : list Op) (h : Heap) :
  IncludeMonotone E → CollaboratorsContract C →
  heap_le h (run options E C ops h).
Proof.
  intros HE HC. revert h. induction ops as [|op ops IH]; intros h.
  - apply heap_le_refl.
  - change (run options E C (op :: ops) h)
      with (run options E C ops (step options E C op h)).
    eapply heap_le_trans; [by apply inclusion_step_le|apply IH].
Qed.

(** The example collaborators keep their contract. *)
Lemma collaborators_contract : CollaboratorsContract Examples.collaborators.
Proof.
  split; [|intros; apply heap_le_refl].
  intros v h. split; [|apply store_le_refl].
  intros u. unfold variableIsIncluded. simpl.
  destruct (decide (v = u)) as [->|Hne].
  - by rewrite lookup_insert_eq.
  - by rewrite lookup_insert_ne.
Qed.

(** In the bundle in which [x] of [lib.js] was included, deoptimizing [x],
    another inclusion pass over [lib.js] and the dependency query of
    [main.js] leave [x] and its declaration included. *)
Lemma included_is_monotone_witness :
  IncludeMonotone Examples.entities
  ∧ CollaboratorsContract Examples.collaborators
  ∧ variableIsIncluded Examples.bundleWithX (LocalVar "lib" "x") = true
  ∧ let h := run Examples.inputOptions Examples.entities Examples.collaborators
               [OpVariableDeoptimizePath (LocalVar "lib" "x") [];
                OpModuleInclude "lib";
                OpGetDependenciesToBeIncluded 5 "main"]
               Examples.bundleWithX in
    variableIsIncluded h (LocalVar "lib" "x") = true
    ∧ isIncluded (nodes (world h)) 1 = true.
Proof.
  split; [apply entities_monotone|]. split; [apply collaborators_contract|].
  split; [by vm_compute|].
  destruct (included_is_monotone Examples.inputOptions Examples.entities
              Examples.collaborators
              [OpVariableDeoptimizePath (LocalVar "lib" "x") [];
               OpModuleInclude "lib";
               OpGetDependenciesToBeIncluded 5 "main"]
              Examples.bundleWithX entities_monotone collaborators_contract)
    as [Hvariables Hnodes].
  split; [apply Hvariables|apply Hnodes]; by vm_compute.
Defined.

End InclusionFacts.

(** * Further properties of local variables *)

Module LocalVariableLaws.

Import LocalVariable Invariants VariableProperties NodeFacts LocalVariableFacts.

Section Notification.

Variable E : Entities.

(** The log of calls only grows. *)
Lemma includeDeclarations_calls ds w :
  calls w `prefix_of` calls (includeDeclarations E ds w).1.
Proof.
  revert w. induction ds as [|d ds IH]; intros w; simpl; [done|].
  assert (calls w `prefix_of` calls (includeDeclaration E d w).1) as Hd.
  { unfold includeDeclaration. destruct (nodes w !! d) as [nd|]; [|done].
    match goal with |- context [includeParents ?f ?p ?n] =>
      destruct (includeParents f p n) as [ns st] end. simpl.
    destruct (node_included nd); simpl; [done|]. by apply prefix_app_r. }
  destruct (includeDeclaration E d w) as [w1 []]; simpl in *; try done.
  etrans; [exact Hd|apply IH].
Qed.

Lemma includeArgs_calls args context w :
  calls w `prefix_of` calls (includeArgs E args context w).1.
Proof.
  revert context w. induction args as [|arg args IH]; intros context w; simpl; [done|].
  destruct (nodeInclude E arg context IncludeFalse (nodes w)) as [ns c].
  etrans; [|apply IH]. simpl. by apply prefix_app_r.
Qed.

Lemma step_calls op v w : calls w `prefix_of` calls (step E op (v, w)).2.
Proof.
  destruct op; simpl; try done.
  - unfold consolidateInitializers. destruct (additionalInitializers v); simpl; [|done].
    by apply prefix_app_r.
  - unfold deoptimizePath. destruct (isReassigned v) eqn:Hr; simpl; [done|].
    destruct (PathTracker.trackEntityAtPathAndGetIfTracked _ _ _) as [[] tr]; simpl;
      [done|].
    destruct path; simpl; rewrite ?Hr; simpl; by apply prefix_app_r.
  - unfold deoptimizeThisOnEventAtPath, PathTracker.withTrackedEntityAtPath.
    destruct (isReassigned v), (init v); simpl; try by apply prefix_app_r.
    destruct (PathTracker.isTracked _ _ _); simpl; [done|by apply prefix_app_r].
  - unfold include. destruct (included v); simpl; [done|].
    pose proof (includeDeclarations_calls (declarations v) w).
    by destruct (includeDeclarations E (declarations v) w).
  - unfold includeCallArguments. destruct (_ || _); [apply includeArgs_calls|].
    destruct (init v) as [i|]; [|done].
    destruct (entityIncludeCallArguments E i _ args (nodes w)). simpl.
    by apply prefix_app_r.
Qed.


Lemma step_keptOrNotified op origin s :
  keptOrNotified origin s → keptOrNotified origin (step E op s).
Proof.
  destruct s as [v w]. intros [Hp|Hn].
  2:{ right. pose proof (step_calls op v w) as [k ->]. apply elem_of_app. by left. }
  unfold keptOrNotified in *. simpl in Hp.
  destruct op; simpl; auto.
  - left. unfold addDeclaration, markInitializersForDeoptimization. simpl.
    by destruct (additionalInitializers v), init0.
  - left. unfold consolidateInitializers. by destruct (additionalInitializers v).
  - unfold deoptimizePath. destruct (isReassigned v) eqn:Hr; simpl; [auto|].
    destruct (PathTracker.trackEntityAtPathAndGetIfTracked _ _ _) as [[] tr]; simpl;
      [auto|].
    destruct path; simpl; rewrite ?Hr; simpl; [|auto].
    right. rewrite !elem_of_app, list_elem_of_fmap. right. left. eauto.
  - left. by rewrite deoptimizeThisOnEventAtPath_state.
  - left. unfold getLiteralValueAtPath, PathTracker.withTrackedEntityAtPath.
    destruct (isReassigned v), (init v); simpl; auto.
    destruct (PathTracker.isTracked _ _ _); simpl; auto.
    apply elem_of_app. by left.
  - left. unfold getReturnExpressionWhenCalledAtPath, PathTracker.withTrackedEntityAtPath.
    destruct (isReassigned v), (init v); simpl; auto.
    destruct (PathTracker.isTracked _ _ _); simpl; auto.
    apply elem_of_app. by left.
  - left. unfold include. destruct (included v); simpl; [done|].
    by destruct (includeDeclarations E (declarations v) w).
  - left. unfold markInitializersForDeoptimization.
    by destruct (additionalInitializers v).
Qed.

Lemma run_keptOrNotified ops origin s :
  keptOrNotified origin s → keptOrNotified origin (run E ops s).
Proof.
  revert s. induction ops as [|op ops IH]; intros s Hs; [done|].
  change (run E (op :: ops) s) with (run E ops (step E op s)).
  by apply IH, step_keptOrNotified.
Qed.

End Notification.

(** X1.  An expression that was answered a value through the initialiser of
    a variable is remembered by the variable, and it is not forgotten
    silently: whatever methods are called afterwards, the expression is still
    in [expressionsToBeDeoptimized] or its [deoptimizeCache] has been
    called. *)
Theorem cached_origin_is_notified (E : Entities) (v : t) (w : World)
    (i : ExpressionEntity) (path : ObjectPath) (callOptions : CallOptions)
    (tr : PathTracker.t) (origin : DeoptimizableEntity) (ops : list Op) :
  isReassigned v = false → init v = Some i →
  PathTracker.isTracked path (TrackedExpression i) tr = false →
  keptOrNotified origin
    (run E ops ((getLiteralValueAtPath E path tr origin v).2, w))
  ∧ keptOrNotified origin
      (run E ops ((getReturnExpressionWhenCalledAtPath E path callOptions tr origin v).2,
                  w)).
Proof.
  intros Hr Hi Ht.
  split; apply run_keptOrNotified; left; simpl.
  - unfold getLiteralValueAtPath, PathTracker.withTrackedEntityAtPath.
    rewrite Hr, Hi, Ht. simpl. apply elem_of_app. right. by apply list_elem_of_singleton.
  - unfold getReturnExpressionWhenCalledAtPath, PathTracker.withTrackedEntityAtPath.
    rewrite Hr, Hi, Ht. simpl. apply elem_of_app. right. by apply list_elem_of_singleton.
Qed.

(** [var x = 1]: an expression reads the value of [x], then [x] is
    reassigned; the expression is told. *)
Lemma cached_origin_is_notified_witness :
  CallDeoptimizeCache 7
  ∈ calls (run Examples.entities [OpInclude; OpDeoptimizePath []]
             ((getLiteralValueAtPath Examples.entities [] [] 7 Examples.x).2,
              Examples.declarationWorld)).2.
Proof.
  destruct (proj1 (cached_origin_is_notified Examples.entities Examples.x
                     Examples.declarationWorld (Entity 4) [] Examples.someCall [] 7
                     [OpInclude; OpDeoptimizePath []] eq_refl eq_refl eq_refl))
    as [Hkept|Hnotified]; [|exact Hnotified].
  vm_compute in Hkept. by apply elem_of_nil in Hkept.
Defined.

Lemma declare_marked v ds inits :
  additionalInitializers v = Some inits →
  additionalInitializers (declare v ds) = Some (inits ++ omap snd ds)
  ∧ declarations (declare v ds) = declarations v ++ ds.*1.
Proof.
  revert v inits. induction ds as [|[identifier i] ds IH]; intros v inits Hv; simpl.
  - by rewrite !app_nil_r.
  - destruct (IH (addDeclaration identifier i v)
                (inits ++ match i with Some i => [i] | None => [] end)) as [Ha Hd].
    { unfold addDeclaration, markInitializersForDeoptimization. simpl. rewrite Hv.
      destruct i; simpl; [done|]. by rewrite app_nil_r. }
    rewrite Ha, Hd. split.
    + f_equal. rewrite <-app_assoc. by destruct i.
    + unfold addDeclaration, markInitializersForDeoptimization. simpl. rewrite Hv.
      destruct i; simpl; by rewrite <-app_assoc.
Qed.

(** X2.  The declarators of a variable that is declared more than once are
    kept in order, and [consolidateInitializers] then deoptimizes, at the
    unknown path and in the order of the declarations, the initialiser the
    variable was created with and every initialiser given to
    [addDeclaration], each once; a second [consolidateInitializers] does
    nothing.  For a variable that was declared once it does nothing at all. *)
Theorem consolidateInitializers_deoptimizes_every_initializer
    (name : string) (declarator : option NodeId) (init0 : option ExpressionEntity)
    (d : NodeId * option ExpressionEntity) (ds : list (NodeId * option ExpressionEntity))
    (w : World) :
  let v := declare (new name declarator init0) (d :: ds) in
  let inits := option_list init0 ++ omap snd (d :: ds) in
  let s := consolidateInitializers v w in
  declarations v = option_list declarator ++ (d :: ds).*1
  ∧ s.2 = logCalls w (map (λ i, CallDeoptimizePath i UNKNOWN_PATH) inits)
  ∧ additionalInitializers s.1 = None
  ∧ consolidateInitializers s.1 s.2 = s
  ∧ consolidateInitializers (new name declarator init0) w
    = (new name declarator init0, w).
Proof.
  destruct d as [identifier i]. intros v inits s.
  assert (v = declare (addDeclaration identifier i (new name declarator init0)) ds)
    as Hv by done.
  destruct (declare_marked (addDeclaration identifier i (new name declarator init0)) ds
              (option_list init0 ++ match i with Some i => [i] | None => [] end))
    as [Ha Hd].
  { unfold addDeclaration, markInitializersForDeoptimization. simpl.
    destruct init0, i; simpl; by rewrite ?app_nil_r. }
  rewrite <-Hv in Ha, Hd.
  assert (additionalInitializers v = Some inits) as Hinits.
  { rewrite Ha. unfold inits. simpl. rewrite <-app_assoc. by destruct i. }
  split.
  { rewrite Hd. unfold addDeclaration, markInitializersForDeoptimization. simpl.
    destruct declarator, i; simpl; by rewrite <-?app_assoc. }
  unfold s, consolidateInitializers. rewrite Hinits. simpl. done.
Qed.

Section Uninitialised.

Variable E : Entities.


Lemma step_uninitialised op v w : uninitialised v → uninitialised (step E op (v, w)).1.
Proof.
  unfold uninitialised. intros Hv. destruct op; simpl; try done.
  - unfold addDeclaration, markInitializersForDeoptimization; simpl.
    destruct (additionalInitializers v) eqn:Ha, init0; simpl; auto.
  - unfold consolidateInitializers. by destruct (additionalInitializers v).
  - destruct (deoptimizePath_flags path v w) as (_ & Hr & ->).
    destruct Hv as [?|[? ?]]; auto.
  - by rewrite deoptimizeThisOnEventAtPath_state.
  - by destruct (getLiteralValueAtPath_flags E path recursionTracker origin v)
      as (_ & -> & ->).
  - by destruct (getReturnExpressionWhenCalledAtPath_flags E path callOptions
                   recursionTracker origin v) as (_ & -> & ->).
  - by destruct (include_flags E v w) as (_ & -> & ->).
  - unfold markInitializersForDeoptimization.
    destruct (additionalInitializers v); simpl; auto.
Qed.

Lemma run_uninitialised ops v w : uninitialised v → uninitialised (run E ops (v, w)).1.
Proof.
  revert v w. induction ops as [|op ops IH]; intros v w Hv; [done|].
  change (run E (op :: ops) (v, w)) with (run E ops (step E op (v, w))).
  pose proof (step_uninitialised op v w Hv) as Hs.
  destruct (step E op (v, w)) as [v1 w1]. by apply IH.
Qed.

Lemma uninitialised_unknown v path callOptions tr origin context :
  uninitialised v →
  getLiteralValueAtPath E path tr origin v = (UnknownValue, v)
  ∧ getReturnExpressionWhenCalledAtPath E path callOptions tr origin v
    = (UNKNOWN_EXPRESSION, v)
  ∧ (isReassigned v = false →
     hasEffectsWhenAccessedAtPath E path context v = (JsNull, context)
     ∧ hasEffectsWhenCalledAtPath E path callOptions context v = (JsNull, context)).
Proof.
  unfold getLiteralValueAtPath, getReturnExpressionWhenCalledAtPath,
    hasEffectsWhenAccessedAtPath, hasEffectsWhenCalledAtPath.
  intros [->|[-> ->]]; [|done]. destruct (isReassigned v); [done|]. done.
Qed.

End Uninitialised.

(** X4.  A variable created without an initialiser never gets one: whatever
    methods are called on it, it has no initialiser, or it was marked and
    has the unknown one.  Its value is therefore never known, at any path,
    and the initialiser is not asked; and as long as it is not reassigned
    its access and call effects are answered [null], not [false], with the
    context untouched. *)
Theorem uninitialised_variable_is_never_known (E : Entities) (name : string)
    (declarator : option NodeId) (w : World) (ops : list Op) (path : ObjectPath)
    (callOptions : CallOptions) (tr : PathTracker.t) (origin : DeoptimizableEntity)
    (context : HasEffectsContext) :
  let v := (run E ops (new name declarator None, w)).1 in
  (init v = None ∨ (init v = Some UNKNOWN_EXPRESSION ∧ isReassigned v = true))
  ∧ getLiteralValueAtPath E path tr origin v = (UnknownValue, v)
  ∧ getReturnExpressionWhenCalledAtPath E path callOptions tr origin v
    = (UNKNOWN_EXPRESSION, v)
  ∧ (isReassigned v = false →
     hasEffectsWhenAccessedAtPath E path context v = (JsNull, context)
     ∧ hasEffectsWhenCalledAtPath E path callOptions context v = (JsNull, context)).
Proof.
  intros v.
  assert (uninitialised v) as Hv by (apply run_uninitialised; by left).
  split; [exact Hv|]. by apply uninitialised_unknown.
Qed.

Section Included.

Variable E : Entities.
Hypothesis HC : IncludeContract E.
Hypothesis HM : IncludeMonotone E.

Lemma includeParents_structure fuel node ns :
  sameStructure ns (includeParents fuel node ns).1.
Proof.
  revert node ns. induction fuel as [|fuel IH]; intros node ns; simpl; [done|].
  destruct (node ≫= _) as [[n nd]|]; simpl; [|done].
  destruct (node_included nd); simpl; [done|].
  destruct (decide (node_type nd = Program)); simpl.
  - apply setIncluded_structure.
  - eapply sameStructure_trans; [apply setIncluded_structure|apply IH].
Qed.

Lemma includeParents_returned fuel p ns ns' :
  includeParents fuel (Some p) ns = (ns', Returned) → isIncluded ns' p = true.
Proof.
  destruct fuel as [|fuel]; simpl; [done|].
  destruct (ns !! p) as [nd|] eqn:Hp; simpl; [|done].
  destruct (node_included nd) eqn:Hnd; simpl.
  { intros [= <-]. unfold isIncluded. by rewrite Hp. }
  assert (isIncluded (setIncluded p ns) p = true) as Hset.
  { apply isIncluded_setIncluded. by eexists. }
  destruct (decide (node_type nd = Program)); simpl; [by intros [= <-]|].
  intros Hrec. pose proof (includeParents_le fuel (node_parent nd) (setIncluded p ns)) as Hle.
  rewrite Hrec in Hle. by apply Hle.
Qed.

(** What one turn of the loop over the declarations has done when it
    returns. *)
Lemma includeDeclaration_returned d w w' :
  includeDeclaration E d w = (w', Returned) →
  isIncluded (nodes w') d = true
  ∧ ∃ nd p, nodes w !! d = Some nd ∧ node_parent nd = Some p
            ∧ isIncluded (nodes w') p = true.
Proof using HC.
  unfold includeDeclaration. destruct (nodes w !! d) as [nd|] eqn:Hd; [|done].
  set (w1 := if node_included nd then w else _).
  assert (isIncluded (nodes w1) d = true) as Hown.
  { unfold w1. destruct (node_included nd) eqn:Hnd.
    - unfold isIncluded. by rewrite Hd.
    - simpl. apply (nodeInclude_own E HC). by eexists. }
  destruct (includeParents _ (node_parent nd) (nodes w1)) as [ns st] eqn:Hp.
  intros [= <- ->]. simpl.
  pose proof (includeParents_le (S (size (nodes w1))) (node_parent nd) (nodes w1)) as Hle.
  rewrite Hp in Hle. split; [by apply Hle|].
  destruct (node_parent nd) as [p|] eqn:Hparent; [|done].
  exists nd, p. split; [done|]. split; [done|]. by eapply includeParents_returned.
Qed.

Lemma includeDeclaration_structure d w :
  sameStructure (nodes w) (nodes (includeDeclaration E d w).1).
Proof using HC.
  unfold includeDeclaration. destruct (nodes w !! d) as [nd|] eqn:Hd; [|done].
  set (w1 := if node_included nd then w else _).
  assert (sameStructure (nodes w) (nodes w1)) as H1.
  { unfold w1. destruct (node_included nd); [done|]. apply (nodeInclude_structure E HC). }
  pose proof (includeParents_structure (S (size (nodes w1))) (node_parent nd) (nodes w1))
    as H2.
  destruct (includeParents _ (node_parent nd) (nodes w1)) as [ns st]. simpl in *.
  by eapply sameStructure_trans.
Qed.

Lemma includeDeclarations_structure ds w :
  sameStructure (nodes w) (nodes (includeDeclarations E ds w).1).
Proof using HC.
  revert w. induction ds as [|d ds IH]; intros w; simpl; [done|].
  pose proof (includeDeclaration_structure d w) as Hd.
  destruct (includeDeclaration E d w) as [w1 []]; simpl in *; try done.
  eapply sameStructure_trans; [exact Hd|apply IH].
Qed.

Lemma includeDeclarations_returned ds w w' :
  includeDeclarations E ds w = (w', Returned) →
  ∀ d, d ∈ ds →
    isIncluded (nodes w') d = true
    ∧ ∃ nd p, nodes w !! d = Some nd ∧ node_parent nd = Some p
              ∧ isIncluded (nodes w') p = true.
Proof using HC HM.
  revert w. induction ds as [|d0 ds IH]; intros w Hds d Hd; [by apply elem_of_nil in Hd|].
  simpl in Hds.
  pose proof (includeDeclaration_returned d0 w) as H0.
  pose proof (includeDeclaration_structure d0 w) as Hs0.
  destruct (includeDeclaration E d0 w) as [w1 []] eqn:Hw1; simpl in *; try done.
  specialize (H0 w1 eq_refl) as (Hown & nd & p & Hnd & Hp & Hpi).
  pose proof (includeDeclarations_le E ds w1 HM) as Hle. rewrite Hds in Hle. simpl in Hle.
  apply elem_of_cons in Hd as [->|Hd].
  - split; [by apply Hle|]. exists nd, p. split; [done|]. split; [done|]. by apply Hle.
  - destruct (IH w1 Hds d Hd) as (Hown' & nd' & p' & Hnd' & Hp' & Hpi').
    split; [done|]. specialize (Hs0 d). rewrite Hnd' in Hs0.
    destruct (nodes w !! d) as [nd0|]; [|done]. simpl in Hs0.
    injection Hs0 as Hparent _. exists nd0, p'. split; [done|].
    split; [congruence|done].
Qed.

End Included.

(** X3.  [include] always comes to an end: the walk over the ancestors of a
    declaration stops on every store of nodes.  The variable is included
    afterwards, and a second [include] does nothing.  When the first one
    returns for a variable that was not included, each of its declarations is
    included and so is the parent of each (the [include] of a node sets the
    flag of the node, keeps the tree and clears no flag). *)
Theorem include_reaches_declarations_and_parents (E : Entities) (v : t) (w : World) :
  IncludeContract E → IncludeMonotone E →
  let r := include E v w in
  r.2 ≠ RanOutOfFuel
  ∧ included r.1.1 = true
  ∧ include E r.1.1 r.1.2 = (r.1.1, r.1.2, Returned)
  ∧ (included v = false → r.2 = Returned →
     ∀ d, d ∈ declarations v →
       isIncluded (nodes r.1.2) d = true
       ∧ ∃ nd p, nodes w !! d = Some nd ∧ node_parent nd = Some p
                 ∧ isIncluded (nodes r.1.2) p = true).
Proof.
  intros HC HM r.
  split; [apply include_terminates|].
  assert (included r.1.1 = true) as Hi by apply include_flags.
  split; [done|]. split.
  { unfold include at 1. by rewrite Hi. }
  intros Hv Hr d Hd. unfold r, include in *. rewrite Hv in *.
  destruct (includeDeclarations E (declarations v) w) as [w' st] eqn:Hds.
  simpl in *. subst st. by eapply includeDeclarations_returned.
Qed.

Lemma include_reaches_declarations_and_parents_witness :
  let r := include Examples.entities Examples.x Examples.declarationWorld in
  r.2 = Returned
  ∧ isIncluded (nodes r.1.2) 3 = true ∧ isIncluded (nodes r.1.2) 2 = true.
Proof.
  intros r.
  assert (r.2 = Returned) as Hr by (by vm_compute).
  destruct (include_reaches_declarations_and_parents Examples.entities Examples.x
              Examples.declarationWorld entities_contract entities_monotone)
    as (_ & _ & _ & Hd).
  destruct (Hd eq_refl Hr 3) as (H3 & nd & p & Hnd & Hp & Hpi).
  { by apply list_elem_of_singleton. }
  split; [exact Hr|]. split; [exact H3|].
  vm_compute in Hnd. injection Hnd as <-. simpl in Hp. injection Hp as <-. exact Hpi.
Defined.

End LocalVariableLaws.

(** * Further properties of sequence expressions *)

Module SequenceExpressionLaws.

Import SequenceExpression Invariants NodeFacts SequenceExpressionFacts.

Section Sequence.

Variable E : Entities.

Lemma includeExpressions_calls s r es context w :
  ∃ cs,
    calls (includeExpressions E s r es context w).1 = calls w ++ cs
    ∧ cs `sublist_of` map (λ e, CallInclude e r) es
    ∧ (truthyIncludeChildren r = true → cs = map (λ e, CallInclude e r) es).
Proof.
  revert context w. induction es as [|e es IH]; intros context w; simpl.
  - exists []. by rewrite app_nil_r.
  - unfold includesExpression.
    destruct (truthyIncludeChildren r) eqn:Hr; simpl.
    + destruct (nodeInclude E e context r (nodes w)) as [ns c].
      destruct (IH c (logCalls (withNodes w ns) [CallInclude e r])) as (cs & -> & Hs & Hall).
      exists (CallInclude e r :: cs). simpl. rewrite <-app_assoc. split; [done|].
      split; [by constructor|]. intros _. by rewrite Hall.
    + destruct (_ || _).
      * destruct (nodeInclude E e context r (nodes w)) as [ns c].
        destruct (IH c (logCalls (withNodes w ns) [CallInclude e r]))
          as (cs & -> & Hs & _).
        exists (CallInclude e r :: cs). simpl. rewrite <-app_assoc. split; [done|].
        split; [by constructor|done].
      * destruct (IH context w) as (cs & -> & Hs & _).
        exists cs. split; [done|]. split; [by constructor|done].
Qed.

Lemma anyHasEffects_app es1 es2 context :
  anyHasEffects E (es1 ++ es2) context
  = let r1 := anyHasEffects E es1 context in
    if r1.1 then r1 else anyHasEffects E es2 r1.2.
Proof.
  revert context. induction es1 as [|e es1 IH]; intros context; simpl; [done|].
  destruct (entityHasEffects E (Entity e) context) as [[] c]; [done|]. apply IH.
Qed.

End Sequence.

(** X5.  What [include] of a sequence calls: it hands expressions of the
    sequence to [include], each at most once, in the order of the source and
    with the flag it was given itself, and calls nothing else; when the
    children are forced ([true] or ["variables"]) it hands over every
    expression.  Its own node is included afterwards, and no flag of another
    node was cleared. *)
Theorem sequence_include_calls_its_expressions (E : Entities)
    (context : InclusionContext) (r : IncludeChildren) (s : t) (w : World) :
  let w' := (include E context r s w).1 in
  (∃ cs,
     calls w' = calls w ++ cs
     ∧ cs `sublist_of` map (λ e, CallInclude e r) (expressions s)
     ∧ (truthyIncludeChildren r = true → cs = map (λ e, CallInclude e r) (expressions s)))
  ∧ (IncludeMonotone E →
     store_le (nodes w) (nodes w')
     ∧ (is_Some (nodes w !! self s) → isIncluded (nodes w') (self s) = true)).
Proof.
  intros w'. split.
  - apply (includeExpressions_calls E s r (expressions s) context
             (withNodes w (setIncluded (self s) (nodes w)))).
  - intros HM.
    pose proof (includeExpressions_le E s r (expressions s) context
                  (withNodes w (setIncluded (self s) (nodes w))) HM) as Hle.
    split.
    + eapply store_le_trans; [apply setIncluded_le|exact Hle].
    + intros Hs. apply Hle. simpl. by apply isIncluded_setIncluded.
Qed.

(** X6.  [hasEffects] of a sequence asks its expressions from left to right
    and stops at the first that reports an effect: for a sequence cut in two,
    the answer is that of the first part when it is [true], and otherwise
    that of the second part in the context the first part left.  A sequence
    without expressions has no effects, and a sequence of one expression has
    those of the expression. *)
Theorem sequence_hasEffects_stops_at_first_effect (E : Entities)
    (context : HasEffectsContext) (self : NodeId) (es1 es2 : list NodeId) (e : NodeId) :
  hasEffects E context (mk self (es1 ++ es2))
  = (let r1 := hasEffects E context (mk self es1) in
     if r1.1 then r1 else hasEffects E r1.2 (mk self es2))
  ∧ hasEffects E context (mk self []) = (false, context)
  ∧ hasEffects E context (mk self [e]) = entityHasEffects E (Entity e) context.
Proof.
  split; [apply anyHasEffects_app|]. split; [done|].
  unfold hasEffects. simpl. by destruct (entityHasEffects E (Entity e) context) as [[] c].
Qed.

End SequenceExpressionLaws.

(** * What a resolution writes *)

Module ResolutionLaws.

Import Resolver Inclusion Linking Rendering Invariants ResolverFacts DependencyFacts
  GraphProperties.

Section Preorder.

Variable R : State → State → Prop.
Hypothesis Hrefl : ∀ st, R st st.
Hypothesis Htrans : ∀ a b c, R a b → R b c → R a c.

Lemma keeps_ret {A} (a : A) : keeps R (ret a).
Proof using Hrefl. by intros st b st' [_ <-]%ret_Ok. Qed.

Lemma keeps_throw {A} e : keeps R (@throw A e).
Proof. by intros st b st' ?. Qed.

Lemma keeps_bind {A B} (c : M A) (k : A → M B) :
  keeps R c → (∀ a, keeps R (k a)) → keeps R (bind c k).
Proof using Htrans.
  intros Hc Hk st b st' (a & st1 & Ha & Hb)%bind_Ok.
  eapply Htrans; [by eapply Hc|by eapply Hk].
Qed.

Lemma keeps_getModule m : keeps R (getModule m).
Proof using Hrefl. by intros st md st' [_ ->]%getModule_Ok. Qed.

Lemma keeps_lookupModule m : keeps R (lookupModule m).
Proof using Hrefl. by intros st md st' [_ ->]%lookupModule_Ok. Qed.

Lemma keeps_deref m : keeps R (deref m).
Proof using Hrefl. by intros st md st' [_ ->]%deref_Ok. Qed.

Lemma keeps_if {A} (b : bool) (c1 c2 : M A) :
  keeps R c1 → keeps R c2 → keeps R (if b then c1 else c2).
Proof. by destruct b. Qed.

Lemma keeps_foldM {A B} (f : B → A → M B) (b : B) (xs : list A) :
  (∀ b x, keeps R (f b x)) → keeps R (Inclusion.foldM f b xs).
Proof using Hrefl Htrans.
  intros Hf. revert b. induction xs as [|x xs IH]; intros b; simpl.
  - apply keeps_ret.
  - apply keeps_bind; [apply Hf|intros b'; apply IH].
Qed.

End Preorder.

Section Kept.

Variable options : InputOptions.
Variable R : State → State → Prop.
Hypothesis HR : Kept options R.

(** The steps of the proofs of this section: a bind, a return, a read of the
    graph. *)
Local Ltac bind_step := apply (keeps_bind R (kept_trans _ _ HR)).
Local Ltac ret_step := apply (keeps_ret R (kept_refl _ _ HR)).
Local Ltac read_step :=
  first [apply (keeps_getModule R (kept_refl _ _ HR))
        |apply (keeps_lookupModule R (kept_refl _ _ HR))
        |apply (keeps_deref R (kept_refl _ _ HR))].

Lemma keeps_onwarn w : emitted options w → keeps R (onwarn w).
Proof using HR. intros Hw st [] st' ->%onwarn_Ok. by apply (kept_onwarn _ _ HR). Qed.

Lemma keeps_updateModule m f :
  (∀ st, written options st m f) → keeps R (updateModule m f).
Proof using HR. intros Hf st [] st' ->%updateModule_Ok. by apply (kept_write _ _ HR). Qed.

Lemma keeps_setAlternativeExporterIfCyclic variable importer reexporter :
  keeps R (setAlternativeExporterIfCyclic variable importer reexporter).
Proof using HR.
  intros st [] st' Hst. unfold setAlternativeExporterIfCyclic in Hst.
  apply bind_Ok in Hst as (exporter & st1 & [-> ->]%lookupModule_Ok & Hst).
  apply bind_Ok in Hst as (r & st2 & [Hr ->]%getModule_Ok & Hst).
  destruct (modulesById st !! variableModule variable) as [exporter|] eqn:He;
    [|apply ret_Ok in Hst as [_ <-]; apply (kept_refl _ _ HR)].
  destruct (_ && _) eqn:Hguard;
    [|apply ret_Ok in Hst as [_ <-]; apply (kept_refl _ _ HR)].
  apply updateModule_Ok in Hst as ->.
  apply andb_true_iff in Hguard as [Hguard _].
  apply andb_true_iff in Hguard as [Hguard _].
  apply andb_true_iff in Hguard as [Hext Hne].
  apply (kept_write _ _ HR), (write_alternativeReexport _ _ _ _ _ exporter); [done| |].
  - by destruct (isExternalModule exporter).
  - apply negb_true_iff in Hne. by apply bool_decide_eq_false in Hne.
Qed.

Lemma keeps_shimMissingExport this name :
  shimMissingExports options = true → keeps R (shimMissingExport options this name).
Proof using HR.
  intros Hshim. bind_step; [by apply keeps_onwarn|]. intros _.
  apply keeps_updateModule. intros st. by apply write_shim.
Qed.

Lemma keeps_selectDeclaration this name f : keeps R (selectDeclaration this name f).
Proof using HR.
  unfold selectDeclaration.
  destruct (foundInternalDeclarations f) as [|[used ?] rest].
  - destruct (foundExternalDeclarations f) as [|used rest] eqn:Hf.
    + destruct (foundSyntheticDeclaration f); ret_step.
    + bind_step; [|intros; ret_step].
      destruct rest as [|second rest]; [ret_step|].
      destruct used as [used|]; [|apply keeps_throw].
      destruct (declarationModuleIds _) as [ids|] eqn:Hids; [|apply keeps_throw].
      apply keeps_onwarn. simpl.
      unfold declarationModuleIds in Hids. simpl in Hids.
      destruct second as [d'|]; simpl in Hids; [|done].
      destruct (mapM _ rest) as [ids'|]; simpl in Hids; [|done].
      injection Hids as <-. simpl. split; [lia|done].
  - destruct rest as [|[? ?] rest]; [ret_step|].
    bind_step; [|intros; ret_step].
    apply keeps_onwarn. simpl. lia.
Qed.

Section Body.

Variable self : SelfType.
Hypothesis Hself : ∀ target name o, keeps R (self target name o).

Lemma keeps_getVariableForExportNameRecursive target name importer isExportAllSearch
    searched :
  keeps R (getVariableForExportNameRecursive self target name importer isExportAllSearch
             searched).
Proof using HR Hself.
  unfold getVariableForExportNameRecursive.
  assert (∀ s : Searched,
            keeps R
              (bind (self target name (mkOptions importer isExportAllSearch false (Some s)))
                 (λ '(resolution, searched'),
                    ret (resolution,
                         match searched with Some _ => searched' | None => None end))))
    as Hvisit.
  { intros s. bind_step; [apply Hself|]. intros [? ?]. ret_step. }
  destruct (default ∅ searched !! name) as [ms|]; [|apply Hvisit].
  apply keeps_if; [|apply Hvisit].
  apply keeps_if; [ret_step|apply keeps_throw].
Qed.

Lemma keeps_probeExportAllModules name importer modules searched f :
  keeps R (probeExportAllModules self name importer modules searched f).
Proof using HR Hself.
  revert searched f. induction modules as [|module modules IH]; intros searched f; simpl.
  - ret_step.
  - bind_step; [read_step|]. intros md.
    apply keeps_if; [apply IH|].
    bind_step; [apply keeps_getVariableForExportNameRecursive|].
    intros [[variable indirectExternal] searched1]. apply IH.
Qed.

Lemma keeps_getVariableFromNamespaceReexports this name importer searched :
  keeps R (getVariableFromNamespaceReexports self this name importer searched).
Proof using HR Hself.
  unfold getVariableFromNamespaceReexports.
  bind_step; [read_step|]. intros m.
  bind_step; [apply keeps_probeExportAllModules|]. intros [f s].
  bind_step; [apply keeps_selectDeclaration|]. intros r. ret_step.
Qed.

Lemma keeps_traceVariable this name importer :
  keeps R (traceVariable self this name importer).
Proof using HR Hself.
  unfold traceVariable.
  bind_step; [read_step|]. intros m.
  destruct (scope_variables m !! name); [ret_step|].
  destruct (mapGet name (importDescriptions m)) as [d|]; [|ret_step].
  bind_step.
  { destruct (import_module d); [read_step|ret_step]. }
  intros o. apply keeps_if; [ret_step|].
  bind_step; [read_step|]. intros otherModule.
  bind_step; [apply Hself|]. intros [[declaration ?] ?].
  destruct declaration; [ret_step|apply keeps_throw].
Qed.

Lemma keeps_getSyntheticNamespace this : keeps R (getSyntheticNamespace self this).
Proof using HR Hself.
  unfold getSyntheticNamespace.
  bind_step; [read_step|]. intros m.
  bind_step.
  { destruct (syntheticNamespace m); try ret_step.
    bind_step.
    { apply keeps_updateModule. intros st. apply write_syntheticNamespace. }
    intros _.
    bind_step; [apply Hself|]. intros [[variable ?] ?].
    apply keeps_updateModule. intros st. apply write_syntheticNamespace. }
  intros _. bind_step; [read_step|]. intros m'.
  destruct (syntheticNamespace m'); first [ret_step|apply keeps_throw].
Qed.

Lemma keeps_getVariableForRegularExportName this name o :
  keeps R (getVariableForRegularExportName options self this name o).
Proof using HR Hself.
  unfold getVariableForRegularExportName.
  bind_step; [read_step|]. intros m.
  destruct (mapGet name (reexportDescriptions m)) as [d|].
  { bind_step; [read_step|]. intros target.
    bind_step; [apply keeps_getVariableForExportNameRecursive|].
    intros [[variable ?] searched].
    destruct variable as [variable|]; [|apply keeps_throw].
    bind_step; [|intros; ret_step].
    destruct (importerForSideEffects o);
      [apply keeps_setAlternativeExporterIfCyclic|ret_step]. }
  destruct (mapGet name (exports m)) as [[|identifier localName]|].
  { ret_step. }
  { bind_step; [apply keeps_traceVariable|]. intros variable.
    bind_step; [|intros; ret_step].
    destruct (importerForSideEffects o) as [importer|]; [|ret_step].
    destruct variable as [variable|]; [|apply keeps_throw].
    bind_step.
    { apply keeps_updateModule. intros st. apply write_sideEffectDependency. }
    intros _. apply keeps_setAlternativeExporterIfCyclic. }
  apply keeps_if; [ret_step|].
  bind_step.
  { apply keeps_if; [|ret_step].
    bind_step.
    { destruct (namespaceReexportsByName m !! name);
        [ret_step|apply keeps_getVariableFromNamespaceReexports]. }
    intros [found searched].
    bind_step; [|intros _; ret_step].
    apply keeps_updateModule. intros st. apply write_cache. }
  intros [found searched].
  destruct found as [found|]; [ret_step|].
  bind_step; [read_step|]. intros m'.
  apply keeps_if.
  { destruct (syntheticExports m' !! name); [ret_step|].
    bind_step; [apply keeps_getSyntheticNamespace|]. intros _.
    bind_step; [|intros _; ret_step].
    apply keeps_updateModule. intros st. apply write_syntheticExport. }
  destruct (negb (isExportAllSearch o) && shimMissingExports options) eqn:Hshim;
    [|ret_step].
  apply andb_true_iff in Hshim as [_ Hshim].
  bind_step; [by apply keeps_shimMissingExport|]. intros _. ret_step.
Qed.

Lemma keeps_getVariableForExportNameBody this name o :
  keeps R (getVariableForExportNameBody options self this name o).
Proof using HR Hself.
  unfold getVariableForExportNameBody.
  bind_step; [read_step|]. intros m.
  apply keeps_if; [ret_step|].
  pose proof (keeps_getVariableForRegularExportName this) as Hregular.
  destruct name as [|c name]; [apply Hregular|].
  destruct c as [[] [] [] [] [] [] [] []]; try apply Hregular.
  destruct name; [ret_step|].
  bind_step; [read_step|]. intros _.
  bind_step; [apply Hself|]. intros [r ?]. ret_step.
Qed.

End Body.

(** Resolution keeps every relation that its warnings and writes keep. *)
Lemma keeps_getVariableForExportName fuel target name o :
  keeps R (getVariableForExportName options fuel target name o).
Proof using HR.
  revert target name o. induction fuel as [|fuel IH]; intros target name o.
  - by intros st a st' ?.
  - by apply keeps_getVariableForExportNameBody.
Qed.

End Kept.

End ResolutionLaws.

(** * Frame properties of the resolution *)

Module ResolutionFrameLaws.

Import Resolver Inclusion Linking Rendering Invariants ResolverFacts DependencyFacts
  GraphProperties ResolutionLaws.

Lemma lookup_alter_fmap {A B} (g : A → B) (f : A → A) (m : gmap string A) k k' :
  (∀ x, g (f x) = g x) → g <$> alter f k m !! k' = g <$> m !! k'.
Proof.
  intros Hf. destruct (decide (k = k')) as [->|Hne].
  - rewrite lookup_alter_eq. destruct (m !! k'); simpl; [|done]. by rewrite Hf.
  - by rewrite lookup_alter_ne.
Qed.

Lemma sameSettled_kept options : Kept options sameSettled.
Proof.
  split.
  - done.
  - intros a b c Hab Hbc m. by rewrite Hab.
  - done.
  - intros st m f Hf m'. simpl. symmetry. apply lookup_alter_fmap.
    by destruct Hf.
Qed.

Lemma sameExports_kept options :
  shimMissingExports options = false → Kept options sameExports.
Proof.
  intros Hshim. split.
  - done.
  - intros a b c Hab Hbc m. by rewrite Hab.
  - done.
  - intros st m f Hf m'. simpl. symmetry. apply lookup_alter_fmap.
    destruct Hf; try done. congruence.
Qed.

Lemma warned_kept options : Kept options (warned options).
Proof.
  split.
  - intros st. exists []. by rewrite app_nil_r.
  - intros a b c (ws & Hb & Hws) (ws' & Hc & Hws'). exists (ws ++ ws').
    rewrite Hc, Hb, <-app_assoc. split; [done|]. by apply Forall_app.
  - intros st w Hw. exists [w]. split; [done|]. by apply Forall_singleton.
  - intros st m f _. exists []. simpl. by rewrite app_nil_r.
Qed.

Lemma alternativesOk_kept options : Kept options alternativesOk.
Proof.
  split.
  - intros st. split; [done|]. intros m md' v r Hm Hv. left. eauto.
  - intros a b c [Kab Hab] [Kbc Hbc]. split; [intros m; by rewrite Kab|].
    intros m md'' v r Hm Hv.
    destruct (Hbc m md'' v r Hm Hv) as [(md' & Hm' & Hv')|(Hne & e & He & Hint)].
    + destruct (Hab m md' v r Hm' Hv') as [?|?]; auto.
    + right. split; [done|]. specialize (Kab (variableModule v)). rewrite He in Kab.
      destruct (modulesById a !! variableModule v) as [e0|]; [|done].
      simpl in Kab. injection Kab as Kab. exists e0. split; [done|congruence].
  - intros st. split; [done|]. intros m md' v r Hm Hv. left. eauto.
  - intros st m f Hf. split.
    { intros m'. simpl. symmetry. apply lookup_alter_fmap. by destruct Hf. }
    intros m' md' v r Hm Hv. simpl in Hm.
    destruct (decide (m = m')) as [->|Hne]; [|rewrite lookup_alter_ne in Hm by done; eauto].
    rewrite lookup_alter_eq in Hm.
    destruct (modulesById st !! m') as [md|] eqn:Hmd; [|done]. simpl in Hm.
    injection Hm as <-.
    destruct Hf as [name| | | | |variable reexporter exporter He Hint Hne]; simpl in Hv;
      try (left; eauto; fail).
    destruct (decide (variable = v)) as [->|Hv'].
    + rewrite lookup_insert_eq in Hv. injection Hv as ->. right. eauto.
    + rewrite lookup_insert_ne in Hv by done. left. eauto.
Qed.

(** X8.  Resolving an export name adds no module to the graph and removes
    none, and of a module it changes nothing but the tables it fills
    ([exports] by a shim, [namespaceReexportsByName], [syntheticExports],
    [syntheticNamespace], [sideEffectDependenciesByVariable],
    [alternativeReexportModules]): the options, the descriptors of imports
    and re-exports, the star targets, the scope, the dependencies and the
    memoised lists are as before. *)
Theorem resolution_leaves_the_linked_graph (options : InputOptions) (fuel : nat)
    (this : ModuleId) (name : string) (o : Options) (st st' : State)
    (r : Resolution * option Searched) :
  getVariableForExportName options fuel this name o st = Ok r st' →
  ∀ m, settled <$> modulesById st !! m = settled <$> modulesById st' !! m.
Proof.
  apply (keeps_getVariableForExportName options sameSettled (sameSettled_kept options)).
Qed.

Lemma resolution_leaves_the_linked_graph_witness :
  ∃ st',
    getVariableForExportName Examples.inputOptions 8 "n" "x" EMPTY_OBJECT
      Examples.syntheticFallback = Ok ((Some (LocalVar "r" "x"), false), None) st'
    ∧ settled <$> modulesById Examples.syntheticFallback !! "s"
      = settled <$> modulesById st' !! "s".
Proof.
  eexists. split; [vm_compute; reflexivity|].
  apply (resolution_leaves_the_linked_graph Examples.inputOptions 8 "n" "x" EMPTY_OBJECT
           Examples.syntheticFallback _ ((Some (LocalVar "r" "x"), false), None)).
  vm_compute. reflexivity.
Defined.

(** X9.  Without the option [shimMissingExports], resolving an export name
    leaves the [exports] table of every module as it is. *)
Theorem resolution_without_shims_keeps_exports (options : InputOptions) (fuel : nat)
    (this : ModuleId) (name : string) (o : Options) (st st' : State)
    (r : Resolution * option Searched) :
  shimMissingExports options = false →
  getVariableForExportName options fuel this name o st = Ok r st' →
  ∀ m, exports <$> modulesById st !! m = exports <$> modulesById st' !! m.
Proof.
  intros Hshim.
  apply (keeps_getVariableForExportName options sameExports (sameExports_kept options Hshim)).
Qed.

Lemma resolution_without_shims_keeps_exports_witness :
  ∃ st',
    getVariableForExportName Examples.inputOptions 8 "m" "k" EMPTY_OBJECT
      Examples.starConflict = Ok ((None, false), None) st'
    ∧ exports <$> modulesById Examples.starConflict !! "m"
      = exports <$> modulesById st' !! "m".
Proof.
  eexists. split; [vm_compute; reflexivity|].
  apply (resolution_without_shims_keeps_exports Examples.inputOptions 8 "m" "k"
           EMPTY_OBJECT Examples.starConflict _ ((None, false), None)).
  - reflexivity.
  - vm_compute. reflexivity.
Defined.

(** X10.  The warnings of a resolution are added after those that were
    there, and each is well formed: a [NAMESPACE_CONFLICT] names at least two
    modules, an [AMBIGUOUS_EXTERNAL_NAMESPACES] at least two of which the
    first is the one used, and a [SHIMMED_EXPORT] is only given with the
    option [shimMissingExports]. *)
Theorem resolution_warnings_are_well_formed (options : InputOptions) (fuel : nat)
    (this : ModuleId) (name : string) (o : Options) (st st' : State)
    (r : Resolution * option Searched) :
  getVariableForExportName options fuel this name o st = Ok r st' →
  ∃ ws, warnings st' = warnings st ++ ws ∧ Forall (emitted options) ws.
Proof.
  apply (keeps_getVariableForExportName options (warned options) (warned_kept options)).
Qed.

Lemma resolution_warnings_are_well_formed_witness :
  ∃ st',
    getVariableForExportName Examples.inputOptions 8 "m" "k" EMPTY_OBJECT
      Examples.starConflict = Ok ((None, false), None) st'
    ∧ ∃ ws, warnings st' = warnings Examples.starConflict ++ ws
            ∧ Forall (emitted Examples.inputOptions) ws.
Proof.
  eexists. split; [vm_compute; reflexivity|].
  apply (resolution_warnings_are_well_formed Examples.inputOptions 8 "m" "k"
           EMPTY_OBJECT Examples.starConflict _ ((None, false), None)).
  vm_compute. reflexivity.
Defined.

(** X11.  An alternative exporter that a resolution records for a variable
    is never the module of the variable itself, and the module of the
    variable is internal. *)
Theorem resolution_records_other_modules_as_alternatives (options : InputOptions)
    (fuel : nat) (this : ModuleId) (name : string) (o : Options) (st st' : State)
    (r : Resolution * option Searched) :
  getVariableForExportName options fuel this name o st = Ok r st' →
  ∀ m md' v reexporter,
    modulesById st' !! m = Some md' →
    alternativeReexportModules md' !! v = Some reexporter →
    (∃ md, modulesById st !! m = Some md
           ∧ alternativeReexportModules md !! v = Some reexporter)
    ∨ (variableModule v ≠ reexporter
       ∧ ∃ e, modulesById st !! variableModule v = Some e ∧ isExternalModule e = false).
Proof.
  intros Hr.
  apply (keeps_getVariableForExportName options alternativesOk
           (alternativesOk_kept options) _ _ _ _ _ _ _ Hr).
Qed.

Lemma resolution_records_other_modules_as_alternatives_witness :
  ∃ st' i,
    getVariableForExportName Examples.inputOptions 8 "b" "x"
      (mkOptions (Some "i") false false None) Scenarios.cyclicReexport
    = Ok ((Some (LocalVar "a" "x"), false), None) st'
    ∧ modulesById st' !! "i" = Some i
    ∧ alternativeReexportModules i !! LocalVar "a" "x" = Some "b"
    ∧ ((∃ md, modulesById Scenarios.cyclicReexport !! "i" = Some md
              ∧ alternativeReexportModules md !! LocalVar "a" "x" = Some "b")
       ∨ (variableModule (LocalVar "a" "x") ≠ "b"
          ∧ ∃ e, modulesById Scenarios.cyclicReexport !! variableModule (LocalVar "a" "x")
                 = Some e
                 ∧ isExternalModule e = false)).
Proof.
  eexists. eexists.
  split; [vm_compute; reflexivity|].
  split; [vm_compute; reflexivity|].
  split; [vm_compute; reflexivity|].
  eapply (resolution_records_other_modules_as_alternatives Examples.inputOptions 8 "b" "x"
            (mkOptions (Some "i") false false None) Scenarios.cyclicReexport _
            ((Some (LocalVar "a" "x"), false), None)).
  - vm_compute. reflexivity.
  - vm_compute. reflexivity.
  - vm_compute. reflexivity.
Defined.

End ResolutionFrameLaws.

(** * Lookups the resolution answers at once *)

Module ResolutionLookupLaws.

Import Resolver Inclusion Linking Rendering Invariants ResolverFacts DependencyFacts
  GraphProperties ResolutionLaws ResolutionFrameLaws.

Lemma mapGet_mapSet {K V} `{EqDecision K} (k k' : K) (v : V) (m : OrderedMap K V) :
  mapGet k' (mapSet k v m) = if decide (k' = k) then Some v else mapGet k' m.
Proof.
  induction m as [|[k0 v0] m IH]; simpl.
  - by destruct (decide (k' = k)).
  - destruct (decide (k = k0)) as [->|Hne]; simpl.
    + by destruct (decide (k' = k0)).
    + destruct (decide (k' = k0)) as [->|Hne'].
      * by rewrite decide_False by done.
      * exact IH.
Qed.

(** On an internal module a regular name takes the third way through
    [getVariableForExportName]. *)
Lemma getVariableForExportNameBody_regular options self this name o st m :
  modulesById st !! this = Some m → isExternalModule m = false → regular name →
  getVariableForExportNameBody options self this name o st
  = getVariableForRegularExportName options self this name o st.
Proof.
  intros Hm Hint Hname. unfold getVariableForExportNameBody, bind at 1, getModule at 1.
  rewrite Hm, Hint.
  destruct name as [|c name]; [done|].
  destruct c as [[] [] [] [] [] [] [] []]; try done.
  by destruct (Hname name).
Qed.

Lemma bind_ok {A B} (c : M A) (k : A → M B) st a st1 :
  c st = Ok a st1 → bind c k st = k a st1.
Proof. unfold bind. by intros ->. Qed.

Lemma updateModule_id this f st m :
  modulesById st !! this = Some m → f m = m → updateModule this f st = Ok () st.
Proof.
  intros Hm Hf. unfold updateModule. f_equal. destruct st as [ms ws]. simpl in *.
  f_equal. apply alter_id. intros x Hx. congruence.
Qed.

Lemma setNamespaceReexportsByName_id m :
  setNamespaceReexportsByName (namespaceReexportsByName m) m = m.
Proof. by destruct m. Qed.

(** X12.  A star resolution that was memoised is reused: when
    [namespaceReexportsByName] holds a declaration for a name that the module
    neither exports nor re-exports itself, the name resolves to that
    declaration whatever the options of the call are, no star target is asked
    again (the result does not depend on what the targets would answer),
    nothing is warned and the state is left as it is. *)
Theorem memoised_star_resolution_is_reused (options : InputOptions) (self : SelfType)
    (this : ModuleId) (name : string) (o : Options) (st : State) (m : Module)
    (v : Var) (indirectExternal : bool) :
  modulesById st !! this = Some m → isExternalModule m = false →
  regular name → name ≠ "default" →
  mapGet name (reexportDescriptions m) = None → mapGet name (exports m) = None →
  onlyExplicit o = false →
  namespaceReexportsByName m !! name = Some (Some v, indirectExternal) →
  getVariableForExportNameBody options self this name o st
  = Ok ((Some v, indirectExternal), searchedNamesAndModules o) st.
Proof.
  intros Hm Hint Hname Hdefault Hre Hex Hexplicit Hcache.
  rewrite (getVariableForExportNameBody_regular _ _ _ _ _ _ m) by done.
  unfold getVariableForRegularExportName, bind at 1, getModule at 1.
  rewrite Hm, Hre, Hex, Hexplicit, bool_decide_eq_true_2 by done.
  unfold bind, ret, Resolution in *. rewrite Hcache.
  rewrite (updateModule_id _ _ _ m Hm); [done|].
  rewrite insert_id by done. apply setNamespaceReexportsByName_id.
Qed.

Lemma memoised_star_resolution_is_reused_witness :
  ∃ st,
    getVariableForExportName Examples.inputOptions 8 "n" "x" EMPTY_OBJECT
      Examples.syntheticFallback = Ok ((Some (LocalVar "r" "x"), false), None) st
    ∧ getVariableForExportName Examples.inputOptions 1 "n" "x" EMPTY_OBJECT st
      = Ok ((Some (LocalVar "r" "x"), false), None) st.
Proof.
  eexists. split; [vm_compute; reflexivity|].
  eapply (memoised_star_resolution_is_reused Examples.inputOptions
            (getVariableForExportName Examples.inputOptions 0) "n" "x" EMPTY_OBJECT).
  - vm_compute. reflexivity.
  - reflexivity.
  - intros rest. discriminate.
  - discriminate.
  - reflexivity.
  - reflexivity.
  - reflexivity.
  - vm_compute. reflexivity.
Defined.

(** X13.  A shim is made once.  [shimMissingExport] warns [SHIMMED_EXPORT]
    with the exporter [relativeId(this.id)]; after it, for a name the module
    does not re-export, the name resolves to the shim variable of the module:
    for every call and whatever the star targets hold, without another
    warning and without a change of the state. *)
Theorem shimmed_export_resolves_to_the_shim (options : InputOptions) (self : SelfType)
    (this : ModuleId) (name : string) (o : Options) (st : State) (m : Module) :
  modulesById st !! this = Some m → isExternalModule m = false →
  regular name → mapGet name (reexportDescriptions m) = None →
  ∃ st1,
    shimMissingExport options this name st = Ok () st1
    ∧ warnings st1 = warnings st ++ [SHIMMED_EXPORT (relativeId options this) name]
    ∧ getVariableForExportNameBody options self this name o st1
      = Ok ((Some (ExportShimVar this), false), searchedNamesAndModules o) st1.
Proof.
  intros Hm Hint Hname Hre.
  set (m1 := setExports (mapSet name MISSING_EXPORT_SHIM_DESCRIPTION (exports m)) m).
  set (st1 := mkState (alter (λ md, setExports
                                      (mapSet name MISSING_EXPORT_SHIM_DESCRIPTION
                                         (exports md)) md) this (modulesById st))
                (warnings st ++ [SHIMMED_EXPORT (relativeId options this) name])).
  assert (modulesById st1 !! this = Some m1) as Hm1.
  { unfold st1. simpl. by rewrite lookup_alter_eq, Hm. }
  exists st1. split; [reflexivity|]. split; [reflexivity|].
  rewrite (getVariableForExportNameBody_regular _ _ _ _ _ _ m1) by done.
  unfold getVariableForRegularExportName, bind at 1, getModule at 1.
  rewrite Hm1. simpl. rewrite Hre, mapGet_mapSet, decide_True by done. done.
Qed.

(** The module [/src/a.js] of a build in [/] is named [src/a.js] in the
    warning. *)
Lemma shimmed_export_resolves_to_the_shim_witness :
  ∃ st1,
    shimMissingExport Scenarios.shimmingOptions "/src/a.js" "missing"
      Scenarios.absoluteStar = Ok () st1
    ∧ warnings st1
      = warnings Scenarios.absoluteStar ++ [SHIMMED_EXPORT "src/a.js" "missing"]
    ∧ getVariableForExportNameBody Scenarios.shimmingOptions
        (getVariableForExportName Scenarios.shimmingOptions 0) "/src/a.js" "missing"
        EMPTY_OBJECT st1
      = Ok ((Some (ExportShimVar "/src/a.js"), false), None) st1.
Proof.
  apply (shimmed_export_resolves_to_the_shim Scenarios.shimmingOptions
           (getVariableForExportName Scenarios.shimmingOptions 0) "/src/a.js" "missing"
           EMPTY_OBJECT Scenarios.absoluteStar
           (setAst (Some 0)
              (Examples.exportingAllOf ["/src/b.js"] (Examples.plainModule "/src/a.js")))).
  - vm_compute. reflexivity.
  - reflexivity.
  - intros rest. discriminate.
  - reflexivity.
Defined.

(** X14.  A module with synthetic named exports needs the fallback export
    among its own exports: the synthetic namespace is looked for among the
    explicit exports only, so if the module neither exports nor re-exports
    the fallback name itself, [getSyntheticNamespace] throws
    [SYNTHETIC_NAMED_EXPORTS_NEED_NAMESPACE_EXPORT], whatever its star
    targets export. *)
Theorem synthetic_namespace_must_be_exported_explicitly (options : InputOptions)
    (fuel : nat) (this : ModuleId) (st : State) (m : Module) :
  let fallback :=
    match info_syntheticNamedExports m with OfString s => s | OfBool _ => "default" end in
  modulesById st !! this = Some m → isExternalModule m = false →
  syntheticNamespace m = NsNull → regular fallback →
  mapGet fallback (reexportDescriptions m) = None →
  mapGet fallback (exports m) = None →
  getSyntheticNamespace (getVariableForExportName options (S fuel)) this st
  = Throw (SYNTHETIC_NAMED_EXPORTS_NEED_NAMESPACE_EXPORT this
             (info_syntheticNamedExports m)).
Proof.
  intros fallback Hm Hint Hns Hname Hre Hex.
  set (m1 := setSyntheticNamespace NsUndefined m).
  set (st1 := mkState (alter (setSyntheticNamespace NsUndefined) this (modulesById st))
                (warnings st)).
  assert (modulesById st1 !! this = Some m1) as Hm1.
  { unfold st1. simpl. by rewrite lookup_alter_eq, Hm. }
  assert (getVariableForExportName options (S fuel) this fallback
            (mkOptions None false true None) st1 = Ok ((None, false), None) st1)
    as Hinner.
  { change (getVariableForExportName options (S fuel) this fallback
              (mkOptions None false true None) st1)
      with (getVariableForExportNameBody options (getVariableForExportName options fuel)
              this fallback (mkOptions None false true None) st1).
    rewrite (getVariableForExportNameBody_regular _ _ _ _ _ _ m1) by done.
    unfold getVariableForRegularExportName.
    rewrite (bind_ok _ _ _ m1 st1) by (by apply getModule_Ok).
    simpl. by rewrite Hre, Hex. }
  unfold getSyntheticNamespace.
  rewrite (bind_ok _ _ _ m st) by (by apply getModule_Ok).
  rewrite Hns. fold fallback.
  rewrite (bind_ok _ _ _ () (mkState (alter (setSyntheticNamespace NsNull) this
                                         (modulesById st1)) (warnings st1))).
  2:{ rewrite (bind_ok _ _ _ () st1) by done.
      rewrite (bind_ok _ _ _ _ _ Hinner). done. }
  unfold bind, getModule. simpl. rewrite !lookup_alter_eq, Hm. simpl. done.
Qed.

Lemma synthetic_namespace_must_be_exported_explicitly_witness :
  getSyntheticNamespace (getVariableForExportName Examples.inputOptions 8) "s"
    Scenarios.syntheticWithoutFallback
  = Throw (SYNTHETIC_NAMED_EXPORTS_NEED_NAMESPACE_EXPORT "s" (OfBool true)).
Proof.
  apply (synthetic_namespace_must_be_exported_explicitly Examples.inputOptions 7 "s"
           Scenarios.syntheticWithoutFallback
           (Examples.exportingAllOf ["d"]
              (newModule "s" false (SideEffects true) (OfBool true)))).
  - vm_compute. reflexivity.
  - reflexivity.
  - reflexivity.
  - intros rest. discriminate.
  - reflexivity.
  - reflexivity.
Defined.

(** X15.  An export of the module itself is found first: when the name is
    bound by a local export to a variable of the module scope, the result is
    that variable, for every call and whatever the star targets and the other
    modules hold.  Without an importer the state is left as it is; with one,
    the module is recorded in the importer as a side-effect dependency of the
    variable. *)
Theorem own_export_is_found_first (options : InputOptions) (self : SelfType)
    (this : ModuleId) (name : string) (o : Options) (st : State) (m : Module)
    (identifier : option string) (localName : string) (v : Var) :
  modulesById st !! this = Some m → isExternalModule m = false →
  regular name → mapGet name (reexportDescriptions m) = None →
  mapGet name (exports m) = Some (ExportDesc identifier localName) →
  scope_variables m !! localName = Some v →
  (importerForSideEffects o = None →
   getVariableForExportNameBody options self this name o st
   = Ok ((Some v, false), searchedNamesAndModules o) st)
  ∧ (∀ importer i,
       importerForSideEffects o = Some importer →
       modulesById st !! importer = Some i →
       ∃ st' i',
         getVariableForExportNameBody options self this name o st
         = Ok ((Some v, false), searchedNamesAndModules o) st'
         ∧ modulesById st' !! importer = Some i'
         ∧ this ∈ default [] (sideEffectDependenciesByVariable i' !! v)).
Proof.
  intros Hm Hint Hname Hre Hex Hv.
  rewrite (getVariableForExportNameBody_regular _ _ _ _ _ _ m) by done.
  unfold getVariableForRegularExportName.
  rewrite (bind_ok _ _ _ m st) by (by apply getModule_Ok).
  rewrite Hre, Hex.
  assert (traceVariable self this localName (importerForSideEffects o) st
          = Ok (Some v) st) as Htrace.
  { unfold traceVariable. rewrite (bind_ok _ _ _ m st) by (by apply getModule_Ok).
    by rewrite Hv. }
  rewrite (bind_ok _ _ _ _ _ Htrace). split.
  - intros ->. done.
  - intros importer i -> Hi.
    set (i1 := setSideEffectDependenciesByVariable
                 (<[v := setAdd this (default [] (sideEffectDependenciesByVariable i !! v))]>
                    (sideEffectDependenciesByVariable i)) i).
    set (st1 := mkState
                  (alter (λ m, setSideEffectDependenciesByVariable
                                 (<[v := setAdd this
                                           (default [] (sideEffectDependenciesByVariable m !! v))]>
                                    (sideEffectDependenciesByVariable m)) m)
                     importer (modulesById st)) (warnings st)).
    assert (modulesById st1 !! importer = Some i1) as Hi1.
    { unfold st1. simpl. by rewrite lookup_alter_eq, Hi. }
    assert (is_Some (modulesById st1 !! this)) as [t1 Ht1].
    { unfold st1. simpl. destruct (decide (importer = this)) as [->|Hne].
      - rewrite lookup_alter_eq, Hm. by eexists.
      - rewrite lookup_alter_ne by done. by eexists. }
    assert (addSideEffectDependency importer v this st = Ok () st1) as Hst1 by done.
    clearbody st1.
    assert (∃ st2 i2,
              setAlternativeExporterIfCyclic v importer this st1 = Ok () st2
              ∧ modulesById st2 !! importer = Some i2
              ∧ sideEffectDependenciesByVariable i2 = sideEffectDependenciesByVariable i1)
      as (st2 & i2 & Hst2 & Hi2 & Hsame).
    { unfold setAlternativeExporterIfCyclic.
      rewrite (bind_ok _ _ _ (modulesById st1 !! variableModule v) st1) by done.
      rewrite (bind_ok _ _ _ t1 st1) by (by apply getModule_Ok).
      destruct (modulesById st1 !! variableModule v) as [e|]; [|by exists st1, i1].
      destruct (_ && _); [|by exists st1, i1].
      eexists _, _. split; [reflexivity|]. simpl. rewrite lookup_alter_eq, Hi1. done. }
    exists st2, i2.
    rewrite (bind_ok _ _ _ () st2).
    2:{ rewrite (bind_ok _ _ _ () st1) by done. exact Hst2. }
    split; [done|]. split; [done|]. rewrite Hsame. unfold i1. simpl.
    rewrite lookup_insert_eq. simpl. unfold setAdd.
    case_bool_decide as Hin; [done|]. apply elem_of_app. right.
    by apply list_elem_of_singleton.
Qed.

Lemma own_export_is_found_first_witness :
  getVariableForExportNameBody Examples.inputOptions
    (getVariableForExportName Examples.inputOptions 0) "a" "k" EMPTY_OBJECT
    Examples.starConflict
  = Ok ((Some (LocalVar "a" "k"), false), None) Examples.starConflict.
Proof.
  refine (proj1 (own_export_is_found_first Examples.inputOptions
                   (getVariableForExportName Examples.inputOptions 0) "a" "k" EMPTY_OBJECT
                   Examples.starConflict
                   (Examples.exportingLocal "k" (Examples.plainModule "a")) None "k"
                   (LocalVar "a" "k") _ _ _ _ _ _) _).
  - vm_compute. reflexivity.
  - reflexivity.
  - intros rest. discriminate.
  - reflexivity.
  - reflexivity.
  - vm_compute. reflexivity.
  - reflexivity.
Defined.

(** X26.  [export *] does not forward a default export.  For a parsed module
    whose [info.hasDefaultExport] is [false] and that has no synthetic named
    exports, the name [default] resolves to no variable, whatever the star
    targets of the module export, and nothing is changed; only with the
    option [shimMissingExports], and not while an [export *] is probed, it is
    shimmed instead, with the warning [SHIMMED_EXPORT] that names the module
    by [relativeId(this.id)]. *)
Theorem default_is_not_taken_from_star_targets (options : InputOptions) (self : SelfType)
    (this : ModuleId) (o : Options) (st : State) (m : Module) :
  modulesById st !! this = Some m → isExternalModule m = false →
  hasDefaultExport m = Some false →
  truthyBoolOrString (info_syntheticNamedExports m) = false →
  getVariableForExportNameBody options self this "default" o st
  = if negb (onlyExplicit o) && negb (isExportAllSearch o) && shimMissingExports options
    then
      Ok ((Some (ExportShimVar this), false), searchedNamesAndModules o)
        (mkState
           (alter (λ m, setExports (mapSet "default" MISSING_EXPORT_SHIM_DESCRIPTION
                                      (exports m)) m) this (modulesById st))
           (warnings st ++ [SHIMMED_EXPORT (relativeId options this) "default"]))
    else Ok ((None, false), searchedNamesAndModules o) st.
Proof.
  intros Hm Hint Hdefault Hsynthetic.
  unfold hasDefaultExport in Hdefault. destruct (ast m); [|done].
  injection Hdefault as Hdefault. apply orb_false_iff in Hdefault as [Hex Hre].
  apply bool_decide_eq_false in Hex, Hre.
  destruct (mapGet "default" (exports m)) as [?|] eqn:Hexports;
    [by destruct Hex|].
  destruct (mapGet "default" (reexportDescriptions m)) as [?|] eqn:Hreexports;
    [by destruct Hre|].
  rewrite (getVariableForExportNameBody_regular _ _ _ _ _ _ m) by done.
  unfold getVariableForRegularExportName, bind at 1, getModule at 1.
  rewrite Hm, Hreexports, Hexports.
  destruct (onlyExplicit o); [done|].
  rewrite bool_decide_eq_false_2 by (intros Hne; by apply Hne).
  unfold bind at 1, ret at 1. unfold bind at 1, getModule at 1. rewrite Hm, Hsynthetic.
  simpl. destruct (negb (isExportAllSearch o) && shimMissingExports options); done.
Qed.

(** Without the option nothing is found and nothing changes; with it the
    module [/src/a.js] of a build in [/] is shimmed and named [src/a.js]. *)
Lemma default_is_not_taken_from_star_targets_witness :
  getVariableForExportNameBody Examples.inputOptions
    (getVariableForExportName Examples.inputOptions 0) "a" "default" EMPTY_OBJECT
    Scenarios.starOverDefault
  = Ok ((None, false), None) Scenarios.starOverDefault
  ∧ ∃ st',
      getVariableForExportNameBody Scenarios.shimmingOptions
        (getVariableForExportName Scenarios.shimmingOptions 0) "/src/a.js" "default"
        EMPTY_OBJECT Scenarios.absoluteStar
      = Ok ((Some (ExportShimVar "/src/a.js"), false), None) st'
      ∧ warnings st' = [SHIMMED_EXPORT "src/a.js" "default"].
Proof.
  split.
  - apply (default_is_not_taken_from_star_targets Examples.inputOptions
             (getVariableForExportName Examples.inputOptions 0) "a" EMPTY_OBJECT
             Scenarios.starOverDefault
             (setAst (Some 0) (Examples.exportingAllOf ["b"] (Examples.plainModule "a"))));
      [vm_compute; reflexivity|reflexivity..].
  - eexists. split.
    + apply (default_is_not_taken_from_star_targets Scenarios.shimmingOptions
               (getVariableForExportName Scenarios.shimmingOptions 0) "/src/a.js"
               EMPTY_OBJECT Scenarios.absoluteStar
               (setAst (Some 0)
                  (Examples.exportingAllOf ["/src/b.js"]
                     (Examples.plainModule "/src/a.js"))));
        [vm_compute; reflexivity|reflexivity..].
    + reflexivity.
Defined.

End ResolutionLookupLaws.

(** * The memoised list of re-exports *)

Module ReexportLaws.

Import Resolver Inclusion Linking Rendering Invariants ResolverFacts DependencyFacts
  GraphProperties ResolutionLaws ResolutionFrameLaws ResolutionLookupLaws.

Lemma unlisted_set this x st md :
  modulesById st !! this = Some md →
  let st' := mkState (alter (setTransitiveReexports (Some x)) this (modulesById st))
               (warnings st) in
  unlisted st' ≤ unlisted st
  ∧ (transitiveReexports md = None → unlisted st' < unlisted st).
Proof.
  intros Hm st'. unfold unlisted, st'. simpl.
  rewrite (alter_alt_Some _ _ _ _ Hm), map_filter_insert_False by done.
  rewrite map_filter_delete, map_size_delete.
  destruct (filter _ (modulesById st) !! this) as [md'|] eqn:Hf; simpl.
  - split; [lia|]. intros _.
    assert (size (filter (λ kv : ModuleId * Module, transitiveReexports kv.2 = None)
                    (modulesById st)) ≠ 0); [|lia].
    intros Hz%map_size_empty_inv. by rewrite Hz in Hf.
  - split; [lia|]. intros Hnone.
    assert (filter (λ kv : ModuleId * Module, transitiveReexports kv.2 = None)
              (modulesById st) !! this = Some md) as Hf'
      by (by apply map_lookup_filter_Some).
    congruence.
Qed.


Lemma listed_bind {A B} (c : M A) (k : A → M B) st :
  listed st (c st) →
  (∀ a st1, c st = Ok a st1 → listed st1 (k a st1)) →
  listed st (bind c k st).
Proof.
  unfold bind, listed. intros Hc Hk. destruct (c st) as [a st1| |]; [|done|done].
  specialize (Hk a st1 eq_refl). destruct (k a st1); [lia|done|done].
Qed.

Lemma listed_getModule m st : listed st (getModule m st).
Proof. unfold getModule, listed. destruct (modulesById st !! m); [lia|done]. Qed.

Lemma listed_ret {A} (a : A) st : listed st (ret a st).
Proof. unfold ret, listed. lia. Qed.

Lemma getReexports_listed fuel this st :
  unlisted st < fuel → listed st (getReexports fuel this st).
Proof.
  revert this st. induction fuel as [|fuel IH]; intros this st Hfuel; [lia|]. simpl.
  apply listed_bind.
  { apply listed_getModule. }
  intros m ? [Hm ->]%getModule_Ok.
  destruct (transitiveReexports m) eqn:Hcache; [apply listed_ret|].
  apply listed_bind; [unfold updateModule, listed;
                      pose proof (unlisted_set this [] st m Hm) as [? _]; done|].
  intros [] st1 ->%updateModule_Ok.
  pose proof (unlisted_set this [] st m Hm) as [_ Hlt]. specialize (Hlt Hcache).
  set (st1 := mkState _ _) in *.
  assert (∀ xs b st2, unlisted st2 < fuel →
            listed st2
              (foldM
                 (λ reexports module,
                    let* md := getModule module in
                    if isExternalModule md then ret (setAdd ("*" +:+ module) reexports)
                    else
                      let* names := getReexports fuel module in
                      ret (foldl
                             (λ reexports name,
                                if bool_decide (name ≠ "default")
                                then setAdd name reexports else reexports)
                             reexports (names ++ getExports md)))
                 b xs st2)) as Hfold.
  { intros xs. induction xs as [|x xs IHxs]; intros b st2 Hst2; simpl;
      [unfold listed; simpl; lia|].
    apply listed_bind.
    - apply listed_bind.
      { apply listed_getModule. }
      intros md ? [Hmd ->]%getModule_Ok.
      destruct (isExternalModule md); [apply listed_ret|].
      apply listed_bind; [by apply IH|].
      intros names st3 Hst3. apply listed_ret.
    - intros b' st3 Hb'. apply IHxs.
      apply bind_Ok in Hb' as (md & ? & [Hmd ->]%getModule_Ok & Hb').
      destruct (isExternalModule md).
      + apply ret_Ok in Hb' as [_ <-]. done.
      + apply bind_Ok in Hb' as (names & st4 & Hnames & [_ <-]%ret_Ok).
        pose proof (IH x st2 Hst2) as Hx. rewrite Hnames in Hx. simpl in Hx. lia. }
  assert (listed st1 (foldM
                 (λ reexports module,
                    let* md := getModule module in
                    if isExternalModule md then ret (setAdd ("*" +:+ module) reexports)
                    else
                      let* names := getReexports fuel module in
                      ret (foldl
                             (λ reexports name,
                                if bool_decide (name ≠ "default")
                                then setAdd name reexports else reexports)
                             reexports (names ++ getExports md)))
                 (foldl (λ s k, setAdd k s) [] (reexportDescriptions m).*1)
                 (exportAllModules m) st1)) as Hmain by (apply Hfold; lia).
  unfold bind at 1.
  destruct (foldM _ _ _ st1) as [reexports st2| |]; [|done|done].
  assert (unlisted (mkState (alter (setTransitiveReexports (Some reexports)) this
                               (modulesById st2)) (warnings st2)) ≤ unlisted st2)
    as Hfinal.
  { destruct (modulesById st2 !! this) as [md2|] eqn:Hm2.
    - by apply (unlisted_set this reexports st2 md2 Hm2).
    - unfold unlisted. simpl. rewrite alter_id' by done. lia. }
  unfold listed in Hmain. unfold bind, updateModule, ret, listed. lia.
Qed.

Lemma sameExceptReexports_refl st : sameExceptReexports st st.
Proof. done. Qed.

Lemma sameExceptReexports_trans a b c :
  sameExceptReexports a b → sameExceptReexports b c → sameExceptReexports a c.
Proof.
  intros [Wab Hab] [Wbc Hbc]. split; [congruence|]. intros m. by rewrite Hab.
Qed.

Lemma keeps_setTransitiveReexports this x :
  keeps sameExceptReexports (updateModule this (setTransitiveReexports x)).
Proof.
  intros st [] st' ->%updateModule_Ok. split; [done|]. intros m. simpl.
  symmetry. apply (lookup_alter_fmap exceptReexports). by intros [].
Qed.

Lemma getReexports_keeps fuel this :
  keeps sameExceptReexports (getReexports fuel this).
Proof.
  pose proof sameExceptReexports_refl as Hrefl.
  pose proof sameExceptReexports_trans as Htrans.
  revert this. induction fuel as [|fuel IH]; intros this; simpl.
  - by intros st a st' ?.
  - apply (keeps_bind _ Htrans); [apply (keeps_getModule _ Hrefl)|]. intros m.
    destruct (transitiveReexports m); [apply (keeps_ret _ Hrefl)|].
    apply (keeps_bind _ Htrans); [apply keeps_setTransitiveReexports|]. intros _.
    apply (keeps_bind _ Htrans).
    { apply (keeps_foldM _ Hrefl Htrans). intros reexports module.
      apply (keeps_bind _ Htrans); [apply (keeps_getModule _ Hrefl)|]. intros md.
      apply keeps_if; [apply (keeps_ret _ Hrefl)|].
      apply (keeps_bind _ Htrans); [apply IH|]. intros names. apply (keeps_ret _ Hrefl). }
    intros reexports.
    apply (keeps_bind _ Htrans); [apply keeps_setTransitiveReexports|]. intros _.
    apply (keeps_ret _ Hrefl).
Qed.

(** The list a call returns is the one it leaves memoised. *)
Lemma getReexports_memoised fuel this st r st' :
  getReexports fuel this st = Ok r st' →
  ∃ md, modulesById st' !! this = Some md ∧ transitiveReexports md = Some r.
Proof.
  destruct fuel as [|fuel]; [done|]. simpl. intros Hr.
  apply bind_Ok in Hr as (m & ? & [Hm ->]%getModule_Ok & Hr).
  destruct (transitiveReexports m) eqn:Hcache.
  { apply ret_Ok in Hr as [<- <-]. eauto. }
  apply bind_Ok in Hr as ([] & st1 & ->%updateModule_Ok & Hr).
  apply bind_Ok in Hr as (reexports & st2 & Hfold & Hr).
  apply bind_Ok in Hr as ([] & st3 & ->%updateModule_Ok & [<- <-]%ret_Ok).
  assert (keeps sameExceptReexports
            (foldM
               (λ reexports module,
                  let* md := getModule module in
                  if isExternalModule md then ret (setAdd ("*" +:+ module) reexports)
                  else
                    let* names := getReexports fuel module in
                    ret (foldl
                           (λ reexports name,
                              if bool_decide (name ≠ "default")
                              then setAdd name reexports else reexports)
                           reexports (names ++ getExports md)))
               (foldl (λ s k, setAdd k s) [] (reexportDescriptions m).*1)
               (exportAllModules m))) as Hkeeps.
  { apply (keeps_foldM _ sameExceptReexports_refl sameExceptReexports_trans).
    intros b module.
    apply (keeps_bind _ sameExceptReexports_trans);
      [apply (keeps_getModule _ sameExceptReexports_refl)|]. intros md.
    apply keeps_if; [apply (keeps_ret _ sameExceptReexports_refl)|].
    apply (keeps_bind _ sameExceptReexports_trans); [apply getReexports_keeps|].
    intros names. apply (keeps_ret _ sameExceptReexports_refl). }
  destruct (Hkeeps _ _ _ Hfold) as [_ Hsame]. specialize (Hsame this). simpl in Hsame.
  rewrite lookup_alter_eq, Hm in Hsame. simpl in Hsame.
  destruct (modulesById st2 !! this) as [md2|] eqn:Hm2; [|done].
  eexists. simpl. rewrite lookup_alter_eq, Hm2. simpl. split; [done|]. by destruct md2.
Qed.

(** X16.  [getReexports] comes to an end on every graph, circular
    [export *] included: with more fuel than there are modules whose list is
    not memoised, it returns or throws.  When it returns, the list is
    memoised, so that every later call returns the same list and leaves the
    state alone; no warning was given, and nothing of a module was changed
    but the memoised lists. *)
Theorem getReexports_ends_and_is_memoised (fuel : nat) (this : ModuleId) (st : State) :
  unlisted st < fuel →
  getReexports fuel this st ≠ OutOfFuel
  ∧ ∀ r st',
      getReexports fuel this st = Ok r st' →
      (∀ fuel', getReexports (S fuel') this st' = Ok r st')
      ∧ warnings st' = warnings st
      ∧ ∀ m, exceptReexports <$> modulesById st !! m
             = exceptReexports <$> modulesById st' !! m.
Proof.
  intros Hfuel. split.
  { pose proof (getReexports_listed fuel this st Hfuel) as Hl. intros Hr.
    by rewrite Hr in Hl. }
  intros r st' Hr. split; [|by apply (getReexports_keeps fuel this st r st')].
  intros fuel'. destruct (getReexports_memoised _ _ _ _ _ Hr) as (md & Hmd & Hmemo).
  simpl. unfold bind, getModule. by rewrite Hmd, Hmemo.
Qed.

Lemma getReexports_ends_and_is_memoised_witness :
  getReexports 5 "a" Scenarios.circularStars ≠ OutOfFuel
  ∧ ∀ r st',
      getReexports 5 "a" Scenarios.circularStars = Ok r st' →
      (∀ fuel', getReexports (S fuel') "a" st' = Ok r st')
      ∧ warnings st' = warnings Scenarios.circularStars
      ∧ ∀ m, exceptReexports <$> modulesById Scenarios.circularStars !! m
             = exceptReexports <$> modulesById st' !! m.
Proof.
  apply (getReexports_ends_and_is_memoised 5 "a" Scenarios.circularStars).
  vm_compute. lia.
Defined.

Lemma elem_of_addKeys (x : string) ks s :
  x ∈ foldl (λ s k, setAdd k s) s ks ↔ x ∈ ks ∨ x ∈ s.
Proof.
  revert s. induction ks as [|k ks IH]; intros s; simpl.
  - rewrite elem_of_nil. tauto.
  - rewrite IH, elem_of_setAdd, elem_of_cons. tauto.
Qed.

Lemma elem_of_addNames (x : string) names s :
  x ∈ foldl (λ reexports name,
               if bool_decide (name ≠ "default") then setAdd name reexports
               else reexports) s names
  ↔ (x ∈ names ∧ x ≠ "default") ∨ x ∈ s.
Proof.
  revert s. induction names as [|n names IH]; intros s; simpl.
  - rewrite elem_of_nil. tauto.
  - rewrite IH, elem_of_cons. case_bool_decide as Hn.
    + rewrite elem_of_setAdd. split.
      * intros [[? ?]|[->|?]]; auto.
      * intros [[[->|?] ?]|?]; auto.
    + split.
      * intros [[? ?]|?]; auto.
      * intros [[[->|?] ?]|?]; auto. done.
Qed.

Lemma star_name_is_not_default (module : ModuleId) : "*" +:+ module ≠ "default".
Proof. done. Qed.

(** What the loop of [getReexports] over the star targets adds. *)
Lemma getReexports_loop fuel xs b st r st' :
  foldM
    (λ reexports module,
       let* md := getModule module in
       if isExternalModule md then ret (setAdd ("*" +:+ module) reexports)
       else
         let* names := getReexports fuel module in
         ret (foldl
                (λ reexports name,
                   if bool_decide (name ≠ "default")
                   then setAdd name reexports else reexports)
                reexports (names ++ getExports md)))
    b xs st = Ok r st' →
  (∀ x, x ∈ b → x ∈ r)
  ∧ ("default" ∈ r → "default" ∈ b)
  ∧ ∀ (module : ModuleId) md,
      module ∈ xs → modulesById st !! module = Some md →
      (isExternalModule md = true → "*" +:+ module ∈ r)
      ∧ (isExternalModule md = false →
         ∀ x, x ∈ getExports md → x ≠ "default" → x ∈ r).
Proof.
  revert b st. induction xs as [|x xs IH]; intros b st; simpl.
  - intros [<- <-]%ret_Ok. split; [done|]. split; [done|].
    intros module md Hin. by apply elem_of_nil in Hin.
  - intros (b1 & st1 & Hstep & Hrest)%bind_Ok.
    destruct (IH _ _ Hrest) as (Hgrow & Hdefault & Hstars).
    apply bind_Ok in Hstep as (md & ? & [Hmd ->]%getModule_Ok & Hstep).
    assert (sameExceptReexports st st1
            ∧ (∀ y, y ∈ b → y ∈ b1) ∧ ("default" ∈ b1 → "default" ∈ b)
            ∧ (isExternalModule md = true → "*" +:+ x ∈ b1)
            ∧ (isExternalModule md = false →
               ∀ y, y ∈ getExports md → y ≠ "default" → y ∈ b1))
      as (Hsame & Hgrow1 & Hdefault1 & Hext & Hint).
    { destruct (isExternalModule md).
      - apply ret_Ok in Hstep as [<- <-]. split; [done|].
        split; [intros y; rewrite elem_of_setAdd; auto|].
        split; [rewrite elem_of_setAdd; by intros [?|?]|].
        split; [intros _; apply elem_of_setAdd; auto|done].
      - apply bind_Ok in Hstep as (names & st2 & Hnames & [<- <-]%ret_Ok).
        split; [by apply (getReexports_keeps fuel x st names st2)|].
        split; [intros y; rewrite elem_of_addNames; auto|].
        split; [rewrite elem_of_addNames; by intros [[_ ?]|?]|].
        split; [done|]. intros _ y Hy Hne. apply elem_of_addNames. left.
        split; [|done]. apply elem_of_app. by right. }
    split; [auto|]. split; [auto|].
    intros module md' [->|Hin]%elem_of_cons Hmd'.
    + assert (md' = md) as -> by congruence. split.
      * intros He. auto.
      * intros Hi y Hy Hne. auto.
    + destruct Hsame as [_ Hsame]. specialize (Hsame module). rewrite Hmd' in Hsame.
      destruct (modulesById st1 !! module) as [md1|] eqn:Hmd1; [|done].
      simpl in Hsame. injection Hsame as Hsame.
      destruct (Hstars module md1 Hin Hmd1) as [He Hi].
      assert (isExternalModule md1 = isExternalModule md'
              ∧ getExports md1 = getExports md') as [Hk Hx].
      { unfold exceptReexports, getExports in *. destruct md', md1. simpl in *.
        by simplify_eq. }
      rewrite Hk, Hx in *. done.
Qed.

(** X17.  What [getReexports] lists when it computes the list: every name
    the module re-exports explicitly, [*id] for every external star target,
    and every export of an internal star target but its [default]; and
    [default] is listed only if the module re-exports it explicitly:
    [export *] does not forward a default export. *)
Theorem getReexports_lists_names_but_no_star_default (fuel : nat) (this : ModuleId)
    (st st' : State) (m : Module) (r : list string) :
  modulesById st !! this = Some m → transitiveReexports m = None →
  getReexports fuel this st = Ok r st' →
  (∀ name, name ∈ (reexportDescriptions m).*1 → name ∈ r)
  ∧ ("default" ∈ r ↔ "default" ∈ (reexportDescriptions m).*1)
  ∧ ∀ (target : ModuleId) md,
      target ∈ exportAllModules m → modulesById st !! target = Some md →
      (isExternalModule md = true → "*" +:+ target ∈ r)
      ∧ (isExternalModule md = false → target ≠ this →
         ∀ name, name ∈ getExports md → name ≠ "default" → name ∈ r).
Proof.
  intros Hm Hcache Hr. destruct fuel as [|fuel]; [done|]. simpl in Hr.
  apply bind_Ok in Hr as (m0 & ? & [Hm0 ->]%getModule_Ok & Hr).
  assert (m0 = m) as -> by congruence. rewrite Hcache in Hr.
  apply bind_Ok in Hr as ([] & st1 & ->%updateModule_Ok & Hr).
  apply bind_Ok in Hr as (reexports & st2 & Hfold & Hr).
  apply bind_Ok in Hr as ([] & st3 & ->%updateModule_Ok & [<- <-]%ret_Ok).
  destruct (getReexports_loop _ _ _ _ _ _ Hfold) as (Hgrow & Hdefault & Hstars).
  split; [intros name Hname; apply Hgrow, elem_of_addKeys; auto|].
  split.
  { split.
    - intros Hd. apply Hdefault, elem_of_addKeys in Hd as [?|Hd]; [done|].
      by apply elem_of_nil in Hd.
    - intros Hd. apply Hgrow, elem_of_addKeys. auto. }
  intros target md Hin Hmd.
  destruct (decide (target = this)) as [->|Hne].
  - assert (md = m) as -> by congruence.
    destruct (Hstars this (setTransitiveReexports (Some []) m) Hin) as [Hext _].
    { simpl. by rewrite lookup_alter_eq, Hm. }
    split; [exact Hext|done].
  - destruct (Hstars target md Hin) as [Hext Hint].
    { simpl. by rewrite lookup_alter_ne. }
    split; [exact Hext|]. intros Hi _. by apply Hint.
Qed.

Lemma getReexports_lists_names_but_no_star_default_witness :
  ∃ st',
    getReexports 5 "a" Scenarios.circularStars = Ok ["y"; "k"; "*ext"] st'
    ∧ ("default" ∈ ["y"; "k"; "*ext"] ↔ "default" ∈ ["y"]).
Proof.
  eexists. split; [vm_compute; reflexivity|].
  eapply (getReexports_lists_names_but_no_star_default 5 "a" Scenarios.circularStars _
            (Examples.exportingAllOf ["b"; "ext"]
               (Examples.reexporting "y" "c" (Examples.plainModule "a")))
            ["y"; "k"; "*ext"]).
  - vm_compute. reflexivity.
  - reflexivity.
  - vm_compute. reflexivity.
Defined.

End ReexportLaws.

(** * The traversal for side effects *)

Module SideEffectLaws.

Import Resolver Inclusion Linking Rendering Invariants ResolverFacts DependencyFacts
  GraphProperties ResolutionLaws ResolutionFrameLaws ResolutionLookupLaws ReexportLaws.

Lemma withGraph_id h : withGraph h (graph h) = h.
Proof. by destruct h. Qed.

Lemma hret_Normal {A} (a b : A) h h' : hret a h = (Normal b, h') ↔ a = b ∧ h' = h.
Proof. unfold hret. split; [by intros [= -> ->]|by intros [-> ->]]. Qed.

Lemma lift_getModule_Normal m h md h' :
  lift (getModule m) h = (Normal md, h') ↔ modulesById (graph h) !! m = Some md ∧ h' = h.
Proof.
  rewrite lift_Normal. split.
  - intros (g & [Hm ->]%getModule_Ok & ->). by rewrite withGraph_id.
  - intros [Hm ->]. exists (graph h). rewrite withGraph_id. split; [|done].
    by apply getModule_Ok.
Qed.

Section Traversal.

Variable E : Entities.

Lemma hasEffects_Normal d h b h' :
  hasEffects E d h = (Normal b, h') → h' = h.
Proof.
  unfold hasEffects. intros (md & h1 & [Hmd ->]%lift_getModule_Normal & Hb)%hbind_Normal.
  case_bool_decide; [by apply hret_Normal in Hb as [_ ->]|].
  destruct (ast md); [by injection Hb as _ <-|done].
Qed.

Variables necessary always : list ModuleId.


Lemma traversed_keep h t dependency :
  dependency ∉ handledDependencies t →
  keptDependency E h necessary always dependency →
  traversed E necessary always h [dependency] t
    (mkTraversal (setAdd dependency (handledDependencies t))
       (setAdd dependency (relevant t))).
Proof.
  intros Hnew Hkept. unfold traversed. simpl.
  split; [intros d; rewrite elem_of_setAdd; auto|].
  split; [intros d; rewrite elem_of_setAdd; auto|].
  split; [intros d ->%list_elem_of_singleton; apply elem_of_setAdd; auto|].
  split; [intros d [->|?]%elem_of_setAdd; auto|].
  intros Hok d [->|Hd]%elem_of_setAdd Hk; simpl; apply elem_of_setAdd; auto.
Qed.

Lemma traversed_skip h t dependency :
  ¬ keptDependency E h necessary always dependency →
  traversed E necessary always h [dependency] t
    (mkTraversal (setAdd dependency (handledDependencies t)) (relevant t)).
Proof.
  intros Hkept. unfold traversed. simpl.
  split; [intros d; rewrite elem_of_setAdd; auto|].
  split; [done|].
  split; [intros d ->%list_elem_of_singleton; apply elem_of_setAdd; auto|].
  split; [auto|].
  intros Hok d [->|Hd]%elem_of_setAdd Hk; simpl; [done|auto].
Qed.

Lemma traversed_trans h p1 p2 t1 t2 t3 :
  traversed E necessary always h p1 t1 t2 → traversed E necessary always h p2 t2 t3 →
  traversed E necessary always h (p1 ++ p2) t1 t3.
Proof.
  intros (H1 & R1 & P1 & S1 & O1) (H2 & R2 & P2 & S2 & O2). unfold traversed.
  split; [auto|]. split; [auto|].
  split; [intros d [?|?]%elem_of_app; auto|].
  split; [|auto]. intros d Hd. destruct (S2 d Hd) as [?|?]; auto.
Qed.

Lemma traversed_weaken h p p' t t' :
  (∀ d, d ∈ p' → d ∈ p ∨ d ∈ handledDependencies t) →
  traversed E necessary always h p t t' → traversed E necessary always h p' t t'.
Proof.
  intros Hp (H1 & R1 & P1 & S1 & O1). unfold traversed.
  split; [auto|]. split; [auto|]. split; [|auto].
  intros d Hd. destruct (Hp d Hd); auto.
Qed.

Lemma traversed_refl h t : traversed E necessary always h [] t t.
Proof.
  unfold traversed. split; [auto|]. split; [auto|].
  split; [intros d Hd; by apply elem_of_nil in Hd|]. auto.
Qed.

Lemma addSideEffectDependencies_traversed fuel possible t h t' h' :
  addSideEffectDependencies E fuel necessary always possible t h = (Normal t', h') →
  h' = h ∧ traversed E necessary always h possible t t'.
Proof.
  revert possible t h t' h'. induction fuel as [|fuel IH]; intros possible t h t' h';
    [done|]. simpl.
  revert t h t' h'. induction possible as [|dependency possible IHp]; intros t h t' h'.
  { simpl. intros [<- ->]%hret_Normal. split; [done|apply traversed_refl]. }
  simpl. intros (t1 & h1 & Hstep & Hrest)%hbind_Normal.
  assert (h1 = h ∧ traversed E necessary always h [dependency] t t1) as [-> Hstep'].
  { case_bool_decide as Hhandled.
    { apply hret_Normal in Hstep as [<- ->]. split; [done|].
      apply (traversed_weaken h [] [dependency]); [|apply traversed_refl].
      intros d ->%list_elem_of_singleton. auto. }
    case_bool_decide as Hnecessary.
    { apply hret_Normal in Hstep as [<- ->]. split; [done|].
      apply traversed_keep; [done|]. by left. }
    apply hbind_Normal in Hstep as (md & h2 & [Hmd ->]%lift_getModule_Normal & Hstep).
    destruct (truthyModuleSideEffects (info_moduleSideEffects md)
              || bool_decide (dependency ∈ always)) eqn:Hside; simpl in Hstep.
    2:{ apply hret_Normal in Hstep as [<- ->]. split; [done|].
        apply traversed_skip. intros [?|(md' & Hmd' & [Hs|Ha] & _)]; [done| |].
        - assert (md' = md) as -> by congruence. by rewrite Hs in Hside.
        - apply orb_false_iff in Hside as [_ Hside].
          by apply bool_decide_eq_false in Hside. }
    assert (truthyModuleSideEffects (info_moduleSideEffects md) = true
            ∨ dependency ∈ always) as Hside'.
    { apply orb_true_iff in Hside as [?|Ha]; [by left|].
      right. by apply bool_decide_eq_true in Ha. }
    destruct (isExternalModule md) eqn:Hext.
    { apply hret_Normal in Hstep as [<- ->]. split; [done|].
      apply traversed_keep; [done|]. right. exists md. auto. }
    apply hbind_Normal in Hstep as (effects & h2 & Heffects & Hstep).
    pose proof (hasEffects_Normal _ _ _ _ Heffects) as ->.
    destruct effects.
    { apply hret_Normal in Hstep as [<- ->]. split; [done|].
      apply traversed_keep; [done|]. right. exists md. rewrite Heffects. auto. }
    destruct (IH _ _ _ _ _ Hstep) as [-> Hnested]. split; [done|].
    apply (traversed_weaken h ([dependency] ++ dependencies md));
      [intros d Hd; left; apply elem_of_app; by left|].
    eapply traversed_trans; [|exact Hnested].
    apply traversed_skip. intros [?|(md' & Hmd' & _ & [He|He])]; [done| |].
    - assert (md' = md) as -> by congruence. congruence.
    - rewrite Heffects in He. by injection He. }
  destruct (IHp _ _ _ _ Hrest) as [-> Hrest']. split; [done|].
  by apply (traversed_trans h [dependency] possible t t1 t').
Qed.

End Traversal.

(** X18.  What the side-effect traversal keeps, whatever the modules answer
    about their effects.  Nothing is taken away from the relevant
    dependencies.  A module that is added is necessary, or its side effects
    count: its own option is truthy or it is always checked.  Every direct
    dependency of the module and every always-checked dependency that is
    necessary is added, and so is every external one whose side effects
    count. *)
Theorem side_effect_traversal_keeps_what_it_must (E : Entities) (fuel : nat)
    (this : ModuleId) (relevantDependencies necessary always : list ModuleId)
    (h h' : Heap) (m : Module) (result : list ModuleId) :
  modulesById (graph h) !! this = Some m →
  addRelevantSideEffectDependencies E fuel this relevantDependencies necessary always h
  = (Normal result, h') →
  (∀ d, d ∈ relevantDependencies → d ∈ result)
  ∧ (∀ d, d ∈ result →
          d ∈ relevantDependencies ∨ d ∈ necessary
          ∨ ∃ md, sideEffectsCount h always d md)
  ∧ (∀ d, d ∈ dependencies m ∨ d ∈ always → d ∈ necessary → d ∈ result)
  ∧ (∀ d md, d ∈ dependencies m ∨ d ∈ always →
             sideEffectsCount h always d md → isExternalModule md = true → d ∈ result).
Proof.
  intros Hm Hr. unfold addRelevantSideEffectDependencies in Hr.
  apply hbind_Normal in Hr as (m0 & h0 & [Hm0 ->]%lift_getModule_Normal & Hr).
  assert (m0 = m) as -> by congruence.
  apply hbind_Normal in Hr as (t1 & h1 & Ht1 & Hr).
  apply hbind_Normal in Hr as (t2 & h2 & Ht2 & [<- ->]%hret_Normal).
  destruct (addSideEffectDependencies_traversed _ _ _ _ _ _ _ _ _ Ht1)
    as [-> (H1 & R1 & P1 & S1 & O1)].
  destruct (addSideEffectDependencies_traversed _ _ _ _ _ _ _ _ _ Ht2)
    as [-> (H2 & R2 & P2 & S2 & O2)].
  simpl in *.
  assert (handledOk E h necessary always t2) as Hok.
  { apply O2, O1. intros d Hd. by apply elem_of_nil in Hd. }
  split; [auto|]. split; [|split].
  - intros d Hd.
    assert (d ∈ relevantDependencies ∨ keptDependency E h necessary always d)
      as [?|[?|(md & Hmd & Hside & _)]]; [|by left|by right; left|].
    { destruct (S2 d Hd) as [Hd1|?]; [|auto]. destruct (S1 d Hd1); auto. }
    right. right. by exists md.
  - intros d [Hd|Hd] Hn; apply Hok; auto; by left.
  - intros d md [Hd|Hd] [Hmd Hside] Hext; apply Hok; auto; right; exists md; auto.
Qed.

(** [app.js] keeps [ext], an external module with side effects; [lib.js] is
    kept as well, and both have side effects that count. *)
Lemma side_effect_traversal_keeps_what_it_must_witness :
  ∃ h',
    addRelevantSideEffectDependencies Examples.effectfulEntities 8 "app" [] [] []
      Scenarios.shaken = (Normal ["lib"; "ext"], h')
    ∧ "ext" ∈ ["lib"; "ext"]
    ∧ ∀ d, d ∈ ["lib"; "ext"] →
           d ∈ [] ∨ d ∈ [] ∨ ∃ md, sideEffectsCount Scenarios.shaken [] d md.
Proof.
  exists Scenarios.shaken.
  assert (addRelevantSideEffectDependencies Examples.effectfulEntities 8 "app" [] [] []
            Scenarios.shaken = (Normal ["lib"; "ext"], Scenarios.shaken)) as Hrun
    by (by vm_compute).
  destruct (side_effect_traversal_keeps_what_it_must Examples.effectfulEntities 8 "app"
              [] [] [] Scenarios.shaken Scenarios.shaken
              (setDependencies ["lib"; "pure"; "ext"] (Examples.plainModule "app"))
              ["lib"; "ext"] eq_refl Hrun) as (_ & Hadded & _ & Hexternal).
  split; [exact Hrun|]. split; [|exact Hadded].
  apply (Hexternal "ext" (newExternalModule "ext" (SideEffects true))).
  - left. set_solver.
  - split; [reflexivity|]. by left.
  - reflexivity.
Defined.

Lemma unhandled_mono st handled handled' :
  (∀ d, d ∈ handled → d ∈ handled') → unhandled st handled' ≤ unhandled st handled.
Proof.
  intros Hsub. apply map_subseteq_size, map_filter_subseteq_ext.
  intros d md _ Hd. simpl in *. auto.
Qed.

Lemma unhandled_add st handled d md :
  modulesById st !! d = Some md → d ∉ handled →
  unhandled st (setAdd d handled) < unhandled st handled.
Proof.
  intros Hd Hnew. unfold unhandled.
  set (P := λ kv : ModuleId * Module, kv.1 ∉ handled).
  set (P' := λ kv : ModuleId * Module, kv.1 ∉ setAdd d handled).
  assert (filter P (modulesById st) !! d = Some md) as Hf
    by (by apply map_lookup_filter_Some).
  assert (filter P' (modulesById st) ⊆ delete d (filter P (modulesById st))) as Hsub.
  { apply map_subseteq_spec. intros k x [Hk HP]%map_lookup_filter_Some.
    unfold P' in HP. simpl in HP. rewrite elem_of_setAdd in HP.
    apply lookup_delete_Some. split; [intros ->; auto|].
    apply map_lookup_filter_Some. split; [done|]. unfold P. simpl. auto. }
  apply map_subseteq_size in Hsub. rewrite map_size_delete, Hf in Hsub. simpl in Hsub.
  assert (size (filter P (modulesById st)) ≠ 0); [|lia].
  intros Hz%map_size_empty_inv. by rewrite Hz in Hf.
Qed.

Lemma unhandled_le_size st handled : unhandled st handled ≤ size (modulesById st).
Proof. apply map_size_filter. Qed.

Section Termination.

Variable E : Entities.
Variables necessary always : list ModuleId.

Lemma hasEffects_fuel d h : (hasEffects E d h).1 ≠ Abrupt NoFuel.
Proof.
  unfold hasEffects, hbind, lift, getModule.
  destruct (modulesById (graph h) !! d) as [md|]; [|done].
  case_bool_decide; [done|]. by destruct (ast md).
Qed.

Lemma addSideEffectDependencies_fuel fuel possible t h :
  unhandled (graph h) (handledDependencies t) < fuel →
  (addSideEffectDependencies E fuel necessary always possible t h).1 ≠ Abrupt NoFuel.
Proof.
  revert possible t h. induction fuel as [|fuel IH]; intros possible t h Hfuel; [lia|].
  simpl. revert t h Hfuel.
  induction possible as [|dependency possible IHp]; intros t h Hfuel; [done|].
  simpl. unfold hbind at 1.
  match goal with |- context [match ?c h with _ => _ end] =>
    destruct (c h) as [[t1|stop] h1] eqn:Hstep end.
  - assert (h1 = h ∧ traversed E necessary always h [dependency] t t1) as [-> Ht1].
    { pose proof (addSideEffectDependencies_traversed E necessary always (S fuel)
                    [dependency] t h t1 h1) as Hone.
      simpl in Hone. apply Hone. unfold hbind at 1. by rewrite Hstep. }
    apply IHp. destruct Ht1 as (Hgrow & _).
    pose proof (unhandled_mono (graph h) _ _ Hgrow). lia.
  - simpl. intros [= ->].
    case_bool_decide as Hhandled; [done|].
    case_bool_decide as Hnecessary; [done|].
    unfold hbind at 1, lift at 1, getModule at 1 in Hstep.
    destruct (modulesById (graph h) !! dependency) as [md|] eqn:Hmd; [|done].
    destruct (negb _); [done|]. destruct (isExternalModule md); [done|].
    rewrite withGraph_id in Hstep. unfold hbind at 1 in Hstep.
    pose proof (hasEffects_fuel dependency h) as Heffects.
    destruct (hasEffects E dependency h) as [[[]|stop] h2] eqn:He;
      simpl in *; [done| |congruence].
    apply hasEffects_Normal in He as ->.
    eapply (IH (dependencies md)); [|by rewrite Hstep].
    simpl.
    pose proof (unhandled_add (graph h) (handledDependencies t) dependency md Hmd
                  Hhandled). lia.
Qed.

End Termination.

(** X19.  The side-effect traversal comes to an end on every graph of
    dependencies, circular ones included: no module is visited twice, so
    with more fuel than the graph has modules it returns or throws. *)
Theorem side_effect_traversal_ends (E : Entities) (fuel : nat) (this : ModuleId)
    (relevantDependencies necessary always : list ModuleId) (h : Heap) :
  size (modulesById (graph h)) < fuel →
  (addRelevantSideEffectDependencies E fuel this relevantDependencies necessary always
     h).1
  ≠ Abrupt NoFuel.
Proof.
  intros Hfuel. unfold addRelevantSideEffectDependencies.
  unfold hbind at 1, lift at 1, getModule at 1.
  destruct (modulesById (graph h) !! this) as [m|]; [|done].
  rewrite withGraph_id. unfold hbind at 1.
  pose proof (addSideEffectDependencies_fuel E necessary always fuel (dependencies m)
                (mkTraversal [] relevantDependencies) h) as H1.
  destruct (addSideEffectDependencies E fuel necessary always (dependencies m)
              (mkTraversal [] relevantDependencies) h) as [[t1|stop] h1] eqn:Ht1.
  2:{ simpl in *. intros [= ->]. apply H1; [|done].
      pose proof (unhandled_le_size (graph h) []). lia. }
  apply addSideEffectDependencies_traversed in Ht1 as [-> _].
  unfold hbind at 1.
  pose proof (addSideEffectDependencies_fuel E necessary always fuel always t1 h) as H2.
  destruct (addSideEffectDependencies E fuel necessary always always t1 h)
    as [[t2|stop] h2]; [done|].
  simpl in *. intros [= ->]. apply H2; [|done].
  pose proof (unhandled_le_size (graph h) (handledDependencies t1)). lia.
Qed.

Lemma side_effect_traversal_ends_witness :
  (addRelevantSideEffectDependencies Examples.effectfulEntities 7 "app" [] [] []
     Scenarios.shaken).1
  ≠ Abrupt NoFuel.
Proof.
  apply (side_effect_traversal_ends Examples.effectfulEntities 7 "app" [] [] []
           Scenarios.shaken).
  vm_compute. lia.
Defined.

End SideEffectLaws.

(** * The providers of imported variables *)

Module DependencyLaws.

Import Resolver Inclusion Linking Rendering Invariants ResolverFacts DependencyFacts
  GraphProperties ResolutionLaws ResolutionFrameLaws ResolutionLookupLaws ReexportLaws
  SideEffectLaws.

Section Dependencies.

Variable options : InputOptions.
Variable E : Entities.
Variable C : Collaborators.

Lemma recordDependencyVariable_fst m acc v :
  (recordDependencyVariable C m acc v).1 = setAdd (variableModule (provider C v)) acc.1.
Proof. destruct acc as [n a]. unfold recordDependencyVariable, provider. simpl. done. Qed.

Lemma recordDependencyVariables_provider m dvs acc d :
  d ∈ (foldl (recordDependencyVariable C m) acc dvs).1
  ↔ d ∈ acc.1 ∨ ∃ v, v ∈ dvs ∧ d = variableModule (provider C v).
Proof.
  revert acc. induction dvs as [|v dvs IH]; intros acc; simpl.
  - split; [auto|]. intros [?|(v & Hv & _)]; [done|]. by apply elem_of_nil in Hv.
  - rewrite IH, recordDependencyVariable_fst, elem_of_setAdd. split.
    + intros [[->|?]|(u & Hu & ->)]; auto.
      * right. exists v. split; [apply elem_of_cons; auto|done].
      * right. exists u. split; [apply elem_of_cons; auto|done].
    + intros [?|(u & [->|Hu]%elem_of_cons & ->)]; auto. right. eauto.
Qed.

Lemma exported_variables_grow fuel this names dvs h dvs' h' :
  hfoldM
    (λ dependencyVariables exportName,
       let+ ((exportedVariable, _), _) :=
         lift (getVariableForExportName options fuel this exportName EMPTY_OBJECT) in
       hret (match exportedVariable with
             | Some v => setAdd v dependencyVariables
             | None => dependencyVariables
             end))
    dvs names h = (Normal dvs', h') →
  ∀ v, v ∈ dvs → v ∈ dvs'.
Proof.
  revert dvs h. induction names as [|name names IH]; intros dvs h; simpl.
  - by intros [<- _]%hret_Normal.
  - intros (dvs1 & h1 & Hstep & Hrest)%hbind_Normal v Hv.
    apply (IH _ _ Hrest).
    apply hbind_Normal in Hstep as ([[exported ?] ?] & h2 & _ & [<- _]%hret_Normal).
    destruct exported; [apply elem_of_setAdd; auto|done].
Qed.

End Dependencies.

(** X20.  The module that provides an imported variable is always among the
    dependencies to be included, with or without tree-shaking: for every
    variable in [imports], the module of the variable (of its base variable
    for a synthetic export, of its original variable for a default export)
    is in the set that [getDependenciesToBeIncluded] computes. *)
Theorem providers_of_imports_are_included (options : InputOptions) (E : Entities)
    (C : Collaborators) (fuel : nat) (this : ModuleId) (h h' : Heap)
    (m : Module) (result : list ModuleId) :
  modulesById (graph h) !! this = Some m →
  relevantDependencies m = None →
  getDependenciesToBeIncluded options E C fuel this h = (Normal result, h') →
  ∀ v, v ∈ imports m → variableModule (provider C v) ∈ result.
Proof.
  intros Hm Hcache Hget v Hv. unfold getDependenciesToBeIncluded in Hget.
  apply hbind_Normal in Hget as (m0 & h0 & [Hm0 ->]%lift_getModule_Normal & Hget).
  assert (m0 = m) as -> by congruence. rewrite Hcache in Hget.
  apply hbind_Normal in Hget as ([] & h1 & _ & Hget).
  apply hbind_Normal in Hget as (exposed & h2 & _ & Hget).
  apply hbind_Normal in Hget as (dvs & h3 & Hdvs & Hget).
  apply hbind_Normal in Hget as (m' & h4 & _ & Hget).
  assert (v ∈ dvs) as Hin.
  { destruct exposed.
    - apply hbind_Normal in Hdvs as (reexports & h5 & _ & Hdvs).
      apply hbind_Normal in Hdvs as (m1 & h6 & _ & Hdvs).
      apply (exported_variables_grow _ _ _ _ _ _ _ _ Hdvs).
      apply elem_of_addAll. auto.
    - apply hret_Normal in Hdvs as [<- _]. apply elem_of_addAll. auto. }
  pose proof (recordDependencyVariables_provider C m' dvs ([], [])
                (variableModule (provider C v))) as Hnecessary.
  destruct (foldl (recordDependencyVariable C m') ([], []) dvs)
    as [necessaryDependencies alwaysChecked]. simpl in Hnecessary.
  apply hbind_Normal in Hget as (rel & h5 & _ & Hget).
  apply hbind_Normal in Hget as ([] & h6 & _ & [<- _]%hret_Normal).
  apply elem_of_addAll. left. apply Hnecessary. right. eauto.
Qed.

Lemma providers_of_imports_are_included_witness :
  ∃ h',
    getDependenciesToBeIncluded Examples.inputOptions Examples.entities
      Examples.collaborators 8 "user" Scenarios.importing = (Normal ["lib"], h')
    ∧ ∀ v, v ∈ [LocalVar "lib" "x"] →
           variableModule (provider Examples.collaborators v) ∈ ["lib"].
Proof.
  eexists. split; [vm_compute; reflexivity|].
  eapply (providers_of_imports_are_included Examples.inputOptions Examples.entities
            Examples.collaborators 8 "user" Scenarios.importing _
            (setImports [LocalVar "lib" "x"] (Examples.plainModule "user")) ["lib"]).
  - vm_compute. reflexivity.
  - reflexivity.
  - vm_compute. reflexivity.
Defined.

End DependencyLaws.

(** * Including a variable *)

Module IncludeVariableLaws.

Import Resolver Inclusion Linking Rendering Invariants ResolverFacts DependencyFacts
  GraphProperties ResolutionLaws ResolutionFrameLaws ResolutionLookupLaws ReexportLaws
  SideEffectLaws DependencyLaws.

Lemma graphOnly_hret {A} (a : A) : graphOnly (hret a).
Proof. done. Qed.

Lemma graphOnly_hbind {A B} (c : H A) (k : A → H B) :
  graphOnly c → (∀ a, graphOnly (k a)) → graphOnly (hbind c k).
Proof.
  intros Hc Hk h. unfold hbind. destruct (Hc h) as [Hv0 Hn0].
  destruct (c h) as [[a|stop] h1]; simpl in *; [|done].
  destruct (Hk a h1) as [Hv Hn]. split; congruence.
Qed.

Lemma graphOnly_lift {A} (c : M A) : graphOnly (lift c).
Proof. intros h. unfold lift. by destruct (c (graph h)). Qed.

Lemma graphOnly_if {A} (b : bool) (c1 c2 : H A) :
  graphOnly c1 → graphOnly c2 → graphOnly (if b then c1 else c2).
Proof. by destruct b. Qed.

Lemma graphOnly_forEach {A} (xs : list A) (f : A → H unit) :
  (∀ x, graphOnly (f x)) → graphOnly (forEach xs f).
Proof.
  intros Hf. induction xs as [|x xs IH]; simpl; [apply graphOnly_hret|].
  apply graphOnly_hbind; [apply Hf|by intros _].
Qed.

Section Operations.

Variable E : Entities.
Variable C : Collaborators.

Lemma graphOnly_markExecutedIfNeeded module : graphOnly (markExecutedIfNeeded C module).
Proof.
  apply graphOnly_hbind; [apply graphOnly_lift|]. intros m.
  apply graphOnly_if; [apply graphOnly_hret|]. by intros h.
Qed.

(** What [includeVariable] does after [variable.include()] returned. *)
Lemma graphOnly_afterInclude fuel this variable :
  graphOnly
    (let+ variableModuleRecord := lift (lookupModule (variableModule variable)) in
     match variableModuleRecord with
     | Some vm =>
         if isExternalModule vm then hret ()
         else
           let+ _ := markExecutedIfNeeded C (variableModule variable) in
           if bool_decide (variableModule variable ≠ this) then
             let+ sideEffectModules :=
               lift (getAndExtendSideEffectModules C fuel variable this) in
             forEach sideEffectModules (markExecutedIfNeeded C)
           else hret ()
     | None => hret ()
     end).
Proof.
  apply graphOnly_hbind; [apply graphOnly_lift|]. intros [vm|]; [|apply graphOnly_hret].
  apply graphOnly_if; [apply graphOnly_hret|].
  apply graphOnly_hbind; [apply graphOnly_markExecutedIfNeeded|]. intros _.
  apply graphOnly_if; [|apply graphOnly_hret].
  apply graphOnly_hbind; [apply graphOnly_lift|]. intros modules.
  apply graphOnly_forEach, graphOnly_markExecutedIfNeeded.
Qed.

End Operations.


Lemma includeVariable_fresh E C fuel this v lv h :
  variables h !! v = Some (LocalObject lv) → LocalVariable.included lv = false →
  includeVariable E C fuel this v h
  = let '(lv', w', status) := LocalVariable.include E lv (world h) in
    let h1 := withWorld (withVariables h (<[v := LocalObject lv']> (variables h))) w' in
    match status with
    | Returned =>
        afterInclude C fuel this v (mkHeap (graph h1) (variables h1) (world h1) true)
    | Threw TypeError => (Abrupt (Thrown TYPE_ERROR), h1)
    | RanOutOfFuel => (Abrupt NoFuel, h1)
    end.
Proof.
  intros Hv Hlv.
  unfold includeVariable, hbind at 1, variableIncluded, hbind at 1, getVariable.
  rewrite Hv. unfold hret at 1. simpl. rewrite Hlv.
  unfold hbind at 1, variableInclude. rewrite Hv.
  destruct (LocalVariable.include E lv (world h)) as [[lv' w'] status].
  destruct status as [|[]|]; done.
Qed.

(** X21.  [includeVariable] on a local variable: the variable is included
    afterwards, however the call ends.  If it was included already, nothing
    at all is changed, and in particular no tree-shaking pass is requested;
    if it was not and the call returns, a pass is requested.  A second call
    does nothing. *)
Theorem includeVariable_includes_once (E : Entities) (C : Collaborators) (fuel : nat)
    (this : ModuleId) (v : Var) (lv : LocalVariable.t) (h : Heap) :
  variables h !! v = Some (LocalObject lv) →
  let r := includeVariable E C fuel this v h in
  variableIsIncluded r.2 v = true
  ∧ (LocalVariable.included lv = true → r = (Normal (), h))
  ∧ (LocalVariable.included lv = false → r.1 = Normal () →
     needsTreeshakingPass r.2 = true)
  ∧ ∀ fuel', includeVariable E C fuel' this v r.2 = (Normal (), r.2).
Proof.
  intros Hv r.
  assert (∀ h0 fuel0, variableIsIncluded h0 v = true →
            includeVariable E C fuel0 this v h0 = (Normal (), h0)) as Hdone.
  { intros h0 fuel0 Hi. unfold variableIsIncluded in Hi.
    unfold includeVariable, hbind at 1, variableIncluded, hbind at 1, getVariable.
    destruct (variables h0 !! v) as [o|]; [|done]. unfold hret. by rewrite Hi. }
  destruct (LocalVariable.included lv) eqn:Hlv.
  { assert (variableIsIncluded h v = true) as Hi
      by (unfold variableIsIncluded; by rewrite Hv).
    unfold r. rewrite (Hdone h fuel Hi). simpl. repeat split; auto. done. }
  assert (variableIsIncluded r.2 v = true
          ∧ (r.1 = Normal () → needsTreeshakingPass r.2 = true)) as [Hi Hpass].
  { unfold r. rewrite (includeVariable_fresh E C fuel this v lv h Hv Hlv).
    pose proof (LocalVariableFacts.include_flags E lv (world h)) as (Hinc & _ & _).
    destruct (LocalVariable.include E lv (world h)) as [[lv' w'] status].
    simpl in Hinc.
    set (h1 := withWorld (withVariables h (<[v:=LocalObject lv']> (variables h))) w').
    assert (variables h1 !! v = Some (LocalObject lv')) as Hv1.
    { unfold h1. simpl. by rewrite lookup_insert_eq. }
    clearbody h1. destruct status as [|[]|]; simpl.
    2,3: (split; [|done]; unfold variableIsIncluded; by rewrite Hv1).
    pose proof (graphOnly_afterInclude C fuel this v
                  (mkHeap (graph h1) (variables h1) (world h1) true)) as [Hvars Hp].
    fold (afterInclude C fuel this v) in Hvars, Hp. simpl in Hvars, Hp.
    split; [|by intros _].
    unfold variableIsIncluded. by rewrite Hvars, Hv1. }
  split; [done|]. split; [done|]. split; [by intros _|].
  intros fuel'. by apply Hdone.
Qed.

Lemma includeVariable_includes_once_witness :
  let r :=
    includeVariable Examples.entities Examples.collaborators 4 "main" (LocalVar "lib" "x")
      Examples.bundle in
  variableIsIncluded r.2 (LocalVar "lib" "x") = true
  ∧ (LocalVariable.included Examples.x = true → r = (Normal (), Examples.bundle))
  ∧ (LocalVariable.included Examples.x = false → r.1 = Normal () →
     needsTreeshakingPass r.2 = true)
  ∧ ∀ fuel',
      includeVariable Examples.entities Examples.collaborators fuel' "main"
        (LocalVar "lib" "x") r.2 = (Normal (), r.2).
Proof.
  apply (includeVariable_includes_once Examples.entities Examples.collaborators 4 "main"
           (LocalVar "lib" "x") Examples.x Examples.bundle).
  vm_compute. reflexivity.
Defined.

Lemma setAdd_elem {A} `{EqDecision A} (x : A) s : x ∈ s → setAdd x s = s.
Proof. intros Hx. unfold setAdd. by rewrite bool_decide_eq_true_2. Qed.

Lemma addAll_elem {A} `{EqDecision A} (xs s : list A) :
  (∀ x, x ∈ xs → x ∈ s) → addAll xs s = s.
Proof.
  unfold addAll. induction xs as [|x xs IH]; intros Hxs; simpl; [done|].
  rewrite setAdd_elem by (apply Hxs; left). apply IH.
  intros y Hy. apply Hxs. by right.
Qed.

Section SideEffectModules.

Variable C : Collaborators.

(** The loop returns a set that holds what it was given, and changes
    nothing. *)
Lemma extendSideEffectModules_Ok fuel v refs acc st r st' :
  extendSideEffectModules C fuel v refs acc st = Ok r st' →
  st' = st ∧ ∀ d, d ∈ acc → d ∈ r.
Proof.
  revert v refs acc. induction fuel as [|fuel IH]; intros v refs acc; simpl; [done|].
  intros (next & st1 & Hnext & Hrest)%bind_Ok.
  assert (st1 = st) as ->.
  { destruct v; try (by apply ret_Ok in Hnext as [_ <-]).
    apply bind_Ok in Hnext as (md & ? & [_ ->]%getModule_Ok & [_ <-]%ret_Ok). done. }
  destruct next as [next|]; [|by apply ret_Ok in Hrest as [<- <-]].
  case_bool_decide; [by apply ret_Ok in Hrest as [<- <-]|].
  apply bind_Ok in Hrest as (im & ? & [_ ->]%getModule_Ok & Hrest).
  apply IH in Hrest as [-> Hacc]. split; [done|].
  intros d Hd. apply Hacc, elem_of_addAll. right. apply elem_of_setAdd. auto.
Qed.

(** Run again on a set that holds the result, in a state that differs in
    the entry of a referenced variable only, the loop adds nothing. *)
Lemma extendSideEffectModules_again variable st st2 fuel v refs acc r st' acc2 :
  (∀ k md, modulesById st !! k = Some md →
     ∃ md', modulesById st2 !! k = Some md'
            ∧ syntheticNamespace md' = syntheticNamespace md
            ∧ ∀ key, key ≠ variable →
                sideEffectDependenciesByVariable md' !! key
                = sideEffectDependenciesByVariable md !! key) →
  variable ∈ refs →
  extendSideEffectModules C fuel v refs acc st = Ok r st' →
  (∀ d, d ∈ r → d ∈ acc2) →
  extendSideEffectModules C fuel v refs acc2 st2 = Ok acc2 st2.
Proof.
  intros Hagree. revert v refs acc acc2.
  induction fuel as [|fuel IH]; intros v refs acc acc2 Hrefs; simpl; [done|].
  intros (next & st1 & Hnext & Hrest)%bind_Ok Hr.
  assert (st1 = st
          ∧ match v with
            | ExportDefaultVar _ => ret (getDirectOriginalVariable C v)
            | SyntheticVar m _ =>
                bind (getModule m)
                  (λ md, ret match syntheticNamespace md with
                             | NsVariable v => Some v
                             | _ => None
                             end)
            | _ => ret None
            end st2 = Ok next st2) as [-> Hnext2].
  { destruct v; try (by apply ret_Ok in Hnext as [<- <-]).
    apply bind_Ok in Hnext as (md & ? & [Hmd ->]%getModule_Ok & [<- <-]%ret_Ok).
    split; [done|]. destruct (Hagree _ _ Hmd) as (md' & Hmd' & Hns & _).
    unfold bind, getModule. by rewrite Hmd', Hns. }
  rewrite (bind_ok _ _ _ _ _ Hnext2).
  destruct next as [next|]; [|done].
  case_bool_decide as Hseen; [done|].
  apply bind_Ok in Hrest as (im & ? & [Him ->]%getModule_Ok & Hrest).
  destruct (Hagree _ _ Him) as (im' & Him' & _ & Htable).
  unfold bind at 1, getModule at 1. rewrite Him'.
  pose proof (extendSideEffectModules_Ok _ _ _ _ _ _ _ Hrest) as [_ Hacc].
  rewrite Htable by (intros ->; done).
  assert (variableModule v ∈ acc2) as Hv.
  { apply Hr, Hacc, elem_of_addAll. right. apply elem_of_setAdd. by left. }
  rewrite (setAdd_elem _ acc2 Hv), addAll_elem.
  - eapply IH; [apply elem_of_app; by left|exact Hrest|exact Hr].
  - intros d Hd. apply Hr, Hacc, elem_of_addAll. by left.
Qed.

End SideEffectModules.

(** X27.  [getAndExtendSideEffectModules] only extends: the set it returns
    holds every module that was recorded for the variable, and it is the set
    the module then holds for the variable; no other entry, no other module
    and no warning is changed.  Called again it returns the same set and
    changes nothing. *)
Theorem getAndExtendSideEffectModules_extends_once (C : Collaborators) (fuel : nat)
    (variable : Var) (module : ModuleId) (st st' : State) (m : Module)
    (r : list ModuleId) :
  modulesById st !! module = Some m →
  getAndExtendSideEffectModules C fuel variable module st = Ok r st' →
  (∀ d, d ∈ default [] (sideEffectDependenciesByVariable m !! variable) → d ∈ r)
  ∧ st' = mkState
            (<[module := setSideEffectDependenciesByVariable
                           (<[variable := r]> (sideEffectDependenciesByVariable m)) m]>
               (modulesById st))
            (warnings st)
  ∧ getAndExtendSideEffectModules C fuel variable module st' = Ok r st'.
Proof.
  intros Hm Hget. unfold getAndExtendSideEffectModules in Hget.
  apply bind_Ok in Hget as (m0 & ? & [Hm0 ->]%getModule_Ok & Hget).
  assert (m0 = m) as -> by congruence.
  apply bind_Ok in Hget as (r0 & st1 & Hloop & Hget).
  apply bind_Ok in Hget as ([] & st2 & ->%updateModule_Ok & [<- <-]%ret_Ok).
  pose proof (extendSideEffectModules_Ok _ _ _ _ _ _ _ _ Hloop) as [-> Hacc].
  set (m' := setSideEffectDependenciesByVariable
               (<[variable := r0]> (sideEffectDependenciesByVariable m)) m).
  assert (alter (λ m, setSideEffectDependenciesByVariable
                        (<[variable := r0]> (sideEffectDependenciesByVariable m)) m)
            module (modulesById st) = <[module := m']> (modulesById st)) as Halter.
  { apply map_eq. intros k. destruct (decide (k = module)) as [->|Hne].
    - by rewrite lookup_alter_eq, lookup_insert_eq, Hm.
    - by rewrite lookup_alter_ne, lookup_insert_ne. }
  rewrite Halter. split; [done|]. split; [done|].
  set (st' := mkState (<[module := m']> (modulesById st)) (warnings st)).
  assert (modulesById st' !! module = Some m') as Hm'
    by (unfold st'; simpl; by rewrite lookup_insert_eq).
  unfold getAndExtendSideEffectModules, bind at 1, getModule at 1. rewrite Hm'.
  assert (sideEffectDependenciesByVariable m' !! variable = Some r0) as Hentry.
  { unfold m'. destruct m. simpl. by rewrite lookup_insert_eq. }
  rewrite Hentry. simpl.
  rewrite (bind_ok _ _ _ r0 st').
  - unfold bind, updateModule, ret. f_equal. unfold st'. simpl. f_equal.
    apply map_eq. intros k. destruct (decide (k = module)) as [->|Hne].
    + rewrite lookup_alter_eq, lookup_insert_eq. simpl. f_equal.
      unfold m', setSideEffectDependenciesByVariable. simpl.
      by rewrite insert_insert_eq.
    + by rewrite lookup_alter_ne.
  - apply (extendSideEffectModules_again C variable st st' fuel variable [variable]
             (default [] (sideEffectDependenciesByVariable m !! variable)) r0 st);
      [|by apply list_elem_of_singleton|done|done].
    intros k md Hmd. destruct (decide (k = module)) as [->|Hne].
    + assert (md = m) as -> by congruence. exists m'. split; [done|].
      split; [unfold m'; by destruct m|].
      intros key Hkey. unfold m'. destruct m. simpl. by rewrite lookup_insert_ne.
    + exists md. split; [unfold st'; simpl; by rewrite lookup_insert_ne|done].
Qed.

Lemma getAndExtendSideEffectModules_extends_once_witness :
  ∃ st',
    getAndExtendSideEffectModules Examples.collaborators 4 (SyntheticVar "s" "y") "m"
      Scenarios.syntheticResolved
    = Ok ["s"] st'
    ∧ getAndExtendSideEffectModules Examples.collaborators 4 (SyntheticVar "s" "y") "m" st'
      = Ok ["s"] st'.
Proof.
  eexists. split; [vm_compute; reflexivity|].
  eapply (getAndExtendSideEffectModules_extends_once Examples.collaborators 4
            (SyntheticVar "s" "y") "m" Scenarios.syntheticResolved _
            (Examples.exportingAllOf ["s"] (Examples.plainModule "m")) ["s"]).
  - vm_compute. reflexivity.
  - vm_compute. reflexivity.
Defined.

End IncludeVariableLaws.

(** * Linking of imports and exports *)

Module LinkingLaws.

Import Resolver Inclusion Linking Rendering Invariants ResolverFacts DependencyFacts
  GraphProperties ResolutionLaws ResolutionFrameLaws ResolutionLookupLaws ReexportLaws
  SideEffectLaws DependencyLaws IncludeVariableLaws.

Lemma resolvedModule_Ok s source st id md st' :
  resolvedModule s source st = Ok (id, md) st'
  ↔ resolvedIds s !! source = Some id ∧ md = modulesById st !! id ∧ st' = st.
Proof.
  unfold resolvedModule. destruct (resolvedIds s !! source) as [id'|]; [|by split; [|intros [? _]]].
  unfold bind, lookupModule, ret. split.
  - by intros [= -> <- <-].
  - by intros ([= ->] & -> & ->).
Qed.

Lemma linkImportDescriptions_Ok s ds st ds' st' :
  linkImportDescriptions s ds st = Ok ds' st' →
  st' = st
  ∧ Forall2
      (λ d d', d'.1 = d.1 ∧ import_name d'.2 = import_name d.2
               ∧ import_source d'.2 = import_source d.2
               ∧ import_start d'.2 = import_start d.2
               ∧ referenceIn st s (import_source d.2) (import_module d'.2))
      ds ds'.
Proof.
  revert ds'. induction ds as [|[name d] ds IH]; intros ds'; simpl.
  - intros [<- <-]%ret_Ok. by split.
  - intros ([id md] & ? & (Hid & -> & ->)%resolvedModule_Ok & Hrest)%bind_Ok.
    apply bind_Ok in Hrest as (ds1 & st1 & Hds1 & [<- <-]%ret_Ok).
    destruct (IH _ Hds1) as [-> Hall]. split; [done|].
    constructor; [|done]. simpl. repeat split; try done.
    exists id. split; [done|]. unfold moduleReference. simpl.
    by destruct (modulesById st !! id).
Qed.

Lemma linkReexportDescriptions_Ok s ds st ds' st' :
  linkReexportDescriptions s ds st = Ok ds' st' →
  st' = st
  ∧ Forall2
      (λ d d', d'.1 = d.1 ∧ reexport_localName d'.2 = reexport_localName d.2
               ∧ reexport_source d'.2 = reexport_source d.2
               ∧ reexport_start d'.2 = reexport_start d.2
               ∧ referenceIn st s (reexport_source d.2) (reexport_module d'.2))
      ds ds'.
Proof.
  revert ds'. induction ds as [|[name d] ds IH]; intros ds'; simpl.
  - intros [<- <-]%ret_Ok. by split.
  - intros ([id md] & ? & (Hid & -> & ->)%resolvedModule_Ok & Hrest)%bind_Ok.
    apply bind_Ok in Hrest as (ds1 & st1 & Hds1 & [<- <-]%ret_Ok).
    destruct (IH _ Hds1) as [-> Hall]. split; [done|].
    constructor; [|done]. simpl. repeat split; try done.
    exists id. split; [done|]. unfold moduleReference. simpl.
    by destruct (modulesById st !! id).
Qed.


Lemma updateModule_updated this f st m :
  modulesById st !! this = Some m →
  updateModule this f st = Ok () (updated this (f m) st).
Proof.
  intros Hm. unfold updateModule, updated. by rewrite (alter_alt_Some _ _ _ _ Hm).
Qed.

Lemma updated_updated this m1 m2 st :
  updated this m2 (updated this m1 st) = updated this m2 st.
Proof. unfold updated. simpl. by rewrite insert_insert_eq. Qed.

Lemma isExternalIn_updated this m m' st id :
  modulesById st !! this = Some m → isExternalModule m' = isExternalModule m →
  isExternalIn (updated this m' st) id = isExternalIn st id.
Proof.
  intros Hm Hk. unfold isExternalIn, updated. simpl.
  destruct (decide (this = id)) as [->|Hne].
  - by rewrite lookup_insert_eq, Hm.
  - by rewrite lookup_insert_ne.
Qed.

Lemma setExportAllModules_id m : setExportAllModules (exportAllModules m) m = m.
Proof. by destruct m. Qed.

Lemma linkExportAllSources_Ok this s xs acc st m exts st' :
  modulesById st !! this = Some m →
  linkExportAllSources this s xs acc st = Ok exts st' →
  ∃ ids,
    Forall2 (λ source id, resolvedIds s !! source = Some id) xs ids
    ∧ exts = acc ++ filter (λ id, isExternalIn st id = true) ids
    ∧ onlyModule this st st'
    ∧ modulesById st' !! this
      = Some (setExportAllModules
                (exportAllModules m ++ filter (λ id, isExternalIn st id = false) ids) m).
Proof.
  revert acc st m exts st'.
  induction xs as [|source xs IH]; intros acc st m exts st' Hm; simpl.
  - intros [<- <-]%ret_Ok. exists []. split; [by apply Forall2_nil|].
    rewrite !filter_nil, !app_nil_r, setExportAllModules_id. by repeat split.
  - intros ([id md] & ? & (Hid & -> & ->)%resolvedModule_Ok & Hrest)%bind_Ok.
    fold (isExternalIn st id) in Hrest.
    destruct (isExternalIn st id) eqn:Hext.
    + destruct (IH _ _ _ _ _ Hm Hrest) as (ids & Hids & -> & Honly & Hthis).
      exists (id :: ids). split; [constructor; [exact Hid|exact Hids]|].
      rewrite filter_cons_True, filter_cons_False by (done || by rewrite Hext).
      rewrite <-app_assoc. split; [done|]. split; [exact Honly|exact Hthis].
    + apply bind_Ok in Hrest as ([] & st1 & Hst1 & Hrest).
      rewrite (updateModule_updated _ _ _ m Hm) in Hst1. injection Hst1 as <-.
      set (m1 := setExportAllModules (exportAllModules m ++ [id]) m) in *.
      assert (modulesById (updated this m1 st) !! this = Some m1) as Hm1
        by (unfold updated; simpl; by rewrite lookup_insert_eq).
      destruct (IH _ _ _ _ _ Hm1 Hrest) as (ids & Hids & -> & [Hw Honly] & Hthis).
      assert (∀ k, isExternalIn (updated this m1 st) k = isExternalIn st k) as Hsame
        by (intros k; by apply (isExternalIn_updated this m)).
      exists (id :: ids). split; [constructor; [exact Hid|exact Hids]|].
      rewrite filter_cons_False, filter_cons_True by (done || by rewrite Hext).
      split.
      { f_equal. apply list_filter_iff. intros k. by rewrite Hsame. }
      split.
      { split; [done|]. intros k Hk. rewrite Honly by done. unfold updated. simpl.
        by rewrite lookup_insert_ne. }
      assert (filter (λ k, isExternalIn (updated this m1 st) k = false) ids
              = filter (λ k, isExternalIn st k = false) ids) as Hf.
      { apply list_filter_iff. intros k. by rewrite Hsame. }
      rewrite Hthis, Hf. f_equal. unfold m1, setExportAllModules. simpl.
      by rewrite <-app_assoc.
Qed.

Lemma referenceIn_updated this m m' st s source reference :
  modulesById st !! this = Some m →
  referenceIn (updated this m' st) s source reference ↔ referenceIn st s source reference.
Proof.
  intros Hm. unfold referenceIn, updated. simpl.
  assert (∀ id, (if <[this:=m']> (modulesById st) !! id is Some _ then Some id else None)
                = (if modulesById st !! id is Some _ then Some id else None)) as Hsame.
  { intros id. destruct (decide (this = id)) as [->|Hne].
    - by rewrite lookup_insert_eq, Hm.
    - by rewrite lookup_insert_ne. }
  split; intros (id & Hid & ->); exists id; by rewrite Hsame.
Qed.

Lemma linkImports_Ok (this : ModuleId) (s : Sources)
    (st st' : State) (m : Module) :
  modulesById st !! this = Some m →
  linkImports this s st = Ok () st' →
  ∃ m' ids,
    modulesById st' !! this = Some m'
    ∧ Forall2 (λ source id, resolvedIds s !! source = Some id) (exportAllSources s) ids
    ∧ exportAllModules m'
      = exportAllModules m
        ++ filter (λ id, isExternalIn st id = false) ids
        ++ filter (λ id, isExternalIn st id = true) ids
    ∧ Forall2
        (λ d d', d'.1 = d.1 ∧ import_name d'.2 = import_name d.2
                 ∧ import_source d'.2 = import_source d.2
                 ∧ import_start d'.2 = import_start d.2
                 ∧ referenceIn st s (import_source d.2) (import_module d'.2))
        (importDescriptions m) (importDescriptions m')
    ∧ Forall2
        (λ d d', d'.1 = d.1 ∧ reexport_localName d'.2 = reexport_localName d.2
                 ∧ reexport_source d'.2 = reexport_source d.2
                 ∧ reexport_start d'.2 = reexport_start d.2
                 ∧ referenceIn st s (reexport_source d.2) (reexport_module d'.2))
        (reexportDescriptions m) (reexportDescriptions m')
    ∧ setExportAllModules [] (setImportDescriptions [] (setReexportDescriptions [] m'))
      = setExportAllModules [] (setImportDescriptions [] (setReexportDescriptions [] m))
    ∧ warnings st' = warnings st
    ∧ ∀ k, k ≠ this → modulesById st' !! k = modulesById st !! k.
Proof.
  intros Hm Hlink. unfold linkImports in Hlink.
  apply bind_Ok in Hlink as (m0 & ? & [Hm0 ->]%getModule_Ok & Hlink).
  assert (m0 = m) as -> by congruence.
  apply bind_Ok in Hlink as (imports' & ? & [-> Himports]%linkImportDescriptions_Ok & Hlink).
  apply bind_Ok in Hlink as ([] & st1 & Hst1 & Hlink).
  rewrite (updateModule_updated _ _ _ m Hm) in Hst1. injection Hst1 as <-.
  set (m1 := setImportDescriptions imports' m) in *.
  assert (modulesById (updated this m1 st) !! this = Some m1) as Hm1
    by (unfold updated; simpl; by rewrite lookup_insert_eq).
  apply bind_Ok in Hlink
    as (reexports' & ? & [-> Hreexports]%linkReexportDescriptions_Ok & Hlink).
  apply bind_Ok in Hlink as ([] & st2 & Hst2 & Hlink).
  rewrite (updateModule_updated _ _ _ m1 Hm1), updated_updated in Hst2.
  injection Hst2 as <-.
  set (m2 := setReexportDescriptions reexports' m1) in *.
  assert (modulesById (updated this m2 st) !! this = Some m2) as Hm2
    by (unfold updated; simpl; by rewrite lookup_insert_eq).
  apply bind_Ok in Hlink as (exts & st3 & Hexts & Hlink).
  destruct (linkExportAllSources_Ok _ _ _ _ _ _ _ _ Hm2 Hexts)
    as (ids & Hids & -> & [Hw3 Honly3] & Hm3).
  apply updateModule_Ok in Hlink as ->. simpl in *.
  assert (∀ k, isExternalIn (updated this m2 st) k = isExternalIn st k) as Hsame
    by (intros k; by apply (isExternalIn_updated this m)).
  eexists _, ids. split; [by rewrite lookup_alter_eq, Hm3|].
  split; [done|]. split.
  { simpl. rewrite <-app_assoc. f_equal. f_equal; apply list_filter_iff; intros k;
      by rewrite Hsame. }
  split; [exact Himports|]. split.
  { eapply Forall2_impl; [exact Hreexports|]. intros d d' (? & ? & ? & ? & Href).
    repeat split; try done. by apply (referenceIn_updated this m m1 st) in Href. }
  split; [by destruct m|]. split; [done|].
  intros k Hk. rewrite lookup_alter_ne by done. rewrite Honly3 by done.
  unfold updated. simpl. by rewrite lookup_insert_ne.
Qed.

(** X22.  What [linkImports] leaves: every import and re-export descriptor
    keeps its names and position and refers to the module its source was
    resolved to; the targets of [export * from] are added to
    [exportAllModules] with the internal modules first, in the order of the
    statements, and the external modules after them; nothing else of the
    module and no other module is changed. *)
Theorem linkImports_puts_external_star_targets_last (this : ModuleId) (s : Sources)
    (st st' : State) (m : Module) :
  modulesById st !! this = Some m →
  linkImports this s st = Ok () st' →
  ∃ m' ids,
    modulesById st' !! this = Some m'
    ∧ Forall2 (λ source id, resolvedIds s !! source = Some id) (exportAllSources s) ids
    ∧ exportAllModules m'
      = exportAllModules m
        ++ filter (λ id, isExternalIn st id = false) ids
        ++ filter (λ id, isExternalIn st id = true) ids
    ∧ Forall2
        (λ d d', d'.1 = d.1 ∧ import_name d'.2 = import_name d.2
                 ∧ import_source d'.2 = import_source d.2
                 ∧ import_start d'.2 = import_start d.2
                 ∧ referenceIn st s (import_source d.2) (import_module d'.2))
        (importDescriptions m) (importDescriptions m')
    ∧ Forall2
        (λ d d', d'.1 = d.1 ∧ reexport_localName d'.2 = reexport_localName d.2
                 ∧ reexport_source d'.2 = reexport_source d.2
                 ∧ reexport_start d'.2 = reexport_start d.2
                 ∧ referenceIn st s (reexport_source d.2) (reexport_module d'.2))
        (reexportDescriptions m) (reexportDescriptions m')
    ∧ setExportAllModules [] (setImportDescriptions [] (setReexportDescriptions [] m'))
      = setExportAllModules [] (setImportDescriptions [] (setReexportDescriptions [] m))
    ∧ warnings st' = warnings st
    ∧ ∀ k, k ≠ this → modulesById st' !! k = modulesById st !! k.
Proof. apply linkImports_Ok. Qed.

Lemma mapGet_linked {V} (P : V → V → Prop) name (ds ds' : OrderedMap string V) d :
  Forall2 (λ d d' : string * V, d'.1 = d.1 ∧ P d.2 d'.2) ds ds' →
  mapGet name ds = Some d →
  ∃ d', mapGet name ds' = Some d' ∧ P d d'.
Proof.
  induction 1 as [|[k v] [k' v'] ds ds' [Hk HP] _ IH]; simpl; [done|].
  simpl in Hk. subst k'. destruct (decide (name = k)); [|exact IH].
  intros [= ->]. eauto.
Qed.

Lemma linkImports_puts_external_star_targets_last_witness :
  ∃ st' m',
    linkImports "m" Scenarios.starExports.2 Scenarios.unlinked = Ok () st'
    ∧ modulesById st' !! "m" = Some m'
    ∧ exportAllModules m' = ["o"; "ext"].
Proof.
  destruct (linkImports_puts_external_star_targets_last "m" Scenarios.starExports.2
              Scenarios.unlinked
              (mkState
                 (<["m" := setExportAllModules ["o"; "ext"] (Examples.plainModule "m")]>
                    (modulesById Scenarios.unlinked)) [])
              (Examples.plainModule "m"))
    as (m' & ids & Hm' & Hids & Hall & _).
  - vm_compute. reflexivity.
  - vm_compute. reflexivity.
  - exists (mkState
              (<["m" := setExportAllModules ["o"; "ext"] (Examples.plainModule "m")]>
                 (modulesById Scenarios.unlinked)) []), m'.
    split; [vm_compute; reflexivity|]. split; [exact Hm'|].
    simpl in Hm'. rewrite lookup_insert_eq in Hm'. injection Hm' as <-. reflexivity.
Defined.

(** X23.  [export * as ns from 'source'], once the module is linked: the
    name [ns] resolves to the namespace of the module the source was
    resolved to (for an external module, to its variable [*]), and the
    resolution changes nothing. *)
Theorem namespace_reexport_resolves_to_the_namespace (options : InputOptions)
    (fuel : nat) (this : ModuleId) (ns source : string) (start : nat) (s : Sources)
    (st st' : State) (m tm : Module) (target : ModuleId) (o : Options) :
  let analysed := addExport (ExportAllDeclaration source (Some ns) start) (m, s) in
  modulesById st !! this = Some m → isExternalModule m = false → regular ns →
  resolvedIds s !! source = Some target → modulesById st !! target = Some tm →
  linkImports this analysed.2 (updated this analysed.1 st) = Ok () st' →
  importerForSideEffects o = None → searchedNamesAndModules o = None →
  source ∈ sources analysed.2
  ∧ getVariableForExportName options (S (S fuel)) this ns o st'
    = Ok ((Some (if isExternalModule tm then ExternalVar target "*"
                 else NamespaceVar target), false), None) st'.
Proof.
  intros analysed Hm Hint Hns Hsource Htarget Hlink Himporter Hsearched.
  split; [apply DependencyFacts.elem_of_setAdd; auto|].
  set (m1 := analysed.1) in *.
  assert (modulesById (updated this m1 st) !! this = Some m1) as Hm1
    by (unfold updated; simpl; by rewrite lookup_insert_eq).
  destruct (linkImports_Ok _ _ _ _ _ Hm1 Hlink)
    as (m' & ids & Hm' & _ & _ & _ & Hreexports & Hrest & _ & Hother).
  assert (mapGet ns (reexportDescriptions m1)
          = Some (mkReexportDescription "*" None source start)) as Hd.
  { unfold m1, analysed. simpl. by rewrite mapGet_mapSet, decide_True. }
  destruct (mapGet_linked
              (λ d d', reexport_localName d' = reexport_localName d
                       ∧ reexport_source d' = reexport_source d
                       ∧ reexport_start d' = reexport_start d
                       ∧ referenceIn (updated this m1 st) analysed.2 (reexport_source d)
                           (reexport_module d'))
              ns _ _ _ Hreexports Hd) as (d' & Hd' & Hlocal & _ & _ & Href).
  simpl in Hlocal, Href. destruct Href as (id & Hid & Href).
  assert (id = target) as -> by (simpl in Hid; congruence).
  assert (isExternalModule m' = false) as Hint'.
  { assert (isExternalModule m' = isExternalModule m1) as ->; [|done].
    change (isExternalModule
              (setExportAllModules []
                 (setImportDescriptions [] (setReexportDescriptions [] m')))
            = isExternalModule
                (setExportAllModules []
                   (setImportDescriptions [] (setReexportDescriptions [] m1)))).
    by rewrite Hrest. }
  assert (∃ tm', modulesById st' !! target = Some tm'
                 ∧ isExternalModule tm' = isExternalModule tm) as (tm' & Htm' & Hkind).
  { destruct (decide (target = this)) as [->|Hne].
    - exists m'. split; [done|]. assert (tm = m) as -> by congruence. congruence.
    - exists tm. split; [|done]. rewrite Hother by done. unfold updated. simpl.
      by rewrite lookup_insert_ne. }
  assert (reexport_module d' = Some target) as Hmodule.
  { rewrite Href. unfold updated. simpl. destruct (decide (this = target)) as [->|Hne].
    - by rewrite lookup_insert_eq.
    - by rewrite lookup_insert_ne, Htarget. }
  change (getVariableForExportName options (S (S fuel)) this ns o st')
    with (getVariableForExportNameBody options (getVariableForExportName options (S fuel))
            this ns o st').
  rewrite (getVariableForExportNameBody_regular _ _ _ _ _ _ m') by done.
  unfold getVariableForRegularExportName.
  rewrite (bind_ok _ _ _ m' st') by (by apply getModule_Ok).
  rewrite Hd', Hmodule, Hlocal, Himporter, Hsearched.
  rewrite (bind_ok _ _ _ target st') by done.
  assert (getVariableForExportNameRecursive (getVariableForExportName options (S fuel))
            target "*" None false None st'
          = Ok ((Some (if isExternalModule tm then ExternalVar target "*"
                       else NamespaceVar target), false), None) st') as Hrec.
  { assert (∀ o', getVariableForExportName options (S fuel) target "*" o' st'
                  = Ok ((Some (if isExternalModule tm then ExternalVar target "*"
                               else NamespaceVar target), false),
                        searchedNamesAndModules o') st') as Hself.
    { intros o'. simpl. unfold getVariableForExportNameBody.
      rewrite (bind_ok _ _ _ tm' st') by (by apply getModule_Ok).
      rewrite Hkind. by destruct (isExternalModule tm). }
    unfold getVariableForExportNameRecursive.
    change (default ∅ None !! "*") with (@None (gset ModuleId)). cbv beta iota zeta.
    by rewrite (bind_ok _ _ _ _ _ (Hself _)). }
  rewrite (bind_ok _ _ _ _ _ Hrec). done.
Qed.

Lemma namespace_reexport_resolves_to_the_namespace_witness :
  ∃ st',
    linkImports "m"
      (addExport (ExportAllDeclaration "./o" (Some "ns") 0)
         (Examples.plainModule "m", Scenarios.resolvedSources)).2
      (updated "m"
         (addExport (ExportAllDeclaration "./o" (Some "ns") 0)
            (Examples.plainModule "m", Scenarios.resolvedSources)).1 Scenarios.unlinked)
    = Ok () st'
    ∧ getVariableForExportName Examples.inputOptions 2 "m" "ns" EMPTY_OBJECT st'
      = Ok ((Some (NamespaceVar "o"), false), None) st'.
Proof.
  eexists. split; [vm_compute; reflexivity|].
  apply (namespace_reexport_resolves_to_the_namespace Examples.inputOptions 0 "m" "ns"
           "./o" 0 Scenarios.resolvedSources Scenarios.unlinked _ (Examples.plainModule "m")
           (Examples.exportingLocal "v" (Examples.plainModule "o")) "o" EMPTY_OBJECT).
  - vm_compute. reflexivity.
  - reflexivity.
  - intros rest. discriminate.
  - vm_compute. reflexivity.
  - vm_compute. reflexivity.
  - vm_compute. reflexivity.
  - reflexivity.
  - reflexivity.
Defined.

Lemma mapGet_foldl_mapSet {A V} (key : A → string) (value : A → V) (xs : list A)
    (ds : OrderedMap string V) (x : A) :
  NoDup (key <$> xs) → x ∈ xs →
  mapGet (key x) (foldl (λ ds y, mapSet (key y) (value y) ds) ds xs) = Some (value x).
Proof.
  revert ds. induction xs as [|y ys IH]; intros ds Hnodup Hx;
    [by apply elem_of_nil in Hx|].
  rewrite fmap_cons in Hnodup. apply NoDup_cons in Hnodup as [Hy Hys].
  simpl. apply elem_of_cons in Hx as [->|Hx]; [|by apply IH].
  clear IH. revert ds. induction ys as [|z zs IH]; intros ds; simpl.
  - by rewrite mapGet_mapSet, decide_True.
  - rewrite fmap_cons, not_elem_of_cons in Hy. destruct Hy as [Hz Hzs].
    rewrite fmap_cons in Hys. apply NoDup_cons in Hys as [_ Hys].
    specialize (IH Hzs Hys).
    assert (∀ ds1 ds2, (∀ k, mapGet k ds1 = mapGet k ds2) →
              ∀ k, mapGet k (foldl (λ ds y, mapSet (key y) (value y) ds) ds1 zs)
                   = mapGet k (foldl (λ ds y, mapSet (key y) (value y) ds) ds2 zs))
      as Hext.
    { clear. induction zs as [|w ws IHw]; intros ds1 ds2 Heq k; simpl; [done|].
      apply IHw. intros k'. rewrite !mapGet_mapSet. by rewrite Heq. }
    rewrite (Hext _ (mapSet (key y) (value y) (mapSet (key z) (value z) ds))).
    + apply IH.
    + intros k. rewrite !mapGet_mapSet.
      destruct (decide (k = key z)) as [Hkz|Hkz], (decide (k = key y)) as [Hky|Hky];
        try done. congruence.
Qed.

(** X24.  An import, once the module is linked.  A name bound by
    [import * as local from 'source'] to an internal module is traced to the
    namespace of that module without asking it.  Any other imported name is
    asked of the module the source was resolved to, under the name [default]
    for a default import, [*] for a namespace import and the imported name
    otherwise, with the importing module as the importer for side effects if
    none was given; if that module has no such export, [MISSING_EXPORT] is
    thrown with the name, both modules and the position of the specifier. *)
Theorem import_is_traced_to_its_source (self : SelfType) (this : ModuleId)
    (node : ImportDeclaration) (specifier : ImportSpecifierNode) (s : Sources)
    (st st' : State) (m tm : Module) (target : ModuleId) (importer : option ModuleId) :
  let analysed := addImport node (m, s) in
  let name :=
    match specifier_type specifier with
    | ImportDefaultSpecifier => "default"
    | ImportNamespaceSpecifier => "*"
    | ImportSpecifier => specifier_imported specifier
    end in
  modulesById st !! this = Some m →
  specifier ∈ declaration_specifiers node →
  NoDup (specifier_localName <$> declaration_specifiers node) →
  scope_variables m !! specifier_localName specifier = None →
  resolvedIds s !! declaration_source node = Some target →
  modulesById st !! target = Some tm →
  linkImports this analysed.2 (updated this analysed.1 st) = Ok () st' →
  traceVariable self this (specifier_localName specifier) importer st'
  = if negb (isExternalModule tm) && bool_decide (name = "*")
    then Ok (Some (NamespaceVar target)) st'
    else
      match self target name (mkOptions (Some (default this importer)) false false None)
              st' with
      | Ok ((Some declaration, _), _) st'' => Ok (Some declaration) st''
      | Ok ((None, _), _) _ =>
          Throw (MISSING_EXPORT name this target (specifier_position specifier))
      | Throw e => Throw e
      | OutOfFuel => OutOfFuel
      end.
Proof.
  intros analysed name Hm Hspecifier Hnodup Hscope Hsource Htarget Hlink.
  set (m1 := analysed.1) in *.
  assert (modulesById (updated this m1 st) !! this = Some m1) as Hm1
    by (unfold updated; simpl; by rewrite lookup_insert_eq).
  destruct (linkImports_Ok _ _ _ _ _ Hm1 Hlink)
    as (m' & ids & Hm' & _ & _ & Himports & _ & Hrest & _ & Hother).
  assert (mapGet (specifier_localName specifier) (importDescriptions m1)
          = Some (mkImportDescription None name (declaration_source node)
                    (specifier_position specifier))) as Hd.
  { unfold m1, analysed. simpl.
    apply (mapGet_foldl_mapSet specifier_localName
             (λ sp, mkImportDescription None
                      match specifier_type sp with
                      | ImportDefaultSpecifier => "default"
                      | ImportNamespaceSpecifier => "*"
                      | ImportSpecifier => specifier_imported sp
                      end (declaration_source node) (specifier_position sp)));
      done. }
  destruct (mapGet_linked
              (λ d d', import_name d' = import_name d
                       ∧ import_source d' = import_source d
                       ∧ import_start d' = import_start d
                       ∧ referenceIn (updated this m1 st) analysed.2 (import_source d)
                           (import_module d'))
              _ _ _ _ Himports Hd) as (d' & Hd' & Hname & _ & Hstart & Href).
  simpl in Hname, Hstart, Href. destruct Href as (id & Hid & Href).
  assert (id = target) as -> by (simpl in Hid; congruence).
  assert (scope_variables m' = scope_variables m) as Hscope'.
  { change (scope_variables
              (setExportAllModules []
                 (setImportDescriptions [] (setReexportDescriptions [] m')))
            = scope_variables m).
    rewrite Hrest. by destruct m. }
  assert (∃ tm', modulesById st' !! target = Some tm'
                 ∧ isExternalModule tm' = isExternalModule tm) as (tm' & Htm' & Hkind).
  { destruct (decide (target = this)) as [->|Hne].
    - exists m'. split; [done|]. assert (tm = m) as -> by congruence.
      change (isExternalModule
                (setExportAllModules []
                   (setImportDescriptions [] (setReexportDescriptions [] m')))
              = isExternalModule m).
      rewrite Hrest. by destruct m.
    - exists tm. split; [|done]. rewrite Hother by done. unfold updated. simpl.
      by rewrite lookup_insert_ne. }
  assert (import_module d' = Some target) as Hmodule.
  { rewrite Href. unfold updated. simpl. destruct (decide (this = target)) as [->|Hne].
    - by rewrite lookup_insert_eq.
    - by rewrite lookup_insert_ne, Htarget. }
  unfold traceVariable.
  rewrite (bind_ok _ _ _ m' st') by (by apply getModule_Ok).
  rewrite Hscope', Hscope, Hd', Hmodule, Hname, Hstart.
  rewrite (bind_ok _ _ _ (Some tm') st') by (by apply lookupModule_Ok).
  rewrite Hkind. destruct (negb (isExternalModule tm) && bool_decide (name = "*")); [done|].
  rewrite (bind_ok _ _ _ target st') by done.
  unfold bind.
  destruct (self target name _ st') as [[[[declaration|] ?] ?] st''| |]; done.
Qed.

Lemma import_is_traced_to_its_source_witness :
  ∃ st',
    linkImports "m"
      (addImport Scenarios.namedImport (Examples.plainModule "m", Scenarios.resolvedSources)).2
      (updated "m"
         (addImport Scenarios.namedImport
            (Examples.plainModule "m", Scenarios.resolvedSources)).1
         Scenarios.unlinked)
    = Ok () st'
    ∧ traceVariable (getVariableForExportName Examples.inputOptions 4) "m" "w" None st'
      = match
          getVariableForExportName Examples.inputOptions 4 "o" "v"
            (mkOptions (Some "m") false false None) st'
        with
        | Ok ((Some declaration, _), _) st'' => Ok (Some declaration) st''
        | Ok ((None, _), _) _ => Throw (MISSING_EXPORT "v" "m" "o" 9)
        | Throw e => Throw e
        | OutOfFuel => OutOfFuel
        end.
Proof.
  eexists. split; [vm_compute; reflexivity|].
  apply (import_is_traced_to_its_source (getVariableForExportName Examples.inputOptions 4)
           "m" Scenarios.namedImport (mkImportSpecifierNode ImportSpecifier "v" "w" 9)
           Scenarios.resolvedSources Scenarios.unlinked _ (Examples.plainModule "m")
           (Examples.exportingLocal "v" (Examples.plainModule "o")) "o" None).
  - vm_compute. reflexivity.
  - apply list_elem_of_singleton. reflexivity.
  - apply NoDup_singleton.
  - vm_compute. reflexivity.
  - vm_compute. reflexivity.
  - vm_compute. reflexivity.
  - vm_compute. reflexivity.
Defined.

End LinkingLaws.

(** * The exports that are rendered *)

Module RenderingLaws.

Import Resolver Inclusion Linking Rendering Invariants ResolverFacts DependencyFacts
  GraphProperties ResolutionLaws ResolutionFrameLaws ResolutionLookupLaws ReexportLaws
  SideEffectLaws DependencyLaws IncludeVariableLaws LinkingLaws.

Lemma mapSet_keys {V} name (v : V) (m : OrderedMap string V) :
  (mapSet name v m).*1 = if bool_decide (name ∈ m.*1) then m.*1 else m.*1 ++ [name].
Proof.
  induction m as [|[k x] m IH]; [done|].
  change (mapSet name v ((k, x) :: m))
    with (if decide (name = k) then (name, v) :: m else (k, x) :: mapSet name v m).
  destruct (decide (name = k)) as [->|Hne]; rewrite !fmap_cons; simpl.
  - rewrite bool_decide_eq_true_2; [done|]. apply elem_of_cons. auto.
  - rewrite IH. destruct (bool_decide (name ∈ m.*1)) eqn:Hin.
    + rewrite bool_decide_eq_true_2; [done|]. apply elem_of_cons. right.
      by apply bool_decide_eq_true in Hin.
    + rewrite bool_decide_eq_false_2; [done|]. apply bool_decide_eq_false in Hin.
      by intros [?|?]%elem_of_cons.
Qed.

Lemma exportsGrow_kept options : Kept options exportsGrow.
Proof.
  split.
  - intros st k md Hk. exists md. done.
  - intros a b c Hab Hbc k md Hk.
    destruct (Hab k md Hk) as (md1 & Hk1 & Hp1 & Hn1).
    destruct (Hbc k md1 Hk1) as (md2 & Hk2 & Hp2 & Hn2).
    exists md2. split; [done|]. split; [by etrans|auto].
  - intros st w _ k md Hk. exists md. done.
  - intros st m f Hf k md Hk. simpl.
    destruct (decide (m = k)) as [->|Hne]; [|exists md; by rewrite lookup_alter_ne].
    exists (f md). rewrite lookup_alter_eq, Hk. split; [done|].
    destruct Hf as [name Hshim| | | | |]; try done.
    unfold getExports. simpl. rewrite mapSet_keys.
    case_bool_decide as Hin; [done|].
    split; [by apply prefix_app_r|]. intros Hnodup.
    apply NoDup_app. split; [done|]. split; [|apply NoDup_singleton].
    intros x Hx ->%list_elem_of_singleton. done.
Qed.

Section Loop.

Variable options : InputOptions.

Lemma variableIncluded_Normal v h b h' :
  variableIncluded v h = (Normal b, h') → h' = h.
Proof.
  unfold variableIncluded, hbind, getVariable.
  destruct (variables h !! v); [by intros [= _ <-]|done].
Qed.

Lemma renderedExportsFrom_splits fuel steps this i rendered removed h m result h' :
  modulesById (graph h) !! this = Some m →
  NoDup (getExports m) →
  rendered ++ removed ≡ₚ take i (getExports m) → i ≤ length (getExports m) →
  renderedExportsFrom options fuel steps this i rendered removed h = (Normal result, h') →
  ∃ m',
    modulesById (graph h') !! this = Some m'
    ∧ getExports m `prefix_of` getExports m'
    ∧ NoDup (getExports m')
    ∧ result.2 ++ result.1 ≡ₚ getExports m'.
Proof.
  revert i rendered removed h m. induction steps as [|steps IH];
    intros i rendered removed h m Hm Hnodup Hacc Hi; [done|]. simpl.
  intros (m0 & h0 & [Hm0 ->]%lift_getModule_Normal & Hloop)%hbind_Normal.
  assert (m0 = m) as -> by congruence.
  destruct (getExports m !! i) as [exportName|] eqn:Hname.
  2:{ apply hret_Normal in Hloop as [<- ->]. exists m. split; [done|].
      split; [done|]. split; [done|]. simpl.
      apply lookup_ge_None in Hname. by rewrite take_ge in Hacc by lia. }
  apply hbind_Normal in Hloop as ([[variable ?] ?] & h1 & Hresolve & Hloop).
  apply lift_Normal in Hresolve as (g1 & Hresolve & ->).
  destruct (keeps_getVariableForExportName options exportsGrow (exportsGrow_kept options)
              _ _ _ _ _ _ _ Hresolve this m Hm) as (m1 & Hm1 & Hprefix & Hnodup1).
  specialize (Hnodup1 Hnodup).
  apply hbind_Normal in Hloop as (included & h2 & Hincluded & Hloop).
  assert (h2 = withGraph h g1) as ->.
  { destruct variable; [by apply variableIncluded_Normal in Hincluded|].
    by apply hret_Normal in Hincluded as [_ ->]. }
  assert (getExports m1 !! i = Some exportName) as Hname1.
  { destruct Hprefix as [k ->]. by apply lookup_app_l_Some. }
  assert (take (S i) (getExports m1) = take i (getExports m) ++ [exportName]) as Htake.
  { rewrite (take_S_r _ _ _ Hname1). f_equal. destruct Hprefix as [k ->].
    by rewrite take_app_le by lia. }
  assert (S i ≤ length (getExports m1)) as Hi1.
  { apply lookup_lt_Some in Hname1. lia. }
  assert (∃ m', modulesById (graph h') !! this = Some m'
                ∧ getExports m1 `prefix_of` getExports m'
                ∧ NoDup (getExports m')
                ∧ result.2 ++ result.1 ≡ₚ getExports m') as (m' & ? & ? & ? & ?).
  { destruct included.
    - eapply (IH _ _ _ (withGraph h g1) m1 Hm1 Hnodup1); [|exact Hi1|exact Hloop].
      rewrite Htake, <-Hacc, <-!app_assoc.
      by apply Permutation_app_head, Permutation_app_comm.
    - eapply (IH _ _ _ (withGraph h g1) m1 Hm1 Hnodup1); [|exact Hi1|exact Hloop].
      by rewrite Htake, <-Hacc, <-!app_assoc. }
  exists m'. split; [done|]. split; [by etrans|done].
Qed.

End Loop.

(** X25.  [getRenderedExports] sorts the export names of the module into
    two lists and loses none: every key of [exports], as the map is when the
    call returns, is in exactly one of [renderedExports] and
    [removedExports].  The names the map had at the start are still its
    first keys. *)
Theorem getRenderedExports_splits_the_exports (options : InputOptions)
    (fuel steps : nat) (this : ModuleId) (h h' : Heap) (m : Module)
    (removedExports renderedExports : list string) :
  modulesById (graph h) !! this = Some m →
  NoDup (getExports m) →
  getRenderedExports options fuel steps this h
  = (Normal (removedExports, renderedExports), h') →
  ∃ m',
    modulesById (graph h') !! this = Some m'
    ∧ getExports m `prefix_of` getExports m'
    ∧ renderedExports ++ removedExports ≡ₚ getExports m'
    ∧ ∀ name, name ∈ getExports m' →
        (name ∈ renderedExports ∧ name ∉ removedExports)
        ∨ (name ∈ removedExports ∧ name ∉ renderedExports).
Proof.
  intros Hm Hnodup Hget.
  destruct (renderedExportsFrom_splits options fuel steps this 0 [] [] h m
              (removedExports, renderedExports) h' Hm Hnodup)
    as (m' & Hm' & Hprefix & Hnodup' & Hperm); [done|lia|exact Hget|].
  simpl in Hperm. exists m'. split; [done|]. split; [done|]. split; [done|].
  intros name Hname. rewrite <-Hperm in Hname, Hnodup'.
  apply NoDup_app in Hnodup' as (_ & Hdisjoint & _).
  apply elem_of_app in Hname as [Hr|Hr].
  - left. split; [done|]. by apply Hdisjoint.
  - right. split; [done|]. intros Hr'. by apply (Hdisjoint name).
Qed.

Lemma getRenderedExports_splits_the_exports_witness :
  ∃ h' m',
    getRenderedExports Examples.inputOptions 4 4 "lib" Examples.bundleWithX
    = (Normal ([], ["x"]), h')
    ∧ modulesById (graph h') !! "lib" = Some m'
    ∧ ["x"] ++ [] ≡ₚ getExports m'.
Proof.
  destruct (getRenderedExports_splits_the_exports Examples.inputOptions 4 4 "lib"
              Examples.bundleWithX
              (getRenderedExports Examples.inputOptions 4 4 "lib" Examples.bundleWithX).2
              (setIsExecuted true Examples.libModule) [] ["x"])
    as (m' & Hm' & _ & Hperm & _).
  - vm_compute. reflexivity.
  - apply NoDup_singleton.
  - vm_compute. reflexivity.
  - eexists _, m'. split; [vm_compute; reflexivity|]. split; [exact Hm'|exact Hperm].
Defined.

End RenderingLaws.
